(** * cuecheck: a validator for cue sheets

    A shallow embedding of [cuecheck.py] and the properties of its
    diagnostics collector, line classifier, tree builder and validation
    passes.

    Conventions of the embedding.
    - A Python [str] is a [string]; a character is an [ascii], read as the
      code point of the same number (0 to 255).  The character tables below
      ([isspace], [islower], [isupper], [\d]) are Python's tables on that
      range.  The byte-order mark U+FEFF is outside the range, so the test
      [d[0].startswith(BOM)] is never true of a modelled line; the
      model keeps the access to [d[0]] that the test makes.
    - Python [int]s are [Z] where they can be negative (track and index
      numbers with their sentinel -1) and [nat] where they count (line
      numbers, indentation).
    - Python [float]s are the kernel's binary64 floats, so the elapsed time
      of an index is computed with the same roundings as in Python.
    - The objects the program mutates (the two diagnostic lists, the tree
      under construction, the list of open ancestors) are threaded as
      explicit state; a reference to a node is its path from the root. *)

From Stdlib Require Import ZArith Ascii String List Bool Lia Floats Uint63 Sorted.
From stdpp Require Import base tactics option list strings sorting.

Local Open Scope string_scope.
Local Open Scope list_scope.

(* ================================================================= *)
(** ** Python's string library, as far as the program uses it *)

Module Py.

Definition code (c : ascii) : nat := nat_of_ascii c.

Definition in_range (lo hi : nat) (c : ascii) : bool :=
  (lo <=? code c)%nat && (code c <=? hi)%nat.

(** [str.isspace] on one character, also the class [\s] of [re] and the
    separators of [str.split()] and [str.strip()]: code points 9-13, 28-32,
    133 and 160. *)
Definition isspace (c : ascii) : bool :=
  in_range 9 13 c || in_range 28 32 c || (code c =? 133)%nat || (code c =? 160)%nat.

(** Characters with the Lowercase property below 256. *)
Definition islower_char (c : ascii) : bool :=
  in_range 97 122 c || (code c =? 170)%nat || (code c =? 181)%nat
  || (code c =? 186)%nat || in_range 223 246 c || in_range 248 255 c.

(** Characters with the Uppercase property below 256. *)
Definition isupper_char (c : ascii) : bool :=
  in_range 65 90 c || in_range 192 214 c || in_range 216 222 c.

(** The class [\d] below 256. *)
Definition isdigit (c : ascii) : bool := in_range 48 57 c.

(** [str.isupper]: no lowercase (or titlecase) character and at least one
    uppercase one. *)
Fixpoint isupper_from (cased : bool) (s : string) : bool :=
  match s with
  | EmptyString => cased
  | String c s' =>
      if islower_char c then false
      else isupper_from (cased || isupper_char c) s'
  end.

Definition isupper (s : string) : bool := isupper_from false s.

(** [str.upper] on one character.  The three characters of the range whose
    upper-case form leaves it (181, 223 whose form is SS, 255) are left
    as they are: the program only asks whether the upper-cased keyword is a
    key of [commands], and no key contains a character above 127 or the
    substring SS. *)
Definition upper_char (c : ascii) : ascii :=
  if in_range 97 122 c || in_range 224 246 c || in_range 248 254 c
  then ascii_of_nat (code c - 32)
  else c.

Fixpoint upper (s : string) : string :=
  match s with
  | EmptyString => EmptyString
  | String c s' => String (upper_char c) (upper s')
  end.

(** [str.split()] with no argument: the maximal runs of characters that are
    not whitespace.  [tok] is the run being read. *)
Fixpoint split_from (tok : option string) (s : string) : list string :=
  match s with
  | EmptyString => match tok with Some t => [t] | None => [] end
  | String c s' =>
      if isspace c then
        match tok with
        | Some t => t :: split_from None s'
        | None => split_from None s'
        end
      else
        split_from (Some (match tok with
                          | Some t => t +:+ String c EmptyString
                          | None => String c EmptyString
                          end)) s'
  end.

Definition split (s : string) : list string := split_from None s.

Fixpoint lstrip (s : string) : string :=
  match s with
  | EmptyString => EmptyString
  | String c s' => if isspace c then lstrip s' else s
  end.

Fixpoint rstrip (s : string) : string :=
  match s with
  | EmptyString => EmptyString
  | String c s' =>
      match rstrip s' with
      | EmptyString => if isspace c then EmptyString else String c EmptyString
      | r => String c r
      end
  end.

(** [str.strip()] with no argument. *)
Definition strip (s : string) : string := rstrip (lstrip s).

(** [re.sub(r'\s+', ' ', s)]: every maximal run of whitespace becomes one
    space.  [in_run] says that the previous character was whitespace. *)
Fixpoint collapse_from (in_run : bool) (s : string) : string :=
  match s with
  | EmptyString => EmptyString
  | String c s' =>
      if isspace c then
        if in_run then collapse_from true s'
        else String " " (collapse_from true s')
      else String c (collapse_from false s')
  end.

Definition collapse (s : string) : string := collapse_from false s.

(** [' '.join(l)]. *)
Fixpoint join (l : list string) : string :=
  match l with
  | [] => EmptyString
  | [x] => x
  | x :: l' => x +:+ " " +:+ join l'
  end.

(** The double quote, and [s.replace(dquote, '')]. *)
Definition dquote : ascii := ascii_of_nat 34.

Fixpoint remove_quotes (s : string) : string :=
  match s with
  | EmptyString => EmptyString
  | String c s' =>
      if Ascii.eqb c dquote then remove_quotes s' else String c (remove_quotes s')
  end.

(** The slice [s[n:]]. *)
Fixpoint drop_chars (n : nat) (s : string) : string :=
  match n, s with
  | O, _ => s
  | S n', EmptyString => EmptyString
  | S n', String _ s' => drop_chars n' s'
  end.

(** The slice [s[:n]]. *)
Fixpoint take_chars (n : nat) (s : string) : string :=
  match n, s with
  | O, _ => EmptyString
  | S n', EmptyString => EmptyString
  | S n', String c s' => String c (take_chars n' s')
  end.

(** [' ' * n]. *)
Fixpoint spaces (n : nat) : string :=
  match n with
  | O => EmptyString
  | S n' => String " " (spaces n')
  end.

(** [int(s)] on a string of decimal digits. *)
Definition int_from (acc : Z) (s : string) : Z :=
  fold_left (fun a c => (10 * a + Z.of_nat (code c - 48))%Z)
            (list_ascii_of_string s) acc.

Definition int (s : string) : Z := int_from 0 s.

(** [str(n)] for an [int]. *)
Fixpoint digits_of (fuel : nat) (n : N) (acc : string) : string :=
  match fuel with
  | O => acc
  | S fuel' =>
      let acc' := String (ascii_of_N (48 + N.modulo n 10)) acc in
      if (n <? 10)%N then acc' else digits_of fuel' (N.div n 10) acc'
  end.

Definition str_int (z : Z) : string :=
  let d := digits_of (S (N.to_nat (N.log2 (Z.abs_N z)))) (Z.abs_N z) EmptyString in
  if (z <? 0)%Z then String "-" d else d.

(** [str.splitlines()]: the line boundaries below 256 are 10, 11, 12, 13,
    28, 29, 30 and 133, and the pair 13 10 is one boundary.  [cur] is the
    line being read, [None] right after a boundary. *)
Definition islinebreak (c : ascii) : bool :=
  in_range 10 13 c || in_range 28 30 c || (code c =? 133)%nat.

Fixpoint splitlines_from (cur : option string) (s : string) : list string :=
  match s with
  | EmptyString => match cur with Some l => [l] | None => [] end
  | String c s' =>
      if islinebreak c then
        let rest :=
          match s' with
          | String c' s'' =>
              if ((code c =? 13)%nat && (code c' =? 10)%nat)%bool
              then splitlines_from None s''
              else splitlines_from None s'
          | EmptyString => []
          end in
        match cur with Some l => l :: rest | None => EmptyString :: rest end
      else
        splitlines_from (Some (match cur with
                               | Some l => l +:+ String c EmptyString
                               | None => String c EmptyString
                               end)) s'
  end.

Definition splitlines (s : string) : list string := splitlines_from None s.

End Py.

Example split_example :
  Py.split "  TITLE   My  Song x " = ["TITLE"; "My"; "Song"; "x"].
Proof. reflexivity. Qed.

Example strip_collapse_example :
  Py.strip (Py.collapse ("  a " +:+ String (ascii_of_nat 9) "  b  ")) = "a b".
Proof. reflexivity. Qed.

Example isupper_examples :
  Py.isupper "TITLE" = true /\ Py.isupper "Title" = false /\
  Py.isupper "2004" = false /\ Py.isupper "DATE:" = true.
Proof. repeat split. Qed.

Example str_int_examples :
  Py.str_int 0 = "0" /\ Py.str_int 13 = "13" /\ Py.str_int (-1) = "-1" /\
  Py.str_int 100 = "100".
Proof. repeat split. Qed.

Example splitlines_examples :
  Py.splitlines "" = [] /\
  Py.splitlines (String (ascii_of_nat 10) "") = [""] /\
  Py.splitlines ("a" +:+ String (ascii_of_nat 13) (String (ascii_of_nat 10) "b"))
    = ["a"; "b"] /\
  Py.splitlines ("a" +:+ String (ascii_of_nat 10) (String (ascii_of_nat 10) "b"))
    = ["a"; ""; "b"].
Proof. repeat split. Qed.

(* ================================================================= *)
(** ** Regular expressions: the fragment of [re] the grammar uses *)

Module Re.

(** Syntax.  [Grp n r] is the capturing group number [n]; [Cond n yes no]
    is the conditional [(?(n)yes|no)]; [Opt] and [Plus] are the greedy
    [?] and [+]; [Eol] is [$]. *)
Inductive regex : Type :=
  | Eps
  | Chr (c : ascii)
  | Class (p : ascii -> bool)
  | Cat (r1 r2 : regex)
  | Alt (r1 r2 : regex)
  | Opt (r : regex)
  | Plus (r : regex)
  | Grp (n : nat) (r : regex)
  | Cond (n : nat) (yes no : regex)
  | Eol.

(** The groups of a match: [groups !! n] is [Some (Some s)] when group [n]
    took part in the match with text [s]. *)
Abbreviation groups := (list (option string)).

Definition no_groups : groups := replicate 5 None.

Definition group (g : groups) (n : nat) : option string :=
  match g !! n with Some (Some s) => Some s | _ => None end.

(** The text between the position where [s] starts and the later position
    where [s'] starts. *)
Definition consumed (s s' : string) : string :=
  Py.take_chars (String.length s - String.length s') s.

(** Backtracking matcher.  [rmatch r s g k] matches [r] at the front of [s]
    and hands the rest of the input and the groups to the continuation [k];
    a failure of [k] makes the matcher try its next alternative, in the
    order of Python's engine (alternatives left to right, [?] and [+]
    longest first).  A [+] never iterates more often than the input has
    characters left plus one, which bounds its loop. *)
Fixpoint rmatch (r : regex) (s : string) (g : groups)
    (k : string -> groups -> option groups) {struct r} : option groups :=
  match r with
  | Eps => k s g
  | Chr c =>
      match s with
      | String c' s' => if Ascii.eqb c c' then k s' g else None
      | EmptyString => None
      end
  | Class p =>
      match s with
      | String c' s' => if p c' then k s' g else None
      | EmptyString => None
      end
  | Cat r1 r2 => rmatch r1 s g (fun s' g' => rmatch r2 s' g' k)
  | Alt r1 r2 =>
      match rmatch r1 s g k with
      | Some res => Some res
      | None => rmatch r2 s g k
      end
  | Opt r1 =>
      match rmatch r1 s g k with
      | Some res => Some res
      | None => k s g
      end
  | Plus r1 =>
      (fix loop (fuel : nat) (s : string) (g : groups) {struct fuel}
         : option groups :=
         match fuel with
         | O => None
         | S fuel' =>
             rmatch r1 s g (fun s' g' =>
               match loop fuel' s' g' with
               | Some res => Some res
               | None => k s' g'
               end)
         end) (S (String.length s)) s g
  | Grp n r1 =>
      rmatch r1 s g (fun s' g' => k s' (<[n := Some (consumed s s')]> g'))
  | Cond n yes no =>
      match group g n with
      | Some _ => rmatch yes s g k
      | None => rmatch no s g k
      end
  | Eol =>
      match s with
      | EmptyString => k s g
      | String c EmptyString => if (Py.code c =? 10)%nat then k s g else None
      | _ => None
      end
  end.

(** [re.match(r, s)]: the match is anchored at the start of [s] only. *)
Definition re_match (r : regex) (s : string) : option groups :=
  rmatch r s no_groups (fun _ g => Some g).

(** A literal string. *)
Fixpoint lit (s : string) : regex :=
  match s with
  | EmptyString => Eps
  | String c s' => Cat (Chr c) (lit s')
  end.

(** [r{n}]. *)
Fixpoint rep (n : nat) (r : regex) : regex :=
  match n with
  | O => Eps
  | S n' => Cat r (rep n' r)
  end.

(** [(a|b|...)] over literal strings. *)
Fixpoint alts (l : list string) : regex :=
  match l with
  | [] => Class (fun _ => false)
  | [x] => lit x
  | x :: l' => Alt (lit x) (alts l')
  end.

(** [\d], [.], [[^dquote]], [[^\s|dquote]], [[0-9A-Z]], [[0-9]]. *)
Definition digit : regex := Class Py.isdigit.
Definition dot : regex := Class (fun c => negb (Py.code c =? 10)%nat).
Definition not_quote : regex := Class (fun c => negb (Ascii.eqb c Py.dquote)).
Definition bare_char : regex :=
  Class (fun c => negb (Py.isspace c || Ascii.eqb c "|" || Ascii.eqb c Py.dquote)).
Definition digit_or_capital : regex :=
  Class (fun c => Py.in_range 48 57 c || Py.in_range 65 90 c).
Definition ascii_digit : regex := Class (Py.in_range 48 57).

(** [(dquote)?((?(1)[^dquote]|[^\s|dquote])+)(?(1)dquote)]: a quoted or a
    bare argument, captured in group 2. *)
Definition quoted_arg : regex :=
  Cat (Opt (Grp 1 (Chr Py.dquote)))
      (Cat (Grp 2 (Plus (Cond 1 not_quote bare_char)))
           (Cond 1 (Chr Py.dquote) Eps)).

(** [(\d\d):(\d\d):(\d\d)] with groups [n], [n+1], [n+2]. *)
Definition msf (n : nat) : regex :=
  Cat (Grp n (rep 2 digit))
      (Cat (Chr ":") (Cat (Grp (n + 1) (rep 2 digit))
                          (Cat (Chr ":") (Grp (n + 2) (rep 2 digit))))).

End Re.

(* ================================================================= *)
(** ** The grammar registry: the table [commands] *)

Inductive keyword : Type :=
  | CATALOG | CDTEXTFILE | TITLE | PERFORMER | SONGWRITER | FILE | TRACK
  | FLAGS | ISRC | PREGAP | INDEX | POSTGAP | REM.

#[global] Instance keyword_eq_dec : EqDecision keyword.
Proof. solve_decision. Defined.

(** The keys of [commands], in the order of the table. *)
Definition keywords : list keyword :=
  [CATALOG; CDTEXTFILE; TITLE; PERFORMER; SONGWRITER; FILE; TRACK;
   FLAGS; ISRC; PREGAP; INDEX; POSTGAP; REM].

Definition keyword_name (k : keyword) : string :=
  match k with
  | CATALOG => "CATALOG" | CDTEXTFILE => "CDTEXTFILE" | TITLE => "TITLE"
  | PERFORMER => "PERFORMER" | SONGWRITER => "SONGWRITER" | FILE => "FILE"
  | TRACK => "TRACK" | FLAGS => "FLAGS" | ISRC => "ISRC" | PREGAP => "PREGAP"
  | INDEX => "INDEX" | POSTGAP => "POSTGAP" | REM => "REM"
  end.

(** [name in commands.keys()], with the key found. *)
Definition find_keyword (name : string) : option keyword :=
  List.find (fun k => String.eqb (keyword_name k) name) keywords.

(** The entries of [commands].  A key of a node is a [keyword], or [None]
    for the root; the tuples and the ['position'] dictionary are lists. *)
Module Rule.

Record position : Type := mkPosition {
  after : list keyword;
  before : list keyword
}.

Record command : Type := mkCommand {
  syntax : Re.regex;
  parents : list (option keyword);
  multiple : bool;
  children : list (option keyword);
  positions : list (option keyword * position);
  indent : list nat
}.

End Rule.

Import Rule (mkPosition, mkCommand).

Definition text_rule (name : string) : Re.regex :=
  Re.Cat (Re.lit (name +:+ " ")) (Re.Cat Re.quoted_arg Re.Eol).

Definition top_or_track_positions : list (option keyword * Rule.position) :=
  [ (None, mkPosition [CATALOG; CDTEXTFILE] [FILE]);
    (Some TRACK, mkPosition [] [INDEX]) ].

Definition track_modes : list string :=
  ["AUDIO"; "CDG"; "MODE1/2048"; "MODE1/2352"; "MODE2/2048"; "MODE2/2324";
   "MODE2/2336"; "MODE2/2352"; "CDI/2336"; "CDI/2352"].

Definition commands (k : keyword) : Rule.command :=
  match k with
  | CATALOG =>
      (* CATALOG (\d{13})$ *)
      mkCommand
        (Re.Cat (Re.lit "CATALOG ") (Re.Cat (Re.Grp 1 (Re.rep 13 Re.digit)) Re.Eol))
        [None] false [None]
        [ (None, mkPosition [] [CDTEXTFILE; TITLE; PERFORMER; SONGWRITER; FILE]) ]
        [0]
  | CDTEXTFILE =>
      (* CDTEXTFILE (dquote)?(?(1)[^dquote]|[^\s|dquote])+(?(1)dquote)$ *)
      mkCommand
        (Re.Cat (Re.lit "CDTEXTFILE ")
           (Re.Cat (Re.Opt (Re.Grp 1 (Re.Chr Py.dquote)))
              (Re.Cat (Re.Plus (Re.Cond 1 Re.not_quote Re.bare_char))
                 (Re.Cat (Re.Cond 1 (Re.Chr Py.dquote) Re.Eps) Re.Eol))))
        [None] false [None]
        [ (None, mkPosition [CATALOG] [TITLE; PERFORMER; SONGWRITER; FILE]) ]
        [0]
  | TITLE =>
      mkCommand (text_rule "TITLE") [None; Some TRACK] false [None]
        top_or_track_positions [0; 4]
  | PERFORMER =>
      mkCommand (text_rule "PERFORMER") [None; Some TRACK] false [None]
        top_or_track_positions [0; 4]
  | SONGWRITER =>
      mkCommand (text_rule "SONGWRITER") [None; Some TRACK] false [None]
        top_or_track_positions [0; 4]
  | FILE =>
      (* FILE <quoted_arg> (BINARY|MOTOROLA|AIFF|WAVE|MP3)$ *)
      mkCommand
        (Re.Cat (Re.lit "FILE ")
           (Re.Cat Re.quoted_arg
              (Re.Cat (Re.Chr " ")
                 (Re.Cat (Re.Grp 3 (Re.alts ["BINARY"; "MOTOROLA"; "AIFF"; "WAVE"; "MP3"]))
                    Re.Eol))))
        [None] true [Some TRACK]
        [ (None, mkPosition [CATALOG; CDTEXTFILE] []) ]
        [0]
  | TRACK =>
      (* TRACK (\d\d) (AUDIO|CDG|...)$ *)
      mkCommand
        (Re.Cat (Re.lit "TRACK ")
           (Re.Cat (Re.Grp 1 (Re.rep 2 Re.digit))
              (Re.Cat (Re.Chr " ") (Re.Cat (Re.Grp 2 (Re.alts track_modes)) Re.Eol))))
        [Some FILE] true
        [Some FLAGS; Some ISRC; Some TITLE; Some PERFORMER; Some SONGWRITER;
         Some PREGAP; Some INDEX; Some POSTGAP]
        [ (Some FILE, mkPosition [] []) ]
        [2]
  | FLAGS =>
      (* FLAGS( (DCP|4CH|PRE|SCMS))+$ *)
      mkCommand
        (Re.Cat (Re.lit "FLAGS")
           (Re.Cat
              (Re.Plus (Re.Grp 1 (Re.Cat (Re.Chr " ")
                                    (Re.Grp 2 (Re.alts ["DCP"; "4CH"; "PRE"; "SCMS"])))))
              Re.Eol))
        [Some TRACK] false [None]
        [ (Some TRACK, mkPosition [] [INDEX]) ]
        [4]
  | ISRC =>
      (* ISRC ([0-9A-Z]{5}[0-9]{7})$ *)
      mkCommand
        (Re.Cat (Re.lit "ISRC ")
           (Re.Cat (Re.Grp 1 (Re.Cat (Re.rep 5 Re.digit_or_capital)
                                (Re.rep 7 Re.ascii_digit)))
              Re.Eol))
        [Some TRACK] false [None]
        [ (Some TRACK, mkPosition [] [INDEX]) ]
        [4]
  | PREGAP =>
      (* PREGAP (\d\d):(\d\d):(\d\d)$ *)
      mkCommand
        (Re.Cat (Re.lit "PREGAP ") (Re.Cat (Re.msf 1) Re.Eol))
        [Some TRACK] false [None]
        [ (Some TRACK, mkPosition [] [INDEX]) ]
        [4]
  | INDEX =>
      (* INDEX (\d\d) (\d\d):(\d\d):(\d\d)$ *)
      mkCommand
        (Re.Cat (Re.lit "INDEX ")
           (Re.Cat (Re.Grp 1 (Re.rep 2 Re.digit))
              (Re.Cat (Re.Chr " ") (Re.Cat (Re.msf 2) Re.Eol))))
        [Some TRACK] true [None]
        [ (Some TRACK,
           mkPosition [FLAGS; ISRC; TITLE; PERFORMER; SONGWRITER; PREGAP] [POSTGAP]) ]
        [4]
  | POSTGAP =>
      (* POSTGAP (\d\d):(\d\d):(\d\d)$ *)
      mkCommand
        (Re.Cat (Re.lit "POSTGAP ") (Re.Cat (Re.msf 1) Re.Eol))
        [Some TRACK] false [None]
        [ (Some TRACK, mkPosition [INDEX] []) ]
        [4]
  | REM =>
      (* REM .+$ *)
      mkCommand
        (Re.Cat (Re.lit "REM ") (Re.Cat (Re.Plus Re.dot) Re.Eol))
        [None] true [None]
        [ (None, mkPosition [] []) ]
        [0]
  end.

(** [re.match(' ' * indent + commands[k]['syntax'], line)]. *)
Definition match_syntax (k : keyword) (ind : nat) (line : string)
  : option Re.groups :=
  Re.re_match (Re.Cat (Re.lit (Py.spaces ind)) (Rule.syntax (commands k))) line.

Definition q (s : string) : string :=
  String Py.dquote (s +:+ String Py.dquote EmptyString).

Example match_title_quoted :
  match_syntax TITLE 4 ("    TITLE " +:+ q "My Song")
  = Some [None; Some (String Py.dquote ""); Some "My Song"; None; None].
Proof. reflexivity. Qed.

Example match_title_bare :
  match_syntax TITLE 0 "TITLE Song"
  = Some [None; None; Some "Song"; None; None].
Proof. reflexivity. Qed.

Example match_title_two_words : match_syntax TITLE 0 "TITLE My Song" = None.
Proof. reflexivity. Qed.

Example match_title_unclosed :
  match_syntax TITLE 0 ("TITLE " +:+ String Py.dquote "Song") = None.
Proof. reflexivity. Qed.

Example match_file :
  match_syntax FILE 0 ("FILE " +:+ q "a b.bin" +:+ " BINARY")
  = Some [None; Some (String Py.dquote ""); Some "a b.bin"; Some "BINARY"; None].
Proof. reflexivity. Qed.

Example match_track_example :
  match_syntax TRACK 2 "  TRACK 01 MODE1/2352"
  = Some [None; Some "01"; Some "MODE1/2352"; None; None].
Proof. reflexivity. Qed.

Example match_track_one_digit : match_syntax TRACK 2 "  TRACK 1 AUDIO" = None.
Proof. reflexivity. Qed.

Example match_index_example :
  match_syntax INDEX 4 "    INDEX 01 02:03:04"
  = Some [None; Some "01"; Some "02"; Some "03"; Some "04"].
Proof. reflexivity. Qed.

Example match_flags :
  match_syntax FLAGS 4 "    FLAGS DCP PRE"
  = Some [None; Some " PRE"; Some "PRE"; None; None].
Proof. reflexivity. Qed.

Example match_rem : match_syntax REM 0 "REM x" <> None /\ match_syntax REM 0 "REM " = None.
Proof. split; [discriminate | reflexivity]. Qed.

(* ================================================================= *)
(** ** Diagnostics: [cueSyntaxError] and [cueSynerrList] *)

(** The messages of the program.  Each constructor is one message text; the
    numbers a text embeds are the constructor's arguments. *)
Inductive msg : Type :=
  | IsBlank                              (* is blank *)
  | NotCapital                           (* command not is capital *)
  | CommandNotFound                      (* command not found *)
  | IndentError                          (* indent error *)
  | ParentError                          (* parent error *)
  | CommandSyntaxError                   (* command syntax error *)
  | TooLong (k : keyword)                (* k should not contain more than 80 characters *)
  | FileNotFound (name : string)         (* name FILE not found *)
  | TimeError                            (* time error (second >= 60 or frame >= 75) *)
  | ErrorChild (k : keyword)             (* have error child k *)
  | FileNoTrack                          (* FILE not have TRACK *)
  | TrackNoIndex                         (* TRACK not have INDEX *)
  | TrackNoTitle                         (* TRACK not have TITLE *)
  | OrderError                           (* command order error *)
  | MultipleError                        (* multiple command error *)
  | FirstTrackNumber                     (* first TRACK number not is 1 *)
  | TrackNumberError (a b : Z)           (* TRACK number error, a -> b *)
  | FirstIndexTime                       (* first INDEX time not is 0 of FILE *)
  | IndexTimeError (a b : float)         (* INDEX time error, a >= b *)
  | FirstIndexNumber                     (* first INDEX number not is 0 or 1 of TRACK *)
  | IndexNumberError (a b : Z).          (* INDEX number error, a -> b *)

(** The text of a message.  [str_time] stands for Python's [str] on the
    value of a time field (an [int] -1 or a [float]), whose digits are not
    modelled. *)
Definition msg_text (str_time : float -> string) (m : msg) : string :=
  match m with
  | IsBlank => "is blank"
  | NotCapital => "command not is capital"
  | CommandNotFound => "command not found"
  | IndentError => "indent error"
  | ParentError => "parent error"
  | CommandSyntaxError => "command syntax error"
  | TooLong k => keyword_name k +:+ " should not contain more than 80 characters"
  | FileNotFound name => name +:+ " FILE not found"
  | TimeError => "time error (second >= 60 or frame >= 75)"
  | ErrorChild k => "have error child " +:+ keyword_name k
  | FileNoTrack => "FILE not have TRACK"
  | TrackNoIndex => "TRACK not have INDEX"
  | TrackNoTitle => "TRACK not have TITLE"
  | OrderError => "command order error"
  | MultipleError => "multiple command error"
  | FirstTrackNumber => "first TRACK number not is 1"
  | TrackNumberError a b =>
      "TRACK number error, " +:+ Py.str_int a +:+ " -> " +:+ Py.str_int b
  | FirstIndexTime => "first INDEX time not is 0 of FILE"
  | IndexTimeError a b =>
      "INDEX time error, " +:+ str_time a +:+ " >= " +:+ str_time b
  | FirstIndexNumber => "first INDEX number not is 0 or 1 of TRACK"
  | IndexNumberError a b =>
      "INDEX number error, " +:+ Py.str_int a +:+ " -> " +:+ Py.str_int b
  end.

(** [cueSyntaxError]: a line number, the line, and the messages recorded for
    the line.  [__eq__] and [__lt__] compare the line numbers only. *)
Module cueSyntaxError.

Record t : Type := mk {
  line_num : nat;
  line : string;
  message : list msg
}.

(** [cueSyntaxError(line_num, line, message)]. *)
Definition init (n : nat) (l : string) (m : msg) : t := mk n l [m].

Definition eq (a b : t) : bool := (line_num a =? line_num b)%nat.
Definition lt (a b : t) : bool := (line_num a <? line_num b)%nat.

End cueSyntaxError.

(** [cueSynerrList]: the list [errlist]. *)
Module cueSynerrList.

Abbreviation t := (list cueSyntaxError.t).

(** [cueSynerrList()]. *)
Definition init : t := [].

(** [self.errlist.index(e)]: the first position whose record equals [e];
    [None] is Python's [ValueError]. *)
Fixpoint index (l : t) (e : cueSyntaxError.t) : option nat :=
  match l with
  | [] => None
  | x :: l' =>
      if cueSyntaxError.eq x e then Some 0
      else option_map S (index l' e)
  end.

(** [list.sort()]: a stable sort that only asks [<].  [insert x l] puts [x]
    behind every element it is not less than. *)
Fixpoint insert (x : cueSyntaxError.t) (l : t) : t :=
  match l with
  | [] => [x]
  | y :: l' =>
      if cueSyntaxError.lt x y then x :: y :: l'
      else y :: insert x l'
  end.

Definition sort (l : t) : t := fold_left (fun acc x => insert x acc) l [].

(** [self.errlist[i].message.extend(e.message)]. *)
Definition extend (e : cueSyntaxError.t) (x : cueSyntaxError.t) : cueSyntaxError.t :=
  cueSyntaxError.mk (cueSyntaxError.line_num x) (cueSyntaxError.line x)
    (cueSyntaxError.message x ++ cueSyntaxError.message e).

(** [add(e)]. *)
Definition add (l : t) (e : cueSyntaxError.t) : t :=
  match index l e with
  | None => sort (l ++ [e])
  | Some i => alter (extend e) i l
  end.

(** [len(self)]. *)
Definition len (l : t) : nat := length l.

End cueSynerrList.

Example add_example :
  let e := cueSyntaxError.init in
  fold_left cueSynerrList.add
    [e 3 "c" IsBlank; e 1 "a" IndentError; e 3 "c" NotCapital; e 2 "b" IsBlank]
    cueSynerrList.init
  = [cueSyntaxError.mk 1 "a" [IndentError];
     cueSyntaxError.mk 2 "b" [IsBlank];
     cueSyntaxError.mk 3 "c" [IsBlank; NotCapital]].
Proof. reflexivity. Qed.

(* ================================================================= *)
(** ** The tree of commands: [CMD] *)

(** The attributes that [checkCmdSyntax] sets on a node; [None] is an
    attribute that was never set. *)
Record attrs : Type := mkAttrs {
  a_file : option string;
  a_type : option string;
  a_content : option string;
  a_number : option Z;
  a_time : option float;
  a_tag : option string
}.

Definition no_attrs : attrs := mkAttrs None None None None None None.

(** [CMD(linenum, key, line, parent, indent)] with its [children].  The
    back-reference [parent] is not stored: the passes that read it receive
    the parent from the traversal that reaches the node. *)
#[warnings="-register-all"]
Inductive CMD : Type :=
  mkCMD (linenum : nat) (key : option keyword) (line : string) (indent : nat)
        (dict : attrs) (children : list CMD).

Definition linenum (c : CMD) : nat := let 'mkCMD n _ _ _ _ _ := c in n.
Definition key (c : CMD) : option keyword := let 'mkCMD _ k _ _ _ _ := c in k.
Definition line (c : CMD) : string := let 'mkCMD _ _ l _ _ _ := c in l.
Definition indent (c : CMD) : nat := let 'mkCMD _ _ _ i _ _ := c in i.
Definition dict (c : CMD) : attrs := let 'mkCMD _ _ _ _ a _ := c in a.
Definition children (c : CMD) : list CMD := let 'mkCMD _ _ _ _ _ cs := c in cs.

(** The sentinel of the numeric attributes. *)
Definition unset_number : Z := (-1)%Z.
Definition unset_time : float := (-1)%float.

(** [__getattr__]: the value of an attribute that was never set is the
    empty string for [file], [type] and [content], and -1 for [number] and
    [time]; [tag] has no such value. *)
Definition file (c : CMD) : string := default EmptyString (a_file (dict c)).
Definition type_ (c : CMD) : string := default EmptyString (a_type (dict c)).
Definition content (c : CMD) : string := default EmptyString (a_content (dict c)).
Definition number (c : CMD) : Z := default unset_number (a_number (dict c)).
Definition time (c : CMD) : float := default unset_time (a_time (dict c)).
Definition tag (c : CMD) : option string := a_tag (dict c).

(** A reference to a node: the positions to follow from the root. *)
Abbreviation path := (list nat).

Fixpoint node_at (p : path) (t : CMD) : option CMD :=
  match p with
  | [] => Some t
  | i :: p' =>
      match children t !! i with
      | Some c => node_at p' c
      | None => None
      end
  end.

(** [parent.children.append(c)] for the parent at path [p]. *)
Fixpoint append_child (p : path) (c : CMD) (t : CMD) : CMD :=
  let 'mkCMD n k l i a cs := t in
  match p with
  | [] => mkCMD n k l i a (cs ++ [c])
  | j :: p' => mkCMD n k l i a (alter (append_child p' c) j cs)
  end.

(** The nodes of a tree in pre-order. *)
Fixpoint nodes (t : CMD) : list CMD :=
  let 'mkCMD _ _ _ _ _ cs := t in
  t :: flat_map nodes cs.

(* ================================================================= *)
(** ** Exceptions and the state of a run *)

(** The texts of [cuecheckError]; [ParentErrorAt e] is [str(e)]. *)
Inductive fatal : Type :=
  | NotCue                               (* is not cue. *)
  | NotExists                            (* is not exists. *)
  | DecodeError                          (* Decode Error *)
  | ParentErrorAt (e : cueSyntaxError.t).

Inductive exn : Type :=
  | cuecheckError (filename : string) (m : fatal)
  | OSError
  | IndexError
  | KeyError
  | TypeError
  | AttributeError.

Inductive result (A : Type) : Type :=
  | Raise (e : exn)
  | Return (a : A).

Arguments Raise {A} e.
Arguments Return {A} a.

(** The two lists of a run. *)
Record diags : Type := mkDiags {
  errorlist : cueSynerrList.t;
  warnlist : cueSynerrList.t
}.

(** The two lists when a run starts. *)
Definition no_diags : diags := mkDiags cueSynerrList.init cueSynerrList.init.

(** Computations that read and extend the two lists and may raise. *)
Definition M (A : Type) : Type := diags -> result (A * diags).

Definition ret {A} (a : A) : M A := fun st => Return (a, st).

Definition bind {A B} (m : M A) (f : A -> M B) : M B :=
  fun st =>
    match m st with
    | Raise e => Raise e
    | Return (a, st') => f a st'
    end.

Definition raise {A} (e : exn) : M A := fun _ => Raise e.

Notation "x <- m ;; k" := (bind m (fun x => k))
  (at level 100, m at next level, right associativity).
Notation "m ;; k" := (bind m (fun _ => k))
  (at level 100, right associativity).

(** [errorlist.add(cueSyntaxError(n, l, m))] and the same on [warnlist]. *)
Definition add_error (n : nat) (l : string) (m : msg) : M unit :=
  fun st => Return (tt, mkDiags (cueSynerrList.add (errorlist st) (cueSyntaxError.init n l m))
                                (warnlist st)).

Definition add_warn (n : nat) (l : string) (m : msg) : M unit :=
  fun st => Return (tt, mkDiags (errorlist st)
                                (cueSynerrList.add (warnlist st) (cueSyntaxError.init n l m))).

(** [if b: body]. *)
Definition when (b : bool) (body : M unit) : M unit :=
  if b then body else ret tt.

(** [for c in l: body(c)], the same with the position of [c] counted from
    [j], and the list of the values of [f] over [l]. *)
Section Loops.

Context {A B : Type}.
Variable body : A -> M unit.
Variable body_at : nat -> A -> M unit.
Variable f : A -> M B.

Fixpoint for_each (l : list A) : M unit :=
  match l with
  | [] => ret tt
  | c :: l' => body c;; for_each l'
  end.

Fixpoint for_each_from (j : nat) (l : list A) : M unit :=
  match l with
  | [] => ret tt
  | c :: l' => body_at j c;; for_each_from (S j) l'
  end.

Fixpoint map_each (l : list A) : M (list B) :=
  match l with
  | [] => ret []
  | c :: l' => c' <- f c;; r <- map_each l';; ret (c' :: r)
  end.

(** [for i in range(len(l) - 1): check(l[i], l[i+1])]. *)
Variable check : A -> A -> M unit.

Fixpoint for_pairs (l : list A) : M unit :=
  match l with
  | a :: (b :: _) as l' => check a b;; for_pairs l'
  | _ => ret tt
  end.

End Loops.

Arguments for_each {A} body l.
Arguments for_each_from {A} body_at j l.
Arguments map_each {A B} f l.
Arguments for_pairs {A} check l.

(** What [open(filename)] and [f.read()] give: the text of the file; or
    [UnicodeDecodeError] from the read, when the content does not decode;
    or [OSError] from either of them, when the file cannot be opened or
    read (a file that [isfile] finds may still be one the process has no
    permission to read). *)
Inductive contents : Type :=
  | Text (text : string)
  | Undecodable
  | Unreadable.

(** What a run sees of the file system: [os.path.isfile(filename)];
    [os.path.isfile(os.path.join(os.path.split(filename)[0], name))] for a
    file a FILE command names; what opening and reading the file gives;
    [os.path.realpath(filename)]. *)
Record world : Type := mkWorld {
  isfile : string -> bool;
  media_isfile : string -> string -> bool;
  read : string -> contents;
  realpath : string -> string
}.

(* ================================================================= *)
(** ** [cuecheck] *)

(** [os.path.splitext(p)[1]] with the separator [/]: the part of [p] from
    its last dot on, when that dot is behind the last separator and some
    character between the two is not a dot; the empty string otherwise. *)
Fixpoint rfind_from (c : ascii) (i last : Z) (s : string) : Z :=
  match s with
  | EmptyString => last
  | String c' s' => rfind_from c (i + 1) (if Ascii.eqb c' c then i else last) s'
  end.

Definition rfind (c : ascii) (s : string) : Z := rfind_from c 0 (-1) s.

Fixpoint all_dots (s : string) : bool :=
  match s with
  | EmptyString => true
  | String c s' => Ascii.eqb c "." && all_dots s'
  end.

Definition splitext_ext (p : string) : string :=
  let sepIndex := rfind "/" p in
  let dotIndex := rfind "." p in
  if (sepIndex <? dotIndex)%Z
     && negb (all_dots (Py.take_chars (Z.to_nat (dotIndex - (sepIndex + 1)))
                          (Py.drop_chars (Z.to_nat (sepIndex + 1)) p)))
  then Py.drop_chars (Z.to_nat dotIndex) p
  else EmptyString.

Example splitext_examples :
  splitext_ext "a/b.c/disc.cue" = ".cue" /\ splitext_ext "disc.cue.txt" = ".txt" /\
  splitext_ext "dir.cue/disc" = "" /\ splitext_ext ".cue" = "" /\
  splitext_ext "a/..cue" = "" /\ splitext_ext "disc.CUE" = ".CUE".
Proof. repeat split. Qed.

(** The conversion of a small non-negative [int] to [float]. *)
Definition float_of_Z (z : Z) : float := PrimFloat.of_uint63 (Uint63.of_Z z).

(** [m * 60 + s + f / 75]: an [int] plus the quotient of two [int]s, which
    is a [float]. *)
Definition elapsed (m s f : Z) : float :=
  (float_of_Z (m * 60 + s) + float_of_Z f / float_of_Z 75)%float.

(** Comparisons of time values as Python makes them. *)
Definition time_ne (a b : float) : bool := negb (PrimFloat.eqb a b).
Definition time_ge (a b : float) : bool := PrimFloat.leb b a.

(** [getSpace(line)]. *)
Fixpoint getSpace (line : string) : nat :=
  match line with
  | String c line' => if Ascii.eqb c " " then S (getSpace line') else 0
  | EmptyString => 0
  end.

(** The depth that replaces a depth the keyword does not permit:
    [indent[0]] when the tuple has one entry, [indent[1]] otherwise. *)
Definition coerced_indent (l : list nat) : nat :=
  if (length l =? 1)%nat then nth 0 l 0 else nth 1 l 0.

(** The tree under construction and the list [current] of open ancestors. *)
Record builder : Type := mkBuilder {
  root : CMD;
  current : list (option path)
}.

(** The number of children of the node at [p]: the position the next child
    of that node gets. *)
Definition next_child (p : path) (t : CMD) : nat :=
  match node_at p t with
  | Some c => length (children c)
  | None => 0
  end.

(** [findChildCmd(cmd, key)]. *)
Definition findChildCmd (cmd : CMD) (k : keyword) : bool :=
  existsb (fun c => bool_decide (key c = Some k)) (children cmd).

(** [getCmds(cmd, key)], as the list of the nodes it yields. *)
Fixpoint getCmds (cmd : CMD) (k : keyword) : list CMD :=
  let 'mkCMD _ _ _ _ _ cs := cmd in
  (if bool_decide (key cmd = Some k) then [cmd] else [])
  ++ flat_map (fun c => getCmds c k) cs.

(** [k in t] for a key [k] of a node and a tuple [t] of keywords. *)
Definition key_in (k : option keyword) (t : list keyword) : bool :=
  bool_decide (k ∈ Some <$> t).

Section Run.

Variable w : world.
Variable filename : string.

(** The end of the body of the loop over the lines: the node of line
    [d[i]], which is [raw], with key [k] and depth [ind] becomes the last
    child of the open ancestor [current[ind // 2]], or the run is over. *)
Definition place (i : nat) (k : keyword) (raw : string) (ind : nat) (b : builder)
  : M builder :=
  match current b !! (ind / 2) with
  | None => raise IndexError
  | Some None =>
      raise (cuecheckError filename
               (ParentErrorAt (cueSyntaxError.init (i + 1) raw ParentError)))
  | Some (Some p) =>
      let c := mkCMD (i + 1) (Some k) raw ind no_attrs [] in
      let here := p ++ [next_child p (root b)] in
      let root' := append_child p c (root b) in
      ret (mkBuilder root'
             match k with
             | FILE => <[1 := Some here]> (current b)
             | TRACK => <[2 := Some here]> (current b)
             | _ => current b
             end)
  end.

(** The body of the loop over the lines of the document: line [d[i]] is
    [raw]. *)
Definition classify (i : nat) (raw : string) (b : builder) : M builder :=
  let s := Py.strip (Py.collapse raw) in
  if String.eqb s EmptyString then
    add_error (i + 1) raw IsBlank;; ret b
  else
    match Py.split s with
    | [] => raise IndexError
    | ss0 :: _ =>
        when (negb (Py.isupper ss0)) (add_error (i + 1) raw NotCapital);;
        match find_keyword (Py.upper ss0) with
        | None => add_error (i + 1) raw CommandNotFound;; ret b
        | Some k =>
            let measured := getSpace raw in
            let permitted := Rule.indent (commands k) in
            let ok := bool_decide (measured ∈ permitted) in
            when (negb ok) (add_error (i + 1) raw IndentError);;
            place i k raw (if ok then measured else coerced_indent permitted) b
        end
    end.

(** [for i in range(len(d))], from line [i] on. *)
Fixpoint build (i : nat) (d : list string) (b : builder) : M builder :=
  match d with
  | [] => ret b
  | raw :: d' => b' <- classify i raw b;; build (S i) d' b'
  end.

(** The text of group [n] of a match in which the group took part. *)
Definition group_text (m : Re.groups) (n : nat) : string :=
  default EmptyString (Re.group m n).

(** The body of [checkCmdSyntax] for a node with key [k]: the attributes of
    the node afterwards. *)
Definition check_syntax (n : nat) (k : keyword) (l : string) (ind : nat) (a : attrs)
  : M attrs :=
  match match_syntax k ind l with
  | Some m =>
      match k with
      | TITLE | PERFORMER | SONGWRITER =>
          when (80 <? String.length (group_text m 2))%nat (add_warn n l (TooLong k));;
          ret (mkAttrs (a_file a) (a_type a)
                 (Some (Py.remove_quotes (Py.join (tail (Py.split l)))))
                 (a_number a) (a_time a) (a_tag a))
      | CATALOG | ISRC =>
          ret (mkAttrs (a_file a) (a_type a) (Some (group_text m 1))
                 (a_number a) (a_time a) (a_tag a))
      | FILE =>
          when (negb (media_isfile w filename (group_text m 2)))
               (add_error n l (FileNotFound (group_text m 2)));;
          ret (mkAttrs (Some (group_text m 2)) (a_type a) (a_content a)
                 (a_number a) (a_time a) (a_tag a))
      | TRACK =>
          ret (mkAttrs (a_file a) (Some (group_text m 2)) (a_content a)
                 (Some (Py.int (group_text m 1))) (a_time a) (a_tag a))
      | PREGAP | POSTGAP =>
          when ((60 <=? Py.int (group_text m 2))%Z || (75 <=? Py.int (group_text m 3))%Z)
               (add_error n l TimeError);;
          ret (mkAttrs (a_file a) (a_type a) (a_content a) (a_number a)
                 (Some (elapsed (Py.int (group_text m 1)) (Py.int (group_text m 2))
                          (Py.int (group_text m 3))))
                 (a_tag a))
      | INDEX =>
          when ((60 <=? Py.int (group_text m 3))%Z || (75 <=? Py.int (group_text m 4))%Z)
               (add_error n l TimeError);;
          ret (mkAttrs (a_file a) (a_type a) (a_content a)
                 (Some (Py.int (group_text m 1)))
                 (Some (elapsed (Py.int (group_text m 2)) (Py.int (group_text m 3))
                          (Py.int (group_text m 4))))
                 (a_tag a))
      | REM =>
          let ss := Py.split l in
          match ss with
          | _ :: ss1 :: _ :: _ =>
              if Py.isupper ss1 then
                ret (mkAttrs (a_file a) (a_type a)
                       (Some (Py.remove_quotes (Py.join (drop 2 ss))))
                       (a_number a) (a_time a) (Some ss1))
              else
                ret (mkAttrs (a_file a) (a_type a) (Some (Py.drop_chars 4 l))
                       (a_number a) (a_time a) (Some EmptyString))
          | _ =>
              ret (mkAttrs (a_file a) (a_type a) (Some (Py.drop_chars 4 l))
                     (a_number a) (a_time a) (Some EmptyString))
          end
      | CDTEXTFILE | FLAGS => ret a
      end
  | None => add_error n l CommandSyntaxError;; ret a
  end.

(** [checkCmdSyntax(cmd)]: the node with the attributes set. *)
Fixpoint checkCmdSyntax (cmd : CMD) : M CMD :=
  let 'mkCMD n k l ind a cs := cmd in
  a' <- match k with
        | Some kw => check_syntax n kw l ind a
        | None => ret a
        end;;
  cs' <- map_each checkCmdSyntax cs;;
  ret (mkCMD n k l ind a' cs').

(** [checkCmdChildren(cmd)]. *)
Fixpoint checkCmdChildren (cmd : CMD) : M unit :=
  let 'mkCMD n k l _ _ cs := cmd in
  for_each
    (fun c =>
       match k with
       | Some kw =>
           if bool_decide (key c ∈ Rule.children (commands kw)) then ret tt
           else match key c with
                | Some ck => add_error n l (ErrorChild ck)
                | None => raise TypeError
                end
       | None => ret tt
       end;;
       match k with
       | Some FILE =>
           when (negb (findChildCmd cmd TRACK)) (add_error n l FileNoTrack)
       | Some TRACK =>
           when (negb (findChildCmd cmd INDEX)) (add_error n l TrackNoIndex);;
           when (negb (findChildCmd cmd TITLE)) (add_warn n l TrackNoTitle)
       | _ => ret tt
       end;;
       checkCmdChildren c)
    cs.

(** The first loop of [checkCmdOrder] for the node at position [idx] of its
    parent's children: [j] is the position of the head of [cs], and [me]
    says that the node itself was passed. *)
Fixpoint order_after (n : nat) (l : string) (aft : list keyword) (idx : nat)
    (j : nat) (me : bool) (cs : list CMD) : M unit :=
  match cs with
  | [] => ret tt
  | c :: cs' =>
      when (me && key_in (key c) aft) (add_error n l OrderError);;
      order_after n l aft idx (S j) (me || (j =? idx)%nat) cs'
  end.

(** The second loop of [checkCmdOrder], which stops behind the node. *)
Fixpoint order_before (n : nat) (l : string) (bef : list keyword) (idx : nat)
    (j : nat) (cs : list CMD) : M unit :=
  match cs with
  | [] => ret tt
  | c :: cs' =>
      when (key_in (key c) bef) (add_error n l OrderError);;
      if (j =? idx)%nat then ret tt
      else order_before n l bef idx (S j) cs'
  end.

(** [commands[k]['position'][parent.key]]. *)
Definition position_of (k : keyword) (parent : CMD) : option Rule.position :=
  option_map snd
    (List.find (fun e => bool_decide (fst e = key parent)) (Rule.positions (commands k))).

(** [checkCmdOrder(cmd)] for the node [cmd] at position [idx] of the
    children of [parent]; the root has no parent. *)
Fixpoint checkCmdOrder (parent : option CMD) (idx : nat) (cmd : CMD) : M unit :=
  let 'mkCMD n k l _ _ cs := cmd in
  match k with
  | Some kw =>
      match parent with
      | None => raise AttributeError
      | Some p =>
          match position_of kw p with
          | None => raise KeyError
          | Some pos =>
              when (negb (bool_decide (Rule.after pos = [])))
                   (order_after n l (Rule.after pos) idx 0 false (children p));;
              when (negb (bool_decide (Rule.before pos = [])))
                   (order_before n l (Rule.before pos) idx 0 (children p))
          end
      end
  | None => ret tt
  end;;
  for_each_from (fun j c => checkCmdOrder (Some cmd) j c) 0 cs.

(** The loop of [checkCmdMul]: whether the count of the siblings with key
    [k] exceeds 1 before the siblings run out. *)
Fixpoint mul_exceeds (k : keyword) (mul : nat) (cs : list CMD) : bool :=
  match cs with
  | [] => false
  | c :: cs' =>
      if bool_decide (key c = Some k) then
        if (1 <? mul + 1)%nat then true else mul_exceeds k (mul + 1) cs'
      else mul_exceeds k mul cs'
  end.

(** [checkCmdMul(cmd)] for a child of [parent]. *)
Fixpoint checkCmdMul (parent : option CMD) (cmd : CMD) : M unit :=
  let 'mkCMD n k l _ _ cs := cmd in
  match k with
  | Some kw =>
      if negb (Rule.multiple (commands kw)) then
        match parent with
        | None => raise AttributeError
        | Some p => when (mul_exceeds kw 0 (children p)) (add_error n l MultipleError)
        end
      else ret tt
  | None => ret tt
  end;;
  for_each (checkCmdMul (Some cmd)) cs.

(** The comparisons of the three sequence checks: of the first node of a
    list, and of two neighbours [a] and [b] of it. *)
Definition first_track (t0 : CMD) : M unit :=
  when (negb (number t0 =? 1)%Z)
       (add_warn (linenum t0) (line t0) FirstTrackNumber).

Definition track_pair (a b : CMD) : M unit :=
  when (negb (number a + 1 =? number b)%Z)
       (add_error (linenum a) (line a) (TrackNumberError (number a) (number b))).

Definition first_time (x0 : CMD) : M unit :=
  when (time_ne (time x0) 0)
       (add_error (linenum x0) (line x0) FirstIndexTime).

Definition time_pair (a b : CMD) : M unit :=
  when (time_ge (time a) (time b))
       (add_error (linenum a) (line a) (IndexTimeError (time a) (time b))).

Definition first_index (x0 : CMD) : M unit :=
  when (negb ((number x0 =? 0)%Z || (number x0 =? 1)%Z))
       (add_error (linenum x0) (line x0) FirstIndexNumber).

Definition index_pair (a b : CMD) : M unit :=
  when (negb (number a + 1 =? number b)%Z)
       (add_error (linenum a) (line a) (IndexNumberError (number a) (number b))).

(** [if l and ...l[0]...: ...]. *)
Definition on_first (check : CMD -> M unit) (l : list CMD) : M unit :=
  match l with
  | x0 :: _ => check x0
  | [] => ret tt
  end.

(** The check of the track numbers over [tracklist]. *)
Definition check_tracks (tracklist : list CMD) : M unit :=
  on_first first_track tracklist;;
  for_pairs track_pair tracklist.

(** The check of the index times of one FILE node. *)
Definition check_file_times (c : CMD) : M unit :=
  let findex := getCmds c INDEX in
  on_first first_time findex;;
  for_pairs time_pair findex.

(** The check of the index numbers of one TRACK node. *)
Definition check_track_indexes (c : CMD) : M unit :=
  let tindex := getCmds c INDEX in
  on_first first_index tindex;;
  for_pairs index_pair tindex.

(** The three sequence checks over the tree [root1]. *)
Definition sequence_checks (root1 : CMD) : M unit :=
  let tracklist := getCmds root1 TRACK in
  check_tracks tracklist;;
  for_each check_file_times (getCmds root1 FILE);;
  for_each check_track_indexes tracklist.

(** The passes over the tree that [build] made, in the order of the
    program; the tree with its attributes set is the value. *)
Definition validate (root0 : CMD) : M CMD :=
  root1 <- checkCmdSyntax root0;;
  checkCmdChildren root1;;
  checkCmdMul None root1;;
  checkCmdOrder None 0 root1;;
  sequence_checks root1;;
  ret root1.

(** The tree and the open ancestors before the first line: the root alone. *)
Definition start : builder :=
  mkBuilder (mkCMD 0 None (realpath w filename) 0 no_attrs [])
            [Some []; None; None; None].

(** The run on the lines [d] of the document. *)
Definition check_lines (d : list string) : M CMD :=
  b <- build 0 d start;;
  validate (root b).

(** [cuecheck(filename)]: the exception raised, or the value
    [(errorlist, warnlist, root)].  Only [UnicodeDecodeError] is caught
    around the read; an [OSError] of [open] or of the read leaves the
    function as it is. *)
Definition cuecheck : result (cueSynerrList.t * cueSynerrList.t * CMD) :=
  if negb (String.eqb (splitext_ext filename) ".cue") then
    Raise (cuecheckError filename NotCue)
  else if negb (isfile w filename) then
    Raise (cuecheckError filename NotExists)
  else
    match read w filename with
    | Unreadable => Raise OSError
    | Undecodable => Raise (cuecheckError filename DecodeError)
    | Text text =>
        let d := Py.splitlines text in
        match d with
        | [] => Raise IndexError
        | _ :: _ =>
            match check_lines d no_diags with
            | Raise e => Raise e
            | Return (r, st) => Return (errorlist st, warnlist st, r)
            end
        end
    end.

End Run.

(* ================================================================= *)
(** ** Properties of the diagnostics collector *)

Module DiagFacts.

Import cueSyntaxError cueSynerrList.

Definition line_nums (l : cueSynerrList.t) : list nat := line_num <$> l.

(** The records are strictly ascending by line number. *)
Definition ascending (l : cueSynerrList.t) : Prop :=
  StronglySorted Nat.lt (line_nums l).

(** Message [m] is recorded for line [n]. *)
Definition recorded (l : cueSynerrList.t) (n : nat) (m : msg) : Prop :=
  exists e, e ∈ l /\ line_num e = n /\ m ∈ message e.

Lemma index_None l e : index l e = None <-> line_num e ∉ line_nums l.
Proof.
  induction l as [|x l IH]; simpl.
  - split; [intros _; apply not_elem_of_nil | done].
  - unfold eq. destruct (Nat.eqb_spec (line_num x) (line_num e)) as [E|E].
    + split; [done|]. intros H. exfalso. apply H. rewrite E. left.
    + destruct (index l e) eqn:Hi; simpl.
      * split; [done|]. intros H. exfalso. apply H. right.
        destruct (decide (line_num e ∈ line_nums l)) as [?|N]; [done|].
        apply IH in N. done.
      * split; [|done]. intros _. rewrite not_elem_of_cons. split; [congruence|].
        by apply IH.
Qed.

Lemma index_Some l e i :
  index l e = Some i ->
  exists l1 x l2, l = l1 ++ x :: l2 /\ length l1 = i /\ line_num x = line_num e
                  /\ line_num e ∉ line_nums l1.
Proof.
  revert i. induction l as [|x l IH]; simpl; [done|]. intros i.
  unfold eq. destruct (Nat.eqb_spec (line_num x) (line_num e)) as [E|E].
  - intros [= <-]. exists [], x, l. repeat split; auto. apply not_elem_of_nil.
  - destruct (index l e) as [j|] eqn:Hi; simpl; [|done]. intros [= <-].
    destruct (IH j eq_refl) as (l1 & y & l2 & -> & <- & Hy & Hn).
    exists (x :: l1), y, l2. repeat split; auto.
    simpl. rewrite not_elem_of_cons. split; [congruence | done].
Qed.

Lemma insert_Permutation x l : insert x l ≡ₚ x :: l.
Proof.
  induction l as [|y l IH]; simpl; [done|].
  destruct (lt x y); [done|]. rewrite IH. apply Permutation_swap.
Qed.

Lemma sort_from_Permutation l acc :
  fold_left (fun acc x => insert x acc) l acc ≡ₚ acc ++ l.
Proof.
  revert acc. induction l as [|x l IH]; intros acc; simpl.
  - by rewrite app_nil_r.
  - rewrite IH, insert_Permutation. simpl. apply Permutation_middle.
Qed.

Lemma sort_Permutation l : sort l ≡ₚ l.
Proof. unfold sort. by rewrite sort_from_Permutation. Qed.

(** A record that is behind all of [l] is inserted at the end. *)
Lemma insert_last x l :
  Forall (fun y => line_num y <= line_num x) l -> insert x l = l ++ [x].
Proof.
  induction 1 as [|y l Hy _ IH]; simpl; [done|]. unfold lt.
  destruct (Nat.ltb_spec (line_num x) (line_num y)); [lia|]. by rewrite IH.
Qed.

Lemma ascending_app_inv l1 l2 :
  ascending (l1 ++ l2) ->
  ascending l1 /\ ascending l2 /\
  forall x y, x ∈ l1 -> y ∈ l2 -> line_num x < line_num y.
Proof.
  unfold ascending, line_nums. rewrite fmap_app. induction l1 as [|a l1 IH]; simpl.
  - intros H. repeat split; [constructor | done |]. intros x y Hx. by apply elem_of_nil in Hx.
  - intros H. apply StronglySorted_inv in H as [H1 H2].
    destruct (IH H1) as (I1 & I2 & I3). apply Forall_app in H2 as [H2 H3].
    repeat split; [by constructor | done |].
    intros x y [->|Hx]%elem_of_cons Hy; [|eauto].
    rewrite Forall_forall in H3. apply H3, list_elem_of_fmap. eauto.
Qed.

(** Sorting a list that is ascending already leaves it as it is. *)
Lemma sort_from_ascending l acc :
  ascending (acc ++ l) -> fold_left (fun acc x => insert x acc) l acc = acc ++ l.
Proof.
  revert acc. induction l as [|x l IH]; intros acc H; simpl.
  - by rewrite app_nil_r.
  - assert (H' : ascending ((acc ++ [x]) ++ l)) by (by rewrite <- app_assoc).
    rewrite insert_last.
    + rewrite IH; [by rewrite <- app_assoc | done].
    + apply ascending_app_inv in H as (_ & _ & H). apply Forall_forall.
      intros y Hy. apply Nat.lt_le_incl, H; [done | left].
Qed.

Lemma insert_ascending x l :
  ascending l -> line_num x ∉ line_nums l -> ascending (insert x l).
Proof.
  unfold ascending, line_nums. induction l as [|y l IH]; simpl; intros H N.
  - repeat constructor.
  - apply StronglySorted_inv in H as [H1 H2]. apply not_elem_of_cons in N as [N1 N2].
    unfold lt. destruct (Nat.ltb_spec (line_num x) (line_num y)).
    + simpl. constructor; [by constructor|]. constructor; [done|].
      eapply Forall_impl; [exact H2|]. simpl. intros; lia.
    + simpl. constructor; [by apply IH|].
      assert (P : (line_num <$> insert x l) ≡ₚ line_num x :: (line_num <$> l))
        by (by rewrite insert_Permutation).
      rewrite P. constructor; [lia | done].
Qed.

(** On an ascending list, [add] of a record for a new line inserts it. *)
Lemma add_new l e :
  ascending l -> line_num e ∉ line_nums l -> add l e = insert e l.
Proof.
  intros H N. unfold add. apply index_None in N as ->. unfold sort.
  rewrite fold_left_app. simpl. by rewrite (sort_from_ascending l []).
Qed.

Lemma add_old l e :
  line_num e ∈ line_nums l ->
  exists l1 x l2, l = l1 ++ x :: l2 /\ line_num x = line_num e /\
                  (line_num e ∉ line_nums l1) /\
                  add l e = l1 ++ extend e x :: l2.
Proof.
  intros H. unfold add. destruct (index l e) as [i|] eqn:Hi.
  - destruct (index_Some _ _ _ Hi) as (l1 & x & l2 & -> & <- & Hx & Hn).
    exists l1, x, l2. repeat split; auto.
    rewrite alter_app_r_alt by lia. by rewrite Nat.sub_diag.
  - apply index_None in Hi. done.
Qed.

Lemma add_line_nums_old l e :
  line_num e ∈ line_nums l -> line_nums (add l e) = line_nums l.
Proof.
  intros H. destruct (add_old _ _ H) as (l1 & x & l2 & -> & Hx & _ & ->).
  unfold line_nums. by rewrite !fmap_app.
Qed.

Lemma add_ascending l e : ascending l -> ascending (add l e).
Proof.
  intros H. destruct (decide (line_num e ∈ line_nums l)) as [I|N].
  - unfold ascending. by rewrite add_line_nums_old.
  - rewrite add_new by done. by apply insert_ascending.
Qed.

Lemma ascending_NoDup l : ascending l -> NoDup (line_nums l).
Proof.
  unfold ascending, line_nums. induction l as [|a l IH]; simpl; intros H.
  - constructor.
  - apply StronglySorted_inv in H as [H F]. constructor; [|by apply IH].
    intros I. rewrite Forall_forall in F. apply F in I. lia.
Qed.

(** What [add] records: what was recorded, and the messages of [e] for the
    line of [e]. *)
Lemma recorded_add l e n m :
  recorded (add l e) n m <->
  recorded l n m \/ (n = line_num e /\ m ∈ message e).
Proof.
  unfold recorded, add. destruct (index l e) as [i|] eqn:Hi.
  - destruct (index_Some _ _ _ Hi) as (l1 & x & l2 & -> & <- & Hx & Hn).
    rewrite alter_app_r_alt by lia. rewrite Nat.sub_diag. simpl. split.
    + intros (y & Hy & <- & Hm). rewrite elem_of_app, elem_of_cons in Hy.
      destruct Hy as [Hy|[->|Hy]].
      * left. exists y. rewrite elem_of_app. auto.
      * simpl in *. apply elem_of_app in Hm as [Hm|Hm]; [|by right].
        left. exists x. rewrite elem_of_app, elem_of_cons. auto.
      * left. exists y. rewrite elem_of_app, elem_of_cons. auto.
    + intros [(y & Hy & <- & Hm)|[-> Hm]].
      * rewrite elem_of_app, elem_of_cons in Hy. destruct Hy as [Hy|[->|Hy]].
        -- exists y. rewrite elem_of_app. auto.
        -- exists (extend e x). rewrite elem_of_app, elem_of_cons. simpl.
           split; [auto|]. split; [done|]. apply elem_of_app. auto.
        -- exists y. rewrite elem_of_app, elem_of_cons. auto.
      * exists (extend e x). rewrite elem_of_app, elem_of_cons. simpl.
        split; [auto|]. split; [done|]. apply elem_of_app. auto.
  - setoid_rewrite (sort_Permutation (l ++ [e])). split.
    + intros (y & Hy & <- & Hm). rewrite elem_of_app, list_elem_of_singleton in Hy.
      destruct Hy as [Hy| ->]; [left; eauto | by right].
    + intros [(y & Hy & <- & Hm)|[-> Hm]].
      * exists y. rewrite elem_of_app. auto.
      * exists e. rewrite elem_of_app, list_elem_of_singleton. auto.
Qed.

End DiagFacts.

Import DiagFacts.

(* ================================================================= *)
(** ** Reasoning about runs *)

(** Induction on a tree with the hypothesis for every child. *)
Lemma CMD_induction (P : CMD -> Prop) :
  (forall n k l i a cs, Forall P cs -> P (mkCMD n k l i a cs)) ->
  forall c, P c.
Proof.
  intros H. fix IH 1. intros [n k l i a cs]. apply H.
  induction cs as [|c cs IHcs]; constructor; [apply IH | exact IHcs].
Qed.

Lemma bind_Return {A B} (c : M A) (f : A -> M B) st b st'' :
  bind c f st = Return (b, st'') <->
  exists a st', c st = Return (a, st') /\ f a st' = Return (b, st'').
Proof.
  unfold bind. destruct (c st) as [e|[a st']]; split.
  - done.
  - intros (a & st' & H & _). done.
  - eauto.
  - intros (a' & st1 & [= <- <-] & H). done.
Qed.

Lemma bind_Raise {A B} (c : M A) (f : A -> M B) st e :
  bind c f st = Raise e <->
  c st = Raise e \/ exists a st', c st = Return (a, st') /\ f a st' = Raise e.
Proof.
  unfold bind. destruct (c st) as [e'|[a st']]; split.
  - intros [= <-]. by left.
  - intros [[= ->]|(a & st' & H & _)]; done.
  - intros H. right. eauto.
  - intros [H|(a' & st1 & [= <- <-] & H)]; done.
Qed.

(** Every message recorded in [st] is recorded in [st']. *)
Definition grows (st st' : diags) : Prop :=
  (forall n m, recorded (errorlist st) n m -> recorded (errorlist st') n m) /\
  (forall n m, recorded (warnlist st) n m -> recorded (warnlist st') n m).

#[global] Instance grows_preorder : PreOrder grows.
Proof.
  split.
  - intros st. split; auto.
  - intros a b c [H1 H2] [H3 H4]. split; auto.
Qed.

(** A computation [c] emits the errors [E] and the warnings [W], given as
    sets of pairs of a line number and a message, and nothing else. *)
Definition emits {A} (E W : nat -> msg -> Prop) (c : M A) : Prop :=
  forall st a st', c st = Return (a, st') ->
    (forall n m, recorded (errorlist st') n m <-> recorded (errorlist st) n m \/ E n m) /\
    (forall n m, recorded (warnlist st') n m <-> recorded (warnlist st) n m \/ W n m).

Definition nothing : nat -> msg -> Prop := fun _ _ => False.
Definition just (n : nat) (m : msg) : nat -> msg -> Prop := fun n' m' => n' = n /\ m' = m.
Definition either (E1 E2 : nat -> msg -> Prop) : nat -> msg -> Prop :=
  fun n m => E1 n m \/ E2 n m.

Lemma emits_grows {A} E W (c : M A) st a st' :
  emits E W c -> c st = Return (a, st') -> grows st st'.
Proof.
  intros H Hc. destruct (H _ _ _ Hc) as [H1 H2]. split; intros n m Hr.
  - apply H1. by left.
  - apply H2. by left.
Qed.

Lemma emits_ext {A} E W E' W' (c : M A) :
  emits E W c -> (forall n m, E n m <-> E' n m) -> (forall n m, W n m <-> W' n m) ->
  emits E' W' c.
Proof.
  intros H HE HW st a st' Hc. destruct (H _ _ _ Hc) as [H1 H2].
  split; intros n m; [rewrite H1, HE | rewrite H2, HW]; done.
Qed.

Lemma emits_ret {A} (a : A) : emits nothing nothing (ret a).
Proof.
  intros st a' st' [= <- <-]. unfold nothing. split; intros; tauto.
Qed.

Lemma emits_bind {A B} E1 W1 E2 W2 (c : M A) (f : A -> M B) :
  emits E1 W1 c -> (forall a, emits E2 W2 (f a)) ->
  emits (either E1 E2) (either W1 W2) (bind c f).
Proof.
  intros H1 H2 st b st'' (a & st' & Hc & Hf)%bind_Return.
  destruct (H1 _ _ _ Hc) as [A1 A2]. destruct (H2 _ _ _ _ Hf) as [B1 B2].
  unfold either. split; intros n m; [rewrite B1, A1 | rewrite B2, A2]; tauto.
Qed.

Lemma emits_add_error n l m : emits (just n m) nothing (add_error n l m).
Proof.
  intros st [] st' [= <-]. simpl. unfold just, nothing. split; intros n' m'; [|tauto].
  rewrite recorded_add. simpl. rewrite list_elem_of_singleton. tauto.
Qed.

Lemma emits_add_warn n l m : emits nothing (just n m) (add_warn n l m).
Proof.
  intros st [] st' [= <-]. simpl. unfold just, nothing. split; intros n' m'; [tauto|].
  rewrite recorded_add. simpl. rewrite list_elem_of_singleton. tauto.
Qed.

Lemma emits_when E W (b : bool) (c : M unit) :
  emits E W c ->
  emits (fun n m => b = true /\ E n m) (fun n m => b = true /\ W n m) (when b c).
Proof.
  intros H. destruct b; simpl.
  - eapply emits_ext; [exact H | |]; intros; tauto.
  - eapply emits_ext; [apply emits_ret | |]; unfold nothing; intros; split; try tauto;
      intros [? _]; done.
Qed.

(** A computation [c] only adds messages, and the messages it adds are
    among [K]. *)
Definition adds {A} (K : msg -> Prop) (c : M A) : Prop :=
  forall st a st', c st = Return (a, st') ->
    grows st st' /\
    (forall n m, recorded (errorlist st') n m -> recorded (errorlist st) n m \/ K m) /\
    (forall n m, recorded (warnlist st') n m -> recorded (warnlist st) n m \/ K m).

Lemma emits_adds {A} E W (K : msg -> Prop) (c : M A) :
  emits E W c -> (forall n m, E n m -> K m) -> (forall n m, W n m -> K m) -> adds K c.
Proof.
  intros H HE HW st a st' Hc. split; [by eapply emits_grows|].
  destruct (H _ _ _ Hc) as [H1 H2]. split; intros n m Hr.
  - apply H1 in Hr as [?|?]; eauto.
  - apply H2 in Hr as [?|?]; eauto.
Qed.

Lemma adds_ret {A} K (a : A) : adds K (ret a).
Proof. eapply emits_adds; [apply emits_ret | |]; unfold nothing; tauto. Qed.

Lemma adds_raise {A} K e : adds K (@raise A e).
Proof. intros st a st' H. done. Qed.

Lemma adds_bind {A B} K (c : M A) (f : A -> M B) :
  adds K c -> (forall a, adds K (f a)) -> adds K (bind c f).
Proof.
  intros H1 H2 st b st'' (a & st' & Hc & Hf)%bind_Return.
  destruct (H1 _ _ _ Hc) as (G1 & A1 & A2). destruct (H2 _ _ _ _ Hf) as (G2 & B1 & B2).
  split; [by etrans|]. split; intros n m Hr.
  - apply B1 in Hr as [Hr|?]; [apply A1 in Hr|]; tauto.
  - apply B2 in Hr as [Hr|?]; [apply A2 in Hr|]; tauto.
Qed.

Lemma adds_add_error (K : msg -> Prop) n l m : K m -> adds K (add_error n l m).
Proof.
  intros H. eapply emits_adds; [apply emits_add_error | |]; unfold just, nothing.
  - by intros ? ? [_ ->].
  - tauto.
Qed.

Lemma adds_add_warn (K : msg -> Prop) n l m : K m -> adds K (add_warn n l m).
Proof.
  intros H. eapply emits_adds; [apply emits_add_warn | |]; unfold just, nothing.
  - tauto.
  - by intros ? ? [_ ->].
Qed.

Lemma adds_when K (b : bool) (c : M unit) : adds K c -> adds K (when b c).
Proof. intros H. destruct b; [done | apply adds_ret]. Qed.

Lemma adds_if {A} K (b : bool) (c1 c2 : M A) : adds K c1 -> adds K c2 -> adds K (if b then c1 else c2).
Proof. by destruct b. Qed.

Lemma adds_for_each {A} K (body : A -> M unit) l :
  Forall (fun a => adds K (body a)) l -> adds K (for_each body l).
Proof.
  induction 1 as [|a l Ha _ IH]; simpl; [apply adds_ret|].
  apply adds_bind; auto.
Qed.

Lemma adds_for_each_from {A} K (body : nat -> A -> M unit) j l :
  Forall (fun a => forall j, adds K (body j a)) l -> adds K (for_each_from body j l).
Proof.
  intros H. revert j. induction H as [|a l Ha _ IH]; intros j; simpl; [apply adds_ret|].
  apply adds_bind; auto.
Qed.

Lemma adds_map_each {A B} K (f : A -> M B) l :
  Forall (fun a => adds K (f a)) l -> adds K (map_each f l).
Proof.
  induction 1 as [|a l Ha _ IH]; simpl; [apply adds_ret|].
  apply adds_bind; [done|]. intros b. apply adds_bind; [done|]. intros r. apply adds_ret.
Qed.

Create HintDb adds.
#[global] Hint Resolve adds_ret adds_raise adds_bind adds_add_error adds_add_warn
  adds_when adds_if : adds.

(** The messages of the three sequence checks, and the other ones. *)
Definition sequence_msg (m : msg) : Prop :=
  match m with
  | FirstTrackNumber | TrackNumberError _ _ | FirstIndexTime | IndexTimeError _ _
  | FirstIndexNumber | IndexNumberError _ _ => True
  | _ => False
  end.

Definition tree_msg (m : msg) : Prop := ~ sequence_msg m.

#[global] Hint Extern 1 (tree_msg _) => (unfold tree_msg; simpl; tauto) : adds.

Section Passes.

Variable w : world.
Variable filename : string.

Lemma adds_check_syntax n k l ind a : adds tree_msg (check_syntax w filename n k l ind a).
Proof.
  unfold check_syntax. destruct (match_syntax k ind l) as [m|]; [|auto with adds].
  destruct k; auto 6 with adds.
  destruct (Py.split l) as [|? [|ss1 [|? ?]]]; auto with adds.
Qed.

Lemma adds_checkCmdSyntax c : adds tree_msg (checkCmdSyntax w filename c).
Proof.
  induction c as [n k l i a cs IH] using CMD_induction. simpl.
  apply adds_bind.
  - destruct k; [apply adds_check_syntax | apply adds_ret].
  - intros a'. apply adds_bind; [by apply adds_map_each|]. intros; apply adds_ret.
Qed.

Lemma adds_checkCmdChildren c : adds tree_msg (checkCmdChildren c).
Proof.
  induction c as [n k l i a cs IH] using CMD_induction. simpl.
  generalize (findChildCmd (mkCMD n k l i a cs)). intros fc.
  apply adds_for_each. eapply Forall_impl; [exact IH|]. simpl. intros c Hc.
  apply adds_bind.
  - destruct k as [kw|]; [|apply adds_ret].
    destruct (bool_decide _); [apply adds_ret|]. destruct (key c); auto with adds.
  - intros _. apply adds_bind; [|done]. destruct k as [[]|]; auto 6 with adds.
Qed.

Lemma adds_order_after n l aft idx j me cs : adds tree_msg (order_after n l aft idx j me cs).
Proof.
  revert j me. induction cs as [|c cs IH]; intros j me; simpl; auto with adds.
Qed.

Lemma adds_order_before n l bef idx j cs : adds tree_msg (order_before n l bef idx j cs).
Proof.
  revert j. induction cs as [|c cs IH]; intros j; simpl; auto with adds.
Qed.

Lemma adds_checkCmdOrder p idx c : adds tree_msg (checkCmdOrder p idx c).
Proof.
  revert p idx. induction c as [n k l i a cs IH] using CMD_induction. intros p idx. simpl.
  apply adds_bind.
  - destruct k as [kw|]; [|apply adds_ret]. destruct p as [p|]; [|apply adds_raise].
    destruct (position_of kw p); [|apply adds_raise].
    apply adds_bind; [|intros _]; apply adds_when;
      [apply adds_order_after | apply adds_order_before].
  - intros _. generalize (Some (mkCMD n k l i a cs)). intros p'.
    apply adds_for_each_from. eapply Forall_impl; [exact IH|]. simpl. auto.
Qed.

Lemma adds_checkCmdMul p c : adds tree_msg (checkCmdMul p c).
Proof.
  revert p. induction c as [n k l i a cs IH] using CMD_induction. intros p. simpl.
  apply adds_bind.
  - destruct k as [kw|]; [|apply adds_ret]. destruct (negb _); [|apply adds_ret].
    destruct p; auto with adds.
  - intros _. generalize (Some (mkCMD n k l i a cs)). intros p'.
    apply adds_for_each. eapply Forall_impl; [exact IH|]. simpl. auto.
Qed.

Lemma adds_place i k raw ind b : adds tree_msg (place filename i k raw ind b).
Proof. unfold place. destruct (current b !! _) as [[p|]|]; auto with adds. Qed.

Lemma adds_classify i raw b : adds tree_msg (classify filename i raw b).
Proof.
  unfold classify. destruct (String.eqb _ _); [auto with adds|].
  destruct (Py.split _) as [|ss0 ?]; [apply adds_raise|].
  apply adds_bind; [auto with adds|]. intros _.
  destruct (find_keyword _) as [k|]; [|auto with adds].
  apply adds_bind; [auto with adds|]. intros _. apply adds_place.
Qed.

Lemma adds_build d : forall i b, adds tree_msg (build filename i d b).
Proof.
  induction d as [|raw d IH]; intros i b; simpl; [apply adds_ret|].
  apply adds_bind; [apply adds_classify | auto].
Qed.

End Passes.

(* ================================================================= *)
(** ** What the sequence checks emit *)

(** [a] and [b] are neighbours in [l], [a] first. *)
Definition neighbours {A} (l : list A) (a b : A) : Prop :=
  exists i, l !! i = Some a /\ l !! S i = Some b.

Lemma neighbours_cons {A} (x y : A) l a b :
  neighbours (x :: y :: l) a b <-> (a = x /\ b = y) \/ neighbours (y :: l) a b.
Proof.
  unfold neighbours. split.
  - intros ([|i] & H1 & H2); simpl in *.
    + left. split; congruence.
    + right. eauto.
  - intros [[-> ->]|(i & H1 & H2)].
    + by exists 0.
    + by exists (S i).
Qed.

Lemma neighbours_short {A} (l : list A) a b : length l <= 1 -> ~ neighbours l a b.
Proof.
  intros H (i & H1 & H2). apply lookup_lt_Some in H2. lia.
Qed.

Lemma emits_for_pairs {A} (E W : A -> A -> nat -> msg -> Prop) (check : A -> A -> M unit) l :
  (forall a b, emits (E a b) (W a b) (check a b)) ->
  emits (fun n m => exists a b, neighbours l a b /\ E a b n m)
        (fun n m => exists a b, neighbours l a b /\ W a b n m)
        (for_pairs check l).
Proof.
  intros H. induction l as [|x l IH].
  - eapply emits_ext; [apply emits_ret | |]; unfold nothing; intros n m; split; try tauto;
      intros (a & b & N & _); apply neighbours_short in N; simpl; auto.
  - destruct l as [|y l].
    + eapply emits_ext; [apply emits_ret | |]; unfold nothing; intros n m; split; try tauto;
        intros (a & b & N & _); apply neighbours_short in N; simpl; auto.
    + change (for_pairs check (x :: y :: l)) with (check x y;; for_pairs check (y :: l)).
      eapply emits_ext; [apply emits_bind; [apply H | intros _; apply IH] | |];
        unfold either; intros n m; split.
      * intros [?|(a & b & N & ?)]; [exists x, y | exists a, b];
          rewrite neighbours_cons; auto.
      * intros (a & b & [[-> ->]|N]%neighbours_cons & ?); eauto.
      * intros [?|(a & b & N & ?)]; [exists x, y | exists a, b];
          rewrite neighbours_cons; auto.
      * intros (a & b & [[-> ->]|N]%neighbours_cons & ?); eauto.
Qed.

Lemma emits_on_first (E W : CMD -> nat -> msg -> Prop) (check : CMD -> M unit) l :
  (forall x, emits (E x) (W x) (check x)) ->
  emits (fun n m => exists x0, head l = Some x0 /\ E x0 n m)
        (fun n m => exists x0, head l = Some x0 /\ W x0 n m)
        (on_first check l).
Proof.
  intros H. destruct l as [|x l]; simpl.
  - eapply emits_ext; [apply emits_ret | |]; unfold nothing; intros n m; split; try tauto;
      intros (? & ? & _); done.
  - eapply emits_ext; [apply H | |]; intros n m; split; eauto;
      intros (? & [= <-] & ?); done.
Qed.

Lemma emits_for_each {A} (E W : A -> nat -> msg -> Prop) (body : A -> M unit) l :
  (forall a, emits (E a) (W a) (body a)) ->
  emits (fun n m => exists a, a ∈ l /\ E a n m)
        (fun n m => exists a, a ∈ l /\ W a n m)
        (for_each body l).
Proof.
  intros H. induction l as [|x l IH]; simpl.
  - eapply emits_ext; [apply emits_ret | |]; unfold nothing; intros n m; split; try tauto;
      intros (? & ?%elem_of_nil & _); done.
  - eapply emits_ext; [apply emits_bind; [apply H | intros _; apply IH] | |];
      unfold either; intros n m; split.
    + intros [?|(a & ? & ?)]; [exists x | exists a]; rewrite elem_of_cons; auto.
    + intros (a & [->|?]%elem_of_cons & ?); eauto.
    + intros [?|(a & ? & ?)]; [exists x | exists a]; rewrite elem_of_cons; auto.
    + intros (a & [->|?]%elem_of_cons & ?); eauto.
Qed.

(** The diagnostic of each comparison, as a set. *)
Definition first_track_warning (t0 : CMD) : nat -> msg -> Prop :=
  fun n m => number t0 <> 1%Z /\ n = linenum t0 /\ m = FirstTrackNumber.

Definition track_pair_error (a b : CMD) : nat -> msg -> Prop :=
  fun n m => (number a + 1)%Z <> number b /\ n = linenum a
             /\ m = TrackNumberError (number a) (number b).

Definition first_time_error (x0 : CMD) : nat -> msg -> Prop :=
  fun n m => time_ne (time x0) 0 = true /\ n = linenum x0 /\ m = FirstIndexTime.

Definition time_pair_error (a b : CMD) : nat -> msg -> Prop :=
  fun n m => time_ge (time a) (time b) = true /\ n = linenum a
             /\ m = IndexTimeError (time a) (time b).

Definition first_index_error (x0 : CMD) : nat -> msg -> Prop :=
  fun n m => number x0 <> 0%Z /\ number x0 <> 1%Z /\ n = linenum x0
             /\ m = FirstIndexNumber.

Definition index_pair_error (a b : CMD) : nat -> msg -> Prop :=
  fun n m => (number a + 1)%Z <> number b /\ n = linenum a
             /\ m = IndexNumberError (number a) (number b).

Lemma emits_when_error (b : bool) (P : Prop) n l m :
  (b = true <-> P) ->
  emits (fun n' m' => P /\ n' = n /\ m' = m) nothing (when b (add_error n l m)).
Proof.
  intros H. eapply emits_ext; [apply emits_when, emits_add_error | |];
    unfold just, nothing; intros; tauto.
Qed.

Lemma emits_when_warn (b : bool) (P : Prop) n l m :
  (b = true <-> P) ->
  emits nothing (fun n' m' => P /\ n' = n /\ m' = m) (when b (add_warn n l m)).
Proof.
  intros H. eapply emits_ext; [apply emits_when, emits_add_warn | |];
    unfold just, nothing; intros; tauto.
Qed.

Lemma emits_first_track t0 : emits nothing (first_track_warning t0) (first_track t0).
Proof. apply emits_when_warn. rewrite negb_true_iff, Z.eqb_neq. done. Qed.

Lemma emits_track_pair a b : emits (track_pair_error a b) nothing (track_pair a b).
Proof. apply emits_when_error. rewrite negb_true_iff, Z.eqb_neq. done. Qed.

Lemma emits_first_time x0 : emits (first_time_error x0) nothing (first_time x0).
Proof. by apply emits_when_error. Qed.

Lemma emits_time_pair a b : emits (time_pair_error a b) nothing (time_pair a b).
Proof. by apply emits_when_error. Qed.

Lemma emits_first_index x0 : emits (first_index_error x0) nothing (first_index x0).
Proof.
  eapply emits_ext; [apply emits_when_error; reflexivity | |]; unfold first_index_error;
    intros n m; [|tauto].
  rewrite negb_true_iff, orb_false_iff, !Z.eqb_neq. tauto.
Qed.

Lemma emits_index_pair a b : emits (index_pair_error a b) nothing (index_pair a b).
Proof. apply emits_when_error. rewrite negb_true_iff, Z.eqb_neq. done. Qed.

(** Splits the disjunctions, conjunctions and witnesses of the hypotheses. *)
Ltac break_up :=
  repeat match goal with
         | H : _ \/ _ |- _ => destruct H
         | H : _ /\ _ |- _ => destruct H
         | H : exists _, _ |- _ => destruct H
         | H : False |- _ => destruct H
         end.

(** The errors and warnings of the three checks over the final tree [r]. *)
Definition track_errors (r : CMD) : nat -> msg -> Prop :=
  fun n m => exists a b, neighbours (getCmds r TRACK) a b /\ track_pair_error a b n m.

Definition track_warnings (r : CMD) : nat -> msg -> Prop :=
  fun n m => exists t0, head (getCmds r TRACK) = Some t0 /\ first_track_warning t0 n m.

Definition file_time_errors (c : CMD) : nat -> msg -> Prop :=
  fun n m =>
    (exists x0, head (getCmds c INDEX) = Some x0 /\ first_time_error x0 n m) \/
    (exists a b, neighbours (getCmds c INDEX) a b /\ time_pair_error a b n m).

Definition time_errors (r : CMD) : nat -> msg -> Prop :=
  fun n m => exists c, c ∈ getCmds r FILE /\ file_time_errors c n m.

Definition track_index_errors (c : CMD) : nat -> msg -> Prop :=
  fun n m =>
    (exists x0, head (getCmds c INDEX) = Some x0 /\ first_index_error x0 n m) \/
    (exists a b, neighbours (getCmds c INDEX) a b /\ index_pair_error a b n m).

Definition index_errors (r : CMD) : nat -> msg -> Prop :=
  fun n m => exists c, c ∈ getCmds r TRACK /\ track_index_errors c n m.

Lemma emits_check_tracks r :
  emits (track_errors r) (track_warnings r) (check_tracks (getCmds r TRACK)).
Proof.
  unfold check_tracks.
  eapply emits_ext;
    [apply emits_bind;
      [apply (emits_on_first (fun _ => nothing) first_track_warning), emits_first_track
      | intros _; apply (emits_for_pairs track_pair_error (fun _ _ => nothing)), emits_track_pair] | |];
    unfold either, nothing, track_errors, track_warnings; intros n m; split; intros; break_up; eauto 9.
Qed.

Lemma emits_check_file_times c :
  emits (file_time_errors c) nothing (check_file_times c).
Proof.
  unfold check_file_times, file_time_errors.
  eapply emits_ext;
    [apply emits_bind;
      [apply (emits_on_first first_time_error (fun _ => nothing)), emits_first_time
      | intros _; apply (emits_for_pairs time_pair_error (fun _ _ => nothing)), emits_time_pair] | |];
    unfold either, nothing; intros n m; split; intros; break_up; eauto 9.
Qed.

Lemma emits_check_track_indexes c :
  emits (track_index_errors c) nothing (check_track_indexes c).
Proof.
  unfold check_track_indexes, track_index_errors.
  eapply emits_ext;
    [apply emits_bind;
      [apply (emits_on_first first_index_error (fun _ => nothing)), emits_first_index
      | intros _; apply (emits_for_pairs index_pair_error (fun _ _ => nothing)), emits_index_pair] | |];
    unfold either, nothing; intros n m; split; intros; break_up; eauto 9.
Qed.

Lemma emits_sequence_checks r :
  emits (fun n m => track_errors r n m \/ time_errors r n m \/ index_errors r n m)
        (track_warnings r) (sequence_checks r).
Proof.
  unfold sequence_checks.
  eapply emits_ext;
    [apply emits_bind;
      [apply emits_check_tracks
      | intros _; apply emits_bind;
         [apply (emits_for_each file_time_errors (fun _ => nothing)), emits_check_file_times
         | intros _; apply (emits_for_each track_index_errors (fun _ => nothing)),
                       emits_check_track_indexes]] | |];
    unfold either, nothing, time_errors, index_errors; intros n m; split; intros; break_up; eauto 9.
Qed.

(* ================================================================= *)
(** ** The stages of a run that returns *)

Section Stages.

Variable w : world.
Variable filename : string.

(** The states between the stages of a run of [cuecheck] that returns
    [(errs, warns, r)]. *)
Record stages (errs warns : cueSynerrList.t) (r : CMD)
    (st_text : string) (st_built : builder) (st_s0 st_s1 st_s2 st_s3 st_s4 : diags)
  : Prop := mkStages {
  st_ext : splitext_ext filename = ".cue";
  st_isfile : isfile w filename = true;
  st_read : read w filename = Text st_text;
  st_lines : Py.splitlines st_text <> [];
  st_build : build filename 0 (Py.splitlines st_text) (start w filename) no_diags
             = Return (st_built, st_s0);
  st_syntax : checkCmdSyntax w filename (root st_built) st_s0 = Return (r, st_s1);
  st_children : checkCmdChildren r st_s1 = Return (tt, st_s2);
  st_mul : checkCmdMul None r st_s2 = Return (tt, st_s3);
  st_order : checkCmdOrder None 0 r st_s3 = Return (tt, st_s4);
  st_sequence : sequence_checks r st_s4 = Return (tt, mkDiags errs warns)
}.

Lemma cuecheck_stages errs warns r :
  cuecheck w filename = Return (errs, warns, r) ->
  exists text b s0 s1 s2 s3 s4, stages errs warns r text b s0 s1 s2 s3 s4.
Proof.
  unfold cuecheck.
  destruct (String.eqb_spec (splitext_ext filename) ".cue") as [Hext|]; simpl; [|done].
  destruct (isfile w filename) eqn:Hf; simpl; [|done].
  destruct (read w filename) as [text| |] eqn:Hr; [|done|done].
  destruct (Py.splitlines text) as [|l0 d] eqn:Hd; [done|].
  destruct (check_lines _ _ _ _) as [|[r' st]] eqn:Hc; [done|].
  intros [= <- <- <-]. unfold check_lines in Hc.
  apply bind_Return in Hc as (b & s0 & Hb & Hv). unfold validate in Hv.
  apply bind_Return in Hv as (r1 & s1 & H1 & Hv).
  apply bind_Return in Hv as ([] & s2 & H2 & Hv).
  apply bind_Return in Hv as ([] & s3 & H3 & Hv).
  apply bind_Return in Hv as ([] & s4 & H4 & Hv).
  apply bind_Return in Hv as ([] & s5 & H5 & [= <- <-]).
  destruct s5 as [e5 w5]. simpl.
  exists text, b, s0, s1, s2, s3, s4. split; try done.
  - by rewrite Hd.
  - by rewrite Hd.
Qed.

(** The messages recorded when the last tree pass is over are messages of
    the tree passes. *)
Lemma stages_tree_msgs errs warns r text b s0 s1 s2 s3 s4 :
  stages errs warns r text b s0 s1 s2 s3 s4 ->
  (forall n m, recorded (errorlist s4) n m -> tree_msg m) /\
  (forall n m, recorded (warnlist s4) n m -> tree_msg m).
Proof.
  intros [? ? ? ? Hb H1 H2 H3 H4 H5].
  apply adds_build in Hb as (_ & B1 & B2).
  apply adds_checkCmdSyntax in H1 as (_ & C1 & C2).
  apply adds_checkCmdChildren in H2 as (_ & D1 & D2).
  apply adds_checkCmdMul in H3 as (_ & E1 & E2).
  apply adds_checkCmdOrder in H4 as (_ & F1 & F2).
  assert (N : forall n m, ~ recorded [] n m).
  { intros n m (e & He%elem_of_nil & _). done. }
  split; intros n m Hr.
  - apply F1 in Hr as [Hr|]; [|done]. apply E1 in Hr as [Hr|]; [|done].
    apply D1 in Hr as [Hr|]; [|done]. apply C1 in Hr as [Hr|]; [|done].
    apply B1 in Hr as [Hr|]; [|done]. by apply N in Hr.
  - apply F2 in Hr as [Hr|]; [|done]. apply E2 in Hr as [Hr|]; [|done].
    apply D2 in Hr as [Hr|]; [|done]. apply C2 in Hr as [Hr|]; [|done].
    apply B2 in Hr as [Hr|]; [|done]. by apply N in Hr.
Qed.

(** The sequence messages of a run are exactly those of the three checks
    over the tree it returns. *)
Lemma sequence_errors_exact errs warns r n m :
  cuecheck w filename = Return (errs, warns, r) -> sequence_msg m ->
  (recorded errs n m <-> track_errors r n m \/ time_errors r n m \/ index_errors r n m).
Proof.
  intros (text & b & s0 & s1 & s2 & s3 & s4 & S)%cuecheck_stages Hm.
  destruct (stages_tree_msgs _ _ _ _ _ _ _ _ _ _ S) as [T _].
  destruct (emits_sequence_checks r _ _ _ (st_sequence _ _ _ _ _ _ _ _ _ _ S)) as [E _].
  simpl in E.
  rewrite E. split; [|tauto]. intros [Hr|]; [|done]. apply T in Hr. done.
Qed.

Lemma sequence_warnings_exact errs warns r n m :
  cuecheck w filename = Return (errs, warns, r) -> sequence_msg m ->
  (recorded warns n m <-> track_warnings r n m).
Proof.
  intros (text & b & s0 & s1 & s2 & s3 & s4 & S)%cuecheck_stages Hm.
  destruct (stages_tree_msgs _ _ _ _ _ _ _ _ _ _ S) as [_ T].
  destruct (emits_sequence_checks r _ _ _ (st_sequence _ _ _ _ _ _ _ _ _ _ S)) as [_ E].
  simpl in E.
  rewrite E. split; [|tauto]. intros [Hr|]; [|done]. apply T in Hr. done.
Qed.

End Stages.

(* ================================================================= *)
(** ** Facts about strings *)

Module PyFacts.

Import Py.

Lemma app_cons c s t : String c s +:+ t = String c (s +:+ t).
Proof. reflexivity. Qed.

Lemma app_empty_l t : "" +:+ t = t.
Proof. reflexivity. Qed.

Lemma app_empty_r s : s +:+ "" = s.
Proof. induction s as [|c s IH]; [done|]. by rewrite app_cons, IH. Qed.

Lemma app_assoc s t u : (s +:+ t) +:+ u = s +:+ t +:+ u.
Proof. induction s as [|c s IH]; [done|]. by rewrite !app_cons, IH. Qed.

(** No character of [s] is whitespace. *)
Fixpoint word (s : string) : bool :=
  match s with
  | EmptyString => true
  | String c s' => negb (isspace c) && word s'
  end.

(** The run being read, as a string. *)
Definition run (tok : option string) : string := default EmptyString tok.

Lemma split_from_Some_nonempty t s : split_from (Some t) s <> [].
Proof.
  revert t. induction s as [|c s IH]; intros t; simpl; [done|].
  destruct (isspace c); [done | apply IH].
Qed.

Lemma split_from_char tok c s :
  isspace c = false ->
  split_from tok (String c s) = split_from (Some (run tok +:+ String c "")) s.
Proof. intros H. simpl. rewrite H. by destruct tok. Qed.

Lemma split_from_space tok c s :
  isspace c = true ->
  split_from tok (String c s)
  = match tok with Some t => t :: split_from None s | None => split_from None s end.
Proof. intros H. simpl. by rewrite H. Qed.

(** A word in front of the input extends the run being read. *)
Lemma split_from_word name tok s :
  word name = true -> name <> "" ->
  split_from tok (name +:+ s) = split_from (Some (run tok +:+ name)) s.
Proof.
  revert tok. induction name as [|c name IH]; intros tok Hw Hn; [done|].
  simpl in Hw. apply andb_prop in Hw as [Hc Hw]. apply negb_true_iff in Hc.
  rewrite app_cons, split_from_char by done.
  destruct name as [|c' name']; [done|].
  rewrite IH by done. simpl run. by rewrite app_assoc.
Qed.

Lemma split_from_spaces n s : split_from None (spaces n +:+ s) = split_from None s.
Proof. induction n as [|n IH]; [done|]. simpl spaces. by rewrite app_cons. Qed.

(** The first token of a line that starts with spaces, a word and a space. *)
Lemma split_indented_word n name rest :
  word name = true -> name <> "" ->
  split (spaces n +:+ name +:+ String " " rest) = name :: split rest.
Proof.
  intros Hw Hn. unfold split. rewrite split_from_spaces, split_from_word by done.
  by rewrite split_from_space.
Qed.

Lemma split_from_rstrip tok s : split_from tok (rstrip s) = split_from tok s.
Proof.
  revert tok. induction s as [|c s IH]; intros tok; [done|].
  simpl rstrip. destruct (rstrip s) as [|c' r] eqn:Hr.
  - destruct (isspace c) eqn:Hc.
    + rewrite split_from_space by done. rewrite <- !IH. by destruct tok.
    + rewrite !split_from_char by done. by rewrite <- IH.
  - destruct (isspace c) eqn:Hc.
    + rewrite (split_from_space tok c s), (split_from_space tok c (String c' r)) by done.
      by rewrite <- !IH.
    + rewrite (split_from_char tok c s), (split_from_char tok c (String c' r)) by done.
      by rewrite <- IH.
Qed.

Lemma split_from_lstrip s : split_from None (lstrip s) = split_from None s.
Proof.
  induction s as [|c s IH]; [done|]. simpl lstrip. destruct (isspace c) eqn:Hc; [|done].
  by rewrite split_from_space.
Qed.

Lemma split_from_collapse b tok s :
  (b = true -> tok = None) ->
  split_from tok (collapse_from b s) = split_from tok s.
Proof.
  revert b tok. induction s as [|c s IH]; intros b tok Hb; [done|].
  simpl collapse_from. destruct (isspace c) eqn:Hc.
  - rewrite (split_from_space tok c) by done. destruct b.
    + rewrite Hb by done. by apply IH.
    + rewrite split_from_space by done.
      rewrite (IH true None) by done. done.
  - rewrite !split_from_char by done. apply IH. done.
Qed.

(** The tokens of the collapsed and stripped line are those of the line. *)
Lemma split_normalised s : split (strip (collapse s)) = split s.
Proof.
  unfold split, strip, collapse.
  rewrite split_from_rstrip, split_from_lstrip. by apply split_from_collapse.
Qed.

Lemma lstrip_head s :
  lstrip s = "" \/ exists c s', lstrip s = String c s' /\ isspace c = false.
Proof.
  induction s as [|c s IH]; [by left|]. simpl. destruct (isspace c) eqn:Hc; [done|].
  right. eauto.
Qed.

(** A line that is not blank has a first token. *)
Lemma split_not_blank s : strip (collapse s) <> "" -> split s <> [].
Proof.
  intros H E. apply H. unfold strip.
  destruct (lstrip_head (collapse s)) as [->|(c & s' & Hl & Hc)]; [done|].
  exfalso. rewrite <- split_normalised in E. unfold split, strip in E.
  rewrite split_from_rstrip, Hl, split_from_char in E by done.
  by apply split_from_Some_nonempty in E.
Qed.

Lemma split_blank s : strip (collapse s) = "" -> split s = [].
Proof. intros H. by rewrite <- split_normalised, H. Qed.

Lemma getSpace_spaces n s : getSpace (spaces n +:+ s) = n + getSpace s.
Proof. induction n as [|n IH]; [done|]. simpl. by rewrite IH. Qed.

End PyFacts.

(* ================================================================= *)
(** ** Facts about the matcher and the syntax rules *)

Module ReFacts.

Import Re PyFacts.

(** What is left of [s] behind the prefix [p]. *)
Fixpoint strip_prefix (p s : string) : option string :=
  match p, s with
  | EmptyString, _ => Some s
  | String c p', String c' s' => if Ascii.eqb c c' then strip_prefix p' s' else None
  | String _ _, EmptyString => None
  end.

Lemma strip_prefix_Some p s s' : strip_prefix p s = Some s' <-> s = p +:+ s'.
Proof.
  revert s. induction p as [|c p IH]; intros s; simpl.
  - rewrite app_empty_l. split; congruence.
  - destruct s as [|c' s]; [done|]. rewrite app_cons.
    destruct (Ascii.eqb_spec c c') as [->|N].
    + rewrite IH. split; congruence.
    + split; [done | congruence].
Qed.

Lemma rmatch_lit p s g k :
  rmatch (lit p) s g k
  = match strip_prefix p s with Some s' => k s' g | None => None end.
Proof.
  revert s. induction p as [|c p IH]; intros s; simpl; [done|].
  destruct s as [|c' s]; [done|]. destruct (Ascii.eqb c c'); [apply IH | done].
Qed.

Lemma rmatch_Cat r1 r2 s g k :
  rmatch (Cat r1 r2) s g k = rmatch r1 s g (fun s' g' => rmatch r2 s' g' k).
Proof. reflexivity. Qed.

(** Every rule starts with its keyword and asks for a space behind it. *)
Lemma syntax_starts_with_keyword k s g cont :
  rmatch (Rule.syntax (commands k)) s g cont <> None ->
  exists rest, s = keyword_name k +:+ String " " rest.
Proof.
  destruct k; cbn [commands Rule.syntax]; unfold text_rule; rewrite rmatch_Cat, rmatch_lit;
    try (destruct (strip_prefix _ s) as [s'|] eqn:Hp; [|done];
         apply strip_prefix_Some in Hp; intros _; exists s'; rewrite Hp; reflexivity).
  destruct (strip_prefix _ s) as [s'|] eqn:Hp; [|done].
  apply strip_prefix_Some in Hp. intros H. destruct s' as [|c s']; cbn -[Ascii.eqb] in H; [done|].
  destruct (Ascii.eqb_spec " " c) as [<-|]; [|done].
  exists s'. rewrite Hp. reflexivity.
Qed.

(** A match of a rule at depth [ind]: the line has the shape the rule
    prescribes up to the space behind the keyword. *)
Lemma match_syntax_shape k ind raw :
  match_syntax k ind raw <> None ->
  exists rest, raw = Py.spaces ind +:+ keyword_name k +:+ String " " rest.
Proof.
  unfold match_syntax, re_match. rewrite rmatch_Cat, rmatch_lit.
  destruct (strip_prefix _ raw) as [s'|] eqn:Hp; [|done].
  apply strip_prefix_Some in Hp. intros [rest ->]%syntax_starts_with_keyword.
  by exists rest.
Qed.

Lemma keyword_name_word k :
  PyFacts.word (keyword_name k) = true /\ keyword_name k <> "" /\
  Py.isupper (keyword_name k) = true /\ getSpace (keyword_name k) = 0.
Proof. destruct k; done. Qed.

(** A rule only matches at the depth the line has. *)
Lemma match_syntax_depth k ind raw :
  match_syntax k ind raw <> None -> getSpace raw = ind.
Proof.
  intros (rest & ->)%match_syntax_shape. rewrite getSpace_spaces.
  destruct (keyword_name_word k) as (_ & Hn & _ & H).
  destruct (keyword_name k) as [|c n]; [done|]. rewrite app_cons.
  cbn [getSpace] in *. destruct (Ascii.eqb c " "); [done | lia].
Qed.

(** A rule only matches a line whose first token is the keyword. *)
Lemma match_syntax_first_token k ind raw :
  match_syntax k ind raw <> None ->
  exists rest, Py.split raw = keyword_name k :: rest.
Proof.
  intros (rest & ->)%match_syntax_shape.
  destruct (keyword_name_word k) as (Hw & Hn & _).
  rewrite split_indented_word by done. eauto.
Qed.

End ReFacts.

(* ================================================================= *)
(** ** The syntax pass as a map over the tree *)

Section SyntaxPass.

Variable w : world.
Variable filename : string.

(** A computation that returns whatever the state is. *)
Definition total {A} (c : M A) : Prop := forall st, exists a st', c st = Return (a, st').

Lemma total_ret {A} (a : A) : total (ret a).
Proof. intros st. by exists a, st. Qed.

Lemma total_bind {A B} (c : M A) (f : A -> M B) :
  total c -> (forall a, total (f a)) -> total (bind c f).
Proof.
  intros H1 H2 st. destruct (H1 st) as (a & st' & Hc).
  destruct (H2 a st') as (b & st'' & Hf). exists b, st''.
  apply bind_Return. eauto.
Qed.

Lemma total_add_error n l m : total (add_error n l m).
Proof. intros st. eexists _, _. reflexivity. Qed.

Lemma total_add_warn n l m : total (add_warn n l m).
Proof. intros st. eexists _, _. reflexivity. Qed.

Lemma total_when b c : total c -> total (when b c).
Proof. destruct b; [done | intros _; apply total_ret]. Qed.

Lemma total_for_each {A} (body : A -> M unit) l :
  Forall (fun a => total (body a)) l -> total (for_each body l).
Proof.
  induction 1 as [|a l Ha _ IH]; simpl; [apply total_ret|].
  apply total_bind; auto.
Qed.

Lemma total_for_each_from {A} (body : nat -> A -> M unit) j l :
  Forall (fun a => forall j, total (body j a)) l -> total (for_each_from body j l).
Proof.
  intros H. revert j. induction H as [|a l Ha _ IH]; intros j; simpl; [apply total_ret|].
  apply total_bind; auto.
Qed.

Lemma total_for_pairs {A} (check : A -> A -> M unit) l :
  (forall a b, total (check a b)) -> total (for_pairs check l).
Proof.
  intros H. induction l as [|a l IH]; [apply total_ret|].
  destruct l as [|b l]; [apply total_ret|].
  change (for_pairs check (a :: b :: l)) with (check a b;; for_pairs check (b :: l)).
  apply total_bind; auto.
Qed.

(** The attributes of a node with key [k] after [checkCmdSyntax]. *)
Definition attrs_after (n : nat) (k : keyword) (l : string) (ind : nat) (a : attrs)
  : attrs :=
  match check_syntax w filename n k l ind a no_diags with
  | Return (a', _) => a'
  | Raise _ => a
  end.

Lemma check_syntax_spec n k l ind a st :
  exists st', check_syntax w filename n k l ind a st
              = Return (attrs_after n k l ind a, st').
Proof.
  unfold attrs_after, check_syntax.
  destruct (match_syntax k ind l) as [m|]; [|by eexists].
  destruct k; unfold bind, when, ret;
    repeat match goal with
           | |- context [if ?b then _ else _] => destruct b
           | |- context [match Py.split ?s with _ => _ end] =>
               destruct (Py.split s) as [|? [|? [|? ?]]]
           end; by eexists.
Qed.

Lemma attrs_after_no_match n k l ind a :
  match_syntax k ind l = None -> attrs_after n k l ind a = a.
Proof. unfold attrs_after, check_syntax. by intros ->. Qed.

Lemma check_syntax_no_match n k l ind a st a' st' :
  match_syntax k ind l = None ->
  check_syntax w filename n k l ind a st = Return (a', st') ->
  a' = a /\ recorded (errorlist st') n CommandSyntaxError.
Proof.
  unfold check_syntax. intros ->. intros (u & s1 & H1 & [= <- <-])%bind_Return.
  split; [done|]. destruct (emits_add_error _ _ _ _ _ _ H1) as [E _].
  apply E. right. done.
Qed.

(** The tree after [checkCmdSyntax]. *)
Fixpoint set_attrs (t : CMD) : CMD :=
  let 'mkCMD n k l ind a cs := t in
  mkCMD n k l ind
        match k with Some kw => attrs_after n kw l ind a | None => a end
        (map set_attrs cs).

Lemma map_each_spec {A B} (f : A -> M B) (g : A -> B) l :
  Forall (fun a => forall st, exists st', f a st = Return (g a, st')) l ->
  forall st, exists st', map_each f l st = Return (map g l, st').
Proof.
  induction 1 as [|a l Ha _ IH]; intros st; simpl; [by eexists|].
  destruct (Ha st) as (s1 & H1). destruct (IH s1) as (s2 & H2).
  exists s2. unfold bind. by rewrite H1, H2.
Qed.

Lemma checkCmdSyntax_spec t st :
  exists st', checkCmdSyntax w filename t st = Return (set_attrs t, st').
Proof.
  revert st. induction t as [n k l i a cs IH] using CMD_induction. intros st. simpl.
  assert (exists s1, match k with
                     | Some kw => check_syntax w filename n kw l i a
                     | None => ret a
                     end st
                     = Return (match k with
                               | Some kw => attrs_after n kw l i a
                               | None => a
                               end, s1)) as (s1 & H1).
  { destruct k; [apply check_syntax_spec | by eexists]. }
  destruct (map_each_spec _ _ _ IH s1) as (s2 & H2).
  exists s2. unfold bind. by rewrite H1, H2.
Qed.

Lemma checkCmdSyntax_value t st t' st' :
  checkCmdSyntax w filename t st = Return (t', st') -> t' = set_attrs t.
Proof.
  intros H. destruct (checkCmdSyntax_spec t st) as (s & Hs). congruence.
Qed.

Lemma set_attrs_fields t :
  linenum (set_attrs t) = linenum t /\ key (set_attrs t) = key t /\
  line (set_attrs t) = line t /\ indent (set_attrs t) = indent t /\
  children (set_attrs t) = map set_attrs (children t).
Proof. by destruct t. Qed.

Lemma flat_map_map {A B C} (f : B -> list C) (g : A -> B) l :
  flat_map f (map g l) = flat_map (fun x => f (g x)) l.
Proof. induction l as [|x l IH]; simpl; [done | by rewrite IH]. Qed.

Lemma map_flat_map {A B C} (f : A -> list B) (g : B -> C) l :
  map g (flat_map f l) = flat_map (fun x => map g (f x)) l.
Proof. induction l as [|x l IH]; simpl; [done | by rewrite map_app, IH]. Qed.

Lemma flat_map_ext_Forall {A B} (f g : A -> list B) l :
  Forall (fun x => f x = g x) l -> flat_map f l = flat_map g l.
Proof. induction 1 as [|x l H _ IH]; simpl; [done | by rewrite H, IH]. Qed.

Lemma nodes_set_attrs t : nodes (set_attrs t) = map set_attrs (nodes t).
Proof.
  induction t as [n k l i a cs IH] using CMD_induction. simpl. f_equal.
  rewrite flat_map_map, map_flat_map. by apply flat_map_ext_Forall.
Qed.

Lemma getCmds_set_attrs t k : getCmds (set_attrs t) k = map set_attrs (getCmds t k).
Proof.
  induction t as [n kt l i a cs IH] using CMD_induction. simpl.
  rewrite map_app. f_equal; [by destruct (bool_decide _)|].
  rewrite flat_map_map, map_flat_map. by apply flat_map_ext_Forall.
Qed.

(** The syntax pass records the error of every node whose line does not
    match its rule. *)
Lemma grows_map_each_syntax cs s1 cs' s2 :
  map_each (checkCmdSyntax w filename) cs s1 = Return (cs', s2) -> grows s1 s2.
Proof.
  intros H. eapply (adds_map_each tree_msg); [|exact H].
  apply Forall_forall. intros; apply adds_checkCmdSyntax.
Qed.

Lemma checkCmdSyntax_records t st t' st' x k :
  checkCmdSyntax w filename t st = Return (t', st') ->
  x ∈ nodes t -> key x = Some k -> match_syntax k (indent x) (line x) = None ->
  recorded (errorlist st') (linenum x) CommandSyntaxError.
Proof.
  revert st t' st'. induction t as [n kt l i a cs IH] using CMD_induction.
  intros st t' st' H Hx Hk Hm. simpl in H.
  apply bind_Return in H as (a' & s1 & H1 & H).
  apply bind_Return in H as (cs' & s2 & H2 & [= E1 E2]). subst t' s2.
  simpl in Hx. apply elem_of_cons in Hx as [->|Hx].
  - simpl in *. subst kt. destruct (check_syntax_no_match _ _ _ _ _ _ _ _ Hm H1) as [_ R].
    by apply (grows_map_each_syntax _ _ _ _ H2).
  - clear H1. revert s1 cs' H2. induction IH as [|c cs Hc _ IHcs]; intros s1 cs' H2.
    + by apply elem_of_nil in Hx.
    + simpl in Hx, H2. apply list_elem_of_In in Hx. apply in_app_or in Hx.
      apply bind_Return in H2 as (c' & s3 & H3 & H2).
      apply bind_Return in H2 as (r & s4 & H4 & [= E1 E2]). subst cs' s4.
      destruct Hx as [Hx|Hx].
      * apply (grows_map_each_syntax _ _ _ _ H4).
        eapply Hc; eauto. by apply list_elem_of_In.
      * eapply IHcs; eauto. by apply list_elem_of_In.
Qed.

End SyntaxPass.

(* ================================================================= *)
(** ** The tree under construction *)

(** What a node is made from, and its attributes. *)
Definition header (c : CMD) : nat * option keyword * string * nat * attrs :=
  (linenum c, key c, line c, indent c, dict c).

Definition headers (t : CMD) : list (nat * option keyword * string * nat * attrs) :=
  map header (nodes t).

Lemma lookup_split {A} (l : list A) i x :
  l !! i = Some x -> exists l1 l2, l = l1 ++ x :: l2 /\ length l1 = i.
Proof.
  intros H. exists (take i l), (drop (S i) l). split.
  - by rewrite take_drop_middle.
  - apply length_take_le. apply lookup_lt_Some in H. lia.
Qed.

Lemma alter_middle {A} (f : A -> A) l1 x l2 :
  alter f (length l1) (l1 ++ x :: l2) = l1 ++ f x :: l2.
Proof. rewrite alter_app_r_alt by lia. by rewrite Nat.sub_diag. Qed.

Lemma header_append_child p c t : header (append_child p c t) = header t.
Proof. destruct t, p; reflexivity. Qed.

Lemma key_append_child p c t : key (append_child p c t) = key t.
Proof. destruct t, p; reflexivity. Qed.

Lemma indent_append_child p c t : indent (append_child p c t) = indent t.
Proof. destruct t, p; reflexivity. Qed.

Lemma nodes_head t : exists rest, nodes t = t :: rest.
Proof. destruct t. simpl. eauto. Qed.

Lemma nodes_children t : nodes t = t :: flat_map nodes (children t).
Proof. by destruct t. Qed.

Lemma flat_map_app' {A B} (f : A -> list B) l1 l2 :
  flat_map f (l1 ++ l2) = flat_map f l1 ++ flat_map f l2.
Proof. induction l1 as [|x l1 IH]; simpl; [done|]. by rewrite IH, app_assoc. Qed.

(** Appending a child at a path that exists adds the nodes of the child and
    keeps what the other nodes are made from. *)
Lemma headers_append_child p c t x :
  node_at p t = Some x ->
  headers (append_child p c t) ≡ₚ headers t ++ headers c.
Proof.
  unfold headers. revert t. induction p as [|j p IH]; intros [n k l i a cs] H.
  - simpl. rewrite flat_map_app', !map_app. simpl. rewrite app_nil_r.
    constructor. done.
  - simpl in H. destruct (cs !! j) as [cj|] eqn:Hj; [|done].
    destruct (lookup_split _ _ _ Hj) as (l1 & l2 & -> & <-).
    cbn [append_child]. rewrite alter_middle. cbn [nodes].
    rewrite !flat_map_app'. cbn [flat_map]. rewrite !map_cons, !map_app.
    constructor. rewrite (IH _ H). solve_Permutation.
Qed.

Lemma node_at_append_child_new p c t x :
  node_at p t = Some x ->
  node_at (p ++ [length (children x)]) (append_child p c t) = Some c.
Proof.
  revert t. induction p as [|j p IH]; intros [n k l i a cs] H.
  - injection H as <-. simpl. by rewrite list_lookup_middle.
  - simpl in H. destruct (cs !! j) as [cj|] eqn:Hj; [|done].
    cbn [app node_at append_child children]. rewrite list_lookup_alter_eq, Hj. simpl.
    by apply IH.
Qed.

Lemma node_at_append_child_old q p c t y :
  node_at q t = Some y ->
  exists y', node_at q (append_child p c t) = Some y' /\ key y' = key y.
Proof.
  revert p t. induction q as [|j q IH]; intros p [n k l i a cs] H.
  - injection H as <-. exists (append_child p c (mkCMD n k l i a cs)).
    split; [done|]. apply key_append_child.
  - simpl in H. destruct (cs !! j) as [cj|] eqn:Hj; [|done].
    destruct p as [|j' p]; cbn [append_child node_at children].
    + rewrite lookup_app_l by (by eapply lookup_lt_Some). rewrite Hj. eauto.
    + destruct (decide (j' = j)) as [->|N].
      * rewrite list_lookup_alter_eq, Hj. simpl. by apply IH.
      * rewrite list_lookup_alter_ne by done. rewrite Hj. eauto.
Qed.

(** A node is the root or a child of a node. *)
Lemma nodes_parent t x :
  x ∈ nodes t -> x = t \/ exists y, y ∈ nodes t /\ x ∈ children y.
Proof.
  induction t as [n k l i a cs IH] using CMD_induction. simpl.
  intros [->|Hx]%elem_of_cons; [by left|]. right.
  apply list_elem_of_In, in_flat_map in Hx as (c & Hc & Hx).
  apply list_elem_of_In in Hc, Hx. rewrite Forall_forall in IH.
  destruct (IH c Hc Hx) as [->|(y & Hy & Hxy)].
  - exists (mkCMD n k l i a cs). split; [left | done].
  - exists y. split; [|done]. right. apply list_elem_of_In, in_flat_map.
    exists c. split; by apply list_elem_of_In.
Qed.

Lemma nodes_child t c x : c ∈ children t -> x ∈ nodes c -> x ∈ nodes t.
Proof.
  intros Hc Hx. rewrite nodes_children. right. apply list_elem_of_In, in_flat_map.
  exists c. split; by apply list_elem_of_In.
Qed.

(** The key of the ancestor a node of depth [ind] attaches to. *)
Definition level_key (ind : nat) : option keyword :=
  match ind / 2 with
  | 0 => None
  | 1 => Some FILE
  | _ => Some TRACK
  end.

(** A child [c] of a node with key [parent] sits where its keyword and its
    depth put it. *)
Definition fits (parent : option keyword) (c : CMD) : Prop :=
  exists kc, key c = Some kc /\ indent c ∈ Rule.indent (commands kc)
             /\ level_key (indent c) = parent.

#[warnings="-register-all"]
Inductive placed : CMD -> Prop :=
  | placed_node n k l i a cs :
      Forall (fits k) cs -> Forall placed cs -> placed (mkCMD n k l i a cs).

Lemma placed_inv t : placed t -> Forall (fits (key t)) (children t) /\ Forall placed (children t).
Proof. by intros []. Qed.

Lemma fits_append_child k p c t : fits k t -> fits k (append_child p c t).
Proof.
  intros (kc & H1 & H2 & H3). exists kc.
  by rewrite key_append_child, indent_append_child.
Qed.

Lemma placed_append_child p c t x :
  placed t -> node_at p t = Some x -> fits (key x) c -> placed c ->
  placed (append_child p c t).
Proof.
  revert t. induction p as [|j p IH]; intros [n k l i a cs] Ht H Hf Hc.
  - injection H as <-. apply placed_inv in Ht as [F1 F2]. simpl in *.
    constructor; apply Forall_app; auto.
  - simpl in H. destruct (cs !! j) as [cj|] eqn:Hj; [|done].
    apply placed_inv in Ht as [F1 F2]. simpl in *. constructor.
    + apply Forall_alter; [done|]. intros y Hy. apply fits_append_child.
    + apply Forall_alter; [done|]. intros y Hy Py.
      assert (y = cj) as -> by congruence. by apply IH.
Qed.

Lemma placed_nodes t x : placed t -> x ∈ nodes t -> placed x.
Proof.
  induction t as [n k l i a cs IH] using CMD_induction. intros Ht.
  simpl. intros [->|Hx]%elem_of_cons; [done|].
  apply placed_inv in Ht as [_ F]. simpl in F.
  apply list_elem_of_In, in_flat_map in Hx as (c & Hc & Hx).
  apply list_elem_of_In in Hc, Hx. rewrite Forall_forall in IH, F. eauto.
Qed.

(* ================================================================= *)
(** ** The line classifier and the tree builder *)

(** The keyword of a line: its first token in upper case, when that is a
    key of [commands]. *)
Definition line_keyword (raw : string) : option keyword :=
  match Py.split raw with
  | ss0 :: _ => find_keyword (Py.upper ss0)
  | [] => None
  end.

(** Whether the first token of a line is upper-case. *)
Definition capital (raw : string) : bool :=
  match Py.split raw with
  | ss0 :: _ => Py.isupper ss0
  | [] => true
  end.

(** Whether the number of leading spaces of a line is permitted for [k]. *)
Definition depth_ok (k : keyword) (raw : string) : bool :=
  bool_decide (getSpace raw ∈ Rule.indent (commands k)).

(** The depth of the node of a line with keyword [k]. *)
Definition depth_of (k : keyword) (raw : string) : nat :=
  if depth_ok k raw then getSpace raw else coerced_indent (Rule.indent (commands k)).

(** The node of line [d[i]]. *)
Definition new_node (i : nat) (k : keyword) (raw : string) : CMD :=
  mkCMD (i + 1) (Some k) raw (depth_of k raw) no_attrs [].

Lemma coerced_indent_permitted k :
  coerced_indent (Rule.indent (commands k)) ∈ Rule.indent (commands k).
Proof. destruct k; cbn; repeat constructor. Qed.

Lemma depth_of_permitted k raw : depth_of k raw ∈ Rule.indent (commands k).
Proof.
  unfold depth_of, depth_ok. case_bool_decide; [done | apply coerced_indent_permitted].
Qed.

(** The permitted depths are 0, 2 and 4. *)
Lemma permitted_depths k ind :
  ind ∈ Rule.indent (commands k) -> ind = 0 \/ ind = 2 \/ ind = 4.
Proof.
  destruct k; cbn; intros H;
    repeat (apply elem_of_cons in H as [->|H]; [tauto|]); by apply elem_of_nil in H.
Qed.

Section Builder.

Variable filename : string.

(** The body of the loop, by the tokens of the line itself. *)
Lemma classify_unfold i raw b st :
  classify filename i raw b st
  = match Py.split raw with
    | [] => (add_error (i + 1) raw IsBlank;; ret b) st
    | ss0 :: _ =>
        (when (negb (Py.isupper ss0)) (add_error (i + 1) raw NotCapital);;
         match find_keyword (Py.upper ss0) with
         | None => add_error (i + 1) raw CommandNotFound;; ret b
         | Some k =>
             when (negb (depth_ok k raw)) (add_error (i + 1) raw IndentError);;
             place filename i k raw (depth_of k raw) b
         end) st
    end.
Proof.
  unfold classify. destruct (String.eqb_spec (Py.strip (Py.collapse raw)) "") as [E|N].
  - by rewrite (PyFacts.split_blank _ E).
  - pose proof (PyFacts.split_not_blank _ N) as H. rewrite PyFacts.split_normalised.
    destruct (Py.split raw); done.
Qed.

(** A line without a keyword leaves the tree as it is. *)
Lemma classify_no_keyword i raw b st :
  line_keyword raw = None ->
  exists st', classify filename i raw b st = Return (b, st').
Proof.
  unfold line_keyword. rewrite classify_unfold. intros H.
  destruct (Py.split raw) as [|ss0 ?]; [by eexists|].
  rewrite H. unfold bind, when. destruct (negb _); by eexists.
Qed.

(** A line with a keyword is placed, after its diagnostics. *)
Lemma classify_keyword i raw b st k :
  line_keyword raw = Some k ->
  exists st', grows st st' /\
    (capital raw = false -> recorded (errorlist st') (i + 1) NotCapital) /\
    (depth_ok k raw = false -> recorded (errorlist st') (i + 1) IndentError) /\
    classify filename i raw b st = place filename i k raw (depth_of k raw) b st'.
Proof.
  unfold line_keyword, capital. rewrite classify_unfold. intros H.
  destruct (Py.split raw) as [|ss0 ?]; [done|]. rewrite H.
  destruct (total_when (negb (Py.isupper ss0)) _ (total_add_error (i + 1) raw NotCapital) st)
    as ([] & s1 & H1).
  destruct (total_when (negb (depth_ok k raw)) _ (total_add_error (i + 1) raw IndentError) s1)
    as ([] & s2 & H2).
  exists s2. unfold bind at 1. rewrite H1. unfold bind at 1. rewrite H2.
  pose proof (emits_when _ _ _ _ (emits_add_error (i + 1) raw NotCapital) _ _ _ H1) as [E1 _].
  pose proof (emits_when _ _ _ _ (emits_add_error (i + 1) raw IndentError) _ _ _ H2) as [E2 _].
  assert (G2 : grows s1 s2).
  { eapply emits_grows; [|exact H2]. apply emits_when, emits_add_error. }
  assert (G1 : grows st s1).
  { eapply emits_grows; [|exact H1]. apply emits_when, emits_add_error. }
  split; [by etrans|]. split; [|split; [|done]].
  - intros Hc. apply G2, E1. right. rewrite Hc. by split.
  - intros Hd. apply E2. right. rewrite Hd. by split.
Qed.

(** The messages a line gets from the classifier. *)
Definition line_msg (raw : string) (m : msg) : Prop :=
  (Py.split raw = [] /\ m = IsBlank) \/
  (capital raw = false /\ m = NotCapital) \/
  (Py.split raw <> [] /\ line_keyword raw = None /\ m = CommandNotFound) \/
  (exists k, line_keyword raw = Some k /\ depth_ok k raw = false /\ m = IndentError).

Lemma classify_records i raw b st b' st' m :
  classify filename i raw b st = Return (b', st') -> line_msg raw m ->
  recorded (errorlist st') (i + 1) m.
Proof.
  intros H Hm. destruct (line_keyword raw) as [k|] eqn:Hk.
  - destruct (classify_keyword i raw b st k Hk) as (s2 & G & C1 & C2 & E).
    rewrite E in H. apply adds_place in H as (G' & _).
    apply G'. destruct Hm as [[Hs _]|[[Hc ->]|[(_ & ? & _)|(k' & ? & Hd & ->)]]].
    + unfold line_keyword in Hk. by rewrite Hs in Hk.
    + auto.
    + congruence.
    + apply C2. congruence.
  - rewrite classify_unfold in H. unfold line_msg, line_keyword, capital in *.
    destruct (Py.split raw) as [|ss0 ?] eqn:Hs.
    + apply bind_Return in H as ([] & s1 & H1 & [= _ <-]).
      destruct (emits_add_error _ _ _ _ _ _ H1) as [E _]. apply E. right.
      destruct Hm as [[_ ->]|[[Hc ->]|[(N & _)|(k' & ? & _)]]]; by try split.
    + rewrite Hk in H. apply bind_Return in H as ([] & s1 & H1 & H).
      apply bind_Return in H as ([] & s2 & H2 & [= _ <-]).
      destruct (emits_add_error _ _ _ _ _ _ H2) as [E2 _].
      pose proof (emits_when _ _ _ _ (emits_add_error (i + 1) raw NotCapital) _ _ _ H1)
        as [E1 _].
      destruct Hm as [[? _]|[[Hc ->]|[(_ & _ & ->)|(k' & ? & _)]]]; try done.
      * apply E2. left. apply E1. right. rewrite Hc. by split.
      * apply E2. right. by split.
      * congruence.
Qed.

(** What holds of the tree and of the open ancestors between two lines. *)
Record inv (b : builder) : Prop := mkInv {
  inv_root : key (root b) = None;
  inv_placed : placed (root b);
  inv_current :
    exists c1 c2, current b = [Some []; c1; c2; None] /\
      (forall p, c1 = Some p ->
         exists x, node_at p (root b) = Some x /\ key x = Some FILE) /\
      (forall p, c2 = Some p ->
         exists x, node_at p (root b) = Some x /\ key x = Some TRACK)
}.

(** The ancestor of level [lv] is open. *)
Definition is_open (b : builder) (lv : nat) : Prop :=
  exists p, current b !! lv = Some (Some p).

(** A node with keyword [k] opens level [lv]. *)
Definition opens (k : keyword) (lv : nat) : Prop :=
  (k = FILE /\ lv = 1) \/ (k = TRACK /\ lv = 2).

Lemma inv_open_root b : inv b -> is_open b 0.
Proof. intros [_ _ (c1 & c2 & E & _)]. exists []. by rewrite E. Qed.

Lemma inv_start w : inv (start w filename).
Proof.
  split; simpl.
  - done.
  - constructor; constructor.
  - exists None, None. split; [done|]. split; intros p [=].
Qed.

Lemma is_open_dec b lv : inv b -> lv < 3 -> is_open b lv \/ current b !! lv = Some None.
Proof.
  intros [_ _ (c1 & c2 & E & _)] H. unfold is_open. rewrite E.
  destruct lv as [|[|[|lv]]]; [| | |lia]; simpl.
  - left. eauto.
  - destruct c1; [left; eauto | by right].
  - destruct c2; [left; eauto | by right].
Qed.

(** Placing the node of a line whose level is closed ends the run. *)
Lemma place_closed i k raw b st :
  current b !! (depth_of k raw / 2) = Some None ->
  place filename i k raw (depth_of k raw) b st
  = Raise (cuecheckError filename
             (ParentErrorAt (cueSyntaxError.init (i + 1) raw ParentError))).
Proof. unfold place. by intros ->. Qed.

(** The open ancestors after a node with keyword [k] was made at [here]. *)
Definition current_after (k : keyword) (here : path) (cur : list (option path))
  : list (option path) :=
  match k with
  | FILE => <[1 := Some here]> cur
  | TRACK => <[2 := Some here]> cur
  | _ => cur
  end.

Lemma place_unfold i k raw b st p :
  current b !! (depth_of k raw / 2) = Some (Some p) ->
  place filename i k raw (depth_of k raw) b st
  = Return (mkBuilder (append_child p (new_node i k raw) (root b))
              (current_after k (p ++ [next_child p (root b)]) (current b)), st).
Proof. unfold place. intros ->. by destruct k. Qed.

Lemma node_at_append_child_parent p c t x :
  node_at p t = Some x ->
  exists x', node_at p (append_child p c t) = Some x' /\ key x' = key x /\
             c ∈ children x'.
Proof.
  revert t. induction p as [|j p IH]; intros [n kt l ind a cs] Hx.
  - injection Hx as <-. eexists. split; [reflexivity|]. split; [done|].
    simpl. apply elem_of_app. right. left.
  - simpl in Hx. destruct (cs !! j) as [cj|] eqn:Hj; [|done].
    cbn [append_child node_at children]. rewrite list_lookup_alter_eq, Hj. simpl.
    by apply IH.
Qed.

Lemma node_at_nodes p t x : node_at p t = Some x -> x ∈ nodes t.
Proof.
  revert t. induction p as [|j p IH]; intros t Hx.
  - injection Hx as <-. destruct t. left.
  - simpl in Hx. destruct (children t !! j) as [cj|] eqn:Hj; [|done].
    eapply nodes_child; [by eapply list_elem_of_lookup_2 | by apply IH].
Qed.

(** Placing the node of a line whose level is open. *)
Lemma place_open i k raw b st :
  inv b -> is_open b (depth_of k raw / 2) ->
  exists b' x,
    place filename i k raw (depth_of k raw) b st = Return (b', st) /\
    inv b' /\
    headers (root b') ≡ₚ headers (root b) ++ [header (new_node i k raw)] /\
    (forall lv, is_open b' lv <-> is_open b lv \/ opens k lv) /\
    x ∈ nodes (root b') /\ key x = level_key (depth_of k raw) /\
    new_node i k raw ∈ children x.
Proof.
  intros I (p & Hp). pose proof I as [Hr Hpl (c1 & c2 & Hc & H1 & H2)].
  pose proof (depth_of_permitted k raw) as Hd.
  assert (exists x, node_at p (root b) = Some x /\ key x = level_key (depth_of k raw))
    as (x & Hx & Hkx).
  { rewrite Hc in Hp. unfold level_key.
    destruct (permitted_depths _ _ Hd) as [E|[E|E]]; rewrite E in *; simpl in *.
    - injection Hp as <-. exists (root b). by split.
    - injection Hp as ->. apply H1. done.
    - injection Hp as ->. apply H2. done. }
  rewrite (place_unfold _ _ _ _ _ _ Hp).
  assert (Hfit : fits (key x) (new_node i k raw)).
  { exists k. simpl. by rewrite Hkx. }
  assert (Hkc : key (new_node i k raw) = Some k) by done.
  assert (Hpc : placed (new_node i k raw)) by (repeat constructor).
  assert (Hhc : headers (new_node i k raw) = [header (new_node i k raw)]) by done.
  generalize dependent (new_node i k raw). intros c Hfit Hkc Hpc Hhc.
  assert (Hnew : node_at (p ++ [next_child p (root b)]) (append_child p c (root b)) = Some c).
  { unfold next_child. rewrite Hx. by apply node_at_append_child_new. }
  destruct (node_at_append_child_parent p c _ _ Hx) as (x' & Hx' & Hkx' & Hcx').
  eexists _, x'. split; [reflexivity|].
  assert (K : forall c0 kk,
            (forall q, c0 = Some q ->
               exists y, node_at q (root b) = Some y /\ key y = Some kk) ->
            forall q, c0 = Some q ->
              exists y, node_at q (append_child p c (root b)) = Some y
                        /\ key y = Some kk).
  { intros c0 kk H0 q Hq. destruct (H0 q Hq) as (y & Hy & Hky).
    destruct (node_at_append_child_old q p c _ _ Hy) as (y' & Hy' & Hky').
    exists y'. split; [done | congruence]. }
  assert (N : forall kk, key c = Some kk -> forall q,
            Some (p ++ [next_child p (root b)]) = Some q ->
            exists y, node_at q (append_child p c (root b)) = Some y
                      /\ key y = Some kk).
  { intros kk Hkk q [= Hq]. subst q. exists c. by split. }
  cbn [root current].
  split; [|split; [|split; [|split; [|split]]]].
  - split; cbn [root current].
    + by rewrite key_append_child.
    + eapply placed_append_child; eauto.
    + rewrite Hc.
      destruct k; cbn [current_after];
        first [ exists c1, c2; split; [reflexivity|]; split; [by apply K | by apply K]
              | exists (Some (p ++ [next_child p (root b)])), c2;
                split; [reflexivity|]; split; [by apply N | by apply K]
              | exists c1, (Some (p ++ [next_child p (root b)]));
                split; [reflexivity|]; split; [by apply K | by apply N] ].
  - rewrite (headers_append_child _ _ _ _ Hx). by rewrite Hhc.
  - intros lv. unfold is_open, opens. cbn [current]. rewrite Hc.
    destruct k; cbn [current_after]; destruct lv as [|[|[|[|lv]]]]; simpl; split;
      try (intros [q Hq]; first [left; by exists q | right; tauto]);
      try (intros [[q Hq]|[[? ?]|[? ?]]]; first [done | by exists q]);
      try (intros _; eauto); try (intros [[q Hq]|[[? ?]|[? ?]]]; try done; eauto).
  - by eapply node_at_nodes.
  - congruence.
  - done.
Qed.


(** What the nodes of the lines [d], numbered from [i], are made from. *)
Fixpoint line_headers (i : nat) (d : list string)
  : list (nat * option keyword * string * nat * attrs) :=
  match d with
  | [] => []
  | raw :: d' =>
      match line_keyword raw with
      | Some k => [header (new_node i k raw)]
      | None => []
      end ++ line_headers (S i) d'
  end.

Lemma elem_of_line_headers i d h :
  h ∈ line_headers i d <->
  exists j raw k, d !! j = Some raw /\ line_keyword raw = Some k
                  /\ h = header (new_node (i + j) k raw).
Proof.
  revert i. induction d as [|raw d IH]; intros i; simpl.
  - split; [by intros ?%elem_of_nil | by intros (j & ? & ? & ? & _)].
  - rewrite elem_of_app, IH. split.
    + intros [H|(j & raw' & k & H1 & H2 & ->)].
      * destruct (line_keyword raw) as [k|] eqn:Hk; [|by apply elem_of_nil in H].
        apply list_elem_of_singleton in H as ->. exists 0, raw, k.
        by rewrite Nat.add_0_r.
      * exists (S j), raw', k. by rewrite Nat.add_succ_r.
    + intros ([|j] & raw' & k & H1 & H2 & ->); simpl in H1.
      * injection H1 as <-. left. rewrite H2, Nat.add_0_r. by apply list_elem_of_singleton.
      * right. exists j, raw', k. by rewrite Nat.add_succ_r.
Qed.

(** Line [raw] needs the ancestor of level [lv]; line [raw] opens it. *)
Definition needs (raw : string) (lv : nat) : Prop :=
  exists k, line_keyword raw = Some k /\ depth_of k raw / 2 = lv.

Definition line_opens (raw : string) (lv : nat) : Prop :=
  exists k, line_keyword raw = Some k /\ opens k lv.

(** Line [j] of [d] needs an ancestor that is not open in [b] and that no
    line of [d] before it opens. *)
Definition orphan_from (b : builder) (d : list string) (j : nat) : Prop :=
  exists raw lv, d !! j = Some raw /\ needs raw lv /\ ~ is_open b lv /\
    forall j' raw', j' < j -> d !! j' = Some raw' -> ~ line_opens raw' lv.

Lemma needs_level raw lv : needs raw lv -> lv < 3.
Proof.
  intros (k & _ & <-).
  destruct (permitted_depths _ _ (depth_of_permitted k raw)) as [-> | [-> | ->]];
    simpl; lia.
Qed.

Lemma orphan_skip b raw d j :
  line_keyword raw = None ->
  orphan_from b (raw :: d) j <-> exists j', j = S j' /\ orphan_from b d j'.
Proof.
  intros Hk. unfold orphan_from. split.
  - intros (r & lv & Hj & Hn & Ho & Hb). destruct j as [|j]; simpl in Hj.
    + injection Hj as <-. destruct Hn as (k & ? & _). congruence.
    + exists j. split; [done|]. exists r, lv. repeat split; try done.
      intros j' raw' Hlt Hj'. apply (Hb (S j') raw'); [lia | done].
  - intros (j' & -> & r & lv & Hj & Hn & Ho & Hb). exists r, lv.
    repeat split; try done. intros [|j''] raw' Hlt Hj''; simpl in Hj''.
    + injection Hj'' as <-. intros (k & ? & _). congruence.
    + apply (Hb j'' raw'); [lia | done].
Qed.

Lemma orphan_step b b1 raw k d j :
  line_keyword raw = Some k ->
  (forall lv, is_open b1 lv <-> is_open b lv \/ opens k lv) ->
  orphan_from b1 d j <-> orphan_from b (raw :: d) (S j).
Proof.
  intros Hk Ho. unfold orphan_from. split.
  - intros (r & lv & Hj & Hn & Hc & Hb). exists r, lv. repeat split; try done.
    + rewrite Ho in Hc. tauto.
    + intros [|j'] raw' Hlt Hj'; simpl in Hj'.
      * injection Hj' as <-. intros (k' & Hk' & Hop). rewrite Ho in Hc.
        assert (k' = k) as -> by congruence. tauto.
      * apply (Hb j' raw'); [lia | done].
  - intros (r & lv & Hj & Hn & Hc & Hb). exists r, lv. simpl in Hj.
    repeat split; try done.
    + rewrite Ho. intros [?|Hop]; [done|].
      apply (Hb 0 raw); [lia | done |]. by exists k.
    + intros j' raw' Hlt Hj'. apply (Hb (S j') raw'); [lia | done].
Qed.

(** The run of the builder over the lines [d], from a state [b] in which
    the invariant holds: either it returns, the tree has got the nodes of
    the lines that have a keyword, every line has got its messages, and no
    line lacks an ancestor; or it raises the parent error of the first line
    that lacks its ancestor. *)
Lemma build_spec d : forall i b st,
  inv b ->
  (exists b' st',
     build filename i d b st = Return (b', st') /\ inv b' /\
     headers (root b') ≡ₚ headers (root b) ++ line_headers i d /\
     (forall j, ~ orphan_from b d j) /\
     (forall j raw m, d !! j = Some raw -> line_msg raw m ->
                      recorded (errorlist st') (i + j + 1) m)) \/
  (exists j raw,
     d !! j = Some raw /\ orphan_from b d j /\
     (forall j', j' < j -> ~ orphan_from b d j') /\
     build filename i d b st
     = Raise (cuecheckError filename
                (ParentErrorAt (cueSyntaxError.init (i + j + 1) raw ParentError)))).
Proof.
  induction d as [|raw d IH]; intros i b st I.
  - left. exists b, st. simpl. rewrite app_nil_r.
    split; [done|]. split; [done|]. split; [done|]. split.
    + intros j (r & lv & Hj & _). done.
    + intros j r m Hj. done.
  - simpl. destruct (line_keyword raw) as [k|] eqn:Hk.
    + destruct (classify_keyword i raw b st k Hk) as (s1 & G & C1 & C2 & E).
      pose proof (needs_level raw (depth_of k raw / 2)) as Hlv.
      destruct (is_open_dec b (depth_of k raw / 2) I) as [Hop|Hcl].
      { apply Hlv. by exists k. }
      * destruct (place_open i k raw b s1 I Hop) as (b1 & x & Hpl & I1 & Hh & Ho & _).
        assert (Hc : classify filename i raw b st = Return (b1, s1)) by congruence.
        destruct (IH (S i) b1 s1 I1)
          as [(b' & st' & Hb & I' & Hh' & Hno & Hrec)|(j & r & Hj & Hor & Hfirst & Hb)].
        -- left. exists b', st'. unfold bind. rewrite Hc. split; [done|]. split; [done|].
           split; [|split].
           ++ rewrite Hh', Hh. by rewrite <- app_assoc.
           ++ intros [|j] Hor.
              ** destruct Hor as (r & lv & Hj & (k' & Hk' & <-) & Hcl & _).
                 simpl in Hj. injection Hj as <-.
                 assert (k' = k) as -> by congruence. done.
              ** apply (Hno j). by apply (orphan_step b b1 raw k d j Hk Ho).
           ++ intros [|j] r m Hj Hm; simpl in Hj.
              ** injection Hj as <-. rewrite Nat.add_0_r.
                 eapply (adds_build filename d (S i) b1); [exact Hb|].
                 eapply classify_records; eauto.
              ** replace (i + S j + 1) with (S i + j + 1) by lia. eauto.
        -- right. exists (S j), r. unfold bind. rewrite Hc. split; [done|].
           split; [by apply (orphan_step b b1 raw k d j Hk Ho)|]. split.
           ++ intros [|j'] Hlt Hor'.
              ** destruct Hor' as (r' & lv & Hj' & (k' & Hk' & <-) & Hcl & _).
                 simpl in Hj'. injection Hj' as <-.
                 assert (k' = k) as -> by congruence. done.
              ** apply (Hfirst j'); [lia|]. by apply (orphan_step b b1 raw k d j' Hk Ho).
           ++ rewrite Hb. by replace (i + S j + 1) with (S i + j + 1) by lia.
      * right. exists 0, raw. split; [done|]. split; [|split].
        -- exists raw, (depth_of k raw / 2). repeat split; try done.
           ++ by exists k.
           ++ intros (q & Hq). congruence.
           ++ intros j' raw' Hlt. lia.
        -- intros j' Hlt. lia.
        -- unfold bind. rewrite E, place_closed by done. by rewrite Nat.add_0_r.
    + destruct (classify_no_keyword i raw b st Hk) as (s1 & Hc).
      destruct (IH (S i) b s1 I)
        as [(b' & st' & Hb & I' & Hh' & Hno & Hrec)|(j & r & Hj & Hor & Hfirst & Hb)].
      * left. exists b', st'. unfold bind. rewrite Hc. split; [done|]. split; [done|].
        split; [done|]. split.
        -- intros j (j' & -> & Hor)%orphan_skip; [|done]. by apply (Hno j').
        -- intros [|j] r m Hj Hm; simpl in Hj.
           ++ injection Hj as <-. rewrite Nat.add_0_r.
              eapply (adds_build filename d (S i) b); [exact Hb|].
              eapply classify_records; eauto.
           ++ replace (i + S j + 1) with (S i + j + 1) by lia. eauto.
      * right. exists (S j), r. unfold bind. rewrite Hc. split; [done|].
        split; [apply orphan_skip; eauto|]. split.
        -- intros j' Hlt (j'' & -> & Hor')%orphan_skip; [|done].
           apply (Hfirst j''); [lia | done].
        -- rewrite Hb. by replace (i + S j + 1) with (S i + j + 1) by lia.
Qed.

End Builder.

(* ================================================================= *)
(** ** The passes never raise on a tree the builder made *)

Section Totality.

Variable w : world.
Variable filename : string.

Lemma fits_set_attrs k c : fits k c -> fits k (set_attrs w filename c).
Proof.
  intros (kc & H1 & H2 & H3). exists kc.
  destruct (set_attrs_fields w filename c) as (_ & -> & _ & -> & _). done.
Qed.

Lemma placed_set_attrs t : placed t -> placed (set_attrs w filename t).
Proof.
  induction t as [n k l i a cs IH] using CMD_induction. intros [F1 F2]%placed_inv.
  simpl in *. constructor.
  - apply Forall_forall. intros c' (c & <- & Hc)%list_elem_of_In%in_map_iff.
    apply fits_set_attrs. rewrite Forall_forall in F1. apply F1. by apply list_elem_of_In.
  - apply Forall_forall. intros c' (c & <- & Hc)%list_elem_of_In%in_map_iff.
    apply list_elem_of_In in Hc. rewrite Forall_forall in IH, F2. auto.
Qed.

Lemma total_checkCmdChildren t : placed t -> total (checkCmdChildren t).
Proof.
  induction t as [n k l i a cs IH] using CMD_induction. intros [F1 F2]%placed_inv.
  simpl in *. generalize (findChildCmd (mkCMD n k l i a cs)). intros fc.
  apply total_for_each. apply Forall_forall. intros c Hc.
  rewrite Forall_forall in IH, F1, F2.
  destruct (F1 c Hc) as (kc & Hkc & _).
  apply total_bind; [|intros _; apply total_bind; [|intros _; by apply IH; auto]].
  - destruct k as [kw|]; [|apply total_ret].
    destruct (bool_decide _); [apply total_ret|]. rewrite Hkc. apply total_add_error.
  - destruct k as [[]|]; try apply total_ret.
    + apply total_when, total_add_error.
    + apply total_bind; [apply total_when, total_add_error|].
      intros _. apply total_when, total_add_warn.
Qed.

Lemma total_checkCmdMul t : forall p,
  (p = None -> key t = None) -> total (checkCmdMul p t).
Proof.
  induction t as [n k l i a cs IH] using CMD_induction. intros p Hp. simpl in *.
  apply total_bind.
  - destruct k as [kw|]; [|apply total_ret]. destruct (negb _); [|apply total_ret].
    destruct p; [apply total_when, total_add_error | by specialize (Hp eq_refl)].
  - intros _. apply total_for_each. eapply Forall_impl; [exact IH|]. simpl.
    intros c Hc. by apply Hc.
Qed.

Lemma total_order_after n l aft idx j me cs : total (order_after n l aft idx j me cs).
Proof.
  revert j me. induction cs as [|c cs IH]; intros j me; simpl; [apply total_ret|].
  apply total_bind; [apply total_when, total_add_error | auto].
Qed.

Lemma total_order_before n l bef idx j cs : total (order_before n l bef idx j cs).
Proof.
  revert j. induction cs as [|c cs IH]; intros j; simpl; [apply total_ret|].
  apply total_bind; [apply total_when, total_add_error|]. intros _.
  destruct (j =? idx)%nat; [apply total_ret | auto].
Qed.

(** A node that fits under its parent has an entry in ['position']. *)
Lemma fits_position p c kc :
  fits (key p) c -> key c = Some kc -> position_of kc p <> None.
Proof.
  intros (k' & Hk & Hi & Hl) Hkc. assert (k' = kc) as -> by congruence.
  unfold position_of. rewrite <- Hl.
  destruct kc; cbn in Hi;
    repeat (apply elem_of_cons in Hi as [->|Hi]; [done|]); by apply elem_of_nil in Hi.
Qed.

Lemma total_checkCmdOrder t : forall p idx,
  placed t ->
  match p with Some pp => fits (key pp) t | None => key t = None end ->
  total (checkCmdOrder p idx t).
Proof.
  induction t as [n k l i a cs IH] using CMD_induction.
  intros p idx [F1 F2]%placed_inv Hp. simpl in *.
  apply total_bind.
  - destruct k as [kw|]; [|apply total_ret]. destruct p as [pp|]; [|done].
    pose proof (fits_position pp _ kw Hp eq_refl) as Hpos.
    destruct (position_of kw pp); [|done].
    apply total_bind; [|intros _]; apply total_when;
      first [apply total_order_after | apply total_order_before].
  - intros _. apply total_for_each_from. apply Forall_forall. intros c Hc j.
    rewrite Forall_forall in IH, F1, F2. apply IH; auto.
Qed.

Lemma total_sequence_checks r : total (sequence_checks r).
Proof.
  unfold sequence_checks, check_tracks.
  assert (T1 : forall (check : CMD -> M unit) l,
             (forall x, total (check x)) -> total (on_first check l)).
  { intros check [|x l] H; [apply total_ret | apply H]. }
  apply total_bind.
  - apply total_bind; [apply T1; intros; apply total_when, total_add_warn|].
    intros _. apply total_for_pairs. intros. apply total_when, total_add_error.
  - intros _. apply total_bind; [|intros _]; apply total_for_each, Forall_forall;
      intros c _; apply total_bind;
      try (apply T1; intros; apply total_when, total_add_error);
      intros _; apply total_for_pairs; intros; apply total_when, total_add_error.
Qed.

(** The passes over a tree the builder made return the tree with its
    attributes set. *)
Lemma validate_total root0 st :
  key root0 = None -> placed root0 ->
  exists st', validate w filename root0 st = Return (set_attrs w filename root0, st').
Proof.
  intros Hk Hp. unfold validate.
  destruct (checkCmdSyntax_spec w filename root0 st) as (s1 & H1).
  set (r := set_attrs w filename root0) in *.
  assert (Hkr : key r = None).
  { unfold r. destruct (set_attrs_fields w filename root0) as (_ & -> & _). done. }
  assert (Hpr : placed r) by by apply placed_set_attrs.
  destruct (total_checkCmdChildren r Hpr s1) as ([] & s2 & H2).
  destruct (total_checkCmdMul r None (fun _ => Hkr) s2) as ([] & s3 & H3).
  destruct (total_checkCmdOrder r None 0 Hpr Hkr s3) as ([] & s4 & H4).
  destruct (total_sequence_checks r s4) as ([] & s5 & H5).
  exists s5. unfold bind. by rewrite H1, H2, H3, H4, H5.
Qed.

End Totality.

(* ================================================================= *)
(** ** Facts about time values *)

Module TimeFacts.

(** A float that is not NaN: it equals itself. *)
Definition is_number (x : float) : bool := PrimFloat.eqb x x.

Lemma SFcompare_antisym x y :
  SFcompare y x = option_map CompOpp (SFcompare x y).
Proof.
  destruct x as [sx|sx| |sx mx ex], y as [sy|sy| |sy my ey]; simpl; try done;
    try (by destruct sx); try (by destruct sy); try (by destruct sx, sy).
  destruct sx, sy; simpl; try done.
  - rewrite (Z.compare_antisym ex ey). destruct (ex ?= ey)%Z eqn:E; simpl; try done.
    change (Pos.compare_cont Eq my mx) with (Pos.compare_cont (CompOpp Eq) my mx).
    by rewrite <- Pos.compare_cont_antisym.
  - rewrite (Z.compare_antisym ex ey). destruct (ex ?= ey)%Z eqn:E; simpl; try done.
    change (Pos.compare_cont Eq my mx) with (Pos.compare_cont (CompOpp Eq) my mx).
    by rewrite <- Pos.compare_cont_antisym.
Qed.

Lemma is_number_compare x y :
  is_number x = true -> is_number y = true ->
  SFcompare (Prim2SF x) (Prim2SF y) <> None.
Proof.
  unfold is_number. rewrite !FloatAxioms.eqb_spec. unfold SFeqb.
  destruct (Prim2SF x), (Prim2SF y); simpl; done.
Qed.

(** Among numbers, [a >= b] holds exactly when [a < b] does not. *)
Lemma time_ge_not_lt a b :
  is_number a = true -> is_number b = true ->
  time_ge a b = negb (PrimFloat.ltb a b).
Proof.
  intros Ha Hb. pose proof (is_number_compare a b Ha Hb) as H.
  unfold time_ge. rewrite FloatAxioms.leb_spec, FloatAxioms.ltb_spec. unfold SFleb, SFltb.
  rewrite (SFcompare_antisym (Prim2SF a) (Prim2SF b)).
  destruct (SFcompare (Prim2SF a) (Prim2SF b)) as [[]|]; done.
Qed.

(** Equal times are in the relation [>=]. *)
Lemma time_ge_eq a b : PrimFloat.eqb a b = true -> time_ge a b = true.
Proof.
  unfold time_ge. rewrite FloatAxioms.leb_spec, FloatAxioms.eqb_spec. unfold SFleb, SFeqb.
  rewrite (SFcompare_antisym (Prim2SF a) (Prim2SF b)).
  destruct (SFcompare (Prim2SF a) (Prim2SF b)) as [[]|]; done.
Qed.

(** The time of [n] seconds and [f] frames. *)
Definition seconds_frames (n f : Z) : float :=
  (float_of_Z n + float_of_Z f / float_of_Z 75)%float.

Lemma elapsed_seconds_frames m s f : elapsed m s f = seconds_frames (m * 60 + s) f.
Proof. reflexivity. Qed.

(** What is checked of every time that two-digit fields can give: it is a
    number, it is not below 0, and so it is above the sentinel. *)
Definition time_fine (v : float) : bool :=
  is_number v && PrimFloat.leb 0 v && negb (time_ge unset_time v)
  && time_ge v unset_time.

Definition range (n : Z) : list Z := map Z.of_nat (seq 0 (Z.to_nat n)).

Lemma elem_of_range n z : (0 <= z < n)%Z -> In z (range n).
Proof.
  intros H. unfold range. apply in_map_iff. exists (Z.to_nat z).
  split; [lia|]. apply in_seq. lia.
Qed.

Lemma all_times_fine :
  forallb (fun n => forallb (fun f => time_fine (seconds_frames n f)) (range 100))
          (range 6040) = true.
Proof. vm_compute. reflexivity. Qed.

Lemma elapsed_fine m s f :
  (0 <= m < 100)%Z -> (0 <= s < 100)%Z -> (0 <= f < 100)%Z ->
  time_fine (elapsed m s f) = true.
Proof.
  intros Hm Hs Hf. rewrite elapsed_seconds_frames.
  pose proof all_times_fine as H. rewrite forallb_forall in H.
  assert (Hn : (0 <= m * 60 + s < 6040)%Z) by lia.
  specialize (H (m * 60 + s)%Z (elem_of_range 6040 _ Hn)).
  rewrite forallb_forall in H. apply H. by apply elem_of_range.
Qed.

Lemma unset_time_fine :
  is_number unset_time = true /\ time_ge unset_time unset_time = true /\
  time_ne unset_time 0 = true.
Proof. repeat split. Qed.

End TimeFacts.

(* ================================================================= *)
(** ** The groups of a match *)

Module GroupFacts.

Import Re ReFacts.

(** Whether [r] has the group [n]. *)
Fixpoint sets (r : regex) (n : nat) : bool :=
  match r with
  | Eps | Chr _ | Class _ | Eol => false
  | Cat r1 r2 | Alt r1 r2 | Cond _ r1 r2 => sets r1 n || sets r2 n
  | Opt r1 | Plus r1 => sets r1 n
  | Grp n' r1 => (n' =? n)%nat || sets r1 n
  end.

(** A match is a result of the continuation, on groups that differ from
    the given ones only in the groups of the expression. *)
Lemma rmatch_keeps r : forall s g k m,
  rmatch r s g k = Some m ->
  exists s' g', k s' g' = Some m /\ forall n, sets r n = false -> g' !! n = g !! n.
Proof.
  induction r as [| c | p | r1 IH1 r2 IH2 | r1 IH1 r2 IH2 | r1 IH1 | r1 IH1
                 | n' r1 IH1 | n' r1 IH1 r2 IH2 | ]; intros s g k m H.
  - eauto.
  - simpl in H. destruct s as [|c' s]; [done|]. destruct (Ascii.eqb c c'); [eauto | done].
  - simpl in H. destruct s as [|c' s]; [done|]. destruct (p c'); [eauto | done].
  - simpl in H. apply IH1 in H as (s1 & g1 & H & K1). apply IH2 in H as (s2 & g2 & H & K2).
    exists s2, g2. split; [done|]. intros n [E1 E2]%orb_false_iff.
    by rewrite K2, K1.
  - simpl in H. destruct (rmatch r1 s g k) as [res|] eqn:E.
    + injection H as ->. apply IH1 in E as (s1 & g1 & H & K1).
      exists s1, g1. split; [done|]. intros n [E1 E2]%orb_false_iff. auto.
    + apply IH2 in H as (s1 & g1 & H & K1).
      exists s1, g1. split; [done|]. intros n [E1 E2]%orb_false_iff. auto.
  - simpl in H. destruct (rmatch r1 s g k) as [res|] eqn:E.
    + injection H as ->. apply IH1 in E as (s1 & g1 & H & K1). eauto.
    + eauto.
  - assert (L : forall fuel s g,
              (fix loop (fuel : nat) (s : string) (g : groups) {struct fuel} :=
                 match fuel with
                 | 0 => None
                 | S fuel' =>
                     rmatch r1 s g (fun s' g' =>
                       match loop fuel' s' g' with
                       | Some res => Some res
                       | None => k s' g'
                       end)
                 end) fuel s g = Some m ->
              exists s' g', k s' g' = Some m /\
                            forall n, sets r1 n = false -> g' !! n = g !! n).
    { clear s g H. intros fuel. induction fuel as [|fuel IHf]; intros s g H; [done|].
      apply IH1 in H as (s1 & g1 & H & K1).
      match type of H with
      | match ?x with _ => _ end = _ => destruct x as [res|] eqn:E
      end.
      - injection H as ->. apply IHf in E as (s2 & g2 & H & K2).
        exists s2, g2. split; [done|]. intros n Hn. by rewrite K2, K1.
      - eauto. }
    exact (L (S (String.length s)) s g H).
  - simpl in H. apply IH1 in H as (s1 & g1 & H & K1). eexists _, _. split; [exact H|].
    simpl. intros n [E1 E2]%orb_false_iff. apply Nat.eqb_neq in E1.
    rewrite list_lookup_insert_ne by done. auto.
  - simpl in H. destruct (group g n').
    + apply IH1 in H as (s1 & g1 & H & K1).
      exists s1, g1. split; [done|]. intros n [E1 E2]%orb_false_iff. auto.
    + apply IH2 in H as (s1 & g1 & H & K1).
      exists s1, g1. split; [done|]. intros n [E1 E2]%orb_false_iff. auto.
  - simpl in H. destruct s as [|c [|c' s]]; [eauto | | done].
    destruct (Py.code c =? 10)%nat; [eauto | done].
Qed.

(** A string of two digits. *)
Definition two_digits (s : string) : Prop :=
  exists c1 c2, s = String c1 (String c2 "") /\ Py.isdigit c1 = true /\ Py.isdigit c2 = true.

Lemma int_two_digits s : two_digits s -> (0 <= Py.int s < 100)%Z.
Proof.
  intros (c1 & c2 & -> & H1 & H2). unfold Py.int, Py.int_from. simpl.
  unfold Py.isdigit, Py.in_range in *.
  apply andb_prop in H1 as [A1 A2]. apply andb_prop in H2 as [B1 B2].
  apply Nat.leb_le in A1, A2, B1, B2. lia.
Qed.

Lemma consumed_two c1 c2 s : consumed (String c1 (String c2 s)) s = String c1 (String c2 "").
Proof.
  unfold consumed. simpl String.length.
  replace (S (S (String.length s)) - String.length s) with 2 by lia. done.
Qed.

(** The group [(\d\d)]. *)
Lemma rmatch_two_digits n s g k :
  rmatch (Grp n (rep 2 digit)) s g k
  = match s with
    | String c1 (String c2 s') =>
        if Py.isdigit c1 && Py.isdigit c2
        then k s' (<[n := Some (String c1 (String c2 ""))]> g)
        else None
    | _ => None
    end.
Proof.
  destruct s as [|c1 [|c2 s']]; simpl; [done | by destruct (Py.isdigit c1) |].
  destruct (Py.isdigit c1); [|done]. destruct (Py.isdigit c2); [|done].
  simpl. by rewrite consumed_two.
Qed.

Lemma rmatch_Chr c s g k :
  rmatch (Chr c) s g k
  = match s with
    | String c' s' => if Ascii.eqb c c' then k s' g else None
    | EmptyString => None
    end.
Proof. reflexivity. Qed.

(** The groups of [(\d\d):(\d\d):(\d\d)] are three strings of two digits. *)
Lemma rmatch_msf n s g k m :
  rmatch (msf n) s g k = Some m ->
  exists d1 d2 d3 s',
    two_digits d1 /\ two_digits d2 /\ two_digits d3 /\
    k s' (<[n + 2 := Some d3]> (<[n + 1 := Some d2]> (<[n := Some d1]> g))) = Some m.
Proof.
  unfold msf. rewrite rmatch_Cat, rmatch_two_digits.
  destruct s as [|c1 [|c2 s]]; [done | done|].
  destruct (Py.isdigit c1) eqn:D1, (Py.isdigit c2) eqn:D2; try done. cbn [andb].
  rewrite rmatch_Cat, rmatch_Chr. destruct s as [|c s]; [done|].
  destruct (Ascii.eqb ":" c); [|done].
  rewrite rmatch_Cat, rmatch_two_digits.
  destruct s as [|c3 [|c4 s]]; [done | done|].
  destruct (Py.isdigit c3) eqn:D3, (Py.isdigit c4) eqn:D4; try done. cbn [andb].
  rewrite rmatch_Cat, rmatch_Chr. destruct s as [|c' s]; [done|].
  destruct (Ascii.eqb ":" c'); [|done].
  rewrite rmatch_two_digits.
  destruct s as [|c5 [|c6 s]]; [done | done|].
  destruct (Py.isdigit c5) eqn:D5, (Py.isdigit c6) eqn:D6; try done. cbn [andb].
  intros H. eexists _, _, _, s. repeat split; [| | |exact H]; eexists _, _; eauto.
Qed.

Lemma rmatch_Eol_end s g m :
  rmatch Eol s g (fun _ g' => Some g') = Some m -> m = g.
Proof.
  simpl. destruct s as [|c [|c' s]]; [congruence | | done].
  destruct (Py.code c =? 10)%nat; congruence.
Qed.

Lemma group_text_lookup (g : groups) n s : g !! n = Some (Some s) -> group_text g n = s.
Proof. unfold group_text, group. by intros ->. Qed.

(** The number of a TRACK line that matches has two digits. *)
Lemma match_track ind l m :
  match_syntax TRACK ind l = Some m -> two_digits (group_text m 1).
Proof.
  unfold match_syntax, re_match. rewrite rmatch_Cat, rmatch_lit.
  destruct (strip_prefix _ l) as [s1|]; [|done]. cbn [commands Rule.syntax].
  rewrite rmatch_Cat, rmatch_lit. destruct (strip_prefix _ s1) as [s2|]; [|done].
  rewrite rmatch_Cat, rmatch_two_digits.
  destruct s2 as [|c1 [|c2 s]]; [done | done|].
  destruct (Py.isdigit c1) eqn:D1, (Py.isdigit c2) eqn:D2; try done. cbn [andb].
  intros (s' & g' & [= <-] & K)%rmatch_keeps.
  rewrite (group_text_lookup _ _ (String c1 (String c2 ""))).
  - eexists _, _. eauto.
  - rewrite K by done. done.
Qed.

(** The fields of an INDEX line that matches have two digits each. *)
Lemma match_index ind l m :
  match_syntax INDEX ind l = Some m ->
  two_digits (group_text m 1) /\ two_digits (group_text m 2) /\
  two_digits (group_text m 3) /\ two_digits (group_text m 4).
Proof.
  unfold match_syntax, re_match. rewrite rmatch_Cat, rmatch_lit.
  destruct (strip_prefix _ l) as [s1|]; [|done]. cbn [commands Rule.syntax].
  rewrite rmatch_Cat, rmatch_lit. destruct (strip_prefix _ s1) as [s2|]; [|done].
  rewrite rmatch_Cat, rmatch_two_digits.
  destruct s2 as [|c1 [|c2 s]]; [done | done|].
  destruct (Py.isdigit c1) eqn:D1, (Py.isdigit c2) eqn:D2; try done. cbn [andb].
  rewrite rmatch_Cat, rmatch_Chr. destruct s as [|c s]; [done|].
  destruct (Ascii.eqb " " c); [|done]. rewrite rmatch_Cat.
  intros (d1 & d2 & d3 & s' & T1 & T2 & T3 & ->%rmatch_Eol_end)%rmatch_msf.
  cbn. repeat split; try done. eexists _, _. eauto.
Qed.

(** The fields of a PREGAP or POSTGAP line that matches have two digits
    each. *)
Lemma match_gap k ind l m :
  k = PREGAP \/ k = POSTGAP ->
  match_syntax k ind l = Some m ->
  two_digits (group_text m 1) /\ two_digits (group_text m 2) /\
  two_digits (group_text m 3).
Proof.
  unfold match_syntax, re_match. rewrite rmatch_Cat, rmatch_lit.
  destruct (strip_prefix _ l) as [s1|]; [|by intros [->| ->]].
  intros [->| ->]; cbn [commands Rule.syntax];
    rewrite rmatch_Cat, rmatch_lit; (destruct (strip_prefix _ s1) as [s2|]; [|done]);
    rewrite rmatch_Cat;
    intros (d1 & d2 & d3 & s' & T1 & T2 & T3 & ->%rmatch_Eol_end)%rmatch_msf;
    cbn; done.
Qed.

End GroupFacts.

(* ================================================================= *)
(** ** The outcomes of a run *)

Section RunFacts.

Variable w : world.
Variable filename : string.

Import TimeFacts GroupFacts.

(** The numbers and times that the syntax pass sets are those of two-digit
    fields. *)
Lemma attrs_after_values n k l ind :
  (a_number (attrs_after w filename n k l ind no_attrs) = None \/
   exists v, a_number (attrs_after w filename n k l ind no_attrs) = Some v
             /\ (0 <= v < 100)%Z) /\
  (a_time (attrs_after w filename n k l ind no_attrs) = None \/
   exists v, a_time (attrs_after w filename n k l ind no_attrs) = Some v
             /\ time_fine v = true).
Proof.
  unfold attrs_after, check_syntax.
  destruct (match_syntax k ind l) as [m|] eqn:Hm; [|split; by left].
  destruct k; unfold bind, when, ret, add_warn, add_error;
    repeat match goal with
           | |- context [if ?b then _ else _] => destruct b
           | |- context [match Py.split ?s with _ => _ end] =>
               destruct (Py.split s) as [|? [|? [|? ?]]]
           end; cbn [a_number a_time no_attrs];
    try (split; by left).
  all: try (apply match_track in Hm as T1%int_two_digits; split; [right; eauto | by left]).
  all: try (apply match_gap in Hm as (T1%int_two_digits & T2%int_two_digits & T3%int_two_digits);
            [|tauto]; split; [by left | right; eexists; split; [done|]; by apply elapsed_fine]).
  all: apply match_index in Hm
         as (T1%int_two_digits & T2%int_two_digits & T3%int_two_digits & T4%int_two_digits);
       split; right; eexists; split; try done; by apply elapsed_fine.
Qed.

Lemma grows_validate root0 st r st' :
  validate w filename root0 st = Return (r, st') -> grows st st'.
Proof.
  unfold validate. intros H.
  apply bind_Return in H as (r1 & s1 & H1 & H).
  apply bind_Return in H as ([] & s2 & H2 & H).
  apply bind_Return in H as ([] & s3 & H3 & H).
  apply bind_Return in H as ([] & s4 & H4 & H).
  apply bind_Return in H as ([] & s5 & H5 & [= _ <-]).
  apply adds_checkCmdSyntax in H1 as [G1 _]. apply adds_checkCmdChildren in H2 as [G2 _].
  apply adds_checkCmdMul in H3 as [G3 _]. apply adds_checkCmdOrder in H4 as [G4 _].
  pose proof (emits_grows _ _ _ _ _ _ (emits_sequence_checks r1) H5) as G5.
  etrans; [exact G1|]. etrans; [exact G2|]. etrans; [exact G3|]. by etrans.
Qed.

(** Line [j] of the document [d] needs an ancestor other than the root that
    no line before it opens: a node of depth 2 with no FILE line before it,
    or a node of depth 4 with no TRACK line before it. *)
Definition orphan (d : list string) (j : nat) : Prop :=
  exists raw lv, d !! j = Some raw /\ needs raw lv /\ lv <> 0 /\
    forall j' raw', j' < j -> d !! j' = Some raw' -> ~ line_opens raw' lv.

Lemma orphan_start d j : orphan_from (start w filename) d j <-> orphan d j.
Proof.
  assert (O : forall lv, lv < 3 -> is_open (start w filename) lv <-> lv = 0).
  { intros [|[|[|lv]]] Hlv; unfold is_open; simpl; split; try done; try lia.
    - intros _. by exists [].
    - by intros [? ?].
    - by intros [? ?]. }
  unfold orphan_from, orphan. split.
  - intros (raw & lv & H1 & H2 & H3 & H4). exists raw, lv. repeat split; try done.
    intros ->. apply H3. by apply O; [lia|].
  - intros (raw & lv & H1 & H2 & H3 & H4). exists raw, lv. repeat split; try done.
    intros Ho. apply H3. apply O; [by eapply needs_level | done].
Qed.

(** What holds of the value [(errs, warns, r)] of a run on the lines [d]. *)
Record returned (d : list string) (errs warns : cueSynerrList.t) (r : CMD)
  : Prop := mkReturned {
  ret_tree : exists b,
    r = set_attrs w filename (root b) /\ inv b /\
    headers (root b) ≡ₚ header (root (start w filename)) :: line_headers 0 d;
  ret_msgs : forall j raw m,
    d !! j = Some raw -> line_msg raw m -> recorded errs (j + 1) m;
  ret_no_orphan : forall j, ~ orphan d j
}.

Lemma check_lines_cases d :
  (exists j raw,
     d !! j = Some raw /\ orphan d j /\ (forall j', j' < j -> ~ orphan d j') /\
     check_lines w filename d no_diags
     = Raise (cuecheckError filename
                (ParentErrorAt (cueSyntaxError.init (j + 1) raw ParentError)))) \/
  (exists r st,
     check_lines w filename d no_diags = Return (r, st) /\
     returned d (errorlist st) (warnlist st) r).
Proof.
  unfold check_lines.
  destruct (build_spec filename d 0 (start w filename) no_diags (inv_start filename w))
    as [(b & s0 & Hb & I & Hh & Hno & Hrec)|(j & raw & Hj & Hor & Hfirst & Hb)].
  - right. destruct I as [Hk Hp Hc].
    destruct (validate_total w filename (root b) s0 Hk Hp) as (st & Hv).
    exists (set_attrs w filename (root b)), st. unfold bind. rewrite Hb. split; [done|].
    split.
    + exists b. split; [done|]. split; [by split | done].
    + intros j raw m Hj Hm. apply (grows_validate _ _ _ _ Hv). by apply (Hrec j raw m).
    + intros j Hor. apply (Hno j). by apply orphan_start.
  - left. exists j, raw. unfold bind. rewrite Hb. split; [done|].
    split; [by apply orphan_start|]. split; [|done].
    intros j' Hlt Hor'. apply (Hfirst j' Hlt). by apply orphan_start.
Qed.

(** The outcomes of [cuecheck], case by case. *)
Inductive outcome : Prop :=
  | out_not_cue :
      splitext_ext filename <> ".cue" ->
      cuecheck w filename = Raise (cuecheckError filename NotCue) -> outcome
  | out_not_exists :
      splitext_ext filename = ".cue" -> isfile w filename = false ->
      cuecheck w filename = Raise (cuecheckError filename NotExists) -> outcome
  | out_decode :
      splitext_ext filename = ".cue" -> isfile w filename = true ->
      read w filename = Undecodable ->
      cuecheck w filename = Raise (cuecheckError filename DecodeError) -> outcome
  | out_unreadable :
      splitext_ext filename = ".cue" -> isfile w filename = true ->
      read w filename = Unreadable ->
      cuecheck w filename = Raise OSError -> outcome
  | out_empty text :
      splitext_ext filename = ".cue" -> isfile w filename = true ->
      read w filename = Text text -> Py.splitlines text = [] ->
      cuecheck w filename = Raise IndexError -> outcome
  | out_parent text j raw :
      splitext_ext filename = ".cue" -> isfile w filename = true ->
      read w filename = Text text -> Py.splitlines text !! j = Some raw ->
      orphan (Py.splitlines text) j ->
      (forall j', j' < j -> ~ orphan (Py.splitlines text) j') ->
      cuecheck w filename
      = Raise (cuecheckError filename
                 (ParentErrorAt (cueSyntaxError.init (j + 1) raw ParentError))) ->
      outcome
  | out_returned text errs warns r :
      splitext_ext filename = ".cue" -> isfile w filename = true ->
      read w filename = Text text -> Py.splitlines text <> [] ->
      returned (Py.splitlines text) errs warns r ->
      cuecheck w filename = Return (errs, warns, r) -> outcome.

Lemma cuecheck_outcome : outcome.
Proof.
  destruct (String.eqb_spec (splitext_ext filename) ".cue") as [He|He].
  2: { apply out_not_cue; [done|]. unfold cuecheck.
       destruct (String.eqb_spec (splitext_ext filename) ".cue"); done. }
  destruct (isfile w filename) eqn:Hf.
  2: { apply out_not_exists; try done. unfold cuecheck. rewrite Hf.
       destruct (String.eqb_spec (splitext_ext filename) ".cue"); done. }
  destruct (read w filename) as [text| |] eqn:Hr.
  2: { apply out_decode; try done. unfold cuecheck. rewrite Hf, Hr.
       destruct (String.eqb_spec (splitext_ext filename) ".cue"); done. }
  2: { apply out_unreadable; try done. unfold cuecheck. rewrite Hf, Hr.
       destruct (String.eqb_spec (splitext_ext filename) ".cue"); done. }
  assert (Hc : cuecheck w filename
               = match Py.splitlines text with
                 | [] => Raise IndexError
                 | _ :: _ =>
                     match check_lines w filename (Py.splitlines text) no_diags with
                     | Raise e => Raise e
                     | Return (r, st) => Return (errorlist st, warnlist st, r)
                     end
                 end).
  { unfold cuecheck. rewrite Hf, Hr.
    destruct (String.eqb_spec (splitext_ext filename) ".cue"); done. }
  remember (Py.splitlines text) as d eqn:Hd.
  destruct (check_lines_cases d)
    as [(j & raw & Hj & Hor & Hfirst & Hb)|(r & st & Hb & R)];
    destruct d as [|l0 d'].
  - done.
  - rewrite Hb in Hc. eapply (out_parent text j raw); rewrite <- ?Hd; done.
  - by eapply out_empty.
  - rewrite Hb in Hc. eapply (out_returned text); rewrite <- ?Hd; done.
Qed.

(** A run that returns does so by the last case. *)
Lemma cuecheck_returned errs warns r :
  cuecheck w filename = Return (errs, warns, r) ->
  exists text, read w filename = Text text /\ Py.splitlines text <> [] /\
               returned (Py.splitlines text) errs warns r.
Proof.
  intros H. destruct cuecheck_outcome as [? E|? ? E|? ? ? E|? ? ? E|? ? ? ? ? E|
                                          ? ? ? ? ? ? ? ? ? E|
                                          text e' w' r' ? ? ? ? R E];
    rewrite E in H; try done.
  injection H as -> -> ->. eauto.
Qed.

End RunFacts.

(* ================================================================= *)
(** ** The nodes of the tree a run returns *)

Section Returned.

Variable w : world.
Variable filename : string.

(** A node [x] is the node of line [j] of [d], after the syntax pass. *)
Definition node_of_line (d : list string) (j : nat) (x : CMD) : Prop :=
  exists raw k,
    d !! j = Some raw /\ line_keyword raw = Some k /\
    linenum x = j + 1 /\ key x = Some k /\ line x = raw /\
    indent x = depth_of k raw /\
    dict x = attrs_after w filename (j + 1) k raw (depth_of k raw) no_attrs.

Lemma header_set_attrs x0 n k l i :
  header x0 = (n, Some k, l, i, no_attrs) ->
  header (set_attrs w filename x0)
  = (n, Some k, l, i, attrs_after w filename n k l i no_attrs).
Proof. destruct x0. unfold header. simpl. by intros [= -> -> -> -> ->]. Qed.

(** Every node of the tree is the root or the node of a line. *)
Lemma returned_nodes d errs warns r x :
  returned w filename d errs warns r -> x ∈ nodes r ->
  (linenum x = 0 /\ key x = None /\ dict x = no_attrs) \/
  exists j, node_of_line d j x.
Proof.
  intros [(b & -> & I & Hh) _ _] Hx. rewrite nodes_set_attrs in Hx.
  apply list_elem_of_In, in_map_iff in Hx as (x0 & <- & Hx0).
  assert (H0 : header x0 ∈ headers (root b)).
  { unfold headers. apply list_elem_of_In, in_map. exact Hx0. }
  rewrite Hh in H0. apply elem_of_cons in H0 as [H0|H0].
  - left. destruct x0. unfold header in H0. simpl in *.
    injection H0 as -> -> -> -> ->. done.
  - right. apply elem_of_line_headers in H0 as (j & raw & k & Hj & Hk & H0).
    simpl in H0. exists j, raw, k.
    apply header_set_attrs in H0. unfold header in H0.
    injection H0 as -> -> -> -> ->. done.
Qed.

(** Every line with a keyword has its node in the tree. *)
Lemma returned_line d errs warns r j raw k :
  returned w filename d errs warns r ->
  d !! j = Some raw -> line_keyword raw = Some k ->
  exists x, x ∈ nodes r /\ node_of_line d j x.
Proof.
  intros [(b & -> & I & Hh) _ _] Hj Hk.
  assert (H0 : header (new_node j k raw) ∈ headers (root b)).
  { rewrite Hh. right. apply elem_of_line_headers. exists j, raw, k. done. }
  unfold headers in H0. apply list_elem_of_In, in_map_iff in H0 as (x0 & H0 & Hx0).
  exists (set_attrs w filename x0). split.
  - rewrite nodes_set_attrs. apply list_elem_of_In, in_map. exact Hx0.
  - exists raw, k. simpl in H0. apply header_set_attrs in H0. unfold header in H0.
    injection H0 as -> -> -> -> ->. done.
Qed.

Lemma node_of_line_unique d j x j' :
  node_of_line d j x -> linenum x = j' + 1 -> j' = j.
Proof. intros (raw & k & _ & _ & H & _) H'. lia. Qed.

Lemma returned_placed d errs warns r :
  returned w filename d errs warns r -> key r = None /\ placed r.
Proof.
  intros [(b & -> & [Hk Hp _] & _) _ _]. split; [|by apply placed_set_attrs].
  destruct (set_attrs_fields w filename (root b)) as (_ & -> & _). done.
Qed.

(** The number of a node is unset or that of a two-digit field; its time
    is unset or a time of two-digit fields. *)
Lemma returned_values d errs warns r x :
  returned w filename d errs warns r -> x ∈ nodes r ->
  (a_number (dict x) = None \/
   exists v, a_number (dict x) = Some v /\ (0 <= v < 100)%Z) /\
  (a_time (dict x) = None \/
   exists v, a_time (dict x) = Some v /\ TimeFacts.time_fine v = true).
Proof.
  intros R Hx. destruct (returned_nodes _ _ _ _ _ R Hx)
    as [(_ & _ & ->)|(j & raw & k & _ & _ & _ & _ & _ & _ & ->)].
  - split; by left.
  - apply attrs_after_values.
Qed.

Lemma getCmds_nodes t k x : x ∈ getCmds t k -> x ∈ nodes t /\ key x = Some k.
Proof.
  induction t as [n kt l i a cs IH] using CMD_induction. simpl.
  intros [Hx|Hx]%elem_of_app.
  - case_bool_decide as E; [|by apply elem_of_nil in Hx].
    apply list_elem_of_singleton in Hx as ->. split; [left | done].
  - apply list_elem_of_In, in_flat_map in Hx as (c & Hc & Hx).
    apply list_elem_of_In in Hc, Hx. rewrite Forall_forall in IH.
    destruct (IH c Hc Hx) as [H1 H2]. split; [|done]. right.
    apply list_elem_of_In, in_flat_map. exists c. split; by apply list_elem_of_In.
Qed.

Lemma nodes_trans t c x : c ∈ nodes t -> x ∈ nodes c -> x ∈ nodes t.
Proof.
  induction t as [n kt l i a cs IH] using CMD_induction. simpl.
  intros [->|Hc]%elem_of_cons Hx; [done|]. right.
  apply list_elem_of_In, in_flat_map in Hc as (c' & Hc' & Hc).
  apply list_elem_of_In in Hc', Hc. rewrite Forall_forall in IH.
  apply list_elem_of_In, in_flat_map. exists c'.
  split; apply list_elem_of_In; [done | by apply IH].
Qed.

Lemma neighbours_elem {A} (l : list A) a b : neighbours l a b -> a ∈ l /\ b ∈ l.
Proof. intros (i & H1 & H2). split; by eapply list_elem_of_lookup_2. Qed.

End Returned.

(* ================================================================= *)
(** ** The order of the nodes *)

(** The nodes [n] steps below [t], from left to right. *)
Fixpoint level (n : nat) (t : CMD) : list CMD :=
  match n with
  | 0 => [t]
  | S n' => flat_map (level n') (children t)
  end.

(** The nodes of [l] are in the order of their lines. *)
Definition in_order (l : list CMD) : Prop :=
  StronglySorted Nat.lt (linenum <$> l).

(** The path [p] leads to a node of [t], and no node to the right of the
    path reaches the depth of the children of that node. *)
Fixpoint last_open (p : path) (t : CMD) : Prop :=
  match p with
  | [] => True
  | j :: p' =>
      exists A, children t !! j = Some A /\ last_open p' A /\
        forall j' B, j < j' -> children t !! j' = Some B -> level (S (length p')) B = []
  end.

Lemma flat_map_flat_map {A B C} (f : A -> list B) (g : B -> list C) l :
  flat_map g (flat_map f l) = flat_map (fun x => flat_map g (f x)) l.
Proof. induction l as [|x l IH]; simpl; [done|]. by rewrite flat_map_app', IH. Qed.

Lemma flat_map_nil {A B} (f : A -> list B) l :
  (forall x, x ∈ l -> f x = []) -> flat_map f l = [].
Proof.
  induction l as [|x l IH]; intros H; simpl; [done|].
  rewrite (H x) by left. apply IH. intros y Hy. apply H. by right.
Qed.

Lemma level_succ n : forall t, level (S n) t = flat_map children (level n t).
Proof.
  induction n as [|n IH]; intros t.
  - simpl. rewrite app_nil_r. induction (children t) as [|c cs IHc]; simpl; [done|].
    by f_equal.
  - change (level (S (S n)) t) with (flat_map (level (S n)) (children t)).
    rewrite (flat_map_ext _ _ IH). symmetry. apply flat_map_flat_map.
Qed.

Lemma level_nil_succ n t : level n t = [] -> level (S n) t = [].
Proof. intros H. by rewrite level_succ, H. Qed.

Lemma level_childless n c : children c = [] -> level (S n) c = [].
Proof. intros H. simpl. by rewrite H. Qed.

Lemma elem_of_flat_map {A B} (f : A -> list B) l y :
  y ∈ flat_map f l <-> exists x, x ∈ l /\ y ∈ f x.
Proof.
  rewrite list_elem_of_In, in_flat_map. split; intros (x & H1 & H2); exists x;
    by rewrite ?list_elem_of_In in *.
Qed.

Lemma level_nodes n : forall t x, x ∈ level n t -> x ∈ nodes t.
Proof.
  induction n as [|n IH]; intros t x; simpl.
  - intros ->%list_elem_of_singleton. destruct t. left.
  - intros (c & Hc & Hx)%elem_of_flat_map. eapply nodes_child; eauto.
Qed.

Lemma nodes_level t x : x ∈ nodes t -> exists n, x ∈ level n t.
Proof.
  induction t as [ln k l i a cs IH] using CMD_induction. simpl.
  intros [->|Hx]%elem_of_cons.
  - exists 0. by left.
  - apply elem_of_flat_map in Hx as (c & Hc & Hx). rewrite Forall_forall in IH.
    destruct (IH c Hc Hx) as (n & Hn). exists (S n). simpl.
    apply elem_of_flat_map. eauto.
Qed.

Lemma filter_flat_map {A B} (P : B -> Prop) `{!forall x, Decision (P x)}
    (f : A -> list B) l :
  filter P (flat_map f l) = flat_map (fun x => filter P (f x)) l.
Proof. induction l as [|x l IH]; simpl; [done|]. by rewrite filter_app, IH. Qed.

(** When the nodes with key [k] are [n] steps below [t], [getCmds] yields
    them from left to right. *)
Lemma getCmds_level k t : forall n,
  (forall m x, x ∈ level m t -> key x = Some k -> m = n) ->
  getCmds t k = filter (fun x => key x = Some k) (level n t).
Proof.
  induction t as [ln kt l i a cs IH] using CMD_induction. intros n H.
  rewrite Forall_forall in IH. cbn [getCmds key]. destruct n as [|n].
  - rewrite flat_map_nil.
    + rewrite app_nil_r. cbn [level]. rewrite filter_cons, filter_nil. cbn [key].
      case_bool_decide; by case_decide.
    + intros c Hc. destruct (getCmds c k) as [|x rest] eqn:E; [done|]. exfalso.
      assert (Hx : x ∈ getCmds c k) by (rewrite E; left).
      apply getCmds_nodes in Hx as [Hx Hk]. apply nodes_level in Hx as (m & Hm).
      assert (S m = 0); [|done]. apply (H (S m) x); [|done].
      simpl. apply elem_of_flat_map. eauto.
  - case_bool_decide as E.
    + assert (0 = S n); [|done]. apply (H 0 (mkCMD ln kt l i a cs)); [by left | done].
    + cbn [level children app]. rewrite filter_flat_map. apply flat_map_ext_Forall.
      apply Forall_forall. intros c Hc. apply IH; [done|].
      intros m x Hm Hk. assert (S m = S n); [|lia]. apply (H (S m) x); [|done].
      simpl. apply elem_of_flat_map. eauto.
Qed.

(** The depth of a node [m + 1] steps below the root of a tree the builder
    made. *)
Lemma placed_level r : placed r -> key r = None -> forall m x,
  x ∈ level (S m) r ->
  exists kx, key x = Some kx /\ indent x ∈ Rule.indent (commands kx)
             /\ indent x = 2 * m /\ m < 3.
Proof.
  intros Hp Hr. induction m as [|m IH]; intros x Hx.
  - rewrite level_succ in Hx. simpl in Hx. rewrite app_nil_r in Hx.
    apply placed_inv in Hp as [F _]. rewrite Forall_forall in F.
    destruct (F x Hx) as (kx & Hk & Hi & Hl). exists kx. rewrite Hr in Hl.
    split; [done|]. split; [done|]. unfold level_key in Hl.
    destruct (permitted_depths _ _ Hi) as [E|[E|E]]; rewrite E in *; simpl in *;
      try done. lia.
  - rewrite level_succ in Hx. apply elem_of_flat_map in Hx as (y & Hy & Hx).
    destruct (IH y Hy) as (ky & Hky & Hiy & Hdy & Hm).
    pose proof (placed_nodes _ _ Hp (level_nodes _ _ _ Hy)) as [F _]%placed_inv.
    rewrite Forall_forall in F.
    destruct (F x Hx) as (kx & Hk & Hi & Hl). exists kx. rewrite Hky in Hl.
    split; [done|]. split; [done|]. unfold level_key in Hl.
    destruct (permitted_depths _ _ Hi) as [E|[E|E]]; rewrite E in *; simpl in Hl;
      try done; injection Hl as <-; cbn in Hiy;
      apply list_elem_of_singleton in Hiy; lia.
Qed.

(** Where the nodes with a keyword of one permitted depth are. *)
Lemma level_of_key r m x k d :
  placed r -> key r = None -> x ∈ level m r -> key x = Some k ->
  Rule.indent (commands k) = [d] -> 2 * m = d + 2.
Proof.
  intros Hp Hr Hx Hk Hd. destruct m as [|m].
  - apply list_elem_of_singleton in Hx as ->. congruence.
  - destruct (placed_level r Hp Hr m x Hx) as (kx & Hkx & Hi & Hm & _).
    assert (kx = k) as -> by congruence. rewrite Hd in Hi.
    apply list_elem_of_singleton in Hi. lia.
Qed.

Lemma in_order_filter (P : CMD -> Prop) `{!forall x, Decision (P x)} l :
  in_order l -> in_order (filter P l).
Proof.
  unfold in_order. induction l as [|x l IH]; [done|].
  rewrite fmap_cons. intros [F S]%StronglySorted_cons. rewrite filter_cons.
  case_decide; [|auto]. rewrite fmap_cons. apply StronglySorted_cons. split; [|auto].
  rewrite Forall_fmap in *. rewrite Forall_forall in *.
  intros y [_ Hy]%list_elem_of_filter. auto.
Qed.

Lemma in_order_flat_map (f : CMD -> list CMD) l c :
  in_order (flat_map f l) -> c ∈ l -> in_order (f c).
Proof.
  unfold in_order. intros H (l1 & l2 & ->)%list_elem_of_split.
  rewrite flat_map_app' in H. simpl in H. rewrite !fmap_app in H.
  by apply StronglySorted_app_1_r, StronglySorted_app_1_l in H.
Qed.

(** *** Appending a child *)

Lemma line_numbers_alter (g : CMD -> list CMD) (f : CMD -> CMD) cs : forall j,
  (forall A, linenum <$> g (f A) = linenum <$> g A) ->
  linenum <$> flat_map g (alter f j cs) = linenum <$> flat_map g cs.
Proof.
  induction cs as [|a cs IH]; intros j H; [done|].
  destruct j as [|j].
  - change (alter f 0 (a :: cs)) with (f a :: cs). cbn [flat_map].
    by rewrite !fmap_app, H.
  - change (alter f (S j) (a :: cs)) with (a :: alter f j cs). cbn [flat_map].
    by rewrite !fmap_app, IH.
Qed.

(** A new child changes the line numbers of no other depth. *)
Lemma level_append_child_other c : children c = [] -> forall p t n,
  n <> S (length p) ->
  linenum <$> level n (append_child p c t) = linenum <$> level n t.
Proof.
  intros Hc. induction p as [|j p IH]; intros [ln k l i a cs] n Hn.
  - destruct n as [|n]; [done|]. cbn [append_child level children].
    rewrite flat_map_app'. simpl. rewrite app_nil_r.
    destruct n as [|n]; [done|]. by rewrite level_childless, app_nil_r.
  - destruct n as [|n]; [done|]. cbn [append_child level children].
    apply line_numbers_alter. intros A. apply IH. simpl in Hn. lia.
Qed.

Lemma lookup_after {A} (l1 : list A) x l2 y :
  y ∈ l2 -> exists j', length l1 < j' /\ (l1 ++ x :: l2) !! j' = Some y.
Proof.
  intros (k & Hk)%list_elem_of_lookup_1. exists (length l1 + S k). split; [lia|].
  rewrite lookup_app_r by lia. replace (length l1 + S k - length l1) with (S k) by lia.
  done.
Qed.

(** A new child of the node at [p] is the last node of its depth. *)
Lemma level_append_child_here c : forall p t,
  last_open p t ->
  level (S (length p)) (append_child p c t) = level (S (length p)) t ++ [c].
Proof.
  induction p as [|j p IH]; intros [ln k l i a cs] H.
  - cbn [append_child level children length]. rewrite flat_map_app'. done.
  - destruct H as (A & HA & Hp & Hr). simpl in HA, Hr.
    destruct (lookup_split _ _ _ HA) as (l1 & l2 & -> & <-).
    cbn [append_child length]. rewrite alter_middle.
    change (level (S (S (length p))) ?t) with (flat_map (level (S (length p))) (children t)).
    cbn [children]. rewrite !flat_map_app'. cbn [flat_map]. rewrite (IH A Hp).
    assert (E : flat_map (level (S (length p))) l2 = []).
    { apply flat_map_nil. intros B HB.
      destruct (lookup_after l1 A l2 B HB) as (j' & Hj & Hl). eauto. }
    rewrite E, !app_nil_r. by rewrite app_assoc.
Qed.

Lemma last_open_node_at : forall p t, last_open p t -> exists x, node_at p t = Some x.
Proof.
  induction p as [|j p IH]; intros t H; simpl; [eauto|].
  destruct H as (A & -> & Hp & _). eauto.
Qed.

Lemma last_open_level : forall p t m, last_open p t -> m <= length p -> level m t <> [].
Proof.
  induction p as [|j p IH]; intros t m H Hm.
  - simpl in Hm. by replace m with 0 by lia.
  - destruct m as [|m]; [done|]. destruct H as (A & HA & Hp & _).
    simpl in Hm. assert (Hl : level m A <> []) by (apply IH; [done | lia]).
    destruct (level m A) as [|x rest] eqn:E; [done|]. intros E'.
    assert (Hx : x ∈ level (S m) t).
    { simpl. apply elem_of_flat_map. exists A.
      split; [by eapply list_elem_of_lookup_2 | rewrite E; left]. }
    rewrite E' in Hx. by apply elem_of_nil in Hx.
Qed.

(** The path to a new child. *)
Lemma last_open_new c : forall p t x,
  last_open p t -> node_at p t = Some x ->
  last_open (p ++ [length (children x)]) (append_child p c t).
Proof.
  induction p as [|j p IH]; intros [ln k l i a cs] x H Hx.
  - injection Hx as <-. cbn [app append_child last_open children]. exists c.
    split; [by rewrite list_lookup_middle|]. split; [done|].
    intros j' B Hj HB. apply lookup_lt_Some in HB. rewrite length_app in HB.
    simpl in HB. lia.
  - destruct H as (A & HA & Hp & Hr). simpl in HA, Hr, Hx. rewrite HA in Hx.
    cbn [app append_child last_open children]. exists (append_child p c A).
    split; [by rewrite list_lookup_alter_eq, HA|]. split; [by apply IH|].
    intros j' B Hj HB. rewrite list_lookup_alter_ne in HB by lia.
    rewrite length_app. simpl. replace (length p + 1) with (S (length p)) by lia.
    apply level_nil_succ. eauto.
Qed.

(** The paths to the other open nodes stay what they are. *)
Lemma last_open_append c : children c = [] -> forall q p t,
  last_open q t -> last_open p t -> (length p = length q -> p = q) ->
  last_open q (append_child p c t).
Proof.
  intros Hc u. induction u as [|j q IH]; intros p [ln k l i a cs] Hq Hp Hpq; [done|].
  destruct Hq as (A & HA & HqA & Hr). cbn [children] in HA, Hr.
  destruct p as [|i' p]; cbn [append_child last_open children].
  - exists A. split; [|split; [done|]].
    + rewrite lookup_app_l; [done | by eapply lookup_lt_Some].
    + intros j' B Hj HB. apply lookup_app_Some in HB as [HB|[Hlen HB]]; [eauto|].
      apply list_lookup_singleton_Some in HB as [_ <-]. by apply level_childless.
  - destruct Hp as (Ap & HAp & HpA & Hrp). cbn [children] in HAp, Hrp.
    destruct (decide (i' = j)) as [->|Hne].
    + assert (Ap = A) as -> by congruence. exists (append_child p c A).
      split; [by rewrite list_lookup_alter_eq, HA|]. split.
      * apply IH; [done | done |]. intros Hl. simpl in Hpq.
        assert (E : j :: p = j :: q) by (apply Hpq; lia). congruence.
      * intros j' B Hj HB. rewrite list_lookup_alter_ne in HB by lia. eauto.
    + exists A. split; [by rewrite list_lookup_alter_ne|]. split; [done|].
      intros j' B Hj HB. destruct (decide (i' = j')) as [->|Hne'].
      * rewrite list_lookup_alter_eq, HAp in HB. injection HB as <-.
        pose proof (Hr j' Ap Hj HAp) as E.
        assert (Hlen : length p <> length q).
        { intros El. simpl in Hpq. assert (j' :: p = j :: q) by (apply Hpq; lia).
          congruence. }
        assert (Hlt : ~ S (length q) <= length p).
        { intros Hle. by apply (last_open_level p Ap (S (length q)) HpA Hle). }
        apply fmap_nil_inv with (f := linenum).
        rewrite level_append_child_other by (done || lia). by rewrite E.
      * rewrite list_lookup_alter_ne in HB by done. eauto.
Qed.

(** *** The builder keeps the nodes in order *)

(** What holds of the tree and of the open ancestors after [i] lines: the
    line numbers are at most [i], the nodes of every depth are in the
    order of their lines, and the open ancestor of a level is the last node
    of its depth that has children or may get them. *)
Record order_inv (i : nat) (b : builder) : Prop := mkOrder {
  ord_bound : forall n, Forall (fun x => linenum x <= i) (level n (root b));
  ord_sorted : forall n, in_order (level n (root b));
  ord_open : forall lv p,
    current b !! lv = Some (Some p) -> length p = lv /\ last_open p (root b)
}.

Lemma order_mono i i' b : order_inv i b -> i <= i' -> order_inv i' b.
Proof.
  intros [B Srt O] Hi. split; [|done|done].
  intros n. eapply Forall_impl; [apply B|]. simpl. intros; lia.
Qed.

Section Order.

Variable w : world.
Variable filename : string.

Lemma order_start : order_inv 0 (start w filename).
Proof.
  split.
  - intros [|n]; simpl; [|done]. by constructor.
  - intros [|n]; unfold in_order; simpl; repeat constructor.
  - intros [|[|[|[|lv]]]] p; simpl; try done. intros [= <-]. done.
Qed.

Lemma order_place i k raw b p :
  order_inv i b ->
  current b !! (depth_of k raw / 2) = Some (Some p) ->
  order_inv (S i)
    (mkBuilder (append_child p (new_node i k raw) (root b))
       (current_after k (p ++ [next_child p (root b)]) (current b))).
Proof.
  intros [B Srt O] Hp. destruct (O _ _ Hp) as [Hlen Hlast].
  assert (Hc : children (new_node i k raw) = []) by done.
  assert (Hn : linenum (new_node i k raw) = i + 1) by done.
  assert (Hhere : length (p ++ [next_child p (root b)]) = S (depth_of k raw / 2)
                  /\ last_open (p ++ [next_child p (root b)])
                       (append_child p (new_node i k raw) (root b))).
  { split; [rewrite length_app; cbn [length]; lia|].
    destruct (last_open_node_at _ _ Hlast) as (x & Hx). unfold next_child. rewrite Hx.
    by apply last_open_new. }
  assert (Hold : forall lv q, current b !! lv = Some (Some q) ->
            length q = lv /\ last_open q (append_child p (new_node i k raw) (root b))).
  { intros lv q Hq. destruct (O _ _ Hq) as [Hl Hq']. split; [done|].
    apply last_open_append; try done. intros El.
    assert (lv = depth_of k raw / 2) as -> by lia. congruence. }
  generalize dependent (new_node i k raw). intros c Hc Hn Hhere Hold.
  split; cbn [root current].
  - intros n. destruct (decide (n = S (length p))) as [->|Hne].
    + rewrite level_append_child_here by done. apply Forall_app. split.
      * eapply Forall_impl; [apply B|]. simpl. intros; lia.
      * constructor; [lia | done].
    + apply (Forall_fmap linenum (fun v => v <= S i)).
      rewrite level_append_child_other by done. apply Forall_fmap.
      eapply Forall_impl; [apply B|]. simpl. intros; lia.
  - intros n. unfold in_order. destruct (decide (n = S (length p))) as [->|Hne].
    + rewrite level_append_child_here by done. rewrite fmap_app.
      apply StronglySorted_app_2; [|apply Srt|repeat constructor].
      intros x1 x2 H1 ->%list_elem_of_singleton.
      apply list_elem_of_fmap in H1 as (y & -> & Hy).
      pose proof (B (S (length p))) as F. rewrite Forall_forall in F.
      specialize (F y Hy). simpl in F. lia.
    + rewrite level_append_child_other by done. apply Srt.
  - pose proof (depth_of_permitted k raw) as Hd.
    intros lv q. destruct k; cbn [current_after]; cbn in Hd;
      apply list_elem_of_singleton in Hd || idtac;
      try (apply Hold).
    + intros [(<- & [= <-] & _)|(_ & Hq)]%list_lookup_insert_Some; [|by apply Hold].
      rewrite Hd in Hhere. done.
    + intros [(<- & [= <-] & _)|(_ & Hq)]%list_lookup_insert_Some; [|by apply Hold].
      rewrite Hd in Hhere. done.
Qed.

Lemma classify_cases i raw b st b' st' :
  classify filename i raw b st = Return (b', st') ->
  b' = b \/
  exists k p, current b !! (depth_of k raw / 2) = Some (Some p) /\
    b' = mkBuilder (append_child p (new_node i k raw) (root b))
           (current_after k (p ++ [next_child p (root b)]) (current b)).
Proof.
  intros H. destruct (line_keyword raw) as [k|] eqn:Hk.
  - destruct (classify_keyword filename i raw b st k Hk) as (s1 & _ & _ & _ & E).
    rewrite E in H. right. exists k.
    destruct (current b !! (depth_of k raw / 2)) as [[p|]|] eqn:Hp.
    + exists p. split; [done|]. rewrite (place_unfold _ _ _ _ _ _ _ Hp) in H. congruence.
    + by rewrite place_closed in H.
    + unfold place in H. by rewrite Hp in H.
  - destruct (classify_no_keyword filename i raw b st Hk) as (s1 & E). left. congruence.
Qed.

Lemma build_order d : forall i b st b' st',
  order_inv i b -> build filename i d b st = Return (b', st') ->
  order_inv (i + length d) b'.
Proof.
  induction d as [|raw d IH]; intros i b st b' st' I H; simpl in H.
  - injection H as <- _. simpl. by rewrite Nat.add_0_r.
  - apply bind_Return in H as (b1 & s1 & H1 & H2).
    simpl. replace (i + S (length d)) with (S i + length d) by lia.
    apply (IH (S i) b1 s1 b' st'); [|done].
    destruct (classify_cases _ _ _ _ _ _ H1) as [->|(k & p & Hp & ->)].
    + apply (order_mono i); [done | lia].
    + by apply order_place.
Qed.

Lemma level_set_attrs n : forall t,
  level n (set_attrs w filename t) = set_attrs w filename <$> level n t.
Proof.
  induction n as [|n IH]; intros t; [done|].
  cbn [level]. destruct (set_attrs_fields w filename t) as (_ & _ & _ & _ & ->).
  rewrite flat_map_map. rewrite (flat_map_ext _ _ IH).
  symmetry. apply (map_flat_map (level n) (set_attrs w filename)).
Qed.

(** In the tree a run returns, the nodes of every depth are in the order
    of their lines. *)
Lemma cuecheck_in_order errs warns r n :
  cuecheck w filename = Return (errs, warns, r) -> in_order (level n r).
Proof.
  intros (text & b & s0 & s1 & s2 & s3 & s4 & S)%cuecheck_stages.
  pose proof (build_order _ _ _ _ _ _ order_start (st_build _ _ _ _ _ _ _ _ _ _ _ _ S)) as [_ O _].
  rewrite (checkCmdSyntax_value _ _ _ _ _ _ (st_syntax _ _ _ _ _ _ _ _ _ _ _ _ S)).
  unfold in_order. rewrite level_set_attrs, <- list_fmap_compose.
  erewrite list_fmap_ext; [apply (O n)|]. intros j x _. simpl.
  by destruct (set_attrs_fields w filename x) as (-> & _).
Qed.

(** The TRACK nodes that the sequence checks go through are in the order of
    their lines. *)
Lemma tracks_in_order errs warns r :
  cuecheck w filename = Return (errs, warns, r) -> in_order (getCmds r TRACK).
Proof.
  intros H. destruct (cuecheck_returned _ _ _ _ _ H) as (text & _ & _ & R).
  destruct (returned_placed _ _ _ _ _ _ R) as [Hk Hp].
  rewrite (getCmds_level TRACK r 2).
  - apply in_order_filter. by eapply cuecheck_in_order.
  - intros m x Hx Hkx.
    pose proof (level_of_key r m x TRACK 2 Hp Hk Hx Hkx eq_refl). lia.
Qed.

(** The INDEX nodes below a FILE node are in the order of their lines. *)
Lemma file_indexes_in_order errs warns r c :
  cuecheck w filename = Return (errs, warns, r) -> c ∈ getCmds r FILE ->
  in_order (getCmds c INDEX).
Proof.
  intros H Hc. destruct (cuecheck_returned _ _ _ _ _ H) as (text & _ & _ & R).
  destruct (returned_placed _ _ _ _ _ _ R) as [Hk Hp].
  apply getCmds_nodes in Hc as [Hc Hkc]. apply nodes_level in Hc as (m & Hm).
  pose proof (level_of_key r m c FILE 0 Hp Hk Hm Hkc eq_refl) as E.
  assert (m = 1) as -> by lia.
  assert (Hch : c ∈ children r).
  { simpl in Hm. apply elem_of_flat_map in Hm as (c' & Hc' & Hm).
    by apply list_elem_of_singleton in Hm as ->. }
  rewrite (getCmds_level INDEX c 2).
  - apply in_order_filter. apply (in_order_flat_map (level 2) (children r)); [|done].
    apply (cuecheck_in_order errs warns r 3 H).
  - intros m x Hx Hkx.
    assert (Hx' : x ∈ level (S m) r) by (simpl; apply elem_of_flat_map; eauto).
    pose proof (level_of_key r (S m) x INDEX 4 Hp Hk Hx' Hkx eq_refl). lia.
Qed.

End Order.



(* ================================================================= *)
(** ** Documents to run the validator on *)

(** A world in which every file exists and the document has the text
    [text]. *)
Definition world_of (text : string) : world :=
  mkWorld (fun _ => true) (fun _ _ => true) (fun _ => Text text) (fun f => f).

Definition newline : string := String (ascii_of_nat 10) EmptyString.

(** The text of a document with the lines [l]. *)
Definition document (l : list string) : string :=
  fold_right (fun a b => a +:+ newline +:+ b) EmptyString l.

(** The parts of the value of a run, when it returns. *)
Definition errors_of (res : result (cueSynerrList.t * cueSynerrList.t * CMD))
  : cueSynerrList.t :=
  match res with Return (e, _, _) => e | Raise _ => [] end.

Definition warnings_of (res : result (cueSynerrList.t * cueSynerrList.t * CMD))
  : cueSynerrList.t :=
  match res with Return (_, wn, _) => wn | Raise _ => [] end.

Definition tree_of (res : result (cueSynerrList.t * cueSynerrList.t * CMD)) : CMD :=
  match res with Return (_, _, r) => r | Raise _ => mkCMD 0 None EmptyString 0 no_attrs [] end.

(** Two tracks numbered 01 and 03. *)
Definition disc_1_3 : world :=
  world_of (document
    [ "FILE " +:+ q "a.bin" +:+ " BINARY";
      "  TRACK 01 AUDIO";
      "    TITLE " +:+ q "Song";
      "    INDEX 01 00:00:00";
      "  TRACK 03 AUDIO";
      "    TITLE " +:+ q "Song";
      "    INDEX 01 00:02:00" ]).

Example disc_1_3_result :
  cuecheck disc_1_3 "disc.cue"
  = Return ([cueSyntaxError.mk 2 "  TRACK 01 AUDIO" [TrackNumberError 1 3]], [],
            tree_of (cuecheck disc_1_3 "disc.cue")).
Proof. vm_compute. reflexivity. Qed.

(* ================================================================= *)
(** ** The claims *)

Section Claims.

Import cueSyntaxError cueSynerrList TimeFacts.

(** The list after the records [ops] were added to an empty list. *)
Definition record_all (ops : list cueSyntaxError.t) : cueSynerrList.t :=
  fold_left add ops init.

Lemma record_all_ascending ops : ascending (record_all ops).
Proof.
  unfold record_all. assert (H : ascending init) by constructor.
  revert H. generalize init. induction ops as [|e ops IH]; intros l H; simpl; [done|].
  by apply IH, add_ascending.
Qed.

(** C3.  In a diagnostic set that any sequence of [add] operations built,
    the records are strictly ascending by line number, so no two records
    have the same line number; adding a record for a line number that is
    present appends its messages to the record of that line and changes
    nothing else; adding a record for a new line number inserts it, and the
    set stays ascending. *)
Theorem diagnostics_merged_and_ascending (ops : list cueSyntaxError.t)
    (e : cueSyntaxError.t) :
  ascending (record_all ops) /\
  NoDup (line_nums (record_all ops)) /\
  (line_num e ∈ line_nums (record_all ops) ->
     exists l1 x l2,
       record_all ops = l1 ++ x :: l2 /\ line_num x = line_num e /\
       add (record_all ops) e
       = l1 ++ mk (line_num x) (line x) (message x ++ message e) :: l2) /\
  (line_num e ∉ line_nums (record_all ops) ->
     add (record_all ops) e ≡ₚ e :: record_all ops) /\
  ascending (add (record_all ops) e).
Proof.
  pose proof (record_all_ascending ops) as H.
  split; [done|]. split; [by apply ascending_NoDup|]. split; [|split].
  - intros Hin. destruct (add_old _ _ Hin) as (l1 & x & l2 & E & Hx & _ & Ha).
    exists l1, x, l2. done.
  - intros Hn. rewrite add_new by done. apply insert_Permutation.
  - by apply add_ascending.
Qed.

(** C9.  For a document without lines (an empty file that exists, has the
    extension .cue and decodes), the run raises [IndexError] at the access
    to [d[0]]: it returns no diagnostic sets and it does not raise
    [cuecheckError]. *)
Theorem empty_document_index_error (w : world) (filename text : string) :
  splitext_ext filename = ".cue" ->
  isfile w filename = true ->
  read w filename = Text text ->
  Py.splitlines text = [] ->
  cuecheck w filename = Raise IndexError /\
  (forall v, cuecheck w filename <> Return v) /\
  (forall f m, cuecheck w filename <> Raise (cuecheckError f m)).
Proof.
  intros He Hf Hr Hd.
  assert (H : cuecheck w filename = Raise IndexError).
  { unfold cuecheck. rewrite He, Hf, Hr, Hd. done. }
  rewrite H. repeat split; done.
Qed.

Lemma empty_document_index_error_witness :
  cuecheck (world_of "") "disc.cue" = Raise IndexError /\
  (forall v, cuecheck (world_of "") "disc.cue" <> Return v) /\
  (forall f m, cuecheck (world_of "") "disc.cue" <> Raise (cuecheckError f m)).
Proof.
  apply (empty_document_index_error (world_of "") "disc.cue" ""); reflexivity.
Defined.


End Claims.

(** Two tracks of which the first has a one-digit number, which its rule
    does not match, and two indexes with the same time. *)
Definition disc_unset : world :=
  world_of (document
    [ "FILE " +:+ q "a.bin" +:+ " BINARY";
      "  TRACK 1 AUDIO";
      "    INDEX 01 00:00:00";
      "    INDEX 02 00:00:00";
      "  TRACK 02 AUDIO";
      "    INDEX 1 00:00:00";
      "    INDEX 01 00:03:00" ]).

Lemma for_each_elem {A} K (body : A -> M unit) l st st' a :
  (forall x, adds K (body x)) ->
  for_each body l st = Return (tt, st') -> a ∈ l ->
  exists sa sb, body a sa = Return (tt, sb) /\ grows sb st'.
Proof.
  intros HK. revert st. induction l as [|x l IH]; intros st H Ha.
  - by apply elem_of_nil in Ha.
  - simpl in H. apply bind_Return in H as ([] & s1 & H1 & H2).
    apply elem_of_cons in Ha as [->|Ha].
    + exists st, s1. split; [done|].
      eapply (adds_for_each K body l); [|exact H2]. apply Forall_forall. auto.
    + eauto.
Qed.

Section Claims2.

Variable w : world.
Variable filename : string.

(** What the syntax pass and the multiplicity pass recorded is in the
    errors of the run. *)
Lemma stages_grow errs warns r text b s0 s1 s2 s3 s4 :
  stages w filename errs warns r text b s0 s1 s2 s3 s4 ->
  grows s1 (mkDiags errs warns) /\ grows s3 (mkDiags errs warns).
Proof.
  intros [? ? ? ? Hb H1 H2 H3 H4 H5].
  apply adds_checkCmdChildren in H2 as [G2 _].
  apply adds_checkCmdMul in H3 as [G3 _]. apply adds_checkCmdOrder in H4 as [G4 _].
  pose proof (emits_grows _ _ _ _ _ _ (emits_sequence_checks r) H5) as G5.
  split.
  - etrans; [exact G2|]. etrans; [exact G3|]. by etrans.
  - by etrans.
Qed.

(** The siblings with keyword [k] among [cs]. *)
Definition with_key (k : keyword) (cs : list CMD) : list CMD :=
  List.filter (fun c => bool_decide (key c = Some k)) cs.

Lemma mul_exceeds_count k mul cs :
  mul <= 1 -> (mul_exceeds k mul cs = true <-> 2 <= mul + length (with_key k cs)).
Proof.
  revert mul. induction cs as [|c cs IH]; intros mul Hm; simpl.
  - split; [done | lia].
  - destruct (bool_decide (key c = Some k)); simpl.
    + destruct (Nat.ltb_spec 1 (mul + 1)).
      * split; [lia | done].
      * rewrite IH by lia. lia.
    + by apply IH.
Qed.

Lemma checkCmdMul_own p c st st' k :
  checkCmdMul (Some p) c st = Return (tt, st') ->
  key c = Some k -> Rule.multiple (commands k) = false ->
  mul_exceeds k 0 (children p) = true ->
  recorded (errorlist st') (linenum c) MultipleError.
Proof.
  destruct c as [n kc l i a cs]. simpl. intros H -> Hm He.
  apply bind_Return in H as ([] & s1 & H1 & H2).
  rewrite Hm, He in H1. simpl in H1.
  destruct (emits_add_error _ _ _ _ _ _ H1) as [E _].
  assert (G : grows s1 st').
  { eapply (adds_for_each tree_msg); [|exact H2].
    apply Forall_forall. intros; apply adds_checkCmdMul. }
  apply G, E. right. done.
Qed.

Lemma checkCmdMul_records t : forall p0 st st' p c k,
  checkCmdMul p0 t st = Return (tt, st') ->
  p ∈ nodes t -> c ∈ children p -> key c = Some k ->
  Rule.multiple (commands k) = false ->
  mul_exceeds k 0 (children p) = true ->
  recorded (errorlist st') (linenum c) MultipleError.
Proof.
  induction t as [n kt l i a cs IH] using CMD_induction.
  intros p0 st st' p c k H Hp Hc Hk Hm He. simpl in H.
  apply bind_Return in H as ([] & s1 & _ & H2).
  simpl in Hp. apply elem_of_cons in Hp as [->|Hp].
  - simpl in Hc.
    destruct (for_each_elem tree_msg _ _ _ _ c (adds_checkCmdMul _) H2 Hc)
      as (sa & sb & Hb & G).
    apply G. eapply checkCmdMul_own; eauto.
  - apply list_elem_of_In, in_flat_map in Hp as (c' & Hc' & Hp).
    apply list_elem_of_In in Hc', Hp.
    destruct (for_each_elem tree_msg _ _ _ _ c' (adds_checkCmdMul _) H2 Hc')
      as (sa & sb & Hb & G).
    apply G. rewrite Forall_forall in IH. eapply IH; eauto.
Qed.

(** C7.  In the tree a run returns, a node whose keyword is not marked
    ['multiple'] and that is one of two or more children of its parent with
    that keyword has the error [multiple command error] recorded for its
    own line, the first such child included. *)
Theorem singleton_repeated_reported (errs warns : cueSynerrList.t) (r p c : CMD)
    (k : keyword) :
  cuecheck w filename = Return (errs, warns, r) ->
  p ∈ nodes r -> c ∈ children p -> key c = Some k ->
  Rule.multiple (commands k) = false ->
  2 <= length (with_key k (children p)) ->
  recorded errs (linenum c) MultipleError.
Proof.
  intros (text & b & s0 & s1 & s2 & s3 & s4 & S)%cuecheck_stages Hp Hc Hk Hm Hn.
  destruct (stages_grow _ _ _ _ _ _ _ _ _ _ S) as [_ [G _]].
  apply G. eapply checkCmdMul_records; eauto using st_mul.
  assert (H01 : 0 <= 1) by lia.
  by apply (proj2 (mul_exceeds_count k 0 (children p) H01)).
Qed.


(** The time of a node of the tree a run returns is a number that is not
    below the sentinel; when it was set, it is not below 0 either. *)
Lemma returned_time errs warns r x :
  cuecheck w filename = Return (errs, warns, r) -> x ∈ nodes r ->
  TimeFacts.is_number (time x) = true /\
  time_ge (time x) unset_time = true /\
  (a_time (dict x) = None -> time x = unset_time) /\
  (a_time (dict x) <> None -> time_ge unset_time (time x) = false).
Proof.
  intros (text & _ & _ & R)%cuecheck_returned Hx.
  destruct (returned_values _ _ _ _ _ _ _ R Hx) as [_ [E|(v & E & F)]];
    unfold time; rewrite E; simpl.
  - repeat split; done.
  - unfold TimeFacts.time_fine in F.
    apply andb_prop in F as [[[F1 F2]%andb_prop F3%negb_true_iff]%andb_prop F4].
    repeat split; done.
Qed.

(** The number of a node of the tree a run returns is the sentinel, when it
    was not set, or is not below 0. *)
Lemma returned_number errs warns r x :
  cuecheck w filename = Return (errs, warns, r) -> x ∈ nodes r ->
  (a_number (dict x) = None /\ number x = unset_number) \/
  (a_number (dict x) <> None /\ (0 <= number x < 100)%Z).
Proof.
  intros (text & _ & _ & R)%cuecheck_returned Hx.
  destruct (returned_values _ _ _ _ _ _ _ R Hx) as [[E|(v & E & F)] _];
    unfold number; rewrite E; simpl; [by left | by right].
Qed.

Lemma getCmds_getCmds_nodes r k c k' x :
  c ∈ getCmds r k -> x ∈ getCmds c k' -> x ∈ nodes r.
Proof.
  intros [Hc _]%getCmds_nodes [Hx _]%getCmds_nodes. by eapply nodes_trans.
Qed.

Lemma first_track_recorded errs warns r t0 :
  cuecheck w filename = Return (errs, warns, r) ->
  head (getCmds r TRACK) = Some t0 -> number t0 <> 1%Z ->
  recorded warns (linenum t0) FirstTrackNumber.
Proof.
  intros H H0 Hn. apply (sequence_warnings_exact _ _ _ _ _ _ _ H); [done|].
  exists t0. done.
Qed.

Lemma track_pair_recorded errs warns r a b :
  cuecheck w filename = Return (errs, warns, r) ->
  neighbours (getCmds r TRACK) a b ->
  recorded errs (linenum a) (TrackNumberError (number a) (number b))
  <-> (number a + 1)%Z <> number b.
Proof.
  intros H N. rewrite (sequence_errors_exact _ _ _ _ _ _ _ H) by done. split.
  - intros [(a' & b' & _ & Hn & _ & [= -> ->])|[(c & _ & [(? & _ & _ & _ & ?)|(? & ? & _ & _ & _ & ?)])
                                              |(c & _ & [(? & _ & _ & _ & _ & ?)|(? & ? & _ & _ & _ & ?)])]];
      done.
  - intros Hn. left. exists a, b. done.
Qed.

Lemma first_time_recorded errs warns r c x0 :
  cuecheck w filename = Return (errs, warns, r) ->
  c ∈ getCmds r FILE -> head (getCmds c INDEX) = Some x0 ->
  time_ne (time x0) 0 = true ->
  recorded errs (linenum x0) FirstIndexTime.
Proof.
  intros H Hc H0 Hn. apply (sequence_errors_exact _ _ _ _ _ _ _ H); [done|].
  right. left. exists c. split; [done|]. left. exists x0. done.
Qed.

Lemma time_pair_recorded errs warns r c a b :
  cuecheck w filename = Return (errs, warns, r) ->
  c ∈ getCmds r FILE -> neighbours (getCmds c INDEX) a b ->
  recorded errs (linenum a) (IndexTimeError (time a) (time b))
  <-> time_ge (time a) (time b) = true.
Proof.
  intros H Hc N. rewrite (sequence_errors_exact _ _ _ _ _ _ _ H) by done. split.
  - intros [(? & ? & _ & _ & _ & ?)|[(c' & _ & [(? & _ & _ & _ & ?)|(a' & b' & _ & Hn & _ & [= -> ->])])
                                   |(c' & _ & [(? & _ & _ & _ & _ & ?)|(? & ? & _ & _ & _ & ?)])]];
      done.
  - intros Hn. right. left. exists c. split; [done|]. right. exists a, b. done.
Qed.

Lemma first_index_recorded errs warns r c x0 :
  cuecheck w filename = Return (errs, warns, r) ->
  c ∈ getCmds r TRACK -> head (getCmds c INDEX) = Some x0 ->
  number x0 <> 0%Z -> number x0 <> 1%Z ->
  recorded errs (linenum x0) FirstIndexNumber.
Proof.
  intros H Hc H0 Hn0 Hn1. apply (sequence_errors_exact _ _ _ _ _ _ _ H); [done|].
  right. right. exists c. split; [done|]. left. exists x0. done.
Qed.

Lemma index_pair_recorded errs warns r c a b :
  cuecheck w filename = Return (errs, warns, r) ->
  c ∈ getCmds r TRACK -> neighbours (getCmds c INDEX) a b ->
  recorded errs (linenum a) (IndexNumberError (number a) (number b))
  <-> (number a + 1)%Z <> number b.
Proof.
  intros H Hc N. rewrite (sequence_errors_exact _ _ _ _ _ _ _ H) by done. split.
  - intros [(? & ? & _ & _ & _ & ?)|[(c' & _ & [(? & _ & _ & _ & ?)|(? & ? & _ & _ & _ & ?)])
                                   |(c' & _ & [(? & _ & _ & _ & _ & ?)|(a' & b' & _ & Hn & _ & [= -> ->])])]];
      done.
  - intros Hn. right. right. exists c. split; [done|]. right. exists a, b. done.
Qed.

(** C6, as the program has it.  The TRACK nodes of the tree a run
    returns are gone through in the order of their lines.  The warning
    [first TRACK number not is 1] is recorded exactly for the line of a
    first track whose number is not 1, and the error
    [TRACK number error, x -> y], with TRACK in capitals, is recorded
    exactly for the line of the earlier track of two neighbours whose
    numbers x and y are not consecutive. *)
Theorem track_numbers_checked (errs warns : cueSynerrList.t) (r : CMD) :
  cuecheck w filename = Return (errs, warns, r) ->
  in_order (getCmds r TRACK) /\
  (forall n, recorded warns n FirstTrackNumber <->
     exists t0, head (getCmds r TRACK) = Some t0 /\ number t0 <> 1%Z
                /\ n = linenum t0) /\
  (forall n x y, recorded errs n (TrackNumberError x y) <->
     exists a b, neighbours (getCmds r TRACK) a b /\ (number a + 1)%Z <> number b
                 /\ n = linenum a /\ x = number a /\ y = number b) /\
  (forall str_time,
     msg_text str_time (TrackNumberError 1 3) = "TRACK number error, 1 -> 3").
Proof.
  intros H. split; [by eapply tracks_in_order|]. split; [|split; [|done]].
  - intros n. rewrite (sequence_warnings_exact _ _ _ _ _ _ _ H) by done.
    unfold track_warnings, first_track_warning. split.
    + intros (t0 & ? & ? & ? & _). eauto.
    + intros (t0 & ? & ? & ?). exists t0. done.
  - intros n x y. rewrite (sequence_errors_exact _ _ _ _ _ _ _ H) by done. split.
    + intros [(a & b & N & Hn & -> & [= -> ->])
             |[(c & _ & [(? & _ & _ & _ & ?)|(? & ? & _ & _ & _ & ?)])
              |(c & _ & [(? & _ & _ & _ & _ & ?)|(? & ? & _ & _ & _ & ?)])]]; try done.
      exists a, b. done.
    + intros (a & b & N & Hn & -> & -> & ->). left. exists a, b. done.
Qed.

(** C5.  For each FILE node of the tree a run returns, the INDEX nodes
    below it are gone through in the order of their lines: an error is
    recorded for the first index when its time is not 0, and an error is
    recorded for the earlier of two neighbours exactly when their times are
    not strictly increasing; equal times are such a case. *)
Theorem file_index_times_checked (errs warns : cueSynerrList.t) (r c : CMD) :
  cuecheck w filename = Return (errs, warns, r) ->
  c ∈ getCmds r FILE ->
  in_order (getCmds c INDEX) /\
  (forall x0, head (getCmds c INDEX) = Some x0 ->
     PrimFloat.eqb (time x0) 0 = false ->
     recorded errs (linenum x0) FirstIndexTime) /\
  (forall a b, neighbours (getCmds c INDEX) a b ->
     (recorded errs (linenum a) (IndexTimeError (time a) (time b))
      <-> PrimFloat.ltb (time a) (time b) = false)) /\
  (forall a b, neighbours (getCmds c INDEX) a b ->
     PrimFloat.eqb (time a) (time b) = true ->
     recorded errs (linenum a) (IndexTimeError (time a) (time b))).
Proof.
  intros H Hc. split; [by eapply file_indexes_in_order|]. split; [|split].
  - intros x0 H0 Hn. eapply first_time_recorded; eauto.
    unfold time_ne. by rewrite Hn.
  - intros a b N. rewrite (time_pair_recorded _ _ _ _ _ _ H Hc N).
    destruct (neighbours_elem _ _ _ N) as [Ha Hb].
    destruct (returned_time _ _ _ a H (getCmds_getCmds_nodes _ _ _ _ _ Hc Ha)) as [Na _].
    destruct (returned_time _ _ _ b H (getCmds_getCmds_nodes _ _ _ _ _ Hc Hb)) as [Nb _].
    rewrite (TimeFacts.time_ge_not_lt _ _ Na Nb). apply negb_true_iff.
  - intros a b N He. apply (time_pair_recorded _ _ _ _ _ _ H Hc N).
    by apply TimeFacts.time_ge_eq.
Qed.

(** C1, as the program has it.  The sequence checks compare an unset field
    as the number -1.  In the tree a run returns: a first track whose number
    is unset, a first index of a file whose time is unset and a first index
    of a track whose number is unset get the diagnostic of the check of
    the first node; for two neighbours of which one has its number unset,
    the numbering error is recorded for the earlier one unless it is the
    earlier number that is unset and the later number is 0; for two
    neighbours of which one has its time unset, the timing error is
    recorded for the earlier one exactly when the later time is unset. *)
Theorem unset_fields_compared_as_numbers (errs warns : cueSynerrList.t) (r : CMD) :
  cuecheck w filename = Return (errs, warns, r) ->
  (forall t0, head (getCmds r TRACK) = Some t0 -> a_number (dict t0) = None ->
     recorded warns (linenum t0) FirstTrackNumber) /\
  (forall c x0, c ∈ getCmds r FILE -> head (getCmds c INDEX) = Some x0 ->
     a_time (dict x0) = None ->
     recorded errs (linenum x0) FirstIndexTime) /\
  (forall c x0, c ∈ getCmds r TRACK -> head (getCmds c INDEX) = Some x0 ->
     a_number (dict x0) = None ->
     recorded errs (linenum x0) FirstIndexNumber) /\
  (forall a b, neighbours (getCmds r TRACK) a b ->
     a_number (dict a) = None \/ a_number (dict b) = None ->
     (recorded errs (linenum a) (TrackNumberError (number a) (number b))
      <-> ~ (a_number (dict a) = None /\ number b = 0%Z))) /\
  (forall c a b, c ∈ getCmds r TRACK -> neighbours (getCmds c INDEX) a b ->
     a_number (dict a) = None \/ a_number (dict b) = None ->
     (recorded errs (linenum a) (IndexNumberError (number a) (number b))
      <-> ~ (a_number (dict a) = None /\ number b = 0%Z))) /\
  (forall c a b, c ∈ getCmds r FILE -> neighbours (getCmds c INDEX) a b ->
     a_time (dict a) = None \/ a_time (dict b) = None ->
     (recorded errs (linenum a) (IndexTimeError (time a) (time b))
      <-> a_time (dict b) = None)).
Proof.
  intros H.
  assert (U : forall x, a_number (dict x) = None -> number x = (-1)%Z).
  { intros x E. unfold number. by rewrite E. }
  assert (P : forall a b, a ∈ nodes r -> b ∈ nodes r ->
            a_number (dict a) = None \/ a_number (dict b) = None ->
            ((number a + 1)%Z <> number b
             <-> ~ (a_number (dict a) = None /\ number b = 0%Z))).
  { intros a b Ha Hb Hu.
    destruct (returned_number _ _ _ a H Ha) as [[A1 A2]|[A1 A2]],
             (returned_number _ _ _ b H Hb) as [[B1 B2]|[B1 B2]];
      unfold unset_number in *.
    - split; [intros Hn [_ Eb]; lia | intros Hn Heq; apply Hn; split; [done | lia]].
    - split; [intros Hn [_ Eb]; lia | intros Hn Heq; apply Hn; split; [done | lia]].
    - split; [by intros _ [Ea _] | intros _; lia].
    - destruct Hu; done. }
  split; [|split; [|split; [|split; [|split]]]].
  - intros t0 H0 E. eapply first_track_recorded; eauto. rewrite (U _ E). done.
  - intros c x0 Hc H0 E. eapply first_time_recorded; eauto.
    unfold time. rewrite E. done.
  - intros c x0 Hc H0 E. eapply first_index_recorded; eauto; rewrite (U _ E); done.
  - intros a b N Hu. rewrite (track_pair_recorded _ _ _ _ _ H N).
    destruct (neighbours_elem _ _ _ N) as [Ha Hb].
    apply getCmds_nodes in Ha as [Ha _]. apply getCmds_nodes in Hb as [Hb _].
    by apply P.
  - intros c a b Hc N Hu. rewrite (index_pair_recorded _ _ _ _ _ _ H Hc N).
    destruct (neighbours_elem _ _ _ N) as [Ha Hb].
    apply P; [by eapply getCmds_getCmds_nodes | by eapply getCmds_getCmds_nodes | done].
  - intros c a b Hc N Hu. rewrite (time_pair_recorded _ _ _ _ _ _ H Hc N).
    destruct (neighbours_elem _ _ _ N) as [Ha Hb].
    destruct (returned_time _ _ _ a H (getCmds_getCmds_nodes _ _ _ _ _ Hc Ha))
      as (_ & Ta & _).
    destruct (returned_time _ _ _ b H (getCmds_getCmds_nodes _ _ _ _ _ Hc Hb))
      as (_ & _ & Ub & Tb).
    destruct (a_time (dict b)) as [tb|] eqn:Eb.
    + destruct Hu as [Ea|?]; [|done]. unfold time at 1. rewrite Ea. simpl.
      rewrite Tb by done. done.
    + rewrite (Ub eq_refl). done.
Qed.


(** A line whose depth was coerced, or whose first token is not upper-case,
    does not match the rule of its keyword at the depth of its node. *)
Lemma coerced_or_lowercase_no_match raw k :
  line_keyword raw = Some k ->
  depth_ok k raw = false \/ capital raw = false ->
  match_syntax k (depth_of k raw) raw = None.
Proof.
  intros Hk Hv. destruct (match_syntax k (depth_of k raw) raw) as [m|] eqn:Hm; [|done].
  exfalso. assert (Hn : match_syntax k (depth_of k raw) raw <> None) by congruence.
  destruct Hv as [Hd|Hc].
  - apply ReFacts.match_syntax_depth in Hn. unfold depth_ok in Hd.
    apply bool_decide_eq_false in Hd. apply Hd. rewrite Hn. apply depth_of_permitted.
  - apply ReFacts.match_syntax_first_token in Hn as (rest & Hs).
    unfold capital in Hc. rewrite Hs in Hc.
    destruct (ReFacts.keyword_name_word k) as (_ & _ & Hu & _). congruence.
Qed.

(** C10.  A line with a keyword whose number of leading spaces was coerced
    (indent error) or whose first token is not upper-case has, in a run
    that returns, the error [command syntax error] recorded for it, and its
    node has none of its attributes set. *)
Theorem coerced_or_lowercase_line_fails_syntax (errs warns : cueSynerrList.t)
    (r : CMD) (text : string) (j : nat) (raw : string) (k : keyword) :
  cuecheck w filename = Return (errs, warns, r) ->
  read w filename = Text text ->
  Py.splitlines text !! j = Some raw ->
  line_keyword raw = Some k ->
  depth_ok k raw = false \/ capital raw = false ->
  recorded errs (j + 1) CommandSyntaxError /\
  (exists x, x ∈ nodes r /\ linenum x = j + 1) /\
  (forall x, x ∈ nodes r -> linenum x = j + 1 ->
     key x = Some k /\ line x = raw /\ indent x = depth_of k raw /\
     dict x = no_attrs /\ number x = (-1)%Z /\ time x = (-1)%float /\
     file x = "" /\ type_ x = "" /\ content x = "" /\ tag x = None).
Proof.
  intros H Hr Hj Hk Hv.
  pose proof (coerced_or_lowercase_no_match raw k Hk Hv) as Hm.
  destruct (cuecheck_returned _ _ _ _ _ H) as (text' & Hr' & _ & R).
  assert (text' = text) as -> by congruence.
  assert (F : forall x, x ∈ nodes r -> linenum x = j + 1 ->
            key x = Some k /\ line x = raw /\ indent x = depth_of k raw /\
            dict x = no_attrs).
  { intros x Hx Hl. destruct (returned_nodes _ _ _ _ _ _ _ R Hx)
      as [(Hl0 & _)|(j' & raw' & k' & Hj' & Hk' & Hl' & Hkx & Hlx & Hix & Hdx)]; [lia|].
    assert (j' = j) as -> by lia. assert (raw' = raw) as -> by congruence.
    assert (k' = k) as -> by congruence.
    rewrite Hdx, attrs_after_no_match by done. done. }
  destruct (returned_line _ _ _ _ _ _ _ _ _ R Hj Hk) as (x & Hx & (raw' & k' & _ & _ & Hl & _)).
  split; [|split].
  - apply cuecheck_stages in H as (t & b & s0 & s1 & s2 & s3 & s4 & S).
    destruct (stages_grow _ _ _ _ _ _ _ _ _ _ S) as [[G _] _].
    pose proof (st_syntax _ _ _ _ _ _ _ _ _ _ _ _ S) as Hs.
    pose proof (checkCmdSyntax_value _ _ _ _ _ _ Hs) as ->.
    rewrite nodes_set_attrs in Hx. apply list_elem_of_In, in_map_iff in Hx as (x0 & <- & Hx0).
    destruct (F (set_attrs w filename x0)) as (F1 & F2 & F3 & _); [|done|].
    { rewrite nodes_set_attrs. by apply list_elem_of_In, in_map. }
    destruct (set_attrs_fields w filename x0) as (E1 & E2 & E3 & E4 & _).
    rewrite E1 in Hl. rewrite E2 in F1. rewrite E3 in F2. rewrite E4 in F3.
    rewrite <- Hl. apply G.
    eapply (checkCmdSyntax_records w filename _ _ _ _ x0 k Hs);
      [by apply list_elem_of_In | done | by rewrite F2, F3].
  - eauto.
  - intros y Hy Hl'. destruct (F y Hy Hl') as (F1 & F2 & F3 & F4).
    unfold number, time, file, type_, content, tag. rewrite F4. done.
Qed.

(** The fatal condition of the tree builder: some line of the document
    needs an ancestor other than the root that no line before it opens. *)
Definition missing_ancestor : Prop :=
  exists text j, read w filename = Text text /\ orphan (Py.splitlines text) j.

(** C8, as the program has it.  In a run that returns, the node of a REM
    line that matches its rule has the line [REM rest]; when the line has
    three tokens or more and the second one is upper-case, its tag is that
    token and its content is the tokens behind it joined by single spaces,
    without the double quotes; otherwise its tag is the empty string and
    its content is [rest] as it is. *)
Theorem rem_tag_and_content (errs warns : cueSynerrList.t) (r x : CMD) :
  cuecheck w filename = Return (errs, warns, r) ->
  x ∈ nodes r -> key x = Some REM ->
  match_syntax REM (indent x) (line x) <> None ->
  exists rest,
    line x = "REM " +:+ rest /\
    Py.split (line x) = "REM" :: Py.split rest /\
    match Py.split rest with
    | ss1 :: ss2 :: more =>
        if Py.isupper ss1 then
          tag x = Some ss1 /\
          a_content (dict x) = Some (Py.remove_quotes (Py.join (ss2 :: more)))
        else tag x = Some "" /\ a_content (dict x) = Some rest
    | _ => tag x = Some "" /\ a_content (dict x) = Some rest
    end.
Proof.
  intros H Hx Hk Hm.
  destruct (cuecheck_returned _ _ _ _ _ H) as (text & Hr & _ & R).
  destruct (returned_nodes _ _ _ _ _ _ _ R Hx)
    as [(_ & Hk0 & _)|(j & raw & k & Hj & Hkw & Hl & Hkx & Hlx & Hix & Hdx)]; [congruence|].
  assert (k = REM) as -> by congruence.
  assert (Hi0 : indent x = 0).
  { rewrite Hix. pose proof (depth_of_permitted REM raw) as Hp. cbn in Hp.
    by apply list_elem_of_singleton in Hp. }
  rewrite Hi0 in Hm, Hix. rewrite Hlx in *.
  destruct (ReFacts.match_syntax_shape _ _ _ Hm) as (rest & Hraw).
  exists rest. split; [exact Hraw|].
  assert (Hs : Py.split raw = "REM" :: Py.split rest).
  { rewrite Hraw. by apply (PyFacts.split_indented_word 0 "REM" rest). }
  split; [done|]. unfold tag. rewrite Hdx, <- Hix.
  unfold attrs_after, check_syntax.
  destruct (match_syntax REM 0 raw) as [m|]; [|done]. rewrite Hs.
  destruct (Py.split rest) as [|ss1 [|ss2 more]]; simpl; rewrite ?Hraw; try done.
  destruct (Py.isupper ss1); simpl; rewrite ?Hraw; done.
Qed.

End Claims2.

(* ================================================================= *)
(** ** The claims on documents *)

(** Two CATALOG lines at the top level. *)
Definition two_catalogs : world :=
  world_of (document [ "CATALOG 1234567890123"; "CATALOG 1234567890123" ]).

(** A TITLE line with 2 leading spaces behind a TRACK line. *)
Definition disc_title : world :=
  world_of (document
    [ "FILE " +:+ q "a.bin" +:+ " BINARY";
      "  TRACK 01 AUDIO";
      "  TITLE " +:+ q "Song";
      "    INDEX 01 00:00:00" ]).

(** A TITLE line with 2 leading spaces and no line before it. *)
Definition lone_title : world :=
  world_of (document [ "  TITLE " +:+ q "Song" ]).

(** Three remarks: of two tokens, with a tag, and with a second token that
    is not upper-case. *)
Definition remarks : world :=
  world_of (document [ "REM COMMENT"; "REM GENRE Rock music"; "REM genre Rock" ]).

(** The value of a run that returns is made of its parts. *)
Lemma returns_parts (w : world) (filename : string) :
  (if cuecheck w filename is Return _ then true else false) = true ->
  cuecheck w filename
  = Return (errors_of (cuecheck w filename), warnings_of (cuecheck w filename),
            tree_of (cuecheck w filename)).
Proof. destruct (cuecheck w filename) as [x|[[e wn] r]]; done. Qed.

(** The run on the document of [w], under the name disc.cue. *)
Definition run_on (w : world) : result (cueSynerrList.t * cueSynerrList.t * CMD) :=
  cuecheck w "disc.cue".

Lemma run_on_parts (w : world) :
  (if run_on w is Return _ then true else false) = true ->
  cuecheck w "disc.cue" = Return (errors_of (run_on w), warnings_of (run_on w), tree_of (run_on w)).
Proof. apply returns_parts. Qed.

(** The node at position [n] of the tree of a run, in pre-order. *)
Definition node_number (w : world) (n : nat) : CMD :=
  nth n (nodes (tree_of (run_on w))) (tree_of (run_on w)).

(** Finds a message in a list of records that is known. *)
Ltac find_elem :=
  apply list_elem_of_here + (apply list_elem_of_further; find_elem).

Ltac find_recorded :=
  vm_compute; eexists; split; [find_elem | split; [reflexivity | find_elem]].

Example two_catalogs_result :
  errors_of (run_on two_catalogs)
  = [ cueSyntaxError.mk 1 "CATALOG 1234567890123" [MultipleError];
      cueSyntaxError.mk 2 "CATALOG 1234567890123" [MultipleError] ].
Proof. vm_compute. reflexivity. Qed.

Lemma singleton_repeated_reported_witness :
  recorded (errors_of (run_on two_catalogs)) (linenum (node_number two_catalogs 1))
    MultipleError /\
  recorded (errors_of (run_on two_catalogs)) (linenum (node_number two_catalogs 2))
    MultipleError.
Proof.
  split.
  - apply (singleton_repeated_reported two_catalogs "disc.cue" _ _ _
             (node_number two_catalogs 0) (node_number two_catalogs 1) CATALOG
             (run_on_parts two_catalogs eq_refl)).
    + vm_compute. constructor.
    + vm_compute. constructor.
    + reflexivity.
    + reflexivity.
    + vm_compute. lia.
  - apply (singleton_repeated_reported two_catalogs "disc.cue" _ _ _
             (node_number two_catalogs 0) (node_number two_catalogs 2) CATALOG
             (run_on_parts two_catalogs eq_refl)).
    + vm_compute. constructor.
    + vm_compute. do 2 constructor.
    + reflexivity.
    + reflexivity.
    + vm_compute. lia.
Defined.

(** C6: the text of the error of the program for the tracks 01 and 03 has
    TRACK in capitals; it is not the text [track number error, 1 -> 3]. *)
Lemma track_number_error_text :
  errors_of (run_on disc_1_3)
  = [ cueSyntaxError.mk 2 "  TRACK 01 AUDIO" [TrackNumberError 1 3] ] /\
  (forall str_time,
     msg_text str_time (TrackNumberError 1 3) = "TRACK number error, 1 -> 3") /\
  (forall str_time m,
     recorded (errors_of (run_on disc_1_3)) 2 m ->
     msg_text str_time m <> "track number error, 1 -> 3").
Proof.
  split; [vm_compute; reflexivity|]. split; [done|].
  intros str_time m (e & He & _ & Hm). vm_compute in He.
  apply list_elem_of_singleton in He as ->. simpl in Hm.
  apply list_elem_of_singleton in Hm as ->. done.
Qed.

Lemma track_numbers_checked_witness :
  in_order (getCmds (tree_of (run_on disc_1_3)) TRACK) /\
  (forall n, recorded (warnings_of (run_on disc_1_3)) n FirstTrackNumber <->
     exists t0, head (getCmds (tree_of (run_on disc_1_3)) TRACK) = Some t0
                /\ number t0 <> 1%Z /\ n = linenum t0) /\
  (forall n x y, recorded (errors_of (run_on disc_1_3)) n (TrackNumberError x y) <->
     exists a b, neighbours (getCmds (tree_of (run_on disc_1_3)) TRACK) a b
                 /\ (number a + 1)%Z <> number b
                 /\ n = linenum a /\ x = number a /\ y = number b) /\
  (forall str_time,
     msg_text str_time (TrackNumberError 1 3) = "TRACK number error, 1 -> 3").
Proof.
  exact (track_numbers_checked disc_1_3 "disc.cue" _ _ _ (run_on_parts disc_1_3 eq_refl)).
Defined.

Example disc_unset_result :
  errors_of (run_on disc_unset)
  = [ cueSyntaxError.mk 2 "  TRACK 1 AUDIO" [CommandSyntaxError; TrackNumberError (-1) 2];
      cueSyntaxError.mk 3 "    INDEX 01 00:00:00" [IndexTimeError 0 0];
      cueSyntaxError.mk 4 "    INDEX 02 00:00:00" [IndexTimeError 0 (-1)];
      cueSyntaxError.mk 6 "    INDEX 1 00:00:00"
        [CommandSyntaxError; FirstIndexNumber; IndexNumberError (-1) 1] ] /\
  warnings_of (run_on disc_unset)
  = [ cueSyntaxError.mk 2 "  TRACK 1 AUDIO" [TrackNoTitle; TrackNoTitle; FirstTrackNumber];
      cueSyntaxError.mk 5 "  TRACK 02 AUDIO" [TrackNoTitle; TrackNoTitle] ].
Proof. split; vm_compute; reflexivity. Qed.

Lemma file_index_times_checked_witness :
  PrimFloat.eqb (time (node_number disc_unset 3)) (time (node_number disc_unset 4)) = true /\
  recorded (errors_of (run_on disc_unset)) (linenum (node_number disc_unset 3))
    (IndexTimeError (time (node_number disc_unset 3)) (time (node_number disc_unset 4))).
Proof.
  split; [vm_compute; reflexivity|].
  assert (Hc : node_number disc_unset 1 ∈ getCmds (tree_of (run_on disc_unset)) FILE).
  { vm_compute. constructor. }
  destruct (file_index_times_checked disc_unset "disc.cue" _ _ _ (node_number disc_unset 1)
              (run_on_parts disc_unset eq_refl) Hc) as (_ & _ & _ & E).
  apply E.
  - exists 0. split; vm_compute; reflexivity.
  - vm_compute. reflexivity.
Defined.

(** C1: the first TRACK line of [disc_unset] does not match its rule, so
    the number of its node is unset; the warning of the first track and the
    numbering error of the pair are recorded for it all the same, and so
    are the errors of the INDEX line 6, whose number and time are unset, and
    of its neighbour before it. *)
Lemma unset_operands_reported :
  head (getCmds (tree_of (run_on disc_unset)) TRACK) = Some (node_number disc_unset 2) /\
  a_number (dict (node_number disc_unset 2)) = None /\
  number (node_number disc_unset 2) = (-1)%Z /\
  recorded (errors_of (run_on disc_unset)) 2 CommandSyntaxError /\
  recorded (warnings_of (run_on disc_unset)) 2 FirstTrackNumber /\
  recorded (errors_of (run_on disc_unset)) 2 (TrackNumberError (-1) 2) /\
  a_number (dict (node_number disc_unset 6)) = None /\
  a_time (dict (node_number disc_unset 6)) = None /\
  recorded (errors_of (run_on disc_unset)) 6 FirstIndexNumber /\
  recorded (errors_of (run_on disc_unset)) 6 (IndexNumberError (-1) 1) /\
  recorded (errors_of (run_on disc_unset)) 4 (IndexTimeError 0 (-1)).
Proof.
  repeat split; try (vm_compute; reflexivity); find_recorded.
Qed.

Lemma unset_fields_compared_as_numbers_witness :
  (forall t0, head (getCmds (tree_of (run_on disc_unset)) TRACK) = Some t0 ->
     a_number (dict t0) = None ->
     recorded (warnings_of (run_on disc_unset)) (linenum t0) FirstTrackNumber) /\
  (forall c x0, c ∈ getCmds (tree_of (run_on disc_unset)) FILE ->
     head (getCmds c INDEX) = Some x0 -> a_time (dict x0) = None ->
     recorded (errors_of (run_on disc_unset)) (linenum x0) FirstIndexTime) /\
  (forall c x0, c ∈ getCmds (tree_of (run_on disc_unset)) TRACK ->
     head (getCmds c INDEX) = Some x0 -> a_number (dict x0) = None ->
     recorded (errors_of (run_on disc_unset)) (linenum x0) FirstIndexNumber) /\
  (forall a b, neighbours (getCmds (tree_of (run_on disc_unset)) TRACK) a b ->
     a_number (dict a) = None \/ a_number (dict b) = None ->
     (recorded (errors_of (run_on disc_unset)) (linenum a)
        (TrackNumberError (number a) (number b))
      <-> ~ (a_number (dict a) = None /\ number b = 0%Z))) /\
  (forall c a b, c ∈ getCmds (tree_of (run_on disc_unset)) TRACK ->
     neighbours (getCmds c INDEX) a b ->
     a_number (dict a) = None \/ a_number (dict b) = None ->
     (recorded (errors_of (run_on disc_unset)) (linenum a)
        (IndexNumberError (number a) (number b))
      <-> ~ (a_number (dict a) = None /\ number b = 0%Z))) /\
  (forall c a b, c ∈ getCmds (tree_of (run_on disc_unset)) FILE ->
     neighbours (getCmds c INDEX) a b ->
     a_time (dict a) = None \/ a_time (dict b) = None ->
     (recorded (errors_of (run_on disc_unset)) (linenum a)
        (IndexTimeError (time a) (time b))
      <-> a_time (dict b) = None)).
Proof.
  exact (unset_fields_compared_as_numbers disc_unset "disc.cue" _ _ _
           (run_on_parts disc_unset eq_refl)).
Defined.

Example disc_title_result :
  errors_of (run_on disc_title)
  = [ cueSyntaxError.mk 3 ("  TITLE " +:+ q "Song") [IndentError; CommandSyntaxError] ] /\
  map linenum (children (tree_of (run_on disc_title))) = [1] /\
  key (node_number disc_title 2) = Some TRACK /\
  map linenum (children (node_number disc_title 2)) = [3; 4].
Proof. repeat split; vm_compute; reflexivity. Qed.


Lemma coerced_or_lowercase_line_fails_syntax_witness :
  recorded (errors_of (run_on disc_title)) (2 + 1) CommandSyntaxError /\
  dict (node_number disc_title 3) = no_attrs /\
  number (node_number disc_title 3) = (-1)%Z /\
  content (node_number disc_title 3) = "".
Proof.
  assert (H2 : Py.splitlines (document
                 [ "FILE " +:+ q "a.bin" +:+ " BINARY"; "  TRACK 01 AUDIO";
                   "  TITLE " +:+ q "Song"; "    INDEX 01 00:00:00" ]) !! 2
               = Some ("  TITLE " +:+ q "Song")) by (vm_compute; reflexivity).
  assert (H3 : line_keyword ("  TITLE " +:+ q "Song") = Some TITLE)
    by (vm_compute; reflexivity).
  assert (H4 : depth_ok TITLE ("  TITLE " +:+ q "Song") = false
               \/ capital ("  TITLE " +:+ q "Song") = false)
    by (left; vm_compute; reflexivity).
  destruct (coerced_or_lowercase_line_fails_syntax disc_title "disc.cue" _ _ _ _ 2 _ TITLE
              (run_on_parts disc_title eq_refl) eq_refl H2 H3 H4) as (A & _ & F).
  split; [exact A|].
  assert (Hx : node_number disc_title 3 ∈ nodes (tree_of (run_on disc_title))).
  { vm_compute. do 4 constructor. }
  assert (Hl : linenum (node_number disc_title 3) = 2 + 1) by (vm_compute; reflexivity).
  destruct (F _ Hx Hl) as (_ & _ & _ & F1 & F2 & _ & _ & _ & F3 & _).
  split; [exact F1|]. split; [exact F2 | exact F3].
Defined.

Example remarks_result :
  map (fun x => (tag x, content x)) (nodes (tree_of (run_on remarks)))
  = [ (None, ""); (Some "", "COMMENT"); (Some "GENRE", "Rock music");
      (Some "", "genre Rock") ].
Proof. vm_compute. reflexivity. Qed.

(** C8: the second token of the line [REM COMMENT] is upper-case and the
    line matches the rule of REM, but the tag of its node is the empty
    string and its content is that token. *)
Lemma rem_two_tokens_untagged :
  key (node_number remarks 1) = Some REM /\
  line (node_number remarks 1) = "REM COMMENT" /\
  match_syntax REM (indent (node_number remarks 1)) (line (node_number remarks 1))
  <> None /\
  Py.split (line (node_number remarks 1)) = ["REM"; "COMMENT"] /\
  Py.isupper "COMMENT" = true /\
  tag (node_number remarks 1) = Some "" /\
  content (node_number remarks 1) = "COMMENT".
Proof.
  split; [vm_compute; reflexivity|]. split; [vm_compute; reflexivity|].
  split; [intros H; vm_compute in H; discriminate H|].
  repeat split; vm_compute; reflexivity.
Qed.

Lemma rem_tag_and_content_witness :
  exists rest,
    line (node_number remarks 2) = "REM " +:+ rest /\
    Py.split (line (node_number remarks 2)) = "REM" :: Py.split rest /\
    match Py.split rest with
    | ss1 :: ss2 :: more =>
        if Py.isupper ss1 then
          tag (node_number remarks 2) = Some ss1 /\
          a_content (dict (node_number remarks 2))
          = Some (Py.remove_quotes (Py.join (ss2 :: more)))
        else tag (node_number remarks 2) = Some "" /\
             a_content (dict (node_number remarks 2)) = Some rest
    | _ => tag (node_number remarks 2) = Some "" /\
           a_content (dict (node_number remarks 2)) = Some rest
    end.
Proof.
  apply (rem_tag_and_content remarks "disc.cue" _ _ _ (node_number remarks 2)
           (run_on_parts remarks eq_refl)).
  - vm_compute. do 3 constructor.
  - vm_compute. reflexivity.
  - intros H. vm_compute in H. discriminate H.
Defined.

(* ================================================================= *)
(** ** What every pass records, exactly *)

Lemma emits_raise {A} E W e : emits E W (@raise A e).
Proof. intros st a st' H. done. Qed.

Lemma emits_for_each_in {A} (E W : A -> nat -> msg -> Prop) (body : A -> M unit) l :
  (forall a, a ∈ l -> emits (E a) (W a) (body a)) ->
  emits (fun n m => exists a, a ∈ l /\ E a n m)
        (fun n m => exists a, a ∈ l /\ W a n m)
        (for_each body l).
Proof.
  induction l as [|x l IH]; intros H; simpl.
  - eapply emits_ext; [apply emits_ret | |]; unfold nothing; intros n m; split; try tauto;
      intros (? & ?%elem_of_nil & _); done.
  - eapply emits_ext;
      [apply emits_bind; [apply H; left | intros _; apply IH; intros; apply H; by right] | |];
      unfold either; intros n m; split.
    + intros [?|(a & ? & ?)]; [exists x | exists a]; rewrite elem_of_cons; auto.
    + intros (a & [->|?]%elem_of_cons & ?); eauto.
    + intros [?|(a & ? & ?)]; [exists x | exists a]; rewrite elem_of_cons; auto.
    + intros (a & [->|?]%elem_of_cons & ?); eauto.
Qed.

Lemma emits_for_each_from_in {A} (E W : nat -> A -> nat -> msg -> Prop)
    (body : nat -> A -> M unit) l : forall j,
  (forall i a, a ∈ l -> emits (E i a) (W i a) (body i a)) ->
  emits (fun n m => exists i a, l !! i = Some a /\ E (j + i) a n m)
        (fun n m => exists i a, l !! i = Some a /\ W (j + i) a n m)
        (for_each_from body j l).
Proof.
  induction l as [|x l IH]; intros j H; simpl.
  - eapply emits_ext; [apply emits_ret | |]; unfold nothing; intros n m; split; try tauto;
      intros (? & ? & ? & _); done.
  - eapply emits_ext;
      [apply emits_bind; [apply H; left | intros _; apply IH; intros; apply H; by right] | |];
      unfold either; intros n m; split.
    + intros [?|(i & a & ? & ?)].
      * exists 0, x. by rewrite Nat.add_0_r.
      * exists (S i), a. by rewrite Nat.add_succ_r.
    + intros ([|i] & a & Hl & He); simpl in Hl.
      * injection Hl as <-. left. by rewrite Nat.add_0_r in He.
      * right. exists i, a. by rewrite Nat.add_succ_r in He.
    + intros [?|(i & a & ? & ?)].
      * exists 0, x. by rewrite Nat.add_0_r.
      * exists (S i), a. by rewrite Nat.add_succ_r.
    + intros ([|i] & a & Hl & He); simpl in Hl.
      * injection Hl as <-. left. by rewrite Nat.add_0_r in He.
      * right. exists i, a. by rewrite Nat.add_succ_r in He.
Qed.

Section Exact.


Variable w : world.
Variable filename : string.

(** *** The classifier *)

Lemma emits_place i k raw ind b : emits nothing nothing (place filename i k raw ind b).
Proof.
  unfold place. destruct (current b !! _) as [[p|]|];
    [apply emits_ret | apply emits_raise | apply emits_raise].
Qed.

Lemma emits_classify i raw b :
  emits (fun n m => n = i + 1 /\ line_msg raw m) nothing (classify filename i raw b).
Proof.
  assert (H : emits (fun n m => n = i + 1 /\ line_msg raw m) nothing
            (match Py.split raw with
             | [] => add_error (i + 1) raw IsBlank;; ret b
             | ss0 :: _ =>
                 when (negb (Py.isupper ss0)) (add_error (i + 1) raw NotCapital);;
                 match find_keyword (Py.upper ss0) with
                 | None => add_error (i + 1) raw CommandNotFound;; ret b
                 | Some k =>
                     when (negb (depth_ok k raw)) (add_error (i + 1) raw IndentError);;
                     place filename i k raw (depth_of k raw) b
                 end
             end)).
  { unfold line_msg, line_keyword, capital.
    destruct (Py.split raw) as [|ss0 rest] eqn:Hs.
    - eapply emits_ext;
        [apply emits_bind; [apply emits_add_error | intros _; apply emits_ret] | |];
        unfold either, just, nothing; intros n m; split; intros; break_up;
        subst; try done; auto 7.
    - destruct (find_keyword (Py.upper ss0)) as [k|] eqn:Hk.
      + eapply emits_ext;
          [apply emits_bind;
            [apply emits_when, emits_add_error
            | intros _; apply emits_bind;
               [apply emits_when, emits_add_error | intros _; apply emits_place]] | |];
          unfold either, just, nothing; intros n m; split; intros; break_up;
          subst; try done; try congruence.
        * apply negb_true_iff in H. auto 7.
        * apply negb_true_iff in H. split; [done|]. right. right. right. by exists k.
        * left. split; [|done]. by apply negb_true_iff.
        * right. left. assert (x = k) as -> by congruence.
          split; [by apply negb_true_iff | done].
      + eapply emits_ext;
          [apply emits_bind;
            [apply emits_when, emits_add_error
            | intros _; apply emits_bind; [apply emits_add_error | intros _; apply emits_ret]]
          | |];
          unfold either, just, nothing; intros n m; split; intros; break_up;
          subst; try done; try congruence.
        * apply negb_true_iff in H. auto 7.
        * auto 8.
        * left. split; [|done]. by apply negb_true_iff.
        * auto 7. }
  intros st a st' Hc. rewrite classify_unfold in Hc. apply (H st a st').
  by destruct (Py.split raw).
Qed.

(** The messages of the lines [d], numbered from [i]. *)
Definition line_errors (i : nat) (d : list string) : nat -> msg -> Prop :=
  fun n m => exists j raw, d !! j = Some raw /\ n = i + j + 1 /\ line_msg raw m.

Lemma emits_build d : forall i b,
  emits (line_errors i d) nothing (build filename i d b).
Proof.
  unfold line_errors.
  induction d as [|raw d IH]; intros i b; simpl.
  - eapply emits_ext; [apply emits_ret | |]; unfold nothing; intros n m; split; try tauto.
    intros (? & ? & ? & _). done.
  - eapply emits_ext; [apply emits_bind; [apply emits_classify | intros b'; apply IH] | |];
      unfold either, nothing; intros n m; split; try tauto.
    + intros [[-> Hm]|(j & r & Hj & -> & Hm)].
      * exists 0, raw. split; [done|]. split; [lia | done].
      * exists (S j), r. split; [done|]. split; [lia | done].
    + intros ([|j] & r & Hj & -> & Hm); simpl in Hj.
      * injection Hj as <-. left. split; [lia | done].
      * right. exists j, r. split; [done|]. split; [lia | done].
Qed.

(** *** The syntax pass *)

(** The error and the warning of [checkCmdSyntax] for a node made from
    line number [n], key [k], line [l] and depth [ind]. *)
Definition syntax_error (n : nat) (k : keyword) (l : string) (ind : nat) (m : msg)
  : Prop :=
  match match_syntax k ind l with
  | None => m = CommandSyntaxError
  | Some g =>
      match k with
      | FILE =>
          media_isfile w filename (group_text g 2) = false /\
          m = FileNotFound (group_text g 2)
      | PREGAP | POSTGAP =>
          ((60 <= Py.int (group_text g 2))%Z \/ (75 <= Py.int (group_text g 3))%Z) /\
          m = TimeError
      | INDEX =>
          ((60 <= Py.int (group_text g 3))%Z \/ (75 <= Py.int (group_text g 4))%Z) /\
          m = TimeError
      | _ => False
      end
  end.

Definition syntax_warning (n : nat) (k : keyword) (l : string) (ind : nat) (m : msg)
  : Prop :=
  match match_syntax k ind l with
  | None => False
  | Some g =>
      (k = TITLE \/ k = PERFORMER \/ k = SONGWRITER) /\
      80 < String.length (group_text g 2) /\ m = TooLong k
  end.

Definition node_syntax_error (x : CMD) : nat -> msg -> Prop :=
  fun n m => n = linenum x /\
    exists k, key x = Some k /\ syntax_error (linenum x) k (line x) (indent x) m.

Definition node_syntax_warning (x : CMD) : nat -> msg -> Prop :=
  fun n m => n = linenum x /\
    exists k, key x = Some k /\ syntax_warning (linenum x) k (line x) (indent x) m.

Lemma time_check a b :
  ((60 <=? a)%Z || (75 <=? b)%Z) = true <-> (60 <= a)%Z \/ (75 <= b)%Z.
Proof. rewrite orb_true_iff, !Z.leb_le. done. Qed.

Lemma emits_check_syntax n k l ind a :
  emits (fun n' m => n' = n /\ syntax_error n k l ind m)
        (fun n' m => n' = n /\ syntax_warning n k l ind m)
        (check_syntax w filename n k l ind a).
Proof.
  unfold check_syntax, syntax_error, syntax_warning.
  destruct (match_syntax k ind l) as [g|].
  2: { eapply emits_ext;
         [apply emits_bind; [apply emits_add_error | intros _; apply emits_ret] | |];
         unfold either, just, nothing; intros; tauto. }
  destruct k.
  - eapply emits_ext; [apply emits_ret | |]; unfold nothing; intros; split;
      intros; break_up; done.
  - eapply emits_ext; [apply emits_ret | |]; unfold nothing; intros; split;
      intros; break_up; done.
  - eapply emits_ext;
      [apply emits_bind; [apply emits_when, emits_add_warn | intros _; apply emits_ret] | |];
      unfold either, just, nothing; intros n' m; rewrite ?Nat.ltb_lt; split;
      intros; break_up; subst; try done; auto 7.
  - eapply emits_ext;
      [apply emits_bind; [apply emits_when, emits_add_warn | intros _; apply emits_ret] | |];
      unfold either, just, nothing; intros n' m; rewrite ?Nat.ltb_lt; split;
      intros; break_up; subst; try done; auto 7.
  - eapply emits_ext;
      [apply emits_bind; [apply emits_when, emits_add_warn | intros _; apply emits_ret] | |];
      unfold either, just, nothing; intros n' m; rewrite ?Nat.ltb_lt; split;
      intros; break_up; subst; try done; auto 7.
  - eapply emits_ext;
      [apply emits_bind; [apply emits_when, emits_add_error | intros _; apply emits_ret] | |];
      unfold either, just, nothing; intros n' m; rewrite ?negb_true_iff; split;
      intros; break_up; subst; try done; auto 7.
  - eapply emits_ext; [apply emits_ret | |]; unfold nothing; intros; split;
      intros; break_up; done.
  - eapply emits_ext; [apply emits_ret | |]; unfold nothing; intros; split;
      intros; break_up; done.
  - eapply emits_ext; [apply emits_ret | |]; unfold nothing; intros; split;
      intros; break_up; done.
  - eapply emits_ext;
      [apply emits_bind; [apply emits_when, emits_add_error | intros _; apply emits_ret] | |];
      unfold either, just, nothing; intros n' m; rewrite ?time_check; split;
      intros; break_up; subst; try done; auto 7.
  - eapply emits_ext;
      [apply emits_bind; [apply emits_when, emits_add_error | intros _; apply emits_ret] | |];
      unfold either, just, nothing; intros n' m; rewrite ?time_check; split;
      intros; break_up; subst; try done; auto 7.
  - eapply emits_ext;
      [apply emits_bind; [apply emits_when, emits_add_error | intros _; apply emits_ret] | |];
      unfold either, just, nothing; intros n' m; rewrite ?time_check; split;
      intros; break_up; subst; try done; auto 7.
  - assert (H : emits nothing nothing
              (match Py.split l with
               | _ :: ss1 :: _ :: _ =>
                   if Py.isupper ss1 then
                     ret (mkAttrs (a_file a) (a_type a)
                            (Some (Py.remove_quotes (Py.join (drop 2 (Py.split l)))))
                            (a_number a) (a_time a) (Some ss1))
                   else
                     ret (mkAttrs (a_file a) (a_type a) (Some (Py.drop_chars 4 l))
                            (a_number a) (a_time a) (Some EmptyString))
               | _ =>
                   ret (mkAttrs (a_file a) (a_type a) (Some (Py.drop_chars 4 l))
                          (a_number a) (a_time a) (Some EmptyString))
               end)).
    { destruct (Py.split l) as [|? [|ss1 [|? ?]]]; try apply emits_ret.
      destruct (Py.isupper ss1); apply emits_ret. }
    eapply emits_ext; [exact H | |]; unfold nothing; intros; split;
      intros; break_up; done.
Qed.

Lemma emits_checkCmdSyntax t :
  emits (fun n m => exists x, x ∈ nodes t /\ node_syntax_error x n m)
        (fun n m => exists x, x ∈ nodes t /\ node_syntax_warning x n m)
        (checkCmdSyntax w filename t).
Proof.
  induction t as [n k l i a cs IH] using CMD_induction. cbn [checkCmdSyntax].
  assert (H0 : emits (node_syntax_error (mkCMD n k l i a cs))
                     (node_syntax_warning (mkCMD n k l i a cs))
                     (match k with
                      | Some kw => check_syntax w filename n kw l i a
                      | None => ret a
                      end)).
  { unfold node_syntax_error, node_syntax_warning. destruct k as [kw|]; simpl.
    - eapply emits_ext; [apply emits_check_syntax | |]; intros n' m; split.
      + intros [-> H]. split; [done|]. by exists kw.
      + intros [-> (k' & [= <-] & H)]. done.
      + intros [-> H]. split; [done|]. by exists kw.
      + intros [-> (k' & [= <-] & H)]. done.
    - eapply emits_ext; [apply emits_ret | |]; unfold nothing; intros n' m; split;
        try tauto; intros [_ (k' & ? & _)]; done. }
  assert (H1 : emits (fun n m => exists c, c ∈ cs /\
                        exists x, x ∈ nodes c /\ node_syntax_error x n m)
                     (fun n m => exists c, c ∈ cs /\
                        exists x, x ∈ nodes c /\ node_syntax_warning x n m)
                     (map_each (checkCmdSyntax w filename) cs)).
  { clear H0. induction IH as [|c cs Hc _ IHcs]; simpl.
    - eapply emits_ext; [apply emits_ret | |]; unfold nothing; intros n' m; split;
        try tauto; intros (? & ?%elem_of_nil & _); done.
    - eapply emits_ext;
        [apply emits_bind; [apply Hc | intros b; apply emits_bind; [apply IHcs|]];
         intros r; apply emits_ret | |];
        unfold either, nothing; intros n' m; split.
      + intros [?|[(c' & ? & ?)|[]]]; [exists c | exists c']; rewrite elem_of_cons; auto.
      + intros (c' & [->|?]%elem_of_cons & ?); eauto.
      + intros [?|[(c' & ? & ?)|[]]]; [exists c | exists c']; rewrite elem_of_cons; auto.
      + intros (c' & [->|?]%elem_of_cons & ?); eauto. }
  eapply emits_ext;
    [apply emits_bind; [exact H0 | intros a'; apply emits_bind; [exact H1|]];
     intros r; apply emits_ret | |];
    unfold either, nothing; intros n' m; cbn [nodes]; split.
  - intros [?|[(c & Hc & x & Hx & ?)|[]]].
    + exists (mkCMD n k l i a cs). split; [left | done].
    + exists x. split; [|done]. right. apply elem_of_flat_map. eauto.
  - intros (x & [->|(c & Hc & Hx)%elem_of_flat_map]%elem_of_cons & ?); eauto 7.
  - intros [?|[(c & Hc & x & Hx & ?)|[]]].
    + exists (mkCMD n k l i a cs). split; [left | done].
    + exists x. split; [|done]. right. apply elem_of_flat_map. eauto.
  - intros (x & [->|(c & Hc & Hx)%elem_of_flat_map]%elem_of_cons & ?); eauto 7.
Qed.

(** *** The pass over the children *)

(** What [checkCmdChildren] records for the node [x] at its child [c]. *)
Definition child_error (x c : CMD) : nat -> msg -> Prop :=
  fun n m => n = linenum x /\ exists k, key x = Some k /\
    (((key c ∉ Rule.children (commands k)) /\ exists ck, key c = Some ck /\ m = ErrorChild ck) \/
     (k = FILE /\ findChildCmd x TRACK = false /\ m = FileNoTrack) \/
     (k = TRACK /\ findChildCmd x INDEX = false /\ m = TrackNoIndex)).

Definition child_warning (x c : CMD) : nat -> msg -> Prop :=
  fun n m => n = linenum x /\ key x = Some TRACK /\ findChildCmd x TITLE = false
             /\ m = TrackNoTitle.

Lemma emits_child_key n k l c :
  emits (fun n' m => n' = n /\ exists kw, k = Some kw /\
           (key c ∉ Rule.children (commands kw)) /\
           exists ck, key c = Some ck /\ m = ErrorChild ck) nothing
        (match k with
         | Some kw =>
             if bool_decide (key c ∈ Rule.children (commands kw)) then ret tt
             else match key c with
                  | Some ck => add_error n l (ErrorChild ck)
                  | None => raise TypeError
                  end
         | None => ret tt
         end).
Proof.
  destruct k as [kw|].
  - case_bool_decide as Hin.
    + eapply emits_ext; [apply emits_ret | |]; unfold nothing; intros n' m; split;
        try tauto. intros (_ & k' & [= <-] & ? & _). done.
    + destruct (key c) as [ck|].
      * eapply emits_ext; [apply emits_add_error | |]; unfold just, nothing;
          intros n' m; split; try tauto.
        -- intros [-> ->]. split; [done|]. exists kw. eauto.
        -- intros (-> & k' & [= <-] & _ & ck' & [= <-] & ->). done.
      * apply emits_raise.
  - eapply emits_ext; [apply emits_ret | |]; unfold nothing; intros n' m; split;
      try tauto. intros (_ & k' & ? & _). done.
Qed.

Lemma emits_child_missing n k l (fc : keyword -> bool) :
  emits (fun n' m => n' = n /\
           ((k = Some FILE /\ fc TRACK = false /\ m = FileNoTrack) \/
            (k = Some TRACK /\ fc INDEX = false /\ m = TrackNoIndex)))
        (fun n' m => n' = n /\ k = Some TRACK /\ fc TITLE = false /\ m = TrackNoTitle)
        (match k with
         | Some FILE => when (negb (fc TRACK)) (add_error n l FileNoTrack)
         | Some TRACK =>
             (when (negb (fc INDEX)) (add_error n l TrackNoIndex);;
              when (negb (fc TITLE)) (add_warn n l TrackNoTitle))
         | _ => ret tt
         end).
Proof.
  destruct k as [[]|];
    try (eapply emits_ext; [apply emits_ret | |]; unfold nothing; intros n' m; split;
         intros; break_up; done).
  - eapply emits_ext; [apply emits_when, emits_add_error | |];
      unfold just, nothing; intros n' m; rewrite ?negb_true_iff; split;
      intros; break_up; subst; try done; auto 7.
  - eapply emits_ext;
      [apply emits_bind;
        [apply emits_when, emits_add_error | intros _; apply emits_when, emits_add_warn] | |];
      unfold either, just, nothing; intros n' m; rewrite ?negb_true_iff; split;
      intros; break_up; subst; try done; auto 7.
Qed.

Lemma emits_checkCmdChildren t :
  emits (fun n m => exists x c, x ∈ nodes t /\ c ∈ children x /\ child_error x c n m)
        (fun n m => exists x c, x ∈ nodes t /\ c ∈ children x /\ child_warning x c n m)
        (checkCmdChildren t).
Proof.
  induction t as [n k l i a cs IH] using CMD_induction. cbn [checkCmdChildren].
  rewrite Forall_forall in IH.
  eapply emits_ext.
  - apply (emits_for_each_in
      (fun c => either
         (fun n' m => n' = n /\ exists kw, k = Some kw /\
            (key c ∉ Rule.children (commands kw)) /\
            exists ck, key c = Some ck /\ m = ErrorChild ck)
         (either
            (fun n' m => n' = n /\
               ((k = Some FILE /\ findChildCmd (mkCMD n k l i a cs) TRACK = false
                 /\ m = FileNoTrack) \/
                (k = Some TRACK /\ findChildCmd (mkCMD n k l i a cs) INDEX = false
                 /\ m = TrackNoIndex)))
            (fun n' m => exists x c', x ∈ nodes c /\ c' ∈ children x
                                     /\ child_error x c' n' m)))
      (fun c => either nothing
         (either
            (fun n' m => n' = n /\ k = Some TRACK
                         /\ findChildCmd (mkCMD n k l i a cs) TITLE = false
                         /\ m = TrackNoTitle)
            (fun n' m => exists x c', x ∈ nodes c /\ c' ∈ children x
                                     /\ child_warning x c' n' m)))).
    intros c Hc. apply emits_bind; [apply emits_child_key|]. intros _.
    apply emits_bind; [apply (emits_child_missing n k l (findChildCmd (mkCMD n k l i a cs)))|].
    intros _. by apply IH.
  - unfold either, child_error. intros n' m. cbn [nodes]. split.
    + intros (c & Hc & [(-> & kw & -> & Hn & ck & Hck & ->)
                       |[(-> & Hown)|(x & c' & Hx & Hc' & He)]]).
      * exists (mkCMD n (Some kw) l i a cs), c. split; [left|]. split; [done|].
        split; [done|]. exists kw. eauto 7.
      * exists (mkCMD n k l i a cs), c. split; [left|]. split; [done|].
        split; [done|]. destruct Hown as [(-> & ? & ->)|(-> & ? & ->)]; eauto 9.
      * exists x, c'. split; [|done]. right. apply elem_of_flat_map. eauto.
    + intros (x & c & [->|(c0 & Hc0 & Hx)%elem_of_flat_map]%elem_of_cons & Hc & He).
      * exists c. split; [done|]. destruct He as (-> & kw & Hk & He). simpl in Hk.
        destruct He as [(? & ck & ? & ->)|[(-> & ? & ->)|(-> & ? & ->)]]; eauto 9.
      * exists c0. split; [done|]. right. right. eauto.
  - unfold either, child_warning, nothing. intros n' m. cbn [nodes]. split.
    + intros (c & Hc & [[]|[(-> & -> & ? & ->)|(x & c' & Hx & Hc' & He)]]).
      * exists (mkCMD n (Some TRACK) l i a cs), c. split; [left | done].
      * exists x, c'. split; [|done]. right. apply elem_of_flat_map. eauto.
    + intros (x & c & [->|(c0 & Hc0 & Hx)%elem_of_flat_map]%elem_of_cons & Hc & He).
      * exists c. split; [done|]. right. left. done.
      * exists c0. split; [done|]. right. right. eauto.
Qed.

(** *** The pass over the multiplicities *)

(** What [checkCmdMul] records for the child [c] of [p]. *)
Definition mul_error (p c : CMD) : nat -> msg -> Prop :=
  fun n m => n = linenum c /\ m = MultipleError /\
    exists k, key c = Some k /\ Rule.multiple (commands k) = false /\
              mul_exceeds k 0 (children p) = true.

Lemma emits_checkCmdMul t : forall p,
  emits (fun n m => (exists pp, p = Some pp /\ mul_error pp t n m) \/
                    exists x c, x ∈ nodes t /\ c ∈ children x /\ mul_error x c n m)
        nothing (checkCmdMul p t).
Proof.
  induction t as [n k l i a cs IH] using CMD_induction. intros p.
  cbn [checkCmdMul]. rewrite Forall_forall in IH.
  assert (H0 : emits (fun n' m => exists pp, p = Some pp /\
                        mul_error pp (mkCMD n k l i a cs) n' m) nothing
                 (match k with
                  | Some kw =>
                      if negb (Rule.multiple (commands kw)) then
                        match p with
                        | None => raise AttributeError
                        | Some p => when (mul_exceeds kw 0 (children p))
                                         (add_error n l MultipleError)
                        end
                      else ret tt
                  | None => ret tt
                  end)).
  { unfold mul_error. destruct k as [kw|]; simpl.
    - destruct (Rule.multiple (commands kw)) eqn:Hm; simpl.
      + eapply emits_ext; [apply emits_ret | |]; unfold nothing; intros n' m; split;
          try tauto. intros (pp & _ & _ & _ & k' & [= <-] & ? & _). congruence.
      + destruct p as [pp|]; [|apply emits_raise].
        eapply emits_ext; [apply emits_when, emits_add_error | |]; unfold just, nothing;
          intros n' m; split; try tauto.
        * intros (He & -> & ->). exists pp. split; [done|]. eauto 9.
        * intros (pp' & [= <-] & -> & -> & k' & [= <-] & _ & He). done.
    - eapply emits_ext; [apply emits_ret | |]; unfold nothing; intros n' m; split;
        try tauto. intros (pp & _ & _ & _ & k' & ? & _). done. }
  eapply emits_ext.
  - apply emits_bind; [exact H0 | intros _].
    apply (emits_for_each_in
             (fun c n' m => (exists pp, Some (mkCMD n k l i a cs) = Some pp
                                        /\ mul_error pp c n' m) \/
                            exists x c', x ∈ nodes c /\ c' ∈ children x
                                         /\ mul_error x c' n' m)
             (fun _ => nothing)).
    intros c Hc. by apply IH.
  - unfold either. intros n' m. cbn [nodes]. split.
    + intros [?|(c & Hc & [(pp & [= <-] & He)|(x & c' & Hx & Hc' & He)])]; [by left| |].
      * right. exists (mkCMD n k l i a cs), c. split; [left | done].
      * right. exists x, c'. split; [|done]. right. apply elem_of_flat_map. eauto.
    + intros [?|(x & c & [->|(c0 & Hc0 & Hx)%elem_of_flat_map]%elem_of_cons & Hc & He)];
        [by left| |].
      * right. exists c. split; [done|]. left. eauto.
      * right. exists c0. split; [done|]. right. eauto.
  - unfold either, nothing. intros n' m. split; [|tauto].
    intros [[]|(? & _ & [])].
Qed.

(** *** The pass over the order *)

Lemma emits_order_after n l aft idx : forall cs j me,
  (me = true <-> idx < j) ->
  emits (fun n' m => n' = n /\ m = OrderError /\
           exists i c, cs !! i = Some c /\ key_in (key c) aft = true /\ idx < j + i)
        nothing (order_after n l aft idx j me cs).
Proof.
  induction cs as [|c cs IH]; intros j me Hme; simpl.
  - eapply emits_ext; [apply emits_ret | |]; unfold nothing; intros n' m; split; try tauto.
    intros (_ & _ & ? & ? & ? & _). done.
  - eapply emits_ext.
    + apply emits_bind; [apply emits_when, emits_add_error | intros _].
      apply (IH (S j) (me || (j =? idx)%nat)).
      rewrite orb_true_iff, Nat.eqb_eq, Hme. lia.
    + unfold either, just. intros n' m. rewrite andb_true_iff, Hme. split.
      * intros [([? ?] & -> & ->)|(-> & -> & i & c' & Hi & Hk & Hlt)].
        -- split; [done|]. split; [done|]. exists 0, c. rewrite Nat.add_0_r. done.
        -- split; [done|]. split; [done|]. exists (S i), c'.
           split; [done|]. split; [done | lia].
      * intros (-> & -> & [|i] & c' & Hi & Hk & Hlt); simpl in Hi.
        -- injection Hi as <-. left. rewrite Nat.add_0_r in Hlt. done.
        -- right. split; [done|]. split; [done|]. exists i, c'.
           split; [done|]. split; [done | lia].
    + unfold either, nothing. intros; tauto.
Qed.

Lemma emits_order_before n l bef idx : forall cs j,
  j <= idx ->
  emits (fun n' m => n' = n /\ m = OrderError /\
           exists i c, cs !! i = Some c /\ key_in (key c) bef = true /\ j + i <= idx)
        nothing (order_before n l bef idx j cs).
Proof.
  induction cs as [|c cs IH]; intros j Hj; simpl.
  - eapply emits_ext; [apply emits_ret | |]; unfold nothing; intros n' m; split; try tauto.
    intros (_ & _ & ? & ? & ? & _). done.
  - destruct (Nat.eqb_spec j idx) as [->|Hne].
    + eapply emits_ext;
        [apply emits_bind; [apply emits_when, emits_add_error | intros _; apply emits_ret] | |];
        unfold either, just, nothing; intros n' m; split; try tauto.
      * intros [(? & -> & ->)|[]]. split; [done|]. split; [done|]. exists 0, c.
        split; [done|]. split; [done | lia].
      * intros (-> & -> & [|i] & c' & Hi & Hk & Hle); simpl in Hi; [|lia].
        injection Hi as <-. by left.
    + eapply emits_ext.
      * apply emits_bind; [apply emits_when, emits_add_error | intros _].
        apply (IH (S j)). lia.
      * unfold either, just. intros n' m. split.
        -- intros [(? & -> & ->)|(-> & -> & i & c' & Hi & Hk & Hle)].
           ++ split; [done|]. split; [done|]. exists 0, c. split; [done|]. split; [done | lia].
           ++ split; [done|]. split; [done|]. exists (S i), c'.
              split; [done|]. split; [done | lia].
        -- intros (-> & -> & [|i] & c' & Hi & Hk & Hle); simpl in Hi.
           ++ injection Hi as <-. by left.
           ++ right. split; [done|]. split; [done|]. exists i, c'.
              split; [done|]. split; [done | lia].
      * unfold either, nothing. intros; tauto.
Qed.

(** What [checkCmdOrder] records for the child [c] at position [idx] of
    [p]: a sibling behind [c] has a keyword that [c] is to come after, or a
    sibling up to [c] has a keyword that [c] is to come before. *)
Definition order_error (p : CMD) (idx : nat) (c : CMD) : nat -> msg -> Prop :=
  fun n m => n = linenum c /\ m = OrderError /\
    exists k pos, key c = Some k /\ position_of k p = Some pos /\
      ((exists i s, children p !! i = Some s /\ key_in (key s) (Rule.after pos) = true
                    /\ idx < i) \/
       (exists i s, children p !! i = Some s /\ key_in (key s) (Rule.before pos) = true
                    /\ i <= idx)).

Lemma key_in_nil k : key_in k [] = false.
Proof. unfold key_in. apply bool_decide_eq_false. simpl. apply not_elem_of_nil. Qed.

Lemma emits_checkCmdOrder t : forall p idx,
  emits (fun n m => (exists pp, p = Some pp /\ order_error pp idx t n m) \/
                    exists x i c, x ∈ nodes t /\ children x !! i = Some c
                                  /\ order_error x i c n m)
        nothing (checkCmdOrder p idx t).
Proof.
  induction t as [n k l i a cs IH] using CMD_induction. intros p idx.
  cbn [checkCmdOrder]. rewrite Forall_forall in IH.
  assert (H0 : emits (fun n' m => exists pp, p = Some pp /\
                        order_error pp idx (mkCMD n k l i a cs) n' m) nothing
                 (match k with
                  | Some kw =>
                      match p with
                      | None => raise AttributeError
                      | Some p =>
                          match position_of kw p with
                          | None => raise KeyError
                          | Some pos =>
                              (when (negb (bool_decide (Rule.after pos = [])))
                                 (order_after n l (Rule.after pos) idx 0 false (children p));;
                               when (negb (bool_decide (Rule.before pos = [])))
                                 (order_before n l (Rule.before pos) idx 0 (children p)))
                          end
                      end
                  | None => ret tt
                  end)).
  { unfold order_error. destruct k as [kw|]; simpl.
    2: { eapply emits_ext; [apply emits_ret | |]; unfold nothing; intros n' m; split;
           try tauto. intros (pp & _ & _ & _ & k' & ? & ? & _). done. }
    destruct p as [pp|]; [|apply emits_raise].
    destruct (position_of kw pp) as [pos|] eqn:Hpos; [|apply emits_raise].
    eapply emits_ext.
    - apply emits_bind; [|intros _]; apply emits_when;
        [apply (emits_order_after n l (Rule.after pos) idx (children pp) 0 false)
        | apply (emits_order_before n l (Rule.before pos) idx (children pp) 0)]; [|lia].
      split; [done | lia].
    - unfold either. intros n' m. split.
      + intros [(_ & -> & -> & j & s & ? & ? & ?)|(_ & -> & -> & j & s & ? & ? & ?)];
          exists pp; (split; [done|]); (split; [done|]); (split; [done|]);
          exists kw, pos; (split; [done|]); (split; [done|]); [left | right]; eauto.
      + intros (pp' & [= <-] & -> & -> & k' & pos' & [= <-] & Hp' & He).
        assert (pos' = pos) as -> by congruence.
        destruct He as [(j & s & Hj & Hk & Hlt)|(j & s & Hj & Hk & Hle)].
        * left. split.
          -- apply negb_true_iff, bool_decide_eq_false. intros E. rewrite E, key_in_nil in Hk.
             done.
          -- split; [done|]. split; [done|]. eauto.
        * right. split.
          -- apply negb_true_iff, bool_decide_eq_false. intros E. rewrite E, key_in_nil in Hk.
             done.
          -- split; [done|]. split; [done|]. eauto.
    - unfold either, nothing. intros; tauto. }
  eapply emits_ext.
  - apply emits_bind; [exact H0 | intros _].
    apply (emits_for_each_from_in
             (fun j c n' m => (exists pp, Some (mkCMD n k l i a cs) = Some pp
                                          /\ order_error pp j c n' m) \/
                              exists x j' c', x ∈ nodes c /\ children x !! j' = Some c'
                                              /\ order_error x j' c' n' m)
             (fun _ _ => nothing)).
    intros j c Hc. by apply IH.
  - unfold either. intros n' m. cbn [nodes]. split.
    + intros [?|(j & c & Hc & [(pp & [= <-] & He)|(x & j' & c' & Hx & Hc' & He)])];
        [by left| |].
      * right. exists (mkCMD n k l i a cs), j, c. split; [left | done].
      * right. exists x, j', c'. split; [|done]. right. apply elem_of_flat_map.
        exists c. split; [by eapply list_elem_of_lookup_2 | done].
    + intros [?|(x & j & c & [->|(c0 & Hc0 & Hx)%elem_of_flat_map]%elem_of_cons & Hc & He)];
        [by left| |].
      * right. exists j, c. split; [done|]. left. eauto.
      * right. apply list_elem_of_lookup_1 in Hc0 as (j0 & Hj0).
        exists j0, c0. split; [done|]. right. exists x, j, c. done.
  - unfold either, nothing. intros n' m. split; [|tauto].
    intros [[]|(? & ? & _ & [])].
Qed.

(** *** The whole run *)

Lemma recorded_nil n m : ~ recorded [] n m.
Proof. intros (e & He & _). by apply elem_of_nil in He. Qed.

Lemma node_syntax_set_attrs (P : CMD -> nat -> msg -> Prop) t n m :
  (forall x, P (set_attrs w filename x) n m <-> P x n m) ->
  (exists x, x ∈ nodes t /\ P x n m) <->
  (exists x, x ∈ nodes (set_attrs w filename t) /\ P x n m).
Proof.
  intros HP. rewrite nodes_set_attrs. split.
  - intros (x & Hx & H). exists (set_attrs w filename x). split; [|by apply HP].
    by apply list_elem_of_In, in_map, list_elem_of_In.
  - intros (x' & (x & <- & Hx)%list_elem_of_In%in_map_iff & H).
    exists x. split; [by apply list_elem_of_In | by apply HP].
Qed.

(** The errors and the warnings of a run that returns: those of the
    classifier for the lines of the document, and those of the five passes
    for the nodes of the tree. *)
Lemma run_diagnostics errs warns r text :
  cuecheck w filename = Return (errs, warns, r) ->
  read w filename = Text text ->
  (forall n m, recorded errs n m <->
     line_errors 0 (Py.splitlines text) n m \/
     (exists x, x ∈ nodes r /\ node_syntax_error x n m) \/
     (exists x c, x ∈ nodes r /\ c ∈ children x /\ child_error x c n m) \/
     (exists x c, x ∈ nodes r /\ c ∈ children x /\ mul_error x c n m) \/
     (exists x i c, x ∈ nodes r /\ children x !! i = Some c /\ order_error x i c n m) \/
     (track_errors r n m \/ time_errors r n m \/ index_errors r n m)) /\
  (forall n m, recorded warns n m <->
     (exists x, x ∈ nodes r /\ node_syntax_warning x n m) \/
     (exists x c, x ∈ nodes r /\ c ∈ children x /\ child_warning x c n m) \/
     track_warnings r n m).
Proof.
  intros (text' & b & s0 & s1 & s2 & s3 & s4 & S)%cuecheck_stages Hr.
  destruct S as [_ _ Hr' _ Hb H1 H2 H3 H4 H5].
  assert (text' = text) as -> by congruence.
  pose proof (checkCmdSyntax_value _ _ _ _ _ _ H1) as Er.
  destruct (emits_build _ _ _ _ _ _ Hb) as [B1 B2].
  destruct (emits_checkCmdSyntax _ _ _ _ H1) as [S1 S2].
  destruct (emits_checkCmdChildren _ _ _ _ H2) as [C1 C2].
  destruct (emits_checkCmdMul _ _ _ _ _ H3) as [M1 M2].
  destruct (emits_checkCmdOrder _ _ _ _ _ _ H4) as [O1 O2].
  destruct (emits_sequence_checks _ _ _ _ H5) as [Q1 Q2].
  cbn [errorlist warnlist no_diags] in *.
  assert (N1 : forall n m,
            (exists x, x ∈ nodes (root b) /\ node_syntax_error x n m) <->
            (exists x, x ∈ nodes r /\ node_syntax_error x n m)).
  { intros n m. rewrite Er. apply node_syntax_set_attrs. intros x.
    unfold node_syntax_error.
    by destruct (set_attrs_fields w filename x) as (-> & -> & -> & -> & _). }
  assert (N2 : forall n m,
            (exists x, x ∈ nodes (root b) /\ node_syntax_warning x n m) <->
            (exists x, x ∈ nodes r /\ node_syntax_warning x n m)).
  { intros n m. rewrite Er. apply node_syntax_set_attrs. intros x.
    unfold node_syntax_warning.
    by destruct (set_attrs_fields w filename x) as (-> & -> & -> & -> & _). }
  split; intros n m.
  - rewrite Q1, O1, M1, C1, S1, B1, N1. unfold cueSynerrList.init.
    pose proof (recorded_nil n m). split; intros; break_up; try done; eauto 12.
  - rewrite Q2, O2, M2, C2, S2, B2, N2. unfold cueSynerrList.init, nothing.
    pose proof (recorded_nil n m). split; intros; break_up; try done; eauto 12.
Qed.

(** The pass that records a message: 0 the classifier, 1 the syntax pass,
    2 the pass over the children, 3 the one over the multiplicities, 4 the
    one over the order, 5 the sequence checks; the parent error is raised,
    not recorded. *)
Definition pass_of (m : msg) : nat :=
  match m with
  | IsBlank | NotCapital | CommandNotFound | IndentError => 0
  | CommandSyntaxError | TooLong _ | FileNotFound _ | TimeError => 1
  | ErrorChild _ | FileNoTrack | TrackNoIndex | TrackNoTitle => 2
  | MultipleError => 3
  | OrderError => 4
  | FirstTrackNumber | TrackNumberError _ _ | FirstIndexTime | IndexTimeError _ _
  | FirstIndexNumber | IndexNumberError _ _ => 5
  | ParentError => 6
  end.

Lemma syntax_error_pass n k l ind m : syntax_error n k l ind m -> pass_of m = 1.
Proof.
  unfold syntax_error. destruct (match_syntax k ind l); [|by intros ->].
  destruct k; try done; by intros [_ ->].
Qed.

Lemma syntax_warning_pass n k l ind m : syntax_warning n k l ind m -> pass_of m = 1.
Proof.
  unfold syntax_warning. destruct (match_syntax k ind l); [|done]. by intros (_ & _ & ->).
Qed.

(** The errors of a run, by the pass that records them. *)
Lemma run_errors errs warns r text n m :
  cuecheck w filename = Return (errs, warns, r) ->
  read w filename = Text text ->
  (recorded errs n m <->
   match pass_of m with
   | 0 => line_errors 0 (Py.splitlines text) n m
   | 1 => exists x, x ∈ nodes r /\ node_syntax_error x n m
   | 2 => exists x c, x ∈ nodes r /\ c ∈ children x /\ child_error x c n m
   | 3 => exists x c, x ∈ nodes r /\ c ∈ children x /\ mul_error x c n m
   | 4 => exists x i c, x ∈ nodes r /\ children x !! i = Some c /\ order_error x i c n m
   | 5 => track_errors r n m \/ time_errors r n m \/ index_errors r n m
   | _ => False
   end).
Proof.
  intros H Hr. destruct (run_diagnostics _ _ _ _ H Hr) as [E _]. rewrite E. clear E.
  assert (P0 : line_errors 0 (Py.splitlines text) n m -> pass_of m = 0).
  { intros (j & raw & _ & _ & Hm). unfold line_msg in Hm. break_up; by subst. }
  assert (P1 : (exists x, x ∈ nodes r /\ node_syntax_error x n m) -> pass_of m = 1).
  { intros (x & _ & _ & k & _ & Hm). by eapply syntax_error_pass. }
  assert (P2 : (exists x c, x ∈ nodes r /\ c ∈ children x /\ child_error x c n m)
               -> pass_of m = 2).
  { intros (x & c & _ & _ & _ & k & _ & Hm). break_up; by subst. }
  assert (P3 : (exists x c, x ∈ nodes r /\ c ∈ children x /\ mul_error x c n m)
               -> pass_of m = 3).
  { intros (x & c & _ & _ & _ & -> & _). done. }
  assert (P4 : (exists x i c, x ∈ nodes r /\ children x !! i = Some c
                              /\ order_error x i c n m) -> pass_of m = 4).
  { intros (x & i & c & _ & _ & _ & -> & _). done. }
  assert (P5 : track_errors r n m \/ time_errors r n m \/ index_errors r n m
               -> pass_of m = 5).
  { unfold track_errors, time_errors, index_errors, file_time_errors, track_index_errors,
      track_pair_error, first_time_error, time_pair_error, first_index_error,
      index_pair_error. intros; break_up; by subst. }
  destruct (pass_of m) as [|[|[|[|[|[|p]]]]]] eqn:Hp;
    (split; [intros [H0|[H1|[H2|[H3|[H4|H5]]]]] | tauto]); try assumption;
    first [ apply P0 in H0; discriminate H0 | apply P1 in H1; discriminate H1
          | apply P2 in H2; discriminate H2 | apply P3 in H3; discriminate H3
          | apply P4 in H4; discriminate H4 | apply P5 in H5; discriminate H5 ].
Qed.

(** The warnings of a run, by the pass that records them. *)
Lemma run_warnings errs warns r text n m :
  cuecheck w filename = Return (errs, warns, r) ->
  read w filename = Text text ->
  (recorded warns n m <->
   match pass_of m with
   | 1 => exists x, x ∈ nodes r /\ node_syntax_warning x n m
   | 2 => exists x c, x ∈ nodes r /\ c ∈ children x /\ child_warning x c n m
   | 5 => track_warnings r n m
   | _ => False
   end).
Proof.
  intros H Hr. destruct (run_diagnostics _ _ _ _ H Hr) as [_ E]. rewrite E. clear E.
  assert (P1 : (exists x, x ∈ nodes r /\ node_syntax_warning x n m) -> pass_of m = 1).
  { intros (x & _ & _ & k & _ & Hm). by eapply syntax_warning_pass. }
  assert (P2 : (exists x c, x ∈ nodes r /\ c ∈ children x /\ child_warning x c n m)
               -> pass_of m = 2).
  { intros (x & c & _ & _ & _ & _ & _ & ->). done. }
  assert (P5 : track_warnings r n m -> pass_of m = 5).
  { intros (t0 & _ & _ & _ & ->). done. }
  destruct (pass_of m) as [|[|[|[|[|[|p]]]]]] eqn:Hp;
    (split; [intros [H1|[H2|H5]] | tauto]); try assumption;
    first [ apply P1 in H1; discriminate H1 | apply P2 in H2; discriminate H2
          | apply P5 in H5; discriminate H5 ].
Qed.

(** *** The nodes of the tree and the lines of the document *)

Lemma line_headers_numbers d : forall i,
  StronglySorted Nat.lt ((fun h => h.1.1.1.1) <$> line_headers i d) /\
  Forall (fun n => i < n) ((fun h => h.1.1.1.1) <$> line_headers i d).
Proof.
  induction d as [|raw d IH]; intros i; simpl; [split; constructor|].
  destruct (IH (S i)) as [S1 F1].
  assert (F2 : Forall (fun n => i < n) ((fun h => h.1.1.1.1) <$> line_headers (S i) d)).
  { eapply Forall_impl; [exact F1|]. simpl. intros; lia. }
  destruct (line_keyword raw) as [k|]; simpl; [|done].
  split.
  - constructor; [done|]. eapply Forall_impl; [exact F1|]. simpl. intros; lia.
  - constructor; [lia | done].
Qed.

Lemma StronglySorted_lt_NoDup (l : list nat) : StronglySorted Nat.lt l -> NoDup l.
Proof.
  induction 1 as [|x l _ IH F]; constructor; [|done].
  intros Hx. rewrite Forall_forall in F. specialize (F x Hx). lia.
Qed.

Lemma returned_NoDup d errs warns r :
  returned w filename d errs warns r -> NoDup (linenum <$> nodes r).
Proof.
  intros [(b & -> & I & Hh) _ _]. rewrite nodes_set_attrs.
  change (map (set_attrs w filename) (nodes (root b)))
    with (set_attrs w filename <$> nodes (root b)).
  rewrite <- list_fmap_compose.
  assert (E : (linenum ∘ set_attrs w filename) <$> nodes (root b)
              = (fun h => h.1.1.1.1) <$> headers (root b)).
  { unfold headers. change (map header (nodes (root b))) with (header <$> nodes (root b)).
    rewrite <- list_fmap_compose. apply list_fmap_ext. intros j x _. simpl.
    by destruct (set_attrs_fields w filename x) as (-> & _). }
  rewrite E, Hh. rewrite fmap_cons. simpl.
  destruct (line_headers_numbers d 0) as [S1 F1]. constructor.
  - intros H0. rewrite Forall_forall in F1. specialize (F1 0 H0). lia.
  - by apply StronglySorted_lt_NoDup.
Qed.

Lemma NoDup_fmap_elem {A B} (f : A -> B) l x y :
  NoDup (f <$> l) -> x ∈ l -> y ∈ l -> f x = f y -> x = y.
Proof.
  intros Hn (i & Hi)%list_elem_of_lookup_1 (j & Hj)%list_elem_of_lookup_1 E.
  assert (i = j) as ->; [|congruence].
  eapply NoDup_lookup; [exact Hn | |]; rewrite list_lookup_fmap.
  - by rewrite Hi.
  - rewrite Hj. simpl. by rewrite E.
Qed.

(** In the tree a run returns, a line has one node at most. *)
Lemma cuecheck_node_unique errs warns r x y :
  cuecheck w filename = Return (errs, warns, r) ->
  x ∈ nodes r -> y ∈ nodes r -> linenum x = linenum y -> x = y.
Proof.
  intros (text & _ & _ & R)%cuecheck_returned. apply NoDup_fmap_elem.
  by eapply returned_NoDup.
Qed.

(** *** The diagnostics, pass by pass *)

Lemma blank_split raw : Py.strip (Py.collapse raw) = "" <-> Py.split raw = [].
Proof.
  split; [apply PyFacts.split_blank|]. intros H.
  destruct (String.eqb_spec (Py.strip (Py.collapse raw)) "") as [E|N]; [done|].
  by apply PyFacts.split_not_blank in N.
Qed.

(** X1.  The four diagnostics of the line classifier.  In a run that returns,
    [is blank] is recorded exactly for the lines that are empty once their
    whitespace is collapsed and stripped, [command not is capital] for the
    lines whose first token is not upper-case, [command not found] for the
    lines whose first token, in upper case, is no key of [commands], and
    [indent error] for the lines with a keyword whose number of leading
    spaces the keyword does not permit. *)
Theorem classifier_diagnostics_exact (errs warns : cueSynerrList.t) (r : CMD)
    (text : string) :
  cuecheck w filename = Return (errs, warns, r) ->
  read w filename = Text text ->
  (forall n, recorded errs n IsBlank <->
     exists j raw, Py.splitlines text !! j = Some raw /\ n = j + 1 /\
                   Py.strip (Py.collapse raw) = "") /\
  (forall n, recorded errs n NotCapital <->
     exists j raw, Py.splitlines text !! j = Some raw /\ n = j + 1 /\
                   capital raw = false) /\
  (forall n, recorded errs n CommandNotFound <->
     exists j raw, Py.splitlines text !! j = Some raw /\ n = j + 1 /\
                   Py.strip (Py.collapse raw) <> "" /\ line_keyword raw = None) /\
  (forall n, recorded errs n IndentError <->
     exists j raw k, Py.splitlines text !! j = Some raw /\ n = j + 1 /\
                     line_keyword raw = Some k /\
                     getSpace raw ∉ Rule.indent (commands k)).
Proof.
  intros H Hr. split; [|split; [|split]]; intros n;
    rewrite (run_errors _ _ _ _ _ _ H Hr); cbn [pass_of]; unfold line_errors, line_msg.
  - split.
    + intros (j & raw & Hj & -> & Hm). exists j, raw. rewrite blank_split.
      break_up; try done. 
    + intros (j & raw & Hj & -> & Hb%blank_split). exists j, raw. auto 8.
  - split.
    + intros (j & raw & Hj & -> & Hm). exists j, raw. break_up; try done.
    + intros (j & raw & Hj & -> & Hb). exists j, raw. auto 8.
  - split.
    + intros (j & raw & Hj & -> & Hm). exists j, raw. rewrite blank_split.
      break_up; try done.
    + intros (j & raw & Hj & -> & Hb & Hk). rewrite blank_split in Hb.
      exists j, raw. auto 9.
  - split.
    + intros (j & raw & Hj & -> & Hm). break_up; try done. exists j, raw, x.
      unfold depth_ok in *. by apply bool_decide_eq_false in H1.
    + intros (j & raw & k & Hj & -> & Hk & Hd). exists j, raw.
      split; [done|]. split; [lia|]. right. right. right. exists k.
      split; [done|]. split; [|done]. by apply bool_decide_eq_false.
Qed.

(** X2.  The error of the syntax pass.  In a run that returns,
    [command syntax error] is recorded exactly for the lines of the nodes
    whose line does not match the rule of their keyword at their depth,
    and such a node has none of its attributes set. *)
Theorem syntax_error_exact (errs warns : cueSynerrList.t) (r : CMD) :
  cuecheck w filename = Return (errs, warns, r) ->
  (forall n, recorded errs n CommandSyntaxError <->
     exists x k, x ∈ nodes r /\ linenum x = n /\ key x = Some k /\
                 match_syntax k (indent x) (line x) = None) /\
  (forall x k, x ∈ nodes r -> key x = Some k ->
     match_syntax k (indent x) (line x) = None -> dict x = no_attrs) /\
  (forall x k, x ∈ nodes r -> key x = Some k ->
     match_syntax k (indent x) (line x) <> None ->
     ~ recorded errs (linenum x) CommandSyntaxError).
Proof.
  intros H. destruct (cuecheck_returned _ _ _ _ _ H) as (text & Hr & _ & R).
  assert (E : forall n, recorded errs n CommandSyntaxError <->
     exists x k, x ∈ nodes r /\ linenum x = n /\ key x = Some k /\
                 match_syntax k (indent x) (line x) = None).
  { intros n. rewrite (run_errors _ _ _ _ _ _ H Hr). cbn [pass_of].
    unfold node_syntax_error, syntax_error. split.
    - intros (x & Hx & -> & k & Hk & Hm). exists x, k.
      destruct (match_syntax k (indent x) (line x)); [|done].
      destruct k; try done; by destruct Hm.
    - intros (x & k & Hx & <- & Hk & Hm). exists x. split; [done|]. split; [done|].
      exists k. by rewrite Hm. }
  split; [exact E|]. split.
  - intros x k Hx Hk Hm.
    destruct (returned_nodes _ _ _ _ _ _ _ R Hx)
      as [(_ & ? & _)|(j & raw & k' & _ & _ & _ & Hk' & Hl & Hi & ->)]; [congruence|].
    assert (k' = k) as -> by congruence. rewrite Hl, Hi in Hm.
    by apply attrs_after_no_match.
  - intros x k Hx Hk Hm (y & k' & Hy & Hl & Hk' & Hm')%E.
    assert (y = x) as -> by (by eapply cuecheck_node_unique).
    congruence.
Qed.

Lemma findChildCmd_false x k :
  findChildCmd x k = false <-> Forall (fun c => key c <> Some k) (children x).
Proof.
  unfold findChildCmd. induction (children x) as [|c cs IH]; simpl.
  - split; [constructor | done].
  - rewrite orb_false_iff, IH, Forall_cons, bool_decide_eq_false. done.
Qed.

(** X3.  The diagnostics of the pass over the children, for TRACK nodes.  In a
    run that returns, the error [TRACK not have INDEX] is recorded exactly
    for the TRACK nodes that have a child but no INDEX child, and the
    warning [TRACK not have TITLE] exactly for the TRACK nodes that have a
    child but no TITLE child: a TRACK node without children gets neither. *)
Theorem track_children_checked (errs warns : cueSynerrList.t) (r : CMD) :
  cuecheck w filename = Return (errs, warns, r) ->
  (forall n, recorded errs n TrackNoIndex <->
     exists x, x ∈ nodes r /\ linenum x = n /\ key x = Some TRACK /\
               children x <> [] /\
               Forall (fun c => key c <> Some INDEX) (children x)) /\
  (forall n, recorded warns n TrackNoTitle <->
     exists x, x ∈ nodes r /\ linenum x = n /\ key x = Some TRACK /\
               children x <> [] /\
               Forall (fun c => key c <> Some TITLE) (children x)) /\
  (forall x, x ∈ nodes r -> children x = [] ->
     ~ recorded errs (linenum x) TrackNoIndex /\
     ~ recorded warns (linenum x) TrackNoTitle).
Proof.
  intros H. destruct (cuecheck_returned _ _ _ _ _ H) as (text & Hr & _ & R).
  assert (E1 : forall n, recorded errs n TrackNoIndex <->
     exists x, x ∈ nodes r /\ linenum x = n /\ key x = Some TRACK /\
               children x <> [] /\
               Forall (fun c => key c <> Some INDEX) (children x)).
  { intros n. rewrite (run_errors _ _ _ _ _ _ H Hr). cbn [pass_of]. unfold child_error.
    split.
    - intros (x & c & Hx & Hc & -> & k & Hk & [(_ & ? & _ & ?)|[(_ & _ & ?)|(-> & Hf & _)]]);
        try done.
      exists x. split; [done|]. split; [done|]. split; [done|]. split.
      + intros E. rewrite E in Hc. by apply elem_of_nil in Hc.
      + by apply findChildCmd_false.
    - intros (x & Hx & <- & Hk & Hn & Hf). destruct (children x) as [|c cs] eqn:Hc; [done|].
      exists x, c. split; [done|]. split; [rewrite Hc; left|]. split; [done|].
      exists TRACK. split; [done|]. right. right. split; [done|]. split; [|done].
      apply findChildCmd_false. by rewrite Hc. }
  assert (E2 : forall n, recorded warns n TrackNoTitle <->
     exists x, x ∈ nodes r /\ linenum x = n /\ key x = Some TRACK /\
               children x <> [] /\
               Forall (fun c => key c <> Some TITLE) (children x)).
  { intros n. rewrite (run_warnings _ _ _ _ _ _ H Hr). cbn [pass_of]. unfold child_warning.
    split.
    - intros (x & c & Hx & Hc & -> & Hk & Hf & _).
      exists x. split; [done|]. split; [done|]. split; [done|]. split.
      + intros E. rewrite E in Hc. by apply elem_of_nil in Hc.
      + by apply findChildCmd_false.
    - intros (x & Hx & <- & Hk & Hn & Hf). destruct (children x) as [|c cs] eqn:Hc; [done|].
      exists x, c. split; [done|]. split; [rewrite Hc; left|]. split; [done|].
      split; [done|]. split; [|done]. apply findChildCmd_false. by rewrite Hc. }
  split; [exact E1|]. split; [exact E2|]. intros x Hx Hc. split.
  - intros (y & Hy & Hl & _ & Hn & _)%E1.
    assert (y = x) as -> by (by eapply cuecheck_node_unique). done.
  - intros (y & Hy & Hl & _ & Hn & _)%E2.
    assert (y = x) as -> by (by eapply cuecheck_node_unique). done.
Qed.

(** A child of a node of a tree the builder made is a child its parent
    may have, and a FILE node with a child has a TRACK child. *)
Lemma child_error_placed x c n m :
  placed x -> c ∈ children x -> child_error x c n m -> m = TrackNoIndex.
Proof.
  intros [F _]%placed_inv Hc (_ & k & Hk & He). rewrite Forall_forall in F.
  destruct (F c Hc) as (kc & Hkc & Hi & Hl). rewrite Hk in Hl.
  assert (Hin : key c ∈ Rule.children (commands k) /\ (k = FILE -> kc = TRACK)).
  { rewrite Hkc. unfold level_key in Hl.
    destruct (permitted_depths _ _ Hi) as [E|[E|E]]; rewrite E in *; simpl in Hl;
      try done; injection Hl as <-; destruct kc; cbn in Hi;
      repeat (apply elem_of_cons in Hi as [Hi|Hi]; [try done|]);
      try (by apply elem_of_nil in Hi); (split; [|done]); cbn;
      repeat first [apply list_elem_of_here | apply list_elem_of_further]. }
  destruct Hin as [Hin Hf].
  destruct He as [(Hn & _)|[(-> & Hfc & _)|(_ & _ & ->)]]; [done| |done].
  apply findChildCmd_false in Hfc. rewrite Forall_forall in Hfc.
  specialize (Hfc c Hc). rewrite Hkc, (Hf eq_refl) in Hfc. done.
Qed.

Lemma append_length a b : String.length (a +:+ b) = String.length a + String.length b.
Proof. induction a as [|c a IH]; simpl; [done | by rewrite IH]. Qed.

Lemma text_not_FileNoTrack str_time m :
  m <> FileNoTrack -> msg_text str_time m <> "FILE not have TRACK".
Proof.
  intros Hm E.
  destruct m as [| | | | | |k0|name| |k0| | | | | | | | | | |];
    try done; try (by vm_compute in E).
  - destruct k0; by vm_compute in E.
  - simpl in E. assert (L := f_equal String.length E).
    rewrite append_length in L. simpl in L.
    do 5 (destruct name as [|? name]; [by vm_compute in E|]); simpl in L; lia.
Qed.

Lemma text_not_ErrorChild str_time m k :
  (forall k', m <> ErrorChild k') ->
  msg_text str_time m <> "have error child " +:+ keyword_name k.
Proof.
  intros Hm E.
  destruct m as [| | | | | |k0|name| |k0| | | | | | | | | | |];
    try (by vm_compute in E); try (by exfalso; eapply Hm).
  - destruct k0; by vm_compute in E.
  - simpl in E. assert (L := f_equal String.length E).
    rewrite !append_length in L.
    destruct k; simpl in L;
      do 13 (destruct name as [|? name]; [by vm_compute in E|]); simpl in L; lia.
Qed.

(** X4.  Two checks of the pass over the children never fire.  In a run that
    returns, no diagnostic is [FILE not have TRACK] or [have error child]:
    a FILE node without children is not checked, the children of a FILE
    node are TRACK nodes, and the children of a TRACK node are nodes of
    the kinds a TRACK may have. *)
Theorem dead_child_checks (errs warns : cueSynerrList.t) (r : CMD) (n : nat)
    (m : msg) :
  cuecheck w filename = Return (errs, warns, r) ->
  recorded errs n m \/ recorded warns n m ->
  m <> FileNoTrack /\ (forall k, m <> ErrorChild k) /\
  forall str_time,
    msg_text str_time m <> "FILE not have TRACK" /\
    forall k, msg_text str_time m <> "have error child " +:+ keyword_name k.
Proof.
  intros H Hm. destruct (cuecheck_returned _ _ _ _ _ H) as (text & Hr & _ & R).
  destruct (returned_placed _ _ _ _ _ _ R) as [_ Hp].
  assert (E : m <> FileNoTrack /\ forall k, m <> ErrorChild k).
  { destruct Hm as [Hm|Hm].
    - rewrite (run_errors _ _ _ _ _ _ H Hr) in Hm.
      split; [intros -> | intros k ->]; cbn [pass_of] in Hm;
        destruct Hm as (x & c & Hx & Hc & He);
        by apply (child_error_placed x c _ _ (placed_nodes _ _ Hp Hx) Hc) in He.
    - rewrite (run_warnings _ _ _ _ _ _ H Hr) in Hm.
      split; [intros -> | intros k ->]; cbn [pass_of] in Hm;
        by destruct Hm as (x & c & _ & _ & _ & _ & _ & ?). }
  destruct E as [E1 E2]. split; [done|]. split; [done|]. intros str_time.
  split; [by apply text_not_FileNoTrack | intros k; by apply text_not_ErrorChild].
Qed.

(** X5.  The error of the pass over the multiplicities.  In a run that
    returns, [multiple command error] is recorded exactly for the lines
    of the nodes whose keyword is not marked ['multiple'] and that two or
    more children of their parent have. *)
Theorem multiple_error_exact (errs warns : cueSynerrList.t) (r : CMD) (n : nat) :
  cuecheck w filename = Return (errs, warns, r) ->
  (recorded errs n MultipleError <->
   exists p c k, p ∈ nodes r /\ c ∈ children p /\ linenum c = n /\ key c = Some k /\
                 Rule.multiple (commands k) = false /\
                 2 <= length (with_key k (children p))).
Proof.
  intros H. destruct (cuecheck_returned _ _ _ _ _ H) as (text & Hr & _ & R).
  rewrite (run_errors _ _ _ _ _ _ H Hr). cbn [pass_of]. unfold mul_error.
  assert (H01 : 0 <= 1) by lia. split.
  - intros (p & c & Hp & Hc & -> & _ & k & Hk & Hm & He).
    exists p, c, k. apply (mul_exceeds_count k 0 (children p) H01) in He. auto 8.
  - intros (p & c & k & Hp & Hc & <- & Hk & Hm & He).
    exists p, c. split; [done|]. split; [done|]. split; [done|]. split; [done|].
    exists k. split; [done|]. split; [done|].
    by apply (mul_exceeds_count k 0 (children p) H01).
Qed.

Lemma key_in_true k l : key_in k l = true <-> k ∈ Some <$> l.
Proof. unfold key_in. apply bool_decide_eq_true. Qed.

(** X6.  The error of the pass over the order.  In a run that returns,
    [command order error] is recorded exactly for the lines of the nodes
    [c] such that a child of the parent behind [c] has a keyword of the
    ['after'] tuple of [c], or a child of the parent up to [c] has a
    keyword of its ['before'] tuple; the tuples are those of the entry of
    the parent's key in ['position']. *)
Theorem order_error_exact (errs warns : cueSynerrList.t) (r : CMD) (n : nat) :
  cuecheck w filename = Return (errs, warns, r) ->
  (recorded errs n OrderError <->
   exists p idx c k pos,
     p ∈ nodes r /\ children p !! idx = Some c /\ linenum c = n /\
     key c = Some k /\ position_of k p = Some pos /\
     ((exists i s, children p !! i = Some s /\ idx < i /\
                   key s ∈ Some <$> Rule.after pos) \/
      (exists i s, children p !! i = Some s /\ i <= idx /\
                   key s ∈ Some <$> Rule.before pos))).
Proof.
  intros H. destruct (cuecheck_returned _ _ _ _ _ H) as (text & Hr & _ & R).
  rewrite (run_errors _ _ _ _ _ _ H Hr). cbn [pass_of]. unfold order_error. split.
  - intros (p & idx & c & Hp & Hc & -> & _ & k & pos & Hk & Hpos & He).
    exists p, idx, c, k, pos. split; [done|]. split; [done|]. split; [done|].
    split; [done|]. split; [done|].
    destruct He as [(i & s & Hi & Hin%key_in_true & Hlt)|(i & s & Hi & Hin%key_in_true & Hle)];
      [left | right]; eauto.
  - intros (p & idx & c & k & pos & Hp & Hc & <- & Hk & Hpos & He).
    exists p, idx, c. split; [done|]. split; [done|]. split; [done|]. split; [done|].
    exists k, pos. split; [done|]. split; [done|].
    destruct He as [(i & s & Hi & Hlt & Hin%key_in_true)|(i & s & Hi & Hle & Hin%key_in_true)];
      [left | right]; eauto.
Qed.

Lemma level_1 t : level 1 t = children t.
Proof. rewrite level_succ. simpl. by rewrite app_nil_r. Qed.

Lemma level_level a b t y x : y ∈ level a t -> x ∈ level b y -> x ∈ level (b + a) t.
Proof.
  intros Hy. revert x. induction b as [|b IH]; intros x Hx.
  - simpl in Hx. by apply list_elem_of_singleton in Hx as ->.
  - rewrite level_succ in Hx. apply elem_of_flat_map in Hx as (z & Hz & Hx).
    change (S b + a) with (S (b + a)). rewrite level_succ.
    apply elem_of_flat_map. exists z. split; [by apply IH | done].
Qed.

(** The INDEX nodes below a TRACK node of the tree a run returns are its
    INDEX children, in the order of their lines. *)
Lemma track_indexes errs warns r c :
  cuecheck w filename = Return (errs, warns, r) -> c ∈ getCmds r TRACK ->
  getCmds c INDEX = filter (fun x => key x = Some INDEX) (children c) /\
  in_order (getCmds c INDEX).
Proof.
  intros H Hc. destruct (cuecheck_returned _ _ _ _ _ H) as (text & _ & _ & R).
  destruct (returned_placed _ _ _ _ _ _ R) as [Hk Hp].
  apply getCmds_nodes in Hc as [Hc Hkc]. apply nodes_level in Hc as (m & Hm).
  pose proof (level_of_key r m c TRACK 2 Hp Hk Hm Hkc eq_refl) as E.
  assert (m = 2) as -> by lia.
  assert (G : getCmds c INDEX = filter (fun x => key x = Some INDEX) (children c)).
  { rewrite <- level_1. apply getCmds_level. intros m x Hx Hkx.
    assert (Hx' : x ∈ level (m + 2) r) by (by eapply level_level).
    pose proof (level_of_key r (m + 2) x INDEX 4 Hp Hk Hx' Hkx eq_refl). lia. }
  split; [exact G|]. rewrite G. apply in_order_filter.
  apply (in_order_flat_map children (level 2 r)); [|done].
  rewrite <- level_succ. by eapply cuecheck_in_order.
Qed.

(** X7.  The check of the index numbers of the tracks.  In a run that returns,
    for every TRACK node, over its INDEX children in the order of their
    lines: [first INDEX number not is 0 or 1 of TRACK] is recorded exactly
    for the line of a first index whose number is neither 0 nor 1, and
    [INDEX number error, x -> y] exactly for the line of the earlier of
    two neighbours whose numbers x and y are not consecutive. *)
Theorem track_index_numbers_checked (errs warns : cueSynerrList.t) (r : CMD) :
  cuecheck w filename = Return (errs, warns, r) ->
  (forall c, c ∈ getCmds r TRACK ->
     getCmds c INDEX = filter (fun x => key x = Some INDEX) (children c) /\
     in_order (getCmds c INDEX)) /\
  (forall n, recorded errs n FirstIndexNumber <->
     exists c x0, c ∈ getCmds r TRACK /\ head (getCmds c INDEX) = Some x0 /\
                  number x0 <> 0%Z /\ number x0 <> 1%Z /\ n = linenum x0) /\
  (forall n x y, recorded errs n (IndexNumberError x y) <->
     exists c a b, c ∈ getCmds r TRACK /\ neighbours (getCmds c INDEX) a b /\
                   (number a + 1)%Z <> number b /\
                   n = linenum a /\ x = number a /\ y = number b).
Proof.
  intros H. destruct (cuecheck_returned _ _ _ _ _ H) as (text & Hr & _ & R).
  split; [intros c Hc; by eapply track_indexes|]. split.
  - intros n. rewrite (run_errors _ _ _ _ _ _ H Hr). cbn [pass_of].
    unfold track_errors, time_errors, index_errors, file_time_errors, track_index_errors,
      track_pair_error, first_time_error, time_pair_error, first_index_error,
      index_pair_error. split.
    + intros Hd. break_up; try done. eauto 9.
    + intros (c & x0 & Hc & H0 & N0 & N1 & ->). right. right. exists c.
      split; [done|]. left. exists x0. done.
  - intros n x y. rewrite (run_errors _ _ _ _ _ _ H Hr). cbn [pass_of].
    unfold track_errors, time_errors, index_errors, file_time_errors, track_index_errors,
      track_pair_error, first_time_error, time_pair_error, first_index_error,
      index_pair_error. split.
    + intros Hd. break_up; try done.
      match goal with E : IndexNumberError _ _ = IndexNumberError _ _ |- _ =>
        injection E as -> -> end. eauto 12.
    + intros (c & a & b & Hc & N & Hn & -> & -> & ->). right. right. exists c.
      split; [done|]. right. exists a, b. done.
Qed.

(** X8.  The nodes of the tree and the lines of the document.  In a run that
    returns, the root has line number 0 and no key, and its line is the
    real path of the file; the other nodes are the nodes of the lines with
    a keyword, one for each such line: the node of line [j + 1] has the
    keyword of the line in upper case as its key, the line as it is and
    the permitted or coerced depth.  A blank line and a line with an
    unknown keyword have no node. *)
Theorem nodes_are_lines (errs warns : cueSynerrList.t) (r : CMD) (text : string) :
  cuecheck w filename = Return (errs, warns, r) ->
  read w filename = Text text ->
  (linenum r = 0 /\ key r = None /\ line r = realpath w filename) /\
  NoDup (linenum <$> nodes r) /\
  (forall x, x ∈ nodes r ->
     x = r \/
     exists j raw k, Py.splitlines text !! j = Some raw /\
       line_keyword raw = Some k /\ linenum x = j + 1 /\ key x = Some k /\
       line x = raw /\ indent x = depth_of k raw) /\
  (forall j raw, Py.splitlines text !! j = Some raw ->
     (exists x, x ∈ nodes r /\ linenum x = j + 1) <-> line_keyword raw <> None).
Proof.
  intros H Hr. destruct (cuecheck_returned _ _ _ _ _ H) as (text' & Hr' & _ & R).
  assert (text' = text) as -> by congruence.
  assert (Hroot : linenum r = 0 /\ key r = None /\ line r = realpath w filename).
  { destruct R as [(b & -> & I & Hh) _ _].
    destruct (set_attrs_fields w filename (root b)) as (-> & -> & -> & _).
    assert (H0 : header (root b) ∈ headers (root b)).
    { unfold headers. destruct (nodes_head (root b)) as (rest & ->). left. }
    rewrite Hh in H0. apply elem_of_cons in H0 as [H0|H0].
    - unfold header in H0. simpl in H0. by injection H0 as -> -> -> _ _.
    - apply elem_of_line_headers in H0 as (j & raw & k & _ & _ & H0).
      unfold header in H0. simpl in H0. injection H0 as _ Hk _ _ _.
      destruct I as [Hk' _ _]. congruence. }
  split; [exact Hroot|]. split; [by eapply returned_NoDup|]. split.
  - intros x Hx. destruct (returned_nodes _ _ _ _ _ _ _ R Hx)
      as [(Hl & _)|(j & raw & k & Hj & Hk & Hl & Hkx & Hlx & Hix & _)].
    + left. apply (cuecheck_node_unique _ _ _ _ _ H Hx); [|lia].
      destruct r. left.
    + right. exists j, raw, k. done.
  - intros j raw Hj. split.
    + intros (x & Hx & Hl). destruct (returned_nodes _ _ _ _ _ _ _ R Hx)
        as [(Hl0 & _)|(j' & raw' & k & Hj' & Hk & Hl' & _)]; [lia|].
      assert (j' = j) as -> by lia. congruence.
    + intros Hk. destruct (line_keyword raw) as [k|] eqn:E; [|done].
      destruct (returned_line _ _ _ _ _ _ _ _ _ R Hj E) as (x & Hx & (? & ? & _ & _ & Hl & _)).
      eauto.
Qed.

End Exact.

(** [getCmds] yields the nodes with the key in pre-order. *)
Lemma getCmds_filter t k : getCmds t k = filter (fun x => key x = Some k) (nodes t).
Proof.
  induction t as [n kt l i a cs IH] using CMD_induction. cbn [getCmds nodes key].
  rewrite filter_cons. cbn [key]. rewrite filter_flat_map.
  rewrite (flat_map_ext_Forall _ _ _ IH).
  case_bool_decide; by case_decide.
Qed.

Section Exact2.

Variable w : world.
Variable filename : string.

(** X9.  What [getCmds] yields on the tree of a run.  [getCmds(root, k)] is
    the list of the nodes with key [k], each one once; for a keyword with
    one permitted depth the list is in the order of the lines. *)
Theorem getCmds_in_line_order (errs warns : cueSynerrList.t) (r : CMD)
    (k : keyword) (d : nat) :
  cuecheck w filename = Return (errs, warns, r) ->
  Rule.indent (commands k) = [d] ->
  getCmds r k = filter (fun x => key x = Some k) (nodes r) /\
  (forall x, x ∈ getCmds r k <-> x ∈ nodes r /\ key x = Some k) /\
  in_order (getCmds r k) /\ NoDup (getCmds r k).
Proof.
  intros H Hd. destruct (cuecheck_returned _ _ _ _ _ H) as (text & _ & _ & R).
  destruct (returned_placed _ _ _ _ _ _ R) as [Hk Hp].
  split; [apply getCmds_filter|]. split.
  - intros x. rewrite getCmds_filter, list_elem_of_filter. tauto.
  - assert (O : in_order (getCmds r k)).
    { rewrite (getCmds_level k r (S (d / 2))).
      - apply in_order_filter. by eapply cuecheck_in_order.
      - intros m x Hx Hkx. pose proof (level_of_key r m x k d Hp Hk Hx Hkx Hd) as E.
        assert (d = 2 * (m - 1)) as -> by lia.
        rewrite Nat.mul_comm, Nat.div_mul by lia. lia. }
    split; [exact O|]. apply (NoDup_fmap_1 linenum).
    by apply StronglySorted_lt_NoDup.
Qed.

End Exact2.

(* ================================================================= *)
(** ** The passes on a document with many faults *)

Definition messy_text : string :=
  document
    [ "FILE " +:+ q "a.bin" +:+ " BINARY";
      "";
      "catalog 1234567890123";
      "FOO bar";
      "  TRACK 01 AUDIO";
      "    TITLE " +:+ q "A";
      "  TRACK 02 AUDIO";
      "    INDEX 05 00:61:80";
      "  TRACK 03 AUDIO" ].

Definition disc_messy : world := world_of messy_text.

Example disc_messy_result :
  errors_of (run_on disc_messy)
  = [ cueSyntaxError.mk 1 ("FILE " +:+ q "a.bin" +:+ " BINARY") [OrderError];
      cueSyntaxError.mk 2 "" [IsBlank];
      cueSyntaxError.mk 3 "catalog 1234567890123"
        [NotCapital; CommandSyntaxError; OrderError];
      cueSyntaxError.mk 4 "FOO bar" [CommandNotFound];
      cueSyntaxError.mk 5 "  TRACK 01 AUDIO" [TrackNoIndex];
      cueSyntaxError.mk 8 "    INDEX 05 00:61:80"
        [TimeError; FirstIndexTime; FirstIndexNumber] ] /\
  warnings_of (run_on disc_messy)
  = [ cueSyntaxError.mk 7 "  TRACK 02 AUDIO" [TrackNoTitle] ] /\
  map (fun x => (linenum x, key x, map linenum (children x)))
      (nodes (tree_of (run_on disc_messy)))
  = [ (0, None, [1; 3]); (1, Some FILE, [5; 7; 9]); (5, Some TRACK, [6]);
      (6, Some TITLE, []); (7, Some TRACK, [8]); (8, Some INDEX, []);
      (9, Some TRACK, []); (3, Some CATALOG, []) ].
Proof. repeat split; vm_compute; reflexivity. Qed.

Lemma classifier_diagnostics_exact_witness :
  recorded (errors_of (run_on disc_messy)) (1 + 1) IsBlank /\
  recorded (errors_of (run_on disc_messy)) (2 + 1) NotCapital /\
  recorded (errors_of (run_on disc_messy)) (3 + 1) CommandNotFound.
Proof.
  destruct (classifier_diagnostics_exact disc_messy "disc.cue" _ _ _ messy_text
              (run_on_parts disc_messy eq_refl) eq_refl) as (B & C & F & _).
  split; [|split].
  - apply B. exists 1, "". split; [vm_compute; reflexivity|]. split; reflexivity.
  - apply C. exists 2, "catalog 1234567890123".
    split; [vm_compute; reflexivity|]. split; reflexivity.
  - apply F. exists 3, "FOO bar". split; [vm_compute; reflexivity|].
    split; [reflexivity|]. split; [intros E; vm_compute in E; discriminate E | reflexivity].
Defined.

Lemma syntax_error_exact_witness :
  recorded (errors_of (run_on disc_messy)) (linenum (node_number disc_messy 7))
    CommandSyntaxError /\
  dict (node_number disc_messy 7) = no_attrs /\
  ~ recorded (errors_of (run_on disc_messy)) (linenum (node_number disc_messy 2))
      CommandSyntaxError.
Proof.
  destruct (syntax_error_exact disc_messy "disc.cue" _ _ _
              (run_on_parts disc_messy eq_refl)) as (E & A & N).
  assert (H7 : node_number disc_messy 7 ∈ nodes (tree_of (run_on disc_messy))).
  { vm_compute. do 8 constructor. }
  assert (H2 : node_number disc_messy 2 ∈ nodes (tree_of (run_on disc_messy))).
  { vm_compute. do 3 constructor. }
  split; [|split].
  - apply E. exists (node_number disc_messy 7), CATALOG.
    split; [exact H7|]. split; [reflexivity|]. split; vm_compute; reflexivity.
  - apply (A _ CATALOG H7); vm_compute; reflexivity.
  - apply (N _ TRACK H2); [vm_compute; reflexivity|].
    intros E'. vm_compute in E'. discriminate E'.
Defined.

Lemma track_children_checked_witness :
  recorded (errors_of (run_on disc_messy)) (linenum (node_number disc_messy 2))
    TrackNoIndex /\
  recorded (warnings_of (run_on disc_messy)) (linenum (node_number disc_messy 4))
    TrackNoTitle /\
  ~ recorded (errors_of (run_on disc_messy)) (linenum (node_number disc_messy 6))
      TrackNoIndex /\
  ~ recorded (warnings_of (run_on disc_messy)) (linenum (node_number disc_messy 6))
      TrackNoTitle.
Proof.
  destruct (track_children_checked disc_messy "disc.cue" _ _ _
              (run_on_parts disc_messy eq_refl)) as (E1 & E2 & N).
  split; [|split].
  - apply E1. exists (node_number disc_messy 2).
    split; [vm_compute; do 3 constructor|]. split; [reflexivity|].
    split; [vm_compute; reflexivity|]. split; [vm_compute; discriminate|].
    vm_compute. repeat constructor. discriminate.
  - apply E2. exists (node_number disc_messy 4).
    split; [vm_compute; do 5 constructor|]. split; [reflexivity|].
    split; [vm_compute; reflexivity|]. split; [vm_compute; discriminate|].
    vm_compute. repeat constructor. discriminate.
  - apply N; [vm_compute; do 7 constructor | vm_compute; reflexivity].
Defined.

Lemma dead_child_checks_witness :
  TrackNoIndex <> FileNoTrack /\ (forall k, TrackNoIndex <> ErrorChild k) /\
  forall str_time,
    msg_text str_time TrackNoIndex <> "FILE not have TRACK" /\
    forall k, msg_text str_time TrackNoIndex <> "have error child " +:+ keyword_name k.
Proof.
  apply (dead_child_checks disc_messy "disc.cue" _ _ _ 5 TrackNoIndex
           (run_on_parts disc_messy eq_refl)).
  left. find_recorded.
Defined.

Lemma multiple_error_exact_witness :
  recorded (errors_of (run_on two_catalogs)) 1 MultipleError <->
  exists p c k, p ∈ nodes (tree_of (run_on two_catalogs)) /\ c ∈ children p /\
                linenum c = 1 /\ key c = Some k /\
                Rule.multiple (commands k) = false /\
                2 <= length (with_key k (children p)).
Proof.
  exact (multiple_error_exact two_catalogs "disc.cue" _ _ _ 1
           (run_on_parts two_catalogs eq_refl)).
Defined.

Lemma order_error_exact_witness :
  recorded (errors_of (run_on disc_messy)) 3 OrderError <->
  exists p idx c k pos,
    p ∈ nodes (tree_of (run_on disc_messy)) /\ children p !! idx = Some c /\
    linenum c = 3 /\ key c = Some k /\ position_of k p = Some pos /\
    ((exists i s, children p !! i = Some s /\ idx < i /\
                  key s ∈ Some <$> Rule.after pos) \/
     (exists i s, children p !! i = Some s /\ i <= idx /\
                  key s ∈ Some <$> Rule.before pos)).
Proof.
  exact (order_error_exact disc_messy "disc.cue" _ _ _ 3
           (run_on_parts disc_messy eq_refl)).
Defined.

Lemma track_index_numbers_checked_witness :
  recorded (errors_of (run_on disc_messy)) (linenum (node_number disc_messy 5))
    FirstIndexNumber.
Proof.
  destruct (track_index_numbers_checked disc_messy "disc.cue" _ _ _
              (run_on_parts disc_messy eq_refl)) as (_ & E & _).
  apply E. exists (node_number disc_messy 4), (node_number disc_messy 5).
  split; [vm_compute; do 2 constructor|]. split; [vm_compute; reflexivity|].
  split; [vm_compute; discriminate|]. split; [vm_compute; discriminate | reflexivity].
Defined.

Lemma nodes_are_lines_witness :
  (exists x, x ∈ nodes (tree_of (run_on disc_messy)) /\ linenum x = 2 + 1) /\
  ~ (exists x, x ∈ nodes (tree_of (run_on disc_messy)) /\ linenum x = 3 + 1) /\
  NoDup (linenum <$> nodes (tree_of (run_on disc_messy))).
Proof.
  destruct (nodes_are_lines disc_messy "disc.cue" _ _ _ messy_text
              (run_on_parts disc_messy eq_refl) eq_refl) as (_ & N & _ & L).
  split; [|split; [|exact N]].
  - apply (L 2 "catalog 1234567890123"); [vm_compute; reflexivity|].
    vm_compute. discriminate.
  - intros Hx. apply (L 3 "FOO bar") in Hx; [|vm_compute; reflexivity].
    apply Hx. vm_compute. reflexivity.
Defined.

Lemma getCmds_in_line_order_witness :
  getCmds (tree_of (run_on disc_messy)) TRACK
  = filter (fun x => key x = Some TRACK) (nodes (tree_of (run_on disc_messy))) /\
  (forall x, x ∈ getCmds (tree_of (run_on disc_messy)) TRACK <->
             x ∈ nodes (tree_of (run_on disc_messy)) /\ key x = Some TRACK) /\
  in_order (getCmds (tree_of (run_on disc_messy)) TRACK) /\
  NoDup (getCmds (tree_of (run_on disc_messy)) TRACK).
Proof.
  exact (getCmds_in_line_order disc_messy "disc.cue" _ _ _ TRACK 2
           (run_on_parts disc_messy eq_refl) eq_refl).
Defined.


(* ================================================================= *)
(** ** The lines of a document *)

(** No character of [s] is a line boundary. *)
Fixpoint one_line (s : string) : bool :=
  match s with
  | EmptyString => true
  | String c s' => negb (Py.islinebreak c) && one_line s'
  end.

Lemma one_line_app a b : one_line (a +:+ b) = one_line a && one_line b.
Proof. induction a as [|c a IH]; simpl; [done|]. by rewrite IH, andb_assoc. Qed.

Lemma splitlines_from_one_line n : forall s cur,
  String.length s <= n ->
  match cur with Some l => one_line l = true | None => True end ->
  Forall (fun l => one_line l = true) (Py.splitlines_from cur s).
Proof.
  induction n as [|n IH]; intros s cur Hn Hc.
  - destruct s; [|simpl in Hn; lia]. simpl. destruct cur; repeat constructor; done.
  - destruct s as [|c s]; [simpl; destruct cur; repeat constructor; done|].
    simpl in Hn. cbn [Py.splitlines_from]. destruct (Py.islinebreak c) eqn:Hb.
    + assert (R : Forall (fun l => one_line l = true)
                    match s with
                    | String c' s'' =>
                        if ((Py.code c =? 13)%nat && (Py.code c' =? 10)%nat)%bool
                        then Py.splitlines_from None s''
                        else Py.splitlines_from None s
                    | EmptyString => []
                    end).
      { destruct s as [|c' s'']; [constructor|].
        destruct (_ && _)%bool; apply IH; simpl in *; try lia; done. }
      destruct cur; constructor; done.
    + apply IH; [lia|]. destruct cur as [l|]; simpl.
      * by rewrite one_line_app, Hc; simpl; rewrite Hb.
      * by rewrite Hb.
Qed.

(** A line of [splitlines] holds no line boundary. *)
Lemma splitlines_one_line text l : l ∈ Py.splitlines text -> one_line l = true.
Proof.
  intros H. pose proof (splitlines_from_one_line (String.length text) text None
                          (Nat.le_refl _) I) as F.
  rewrite Forall_forall in F. by apply F.
Qed.

(* ================================================================= *)
(** ** The lines that the rules accept *)

Module ParseFacts.

Import Re ReFacts GroupFacts PyFacts.

(** The end of a line that [$] accepts. *)
Definition line_end (e : string) : Prop := e = "" \/ e = newline.

Lemma line_end_one_line e : line_end e -> one_line e = true -> e = "".
Proof. intros [->| ->]; [done | by vm_compute]. Qed.

Lemma strip_prefix_app p s : strip_prefix p (p +:+ s) = Some s.
Proof. by apply strip_prefix_Some. Qed.

Lemma rmatch_lit_app p s g k : rmatch (lit p) (p +:+ s) g k = k s g.
Proof. by rewrite rmatch_lit, strip_prefix_app. Qed.

Lemma rmatch_lit_Some p s g k m :
  rmatch (lit p) s g k = Some m -> exists s', s = p +:+ s' /\ k s' g = Some m.
Proof.
  rewrite rmatch_lit. destruct (strip_prefix p s) as [s'|] eqn:E; [|done].
  apply strip_prefix_Some in E. eauto.
Qed.

Lemma two_digits_app d s :
  two_digits d -> exists c1 c2, d +:+ s = String c1 (String c2 s) /\
    d = String c1 (String c2 "") /\ Py.isdigit c1 = true /\ Py.isdigit c2 = true.
Proof. intros (c1 & c2 & -> & H1 & H2). by exists c1, c2. Qed.

Lemma rmatch_two_digits_app n d s g k :
  two_digits d -> rmatch (Grp n (rep 2 digit)) (d +:+ s) g k = k s (<[n := Some d]> g).
Proof.
  intros (c1 & c2 & -> & -> & H1 & H2)%(two_digits_app d s).
  by rewrite rmatch_two_digits, H1, H2.
Qed.

Lemma rmatch_two_digits_Some n s g k m :
  rmatch (Grp n (rep 2 digit)) s g k = Some m ->
  exists d s', two_digits d /\ s = d +:+ s' /\ k s' (<[n := Some d]> g) = Some m.
Proof.
  rewrite rmatch_two_digits. destruct s as [|c1 [|c2 s']]; [done | done|].
  destruct (Py.isdigit c1) eqn:H1, (Py.isdigit c2) eqn:H2; try done. simpl.
  intros H. exists (String c1 (String c2 "")), s'. split; [|done]. by exists c1, c2.
Qed.

Lemma rmatch_Chr_app c s g k : rmatch (Chr c) (String c s) g k = k s g.
Proof. simpl. by rewrite Ascii.eqb_refl. Qed.

Lemma rmatch_Chr_Some c s g k m :
  rmatch (Chr c) s g k = Some m -> exists s', s = String c s' /\ k s' g = Some m.
Proof.
  simpl. destruct s as [|c' s']; [done|]. destruct (Ascii.eqb_spec c c') as [->|]; [|done].
  eauto.
Qed.

Lemma rmatch_Eol_app e g k : line_end e -> rmatch Eol e g k = k e g.
Proof. by intros [->| ->]. Qed.

Lemma rmatch_Eol_Some s g k m :
  rmatch Eol s g k = Some m -> line_end s /\ k s g = Some m.
Proof.
  simpl. destruct s as [|c [|c' s]]; [intros H; split; [by left | done] | | done].
  destruct (Nat.eqb_spec (Py.code c) 10) as [E|]; [|done].
  intros H. split; [|done]. right. unfold newline, Py.code in *.
  by rewrite <- E, ascii_nat_embedding.
Qed.

Lemma rmatch_msf_app n d1 d2 d3 s g k :
  two_digits d1 -> two_digits d2 -> two_digits d3 ->
  rmatch (msf n) (d1 +:+ ":" +:+ d2 +:+ ":" +:+ d3 +:+ s) g k
  = k s (<[n + 2 := Some d3]> (<[n + 1 := Some d2]> (<[n := Some d1]> g))).
Proof.
  intros H1 H2 H3. unfold msf.
  rewrite rmatch_Cat, rmatch_two_digits_app by done.
  rewrite rmatch_Cat. change (":" +:+ ?x) with (String ":" x). rewrite rmatch_Chr_app.
  rewrite rmatch_Cat, rmatch_two_digits_app by done.
  rewrite rmatch_Cat. change (":" +:+ ?x) with (String ":" x). rewrite rmatch_Chr_app.
  by rewrite rmatch_two_digits_app.
Qed.

Lemma rmatch_msf_Some n s g k m :
  rmatch (msf n) s g k = Some m ->
  exists d1 d2 d3 s',
    two_digits d1 /\ two_digits d2 /\ two_digits d3 /\
    s = d1 +:+ ":" +:+ d2 +:+ ":" +:+ d3 +:+ s' /\
    k s' (<[n + 2 := Some d3]> (<[n + 1 := Some d2]> (<[n := Some d1]> g))) = Some m.
Proof.
  unfold msf. rewrite rmatch_Cat.
  intros (d1 & s1 & T1 & -> & H)%rmatch_two_digits_Some.
  rewrite rmatch_Cat in H. apply rmatch_Chr_Some in H as (s2 & -> & H).
  rewrite rmatch_Cat in H. apply rmatch_two_digits_Some in H as (d2 & s3 & T2 & -> & H).
  rewrite rmatch_Cat in H. apply rmatch_Chr_Some in H as (s4 & -> & H).
  apply rmatch_two_digits_Some in H as (d3 & s5 & T3 & -> & H).
  exists d1, d2, d3, s5. done.
Qed.

Lemma consumed_app a s : consumed (a +:+ s) s = a.
Proof.
  unfold consumed. rewrite append_length.
  replace (String.length a + String.length s - String.length s) with (String.length a)
    by lia.
  induction a as [|c a IH]; simpl; [by destruct s | by rewrite IH].
Qed.

(** One of the literals [l], captured in group [n]. *)
Lemma rmatch_alts_Some l : forall s g k m,
  rmatch (alts l) s g k = Some m ->
  exists a s', a ∈ l /\ s = a +:+ s' /\ k s' g = Some m.
Proof.
  induction l as [|x l IH]; intros s g k m H.
  - simpl in H. by destruct s.
  - destruct l as [|y l].
    + cbn [alts] in H. apply rmatch_lit_Some in H as (s' & -> & H).
      exists x, s'. split; [left | done].
    + change (alts (x :: y :: l)) with (Alt (lit x) (alts (y :: l))) in H.
      cbn [rmatch] in H. destruct (rmatch (lit x) s g k) as [res|] eqn:E.
      * injection H as ->. apply rmatch_lit_Some in E as (s' & -> & H).
        exists x, s'. split; [left | done].
      * apply IH in H as (a & s' & Ha & -> & H). exists a, s'. split; [by right | done].
Qed.

Lemma rmatch_group_alts_Some n l s g k m :
  rmatch (Grp n (alts l)) s g k = Some m ->
  exists a s', a ∈ l /\ s = a +:+ s' /\ k s' (<[n := Some a]> g) = Some m.
Proof.
  cbn [rmatch]. intros (a & s' & Ha & -> & H)%rmatch_alts_Some.
  rewrite consumed_app in H. eauto.
Qed.

(** One of the literals [l] is found when the continuation accepts what
    is behind it. *)
Lemma rmatch_alts_app l a s g k :
  a ∈ l -> is_Some (k s g) -> is_Some (rmatch (alts l) (a +:+ s) g k).
Proof.
  intros Ha Hk. induction l as [|x l IH]; [by apply elem_of_nil in Ha|].
  destruct l as [|y l].
  - apply list_elem_of_singleton in Ha as ->. cbn [alts]. by rewrite rmatch_lit_app.
  - change (alts (x :: y :: l)) with (Alt (lit x) (alts (y :: l))). cbn [rmatch].
    destruct (rmatch (lit x) (a +:+ s) g k) as [res|] eqn:E; [done|].
    apply elem_of_cons in Ha as [->|Ha]; [|by apply IH].
    rewrite rmatch_lit_app in E. rewrite E in Hk. by destruct Hk.
Qed.

Lemma rmatch_group_alts_app n l a s g k :
  a ∈ l -> is_Some (k s (<[n := Some a]> g)) ->
  is_Some (rmatch (Grp n (alts l)) (a +:+ s) g k).
Proof.
  intros Ha Hk. cbn [rmatch]. apply rmatch_alts_app; [done|]. by rewrite consumed_app.
Qed.

(** Every character of [s] is in the class [p]. *)
Fixpoint every (p : ascii -> bool) (s : string) : bool :=
  match s with
  | EmptyString => true
  | String c s' => p c && every p s'
  end.

Lemma rmatch_rep_app p a : forall s g k,
  every p a = true ->
  rmatch (rep (String.length a) (Class p)) (a +:+ s) g k = k s g.
Proof.
  induction a as [|c a IH]; intros s g k H; [done|].
  simpl in H. apply andb_prop in H as [Hc Ha]. simpl. rewrite Hc. by apply IH.
Qed.

Lemma rmatch_rep_Some p n : forall s g k m,
  rmatch (rep n (Class p)) s g k = Some m ->
  exists a s', s = a +:+ s' /\ String.length a = n /\ every p a = true /\
               k s' g = Some m.
Proof.
  induction n as [|n IH]; intros s g k m H.
  - exists "", s. done.
  - simpl in H. destruct s as [|c s]; [done|]. destruct (p c) eqn:Hc; [|done].
    apply IH in H as (a & s' & -> & <- & Ha & H).
    exists (String c a), s'. simpl. by rewrite Hc, Ha.
Qed.

Lemma two_digits_every d :
  two_digits d <-> String.length d = 2 /\ every Py.isdigit d = true.
Proof.
  split.
  - intros (c1 & c2 & -> & H1 & H2). simpl. by rewrite H1, H2.
  - intros [Hl He]. destruct d as [|c1 [|c2 [|c3 d]]]; try done.
    simpl in He. apply andb_prop in He as [H1 [H2 _]%andb_prop]. by exists c1, c2.
Qed.

Lemma rmatch_group_rep_app n p a s g k :
  every p a = true ->
  rmatch (Grp n (rep (String.length a) (Class p))) (a +:+ s) g k
  = k s (<[n := Some a]> g).
Proof. intros H. cbn [rmatch]. rewrite rmatch_rep_app by done. by rewrite consumed_app. Qed.

Lemma rmatch_group_rep_end n p a la g k :
  String.length a = la -> every p a = true ->
  rmatch (Grp n (rep la (Class p))) a g k = k "" (<[n := Some a]> g).
Proof.
  intros <- H. pose proof (rmatch_group_rep_app n p a "" g k H) as E.
  by rewrite app_empty_r in E.
Qed.

Lemma rmatch_group_rep2_app n p q' a b s g k :
  every p a = true -> every q' b = true ->
  rmatch (Grp n (Cat (rep (String.length a) (Class p)) (rep (String.length b) (Class q'))))
         ((a +:+ b) +:+ s) g k
  = k s (<[n := Some (a +:+ b)]> g).
Proof.
  intros Ha Hb. cbn [rmatch].
  set (K := fun s' g' => k s' (<[n := Some (consumed ((a +:+ b) +:+ s) s')]> g')).
  rewrite app_assoc, rmatch_rep_app by done. rewrite rmatch_rep_app by done.
  unfold K. by rewrite consumed_app.
Qed.

Lemma rmatch_group_rep2_end n p q' a b la lb g k :
  String.length a = la -> String.length b = lb ->
  every p a = true -> every q' b = true ->
  rmatch (Grp n (Cat (rep la (Class p)) (rep lb (Class q')))) (a +:+ b) g k
  = k "" (<[n := Some (a +:+ b)]> g).
Proof.
  intros <- <- Ha Hb. pose proof (rmatch_group_rep2_app n p q' a b "" g k Ha Hb) as E.
  by rewrite app_empty_r in E.
Qed.

(** The loop of [+], by name. *)
Section PlusLoop.

Variable r : regex.
Variable k : string -> groups -> option groups.

Fixpoint plus_loop (fuel : nat) (s : string) (g : groups) {struct fuel}
  : option groups :=
  match fuel with
  | O => None
  | S fuel' =>
      rmatch r s g (fun s' g' =>
        match plus_loop fuel' s' g' with
        | Some res => Some res
        | None => k s' g'
        end)
  end.

End PlusLoop.

Lemma rmatch_Plus r s g k :
  rmatch (Plus r) s g k = plus_loop r k (S (String.length s)) s g.
Proof. reflexivity. Qed.

(** The class that [(?(n)[p1]|[p2])] stands for under the groups [g]. *)
Definition cond_class (n : nat) (p1 p2 : ascii -> bool) (g : groups) : ascii -> bool :=
  if group g n is Some _ then p1 else p2.

Lemma plus_loop_cond n p1 p2 k : forall fuel s g,
  plus_loop (Cond n (Class p1) (Class p2)) k fuel s g
  = plus_loop (Class (cond_class n p1 p2 g)) k fuel s g.
Proof.
  induction fuel as [|fuel IH]; intros s g; [done|].
  cbn [plus_loop rmatch]. unfold cond_class at 1.
  destruct (group g n); destruct s as [|c s]; try done;
    match goal with |- context [if ?b then _ else _] => destruct b end;
    try done; by rewrite IH.
Qed.

(** What [[p]+] takes is a string of the class that is not empty. *)
Lemma plus_loop_class_Some p k m : forall fuel s g,
  plus_loop (Class p) k fuel s g = Some m ->
  exists a s', s = a +:+ s' /\ a <> "" /\ every p a = true /\ k s' g = Some m.
Proof.
  induction fuel as [|fuel IH]; intros s g H; [done|].
  cbn [plus_loop rmatch] in H. destruct s as [|c s]; [done|].
  destruct (p c) eqn:Hc; [|done].
  destruct (plus_loop (Class p) k fuel s g) as [res|] eqn:E.
  - injection H as ->. apply IH in E as (a & s' & -> & _ & Ha & Hk).
    exists (String c a), s'. simpl. by rewrite Hc, Ha.
  - exists (String c ""), s. simpl. by rewrite Hc.
Qed.

(** [[p]+] finds a match when the continuation accepts what is behind a
    string of the class. *)
Lemma plus_loop_class_app p k : forall a fuel s g,
  a <> "" -> every p a = true -> String.length a <= fuel -> is_Some (k s g) ->
  is_Some (plus_loop (Class p) k fuel (a +:+ s) g).
Proof.
  induction a as [|c a IH]; intros fuel s g Hne Ha Hf Hk; [done|].
  destruct fuel as [|fuel]; [simpl in Hf; lia|].
  simpl in Ha. apply andb_prop in Ha as [Hc Ha].
  cbn [plus_loop rmatch]. simpl. rewrite Hc.
  destruct a as [|c' a].
  - change ("" +:+ s) with s.
    destruct (plus_loop (Class p) k fuel s g); [by eexists | done].
  - assert (is_Some (plus_loop (Class p) k fuel (String c' a +:+ s) g)) as [res ->];
      [|by eexists].
    apply IH; try done. simpl in *. lia.
Qed.

Lemma rmatch_plus_cond_Some n p1 p2 s g k m :
  rmatch (Plus (Cond n (Class p1) (Class p2))) s g k = Some m ->
  exists a s', s = a +:+ s' /\ a <> "" /\ every (cond_class n p1 p2 g) a = true /\
               k s' g = Some m.
Proof. rewrite rmatch_Plus, plus_loop_cond. apply plus_loop_class_Some. Qed.

Lemma rmatch_plus_cond_app n p1 p2 a s g k :
  a <> "" -> every (cond_class n p1 p2 g) a = true -> is_Some (k s g) ->
  is_Some (rmatch (Plus (Cond n (Class p1) (Class p2))) (a +:+ s) g k).
Proof.
  intros Hne Ha Hk. rewrite rmatch_Plus, plus_loop_cond.
  apply plus_loop_class_app; try done. rewrite append_length. lia.
Qed.

(** The characters of a quoted and of a bare argument. *)
Definition quoted_char (c : ascii) : bool := negb (Ascii.eqb c Py.dquote).
Definition bare (c : ascii) : bool :=
  negb (Py.isspace c || Ascii.eqb c "|" || Ascii.eqb c Py.dquote).

Lemma rmatch_Opt r s g k :
  rmatch (Opt r) s g k
  = match rmatch r s g k with Some res => Some res | None => k s g end.
Proof. reflexivity. Qed.

Lemma rmatch_Grp n r s g k :
  rmatch (Grp n r) s g k
  = rmatch r s g (fun s' g' => k s' (<[n := Some (consumed s s')]> g')).
Proof. reflexivity. Qed.

Lemma rmatch_Cond n yes no s g k :
  rmatch (Cond n yes no) s g k
  = match group g n with Some _ => rmatch yes s g k | None => rmatch no s g k end.
Proof. reflexivity. Qed.

Lemma consumed_quote s : consumed (String Py.dquote s) s = String Py.dquote "".
Proof. exact (consumed_app (String Py.dquote "") s). Qed.

(** The groups of a quoted and of a bare argument [a]. *)
Definition quoted_groups (a : string) : groups :=
  [None; Some (String Py.dquote ""); Some a; None; None].
Definition bare_groups (a : string) : groups := [None; None; Some a; None; None].

(** [quoted_arg] takes a quoted or a bare argument, which is group 2. *)
Lemma rmatch_quoted_arg_Some s k m :
  rmatch quoted_arg s no_groups k = Some m ->
  exists a s', a <> "" /\
    ((every quoted_char a = true /\ s = q a +:+ s' /\
      k s' (quoted_groups a) = Some m) \/
     (every bare a = true /\ s = a +:+ s' /\ k s' (bare_groups a) = Some m)).
Proof.
  unfold quoted_arg. rewrite rmatch_Cat, rmatch_Opt.
  match goal with
  | |- match ?x with _ => _ end = _ -> _ => destruct x as [res|] eqn:E
  end.
  - intros [= ->]. rewrite rmatch_Grp in E.
    apply rmatch_Chr_Some in E as (s1 & -> & E). rewrite consumed_quote in E.
    rewrite rmatch_Cat, rmatch_Grp in E. unfold not_quote, bare_char in E.
    apply rmatch_plus_cond_Some in E as (a & s2 & -> & Hne & Ha & E).
    rewrite rmatch_Cond in E.
    change (group _ 1) with (Some (String Py.dquote "")) in E. cbv iota in E.
    apply rmatch_Chr_Some in E as (s3 & -> & E). rewrite consumed_app in E.
    exists a, s3. split; [done|]. left. split; [exact Ha|]. split; [|exact E].
    unfold q. rewrite app_cons. f_equal. by rewrite app_assoc.
  - clear E. rewrite rmatch_Cat, rmatch_Grp. unfold not_quote, bare_char.
    intros (a & s2 & -> & Hne & Ha & E)%rmatch_plus_cond_Some.
    rewrite rmatch_Cond in E.
    change (group _ 1) with (@None string) in E. cbv iota in E.
    rewrite consumed_app in E.
    exists a, s2. split; [done|]. right. done.
Qed.

(** [quoted_arg] finds a quoted and a bare argument. *)
Lemma rmatch_quoted_arg_quoted a s k :
  a <> "" -> every quoted_char a = true ->
  (forall g, is_Some (k s g)) ->
  is_Some (rmatch quoted_arg (q a +:+ s) no_groups k).
Proof.
  intros Hne Ha Hk. unfold quoted_arg. rewrite rmatch_Cat, rmatch_Opt.
  match goal with
  | |- is_Some (match ?x with _ => _ end) =>
      assert (is_Some x) as [res ->]; [|by eexists]
  end.
  rewrite rmatch_Grp. unfold q. rewrite app_cons, rmatch_Chr_app.
  rewrite rmatch_Cat, rmatch_Grp. unfold not_quote, bare_char.
  rewrite app_assoc. apply rmatch_plus_cond_app; [done | exact Ha |].
  rewrite rmatch_Cond. rewrite consumed_quote.
  change (group _ 1) with (Some (String Py.dquote "")). cbv iota.
  rewrite app_cons, rmatch_Chr_app. apply Hk.
Qed.

Lemma rmatch_quoted_arg_bare a s k :
  a <> "" -> every bare a = true ->
  (forall g, is_Some (k s g)) ->
  is_Some (rmatch quoted_arg (a +:+ s) no_groups k).
Proof.
  intros Hne Ha Hk. unfold quoted_arg. rewrite rmatch_Cat, rmatch_Opt.
  match goal with
  | |- is_Some (match ?x with _ => _ end) => destruct x as [res|]; [by eexists|]
  end.
  rewrite rmatch_Cat, rmatch_Grp. unfold not_quote, bare_char.
  apply rmatch_plus_cond_app; [done | exact Ha |].
  rewrite rmatch_Cond. change (group _ 1) with (@None string). cbv iota.
  apply Hk.
Qed.

End ParseFacts.

(* ================================================================= *)
(** ** The syntax pass on the nodes of a run *)

Section Parse.

Variable w : world.
Variable filename : string.

Import Re ReFacts GroupFacts PyFacts ParseFacts.

(** What the syntax pass has done with a node of a run that returns. *)
Lemma syntax_pass_of_node errs warns r x k :
  cuecheck w filename = Return (errs, warns, r) ->
  x ∈ nodes r -> key x = Some k ->
  one_line (line x) = true /\
  indent x ∈ Rule.indent (commands k) /\
  dict x = attrs_after w filename (linenum x) k (line x) (indent x) no_attrs /\
  (forall m, pass_of m = 1 ->
     recorded errs (linenum x) m <->
     syntax_error w filename (linenum x) k (line x) (indent x) m) /\
  (forall m, pass_of m = 1 ->
     recorded warns (linenum x) m <->
     syntax_warning (linenum x) k (line x) (indent x) m).
Proof.
  intros H Hx Hk.
  destruct (cuecheck_returned _ _ _ _ _ H) as (text & Hr & _ & R).
  destruct (returned_nodes _ _ _ _ _ _ _ R Hx)
    as [(_ & Hk0 & _)|(j & raw & k' & Hj & Hkw & Hl & Hkx & Hlx & Hix & Hdx)]; [congruence|].
  assert (k' = k) as -> by congruence.
  split; [|split; [|split; [|split]]].
  - rewrite Hlx. apply (splitlines_one_line text). by eapply list_elem_of_lookup_2.
  - rewrite Hix. apply depth_of_permitted.
  - by rewrite Hl, Hlx, Hix.
  - intros m Hp. rewrite (run_errors _ _ _ _ _ _ _ _ H Hr), Hp. split.
    + intros (y & Hy & Hn & k' & Hk' & Hm).
      assert (y = x) as -> by (by eapply cuecheck_node_unique).
      assert (k' = k) as -> by congruence. done.
    + intros Hm. exists x. split; [done|]. split; [done|]. by exists k.
  - intros m Hp. rewrite (run_warnings _ _ _ _ _ _ _ _ H Hr), Hp. split.
    + intros (y & Hy & Hn & k' & Hk' & Hm).
      assert (y = x) as -> by (by eapply cuecheck_node_unique).
      assert (k' = k) as -> by congruence. done.
    + intros Hm. exists x. split; [done|]. split; [done|]. by exists k.
Qed.

Lemma one_line_suffix a b : one_line (a +:+ b) = true -> one_line b = true.
Proof. rewrite one_line_app. by intros [_ ?]%andb_prop. Qed.

(** *** INDEX *)

(** The INDEX line of the number [nn] and the time [mm:ss:ff]. *)
Definition index_line (nn mm ss ff : string) : string :=
  "    INDEX " +:+ nn +:+ " " +:+ mm +:+ ":" +:+ ss +:+ ":" +:+ ff.

Lemma match_index_line nn mm ss ff :
  two_digits nn -> two_digits mm -> two_digits ss -> two_digits ff ->
  match_syntax INDEX 4 (index_line nn mm ss ff)
  = Some [None; Some nn; Some mm; Some ss; Some ff].
Proof.
  intros T1 T2 T3 T4. unfold match_syntax, re_match, index_line.
  rewrite rmatch_Cat. change "    INDEX " with ("    " +:+ "INDEX ").
  rewrite app_assoc. change (Py.spaces 4) with "    ". rewrite rmatch_lit_app.
  cbn [commands Rule.syntax]. rewrite rmatch_Cat, rmatch_lit_app.
  rewrite rmatch_Cat, rmatch_two_digits_app by done.
  rewrite rmatch_Cat. change (" " +:+ ?x) with (String " " x). rewrite rmatch_Chr_app.
  rewrite rmatch_Cat.
  replace (":" +:+ ff) with (":" +:+ ff +:+ "") by (by rewrite app_empty_r).
  rewrite rmatch_msf_app by done. reflexivity.
Qed.

Lemma match_index_shape l g :
  one_line l = true -> match_syntax INDEX 4 l = Some g ->
  exists nn mm ss ff,
    two_digits nn /\ two_digits mm /\ two_digits ss /\ two_digits ff /\
    l = index_line nn mm ss ff /\ g = [None; Some nn; Some mm; Some ss; Some ff].
Proof.
  intros Hl. unfold match_syntax, re_match. rewrite rmatch_Cat.
  intros (s1 & -> & H)%rmatch_lit_Some. cbn [commands Rule.syntax] in H.
  rewrite rmatch_Cat in H. apply rmatch_lit_Some in H as (s2 & -> & H).
  rewrite rmatch_Cat in H. apply rmatch_two_digits_Some in H as (nn & s3 & T1 & -> & H).
  rewrite rmatch_Cat in H. apply rmatch_Chr_Some in H as (s4 & -> & H).
  rewrite rmatch_Cat in H.
  apply rmatch_msf_Some in H as (mm & ss & ff & e & T2 & T3 & T4 & -> & H).
  apply rmatch_Eol_Some in H as [He [= <-]].
  assert (e = "") as ->.
  { apply line_end_one_line; [done|].
    by repeat apply one_line_suffix in Hl. }
  exists nn, mm, ss, ff. rewrite app_empty_r. done.
Qed.

(** X10.  The INDEX lines.  In a run that returns, the line of an INDEX node
    matches its rule exactly when it is four spaces, [INDEX], a number of
    two digits and a time of three fields of two digits, with single spaces
    and nothing behind.  The node then has that number and the time in
    seconds, [time error] is recorded for its line exactly when the seconds
    are 60 or more or the frames 75 or more (and the node keeps its time),
    and no [command syntax error].  Any other line gets
    [command syntax error] and no [time error], and the number and the time
    of the node read -1. *)
Theorem index_line_parsed (errs warns : cueSynerrList.t) (r x : CMD) :
  cuecheck w filename = Return (errs, warns, r) ->
  x ∈ nodes r -> key x = Some INDEX ->
  (exists nn mm ss ff,
     two_digits nn /\ two_digits mm /\ two_digits ss /\ two_digits ff /\
     line x = index_line nn mm ss ff /\
     number x = Py.int nn /\
     time x = elapsed (Py.int mm) (Py.int ss) (Py.int ff) /\
     (recorded errs (linenum x) TimeError <->
      (60 <= Py.int ss)%Z \/ (75 <= Py.int ff)%Z) /\
     ~ recorded errs (linenum x) CommandSyntaxError)
  \/
  ((forall nn mm ss ff,
      two_digits nn -> two_digits mm -> two_digits ss -> two_digits ff ->
      line x <> index_line nn mm ss ff) /\
   recorded errs (linenum x) CommandSyntaxError /\
   ~ recorded errs (linenum x) TimeError /\
   number x = (-1)%Z /\ time x = (-1)%float).
Proof.
  intros H Hx Hk.
  destruct (syntax_pass_of_node _ _ _ _ _ H Hx Hk) as (Hone & Hind & Hd & He & _).
  cbn in Hind. apply list_elem_of_singleton in Hind.
  rewrite Hind in Hd, He.
  pose proof (He TimeError eq_refl) as Ht. pose proof (He CommandSyntaxError eq_refl) as Hs.
  clear He. unfold syntax_error in Ht, Hs. unfold number, time. rewrite Hd.
  unfold attrs_after, check_syntax.
  destruct (match_syntax INDEX 4 (line x)) as [g|] eqn:Hm.
  - left. destruct (match_index_shape _ _ Hone Hm)
      as (nn & mm & ss & ff & T1 & T2 & T3 & T4 & Hl & ->).
    exists nn, mm, ss, ff. repeat (split; [done|]).
    change (group_text [None; Some nn; Some mm; Some ss; Some ff] 1) with nn in *.
    change (group_text [None; Some nn; Some mm; Some ss; Some ff] 2) with mm in *.
    change (group_text [None; Some nn; Some mm; Some ss; Some ff] 3) with ss in *.
    change (group_text [None; Some nn; Some mm; Some ss; Some ff] 4) with ff in *.
    split; [|split; [|split]].
    + unfold bind, when. by destruct (_ || _).
    + unfold bind, when. by destruct (_ || _).
    + rewrite Ht. tauto.
    + rewrite Hs. by intros [_ ?].
  - right. split; [|split; [|split]].
    + intros nn mm ss ff T1 T2 T3 T4 Hl. rewrite Hl, match_index_line in Hm by done.
      discriminate Hm.
    + by apply Hs.
    + rewrite Ht. discriminate.
    + done.
Qed.

(** *** TRACK *)

(** The TRACK line of the number [nn] and the mode [mode]. *)
Definition track_line (nn mode : string) : string :=
  "  TRACK " +:+ nn +:+ " " +:+ mode.

Lemma match_track_line nn mode :
  two_digits nn -> mode ∈ track_modes ->
  is_Some (match_syntax TRACK 2 (track_line nn mode)).
Proof.
  intros T1 Hm. unfold match_syntax, re_match, track_line.
  rewrite rmatch_Cat. change "  TRACK " with ("  " +:+ "TRACK ").
  rewrite app_assoc. change (Py.spaces 2) with "  ". rewrite rmatch_lit_app.
  cbn [commands Rule.syntax]. rewrite rmatch_Cat, rmatch_lit_app.
  rewrite rmatch_Cat, rmatch_two_digits_app by done.
  rewrite rmatch_Cat. change (" " +:+ ?x) with (String " " x). rewrite rmatch_Chr_app.
  rewrite rmatch_Cat. rewrite <- (app_empty_r mode).
  apply rmatch_group_alts_app; [done|]. by eexists.
Qed.

Lemma match_track_shape l g :
  one_line l = true -> match_syntax TRACK 2 l = Some g ->
  exists nn mode,
    two_digits nn /\ mode ∈ track_modes /\ l = track_line nn mode /\
    g = [None; Some nn; Some mode; None; None].
Proof.
  intros Hl. unfold match_syntax, re_match. rewrite rmatch_Cat.
  intros (s1 & -> & H)%rmatch_lit_Some. cbn [commands Rule.syntax] in H.
  rewrite rmatch_Cat in H. apply rmatch_lit_Some in H as (s2 & -> & H).
  rewrite rmatch_Cat in H. apply rmatch_two_digits_Some in H as (nn & s3 & T1 & -> & H).
  rewrite rmatch_Cat in H. apply rmatch_Chr_Some in H as (s4 & -> & H).
  rewrite rmatch_Cat in H. apply rmatch_group_alts_Some in H as (mode & e & Hm & -> & H).
  apply rmatch_Eol_Some in H as [He [= <-]].
  assert (e = "") as ->.
  { apply line_end_one_line; [done|]. by repeat apply one_line_suffix in Hl. }
  exists nn, mode. rewrite app_empty_r. done.
Qed.

(** X11.  The TRACK lines.  In a run that returns, the line of a TRACK node
    matches its rule exactly when it is two spaces, [TRACK], a number of
    two digits and one of the ten modes, with single spaces and nothing
    behind.  The node then has that number and that mode as its type and no
    [command syntax error]; any other line gets [command syntax error], and
    the number of the node reads -1 and its type the empty string. *)
Theorem track_line_parsed (errs warns : cueSynerrList.t) (r x : CMD) :
  cuecheck w filename = Return (errs, warns, r) ->
  x ∈ nodes r -> key x = Some TRACK ->
  (exists nn mode,
     two_digits nn /\ mode ∈ track_modes /\
     line x = track_line nn mode /\
     number x = Py.int nn /\ type_ x = mode /\
     ~ recorded errs (linenum x) CommandSyntaxError)
  \/
  ((forall nn mode, two_digits nn -> mode ∈ track_modes ->
                    line x <> track_line nn mode) /\
   recorded errs (linenum x) CommandSyntaxError /\
   number x = (-1)%Z /\ type_ x = "").
Proof.
  intros H Hx Hk.
  destruct (syntax_pass_of_node _ _ _ _ _ H Hx Hk) as (Hone & Hind & Hd & He & _).
  cbn in Hind. apply list_elem_of_singleton in Hind.
  rewrite Hind in Hd, He.
  pose proof (He CommandSyntaxError eq_refl) as Hs.
  clear He. unfold syntax_error in Hs. unfold number, type_. rewrite Hd.
  unfold attrs_after, check_syntax.
  destruct (match_syntax TRACK 2 (line x)) as [g|] eqn:Hm.
  - left. destruct (match_track_shape _ _ Hone Hm) as (nn & mode & T1 & Hmode & Hl & ->).
    exists nn, mode. repeat (split; [done|]). rewrite Hs. tauto.
  - right. split; [|split].
    + intros nn mode T1 Hmode Hl.
      destruct (match_track_line nn mode T1 Hmode) as [g Hg]. congruence.
    + by apply Hs.
    + done.
Qed.

(** *** PREGAP and POSTGAP *)

(** The line of the gap [k] with the length [mm:ss:ff]. *)
Definition gap_line (k : keyword) (mm ss ff : string) : string :=
  "    " +:+ keyword_name k +:+ " " +:+ mm +:+ ":" +:+ ss +:+ ":" +:+ ff.

Lemma match_gap_line k mm ss ff :
  k = PREGAP \/ k = POSTGAP ->
  two_digits mm -> two_digits ss -> two_digits ff ->
  match_syntax k 4 (gap_line k mm ss ff) = Some [None; Some mm; Some ss; Some ff; None].
Proof.
  intros Hk T2 T3 T4. unfold match_syntax, re_match, gap_line.
  rewrite rmatch_Cat. change (Py.spaces 4) with "    ". rewrite rmatch_lit_app.
  destruct Hk as [-> | ->]; cbn [commands Rule.syntax keyword_name];
    rewrite rmatch_Cat;
    [change ("PREGAP" +:+ " " +:+ ?x) with ("PREGAP " +:+ x)
    |change ("POSTGAP" +:+ " " +:+ ?x) with ("POSTGAP " +:+ x)];
    rewrite rmatch_lit_app, rmatch_Cat;
    (replace (":" +:+ ff) with (":" +:+ ff +:+ "") by (by rewrite app_empty_r));
    rewrite rmatch_msf_app by done; reflexivity.
Qed.

Lemma match_gap_shape k l g :
  k = PREGAP \/ k = POSTGAP ->
  one_line l = true -> match_syntax k 4 l = Some g ->
  exists mm ss ff,
    two_digits mm /\ two_digits ss /\ two_digits ff /\
    l = gap_line k mm ss ff /\ g = [None; Some mm; Some ss; Some ff; None].
Proof.
  intros Hk Hl. unfold match_syntax, re_match. rewrite rmatch_Cat.
  intros (s1 & -> & H)%rmatch_lit_Some.
  destruct Hk as [-> | ->]; cbn [commands Rule.syntax] in H;
    rewrite rmatch_Cat in H; apply rmatch_lit_Some in H as (s2 & -> & H);
    rewrite rmatch_Cat in H;
    apply rmatch_msf_Some in H as (mm & ss & ff & e & T2 & T3 & T4 & -> & H);
    apply rmatch_Eol_Some in H as [He [= <-]];
    (assert (e = "") as ->
       by (apply line_end_one_line; [done|]; by repeat apply one_line_suffix in Hl));
    exists mm, ss, ff; rewrite app_empty_r; done.
Qed.

(** X12.  The PREGAP and POSTGAP lines.  In a run that returns, the line of a
    PREGAP or POSTGAP node matches its rule exactly when it is four spaces,
    the keyword, one space and a length of three fields of two digits, with
    nothing behind.  The node then has the length in seconds as its time,
    [time error] is recorded for its line exactly when the seconds are 60
    or more or the frames 75 or more, and no [command syntax error].  Any
    other line gets [command syntax error] and no [time error], and the
    time of the node reads -1. *)
Theorem gap_line_parsed (errs warns : cueSynerrList.t) (r x : CMD) (k : keyword) :
  cuecheck w filename = Return (errs, warns, r) ->
  x ∈ nodes r -> key x = Some k -> k = PREGAP \/ k = POSTGAP ->
  (exists mm ss ff,
     two_digits mm /\ two_digits ss /\ two_digits ff /\
     line x = gap_line k mm ss ff /\
     time x = elapsed (Py.int mm) (Py.int ss) (Py.int ff) /\
     (recorded errs (linenum x) TimeError <->
      (60 <= Py.int ss)%Z \/ (75 <= Py.int ff)%Z) /\
     ~ recorded errs (linenum x) CommandSyntaxError)
  \/
  ((forall mm ss ff, two_digits mm -> two_digits ss -> two_digits ff ->
                     line x <> gap_line k mm ss ff) /\
   recorded errs (linenum x) CommandSyntaxError /\
   ~ recorded errs (linenum x) TimeError /\
   time x = (-1)%float).
Proof.
  intros H Hx Hk Hg.
  destruct (syntax_pass_of_node _ _ _ _ _ H Hx Hk) as (Hone & Hind & Hd & He & _).
  assert (Hi : indent x = 4).
  { destruct Hg as [-> | ->]; cbn in Hind; by apply list_elem_of_singleton in Hind. }
  rewrite Hi in Hd, He.
  pose proof (He TimeError eq_refl) as Ht. pose proof (He CommandSyntaxError eq_refl) as Hs.
  clear He. unfold syntax_error in Ht, Hs. unfold time. rewrite Hd.
  unfold attrs_after, check_syntax.
  destruct (match_syntax k 4 (line x)) as [g|] eqn:Hm.
  - left. destruct (match_gap_shape _ _ _ Hg Hone Hm)
      as (mm & ss & ff & T2 & T3 & T4 & Hl & ->).
    exists mm, ss, ff. repeat (split; [done|]).
    change (group_text [None; Some mm; Some ss; Some ff; None] 1) with mm in *.
    change (group_text [None; Some mm; Some ss; Some ff; None] 2) with ss in *.
    change (group_text [None; Some mm; Some ss; Some ff; None] 3) with ff in *.
    split; [|split].
    + destruct Hg as [-> | ->]; unfold bind, when; by destruct (_ || _).
    + rewrite Ht. destruct Hg as [-> | ->]; tauto.
    + rewrite Hs. destruct Hg as [-> | ->]; by intros [_ ?].
  - right. split; [|split; [|split]].
    + intros mm ss ff T2 T3 T4 Hl. rewrite Hl, match_gap_line in Hm by done.
      discriminate Hm.
    + by apply Hs.
    + rewrite Ht. discriminate.
    + done.
Qed.

(** *** CATALOG and ISRC *)

(** The characters [[0-9A-Z]] and [[0-9]] of an ISRC. *)
Definition isrc_owner_char (c : ascii) : bool :=
  Py.in_range 48 57 c || Py.in_range 65 90 c.

(** A catalog number: 13 digits. *)
Definition catalog_number (s : string) : Prop :=
  String.length s = 13 /\ every Py.isdigit s = true.

(** An ISRC: five characters that are digits or capitals, then seven
    digits. *)
Definition isrc_code (s : string) : Prop :=
  exists a b, s = a +:+ b /\ String.length a = 5 /\ every isrc_owner_char a = true /\
              String.length b = 7 /\ every (Py.in_range 48 57) b = true.

Lemma match_catalog_line s :
  catalog_number s ->
  match_syntax CATALOG 0 ("CATALOG " +:+ s) = Some [None; Some s; None; None; None].
Proof.
  intros [Hl He]. unfold match_syntax, re_match.
  rewrite rmatch_Cat. change (rmatch (lit (Py.spaces 0)) ?s ?g ?k) with (k s g).
  cbv beta. cbn [commands Rule.syntax].
  rewrite rmatch_Cat, rmatch_lit_app, rmatch_Cat. unfold digit.
  by rewrite (rmatch_group_rep_end 1 Py.isdigit s 13).
Qed.

Lemma match_catalog_shape l g :
  one_line l = true -> match_syntax CATALOG 0 l = Some g ->
  exists s, catalog_number s /\ l = "CATALOG " +:+ s /\
            g = [None; Some s; None; None; None].
Proof.
  intros Hl. unfold match_syntax, re_match. rewrite rmatch_Cat.
  change (rmatch (lit (Py.spaces 0)) ?s ?g ?k) with (k s g).
  cbv beta. cbn [commands Rule.syntax]. rewrite rmatch_Cat.
  intros (s1 & -> & H)%rmatch_lit_Some.
  rewrite rmatch_Cat in H. cbn [rmatch] in H.
  apply rmatch_rep_Some in H as (a & e & -> & Ha & Hd & H).
  rewrite consumed_app in H. destruct e as [|c [|c' e]]; [|cbn in H|done].
  - injection H as <-. exists a. by rewrite app_empty_r.
  - exfalso. apply one_line_suffix, one_line_suffix in Hl. simpl in Hl.
    destruct (Nat.eqb_spec (Py.code c) 10) as [E|]; [|done].
    unfold Py.islinebreak, Py.in_range in Hl. rewrite E in Hl. done.
Qed.

Lemma match_isrc_line s :
  isrc_code s ->
  match_syntax ISRC 4 ("    ISRC " +:+ s) = Some [None; Some s; None; None; None].
Proof.
  intros (a & b & -> & La & Ha & Lb & Hb). unfold match_syntax, re_match.
  rewrite rmatch_Cat. change "    ISRC " with ("    " +:+ "ISRC ").
  rewrite app_assoc. change (Py.spaces 4) with "    ". rewrite rmatch_lit_app.
  cbn [commands Rule.syntax]. rewrite rmatch_Cat, rmatch_lit_app, rmatch_Cat.
  unfold digit_or_capital, ascii_digit.
  by rewrite (rmatch_group_rep2_end 1 isrc_owner_char (Py.in_range 48 57) a b 5 7).
Qed.

Lemma match_isrc_shape l g :
  one_line l = true -> match_syntax ISRC 4 l = Some g ->
  exists s, isrc_code s /\ l = "    ISRC " +:+ s /\
            g = [None; Some s; None; None; None].
Proof.
  intros Hl. unfold match_syntax, re_match. rewrite rmatch_Cat.
  intros (s1 & -> & H)%rmatch_lit_Some. cbn [commands Rule.syntax] in H.
  rewrite rmatch_Cat in H. apply rmatch_lit_Some in H as (s2 & -> & H).
  rewrite rmatch_Cat in H. cbn [rmatch] in H.
  unfold digit_or_capital, ascii_digit in H.
  apply (rmatch_rep_Some isrc_owner_char) in H as (a & s3 & -> & La & Ha & H).
  apply rmatch_rep_Some in H as (b & e & -> & Lb & Hb & H).
  rewrite <- app_assoc, consumed_app in H. destruct e as [|c [|c' e]]; [|cbn in H|done].
  - injection H as <-. exists (a +:+ b). rewrite app_empty_r.
    split; [by exists a, b | done].
  - exfalso. do 4 apply one_line_suffix in Hl. simpl in Hl.
    destruct (Nat.eqb_spec (Py.code c) 10) as [E|]; [|done].
    unfold Py.islinebreak, Py.in_range in Hl. rewrite E in Hl. done.
Qed.

(** X13.  The CATALOG and ISRC lines.  In a run that returns, the line of a
    CATALOG node matches its rule exactly when it is [CATALOG], one space
    and 13 digits, and the line of an ISRC node exactly when it is four
    spaces, [ISRC], one space, five digits or capitals and seven digits,
    with nothing behind.  The content of the node is then that number or
    code, and no [command syntax error] is recorded; any other line gets
    [command syntax error] and the content of the node reads the empty
    string. *)
Theorem catalog_isrc_parsed (errs warns : cueSynerrList.t) (r x : CMD) :
  cuecheck w filename = Return (errs, warns, r) ->
  x ∈ nodes r ->
  (key x = Some CATALOG ->
   (exists s, catalog_number s /\ line x = "CATALOG " +:+ s /\ content x = s /\
              ~ recorded errs (linenum x) CommandSyntaxError)
   \/
   ((forall s, catalog_number s -> line x <> "CATALOG " +:+ s) /\
    recorded errs (linenum x) CommandSyntaxError /\ content x = "")) /\
  (key x = Some ISRC ->
   (exists s, isrc_code s /\ line x = "    ISRC " +:+ s /\ content x = s /\
              ~ recorded errs (linenum x) CommandSyntaxError)
   \/
   ((forall s, isrc_code s -> line x <> "    ISRC " +:+ s) /\
    recorded errs (linenum x) CommandSyntaxError /\ content x = "")).
Proof.
  intros H Hx. split; intros Hk;
    destruct (syntax_pass_of_node _ _ _ _ _ H Hx Hk) as (Hone & Hind & Hd & He & _);
    cbn in Hind; apply list_elem_of_singleton in Hind; rewrite Hind in Hd, He;
    pose proof (He CommandSyntaxError eq_refl) as Hs; clear He;
    unfold syntax_error in Hs; unfold content; rewrite Hd;
    unfold attrs_after, check_syntax.
  - destruct (match_syntax CATALOG 0 (line x)) as [g|] eqn:Hm.
    + left. destruct (match_catalog_shape _ _ Hone Hm) as (s & Hc & Hl & ->).
      exists s. repeat (split; [done|]). rewrite Hs. tauto.
    + right. split; [|split; [by apply Hs | done]].
      intros s Hc Hl. rewrite Hl, match_catalog_line in Hm by done. discriminate Hm.
  - destruct (match_syntax ISRC 4 (line x)) as [g|] eqn:Hm.
    + left. destruct (match_isrc_shape _ _ Hone Hm) as (s & Hc & Hl & ->).
      exists s. repeat (split; [done|]). rewrite Hs. tauto.
    + right. split; [|split; [by apply Hs | done]].
      intros s Hc Hl. rewrite Hl, match_isrc_line in Hm by done. discriminate Hm.
Qed.

(** *** FILE *)

Definition file_types : list string := ["BINARY"; "MOTOROLA"; "AIFF"; "WAVE"; "MP3"].

(** The two shapes of an argument [a] in a line: in double quotes, with
    no double quote inside, or bare, with no whitespace, bar or double
    quote. *)
Definition argument (a : string) (written : string) : Prop :=
  a <> "" /\
  ((every quoted_char a = true /\ written = q a) \/
   (every bare a = true /\ written = a)).

Lemma match_file_shape l g :
  one_line l = true -> match_syntax FILE 0 l = Some g ->
  exists a written ty,
    argument a written /\ ty ∈ file_types /\
    l = "FILE " +:+ written +:+ " " +:+ ty /\ group_text g 2 = a.
Proof.
  intros Hl. unfold match_syntax, re_match. rewrite rmatch_Cat.
  change (rmatch (lit (Py.spaces 0)) ?s ?g ?k) with (k s g).
  cbv beta. cbn [commands Rule.syntax]. rewrite rmatch_Cat.
  intros (s1 & -> & H)%rmatch_lit_Some. rewrite rmatch_Cat in H.
  apply rmatch_quoted_arg_Some in H as (a & s2 & Hne & [(Ha & -> & H)|(Ha & -> & H)]);
    rewrite rmatch_Cat in H; apply rmatch_Chr_Some in H as (s3 & -> & H);
    rewrite rmatch_Cat in H; apply rmatch_group_alts_Some in H as (ty & e & Hty & -> & H);
    apply rmatch_Eol_Some in H as [He [= <-]];
    (assert (e = "") as ->
       by (apply line_end_one_line; [done|]; by repeat apply one_line_suffix in Hl));
    rewrite app_empty_r.
  - exists a, (q a), ty. split; [split; [done|]; by left|]. done.
  - exists a, a, ty. split; [split; [done|]; by right|]. done.
Qed.

Lemma match_file_line a written ty :
  argument a written -> ty ∈ file_types ->
  is_Some (match_syntax FILE 0 ("FILE " +:+ written +:+ " " +:+ ty)).
Proof.
  intros [Hne Hs] Hty. unfold match_syntax, re_match. rewrite rmatch_Cat.
  change (rmatch (lit (Py.spaces 0)) ?s ?g ?k) with (k s g).
  cbv beta. cbn [commands Rule.syntax]. rewrite rmatch_Cat, rmatch_lit_app, rmatch_Cat.
  assert (K : forall g, is_Some
            (rmatch (Cat (Chr " ")
                       (Cat (Grp 3 (alts ["BINARY"; "MOTOROLA"; "AIFF"; "WAVE"; "MP3"])) Eol))
                    (" " +:+ ty) g (fun _ g' => Some g'))).
  { intros g. rewrite rmatch_Cat. change (" " +:+ ty) with (String " " ty).
    rewrite rmatch_Chr_app, rmatch_Cat. rewrite <- (app_empty_r ty).
    apply rmatch_group_alts_app; [done|]. by eexists. }
  destruct Hs as [[Ha ->]|[Ha ->]].
  - by apply rmatch_quoted_arg_quoted.
  - by apply rmatch_quoted_arg_bare.
Qed.

(** X14.  The FILE lines.  In a run that returns, the line of a FILE node
    matches its rule exactly when it is [FILE], one space, a name in
    double quotes or a bare name, one space and one of the five file
    types, with nothing behind.  The node then has that name, without the
    quotes, as its file; [FILE not found] is recorded for its line, with
    that name, exactly when the world has no such file beside the cue
    sheet; and no [command syntax error].  Any other line gets
    [command syntax error] and no [FILE not found], and the file of the
    node reads the empty string. *)
Theorem file_line_parsed (errs warns : cueSynerrList.t) (r x : CMD) :
  cuecheck w filename = Return (errs, warns, r) ->
  x ∈ nodes r -> key x = Some FILE ->
  (exists a written ty,
     argument a written /\ ty ∈ file_types /\
     line x = "FILE " +:+ written +:+ " " +:+ ty /\
     file x = a /\
     (forall name, recorded errs (linenum x) (FileNotFound name) <->
                   name = a /\ media_isfile w filename a = false) /\
     ~ recorded errs (linenum x) CommandSyntaxError)
  \/
  ((forall a written ty, argument a written -> ty ∈ file_types ->
                         line x <> "FILE " +:+ written +:+ " " +:+ ty) /\
   recorded errs (linenum x) CommandSyntaxError /\
   (forall name, ~ recorded errs (linenum x) (FileNotFound name)) /\
   file x = "").
Proof.
  intros H Hx Hk.
  destruct (syntax_pass_of_node _ _ _ _ _ H Hx Hk) as (Hone & Hind & Hd & He & _).
  cbn in Hind. apply list_elem_of_singleton in Hind.
  rewrite Hind in Hd, He.
  assert (Ht : forall name, recorded errs (linenum x) (FileNotFound name) <->
                 syntax_error w filename (linenum x) FILE (line x) 0 (FileNotFound name))
    by (intros name; by apply He).
  pose proof (He CommandSyntaxError eq_refl) as Hs.
  clear He. unfold syntax_error in Ht, Hs. unfold file. rewrite Hd.
  unfold attrs_after, check_syntax.
  destruct (match_syntax FILE 0 (line x)) as [g|] eqn:Hm.
  - left. destruct (match_file_shape _ _ Hone Hm) as (a & written & ty & Ha & Hty & Hl & Hg).
    exists a, written, ty. repeat (split; [done|]). rewrite Hg in *.
    split; [|split].
    + unfold bind, when. by destruct (negb _).
    + intros name. rewrite Ht. split; [intros [? [= ->]] | intros [-> ?]]; done.
    + rewrite Hs. by intros [_ ?].
  - right. split; [|split; [|split]].
    + intros a written ty Ha Hty Hl.
      destruct (match_file_line a written ty Ha Hty) as [g Hg]. congruence.
    + by apply Hs.
    + intros name. rewrite Ht. discriminate.
    + done.
Qed.

(** *** TITLE, PERFORMER and SONGWRITER *)

Lemma join_cons t l : l <> [] -> Py.join (t :: l) = t +:+ " " +:+ Py.join l.
Proof. by destruct l. Qed.

Lemma remove_quotes_app a b :
  Py.remove_quotes (a +:+ b) = Py.remove_quotes a +:+ Py.remove_quotes b.
Proof.
  induction a as [|c a IH]; [done|]. rewrite app_cons. simpl.
  destruct (Ascii.eqb c Py.dquote); [done|]. by rewrite app_cons, IH.
Qed.

Lemma remove_quotes_none a : every quoted_char a = true -> Py.remove_quotes a = a.
Proof.
  induction a as [|c a IH]; [done|]. simpl. unfold quoted_char at 1.
  intros [Hc Ha]%andb_prop. apply negb_true_iff in Hc. rewrite Hc. by rewrite IH.
Qed.

Lemma split_from_closed a : forall tok,
  Py.split_from tok (a +:+ String Py.dquote "") <> [].
Proof.
  induction a as [|c a IH]; intros tok; [by destruct tok|].
  rewrite app_cons. destruct (Py.isspace c) eqn:Hc.
  - rewrite split_from_space by done. destruct tok; [done | apply IH].
  - rewrite split_from_char by done. apply IH.
Qed.

(** The tokens of a quoted argument, joined by single spaces and without
    the quotes, are the argument with every run of whitespace collapsed. *)
Lemma join_split_closed a :
  every quoted_char a = true ->
  (forall t, Py.remove_quotes (Py.join (Py.split_from (Some t) (a +:+ String Py.dquote "")))
             = Py.remove_quotes t +:+ Py.collapse_from false a) /\
  Py.remove_quotes (Py.join (Py.split_from None (a +:+ String Py.dquote "")))
  = Py.collapse_from true a.
Proof.
  induction a as [|c a IH]; intros Ha.
  - split; [|done]. intros t. rewrite app_empty_l, split_from_char by reflexivity.
    cbn [Py.split_from Py.join run default]. rewrite remove_quotes_app.
    change (Py.remove_quotes (String Py.dquote "")) with "".
    change (Py.collapse_from false "") with "". done.
  - simpl in Ha. apply andb_prop in Ha as [Hc Ha]. destruct (IH Ha) as [A B].
    unfold quoted_char in Hc. apply negb_true_iff in Hc.
    rewrite app_cons. destruct (Py.isspace c) eqn:Hs.
    + split.
      * intros t. rewrite split_from_space by done.
        rewrite join_cons by apply split_from_closed.
        rewrite !remove_quotes_app, B. simpl. by rewrite Hs.
      * rewrite split_from_space by done. rewrite B. simpl. by rewrite Hs.
    + split.
      * intros t. rewrite split_from_char by done. rewrite A. simpl.
        rewrite Hs, remove_quotes_app. simpl. rewrite Hc. by rewrite app_assoc.
      * rewrite split_from_char by done. rewrite A. simpl. by rewrite Hs, Hc.
Qed.

Lemma quoted_content a :
  every quoted_char a = true ->
  Py.remove_quotes (Py.join (Py.split (q a))) = Py.collapse a.
Proof.
  intros Ha. unfold Py.split, q.
  assert (Hq : Py.isspace Py.dquote = false) by reflexivity.
  rewrite split_from_char by done. destruct (join_split_closed a Ha) as [A _].
  rewrite A. simpl run. done.
Qed.

Lemma bare_word a : every bare a = true -> word a = true /\ every quoted_char a = true.
Proof.
  induction a as [|c a IH]; [done|]. simpl. unfold bare at 1, quoted_char at 1.
  intros [Hc Ha]%andb_prop. destruct (IH Ha) as [-> ->].
  apply negb_true_iff in Hc. apply orb_false_iff in Hc as [Hc ->].
  apply orb_false_iff in Hc as [-> _]. done.
Qed.

Lemma bare_content a :
  a <> "" -> every bare a = true ->
  Py.remove_quotes (Py.join (Py.split a)) = a.
Proof.
  intros Hne [Hw Hq]%bare_word. unfold Py.split.
  rewrite <- (app_empty_r a) at 1. rewrite split_from_word by done. simpl.
  by apply remove_quotes_none.
Qed.

Definition text_keyword (k : keyword) : Prop :=
  k = TITLE \/ k = PERFORMER \/ k = SONGWRITER.

Lemma keyword_name_word' k : word (keyword_name k) = true /\ keyword_name k <> "".
Proof. by destruct k. Qed.

Lemma match_text_shape k ind l g :
  text_keyword k -> one_line l = true -> match_syntax k ind l = Some g ->
  exists a written,
    argument a written /\
    l = Py.spaces ind +:+ keyword_name k +:+ " " +:+ written /\ group_text g 2 = a.
Proof.
  intros Hk Hl. unfold match_syntax, re_match. rewrite rmatch_Cat.
  intros (s1 & -> & H)%rmatch_lit_Some.
  assert (Hr : Rule.syntax (commands k) = text_rule (keyword_name k))
    by (by destruct Hk as [->|[->| ->]]).
  rewrite Hr in H. unfold text_rule in H.
  rewrite rmatch_Cat in H. apply rmatch_lit_Some in H as (s2 & -> & H).
  rewrite rmatch_Cat in H.
  apply rmatch_quoted_arg_Some in H as (a & e & Hne & [(Ha & -> & H)|(Ha & -> & H)]);
    apply rmatch_Eol_Some in H as [He [= <-]];
    (assert (e = "") as ->
       by (apply line_end_one_line; [done|]; by repeat apply one_line_suffix in Hl));
    rewrite app_empty_r, app_assoc.
  - exists a, (q a). split; [split; [done|]; by left|]. done.
  - exists a, a. split; [split; [done|]; by right|]. done.
Qed.

Lemma match_text_line k ind a written :
  text_keyword k -> argument a written ->
  is_Some (match_syntax k ind (Py.spaces ind +:+ keyword_name k +:+ " " +:+ written)).
Proof.
  intros Hk [Hne Hs]. unfold match_syntax, re_match. rewrite rmatch_Cat, rmatch_lit_app.
  assert (Hr : Rule.syntax (commands k) = text_rule (keyword_name k))
    by (by destruct Hk as [->|[->| ->]]).
  rewrite Hr. unfold text_rule. rewrite rmatch_Cat, <- app_assoc, rmatch_lit_app, rmatch_Cat.
  assert (K : forall g, is_Some (rmatch Eol "" g (fun _ g' => Some g')))
    by (intros g; by eexists).
  rewrite <- (app_empty_r written).
  destruct Hs as [[Ha ->]|[Ha ->]].
  - by apply rmatch_quoted_arg_quoted.
  - by apply rmatch_quoted_arg_bare.
Qed.

(** The content of the node of a line with the argument [a]. *)
Lemma text_content k ind a written :
  argument a written ->
  Py.remove_quotes
    (Py.join (tail (Py.split (Py.spaces ind +:+ keyword_name k +:+ " " +:+ written))))
  = if bool_decide (written = a) then a else Py.collapse a.
Proof.
  intros [Hne Hs]. destruct (keyword_name_word' k) as [Hw Hn].
  change (" " +:+ written) with (String " " written).
  rewrite split_indented_word by done. cbn [tail].
  destruct Hs as [[Ha ->]|[Ha ->]].
  - rewrite quoted_content by done. rewrite bool_decide_eq_false_2; [done|].
    unfold q. intros E. apply (f_equal String.length) in E. simpl in E.
    rewrite append_length in E. simpl in E. lia.
  - rewrite bare_content by done. by rewrite bool_decide_eq_true_2.
Qed.

(** X15.  The TITLE, PERFORMER and SONGWRITER lines.  In a run that returns, the
    line of such a node matches its rule exactly when it is the spaces of
    its depth, the keyword, one space and an argument in double quotes or
    a bare one, with nothing behind.  The content of the node is then the
    argument: a bare one as it is, a quoted one with every run of
    whitespace inside the quotes collapsed to one space.  The warning that
    the keyword should not contain more than 80 characters is recorded for
    the line exactly when the argument as written between the quotes has
    more than 80 characters, and no [command syntax error] is.  Any other
    line gets [command syntax error] and no such warning, and the content
    of the node reads the empty string. *)
Theorem text_line_parsed (errs warns : cueSynerrList.t) (r x : CMD) (k : keyword) :
  cuecheck w filename = Return (errs, warns, r) ->
  x ∈ nodes r -> key x = Some k -> text_keyword k ->
  (indent x = 0 \/ indent x = 4) /\
  ((exists a written,
      argument a written /\
      line x = Py.spaces (indent x) +:+ keyword_name k +:+ " " +:+ written /\
      content x = (if bool_decide (written = a) then a else Py.collapse a) /\
      (recorded warns (linenum x) (TooLong k) <-> 80 < String.length a) /\
      ~ recorded errs (linenum x) CommandSyntaxError)
   \/
   ((forall a written, argument a written ->
       line x <> Py.spaces (indent x) +:+ keyword_name k +:+ " " +:+ written) /\
    recorded errs (linenum x) CommandSyntaxError /\
    ~ recorded warns (linenum x) (TooLong k) /\
    content x = "")).
Proof.
  intros H Hx Hk Ht.
  destruct (syntax_pass_of_node _ _ _ _ _ H Hx Hk) as (Hone & Hind & Hd & He & Hw).
  split.
  { assert (Hi : indent x ∈ [0; 4]) by (by destruct Ht as [->|[->| ->]]).
    apply elem_of_cons in Hi as [Hi|Hi]; [by left|].
    apply list_elem_of_singleton in Hi. by right. }
  pose proof (He CommandSyntaxError eq_refl) as Hs.
  pose proof (Hw (TooLong k) eq_refl) as Hl. clear He Hw.
  unfold syntax_error in Hs. unfold syntax_warning in Hl. unfold content. rewrite Hd.
  unfold attrs_after, check_syntax.
  destruct (match_syntax k (indent x) (line x)) as [g|] eqn:Hm.
  - left. destruct (match_text_shape _ _ _ _ Ht Hone Hm) as (a & written & Ha & E & Hg).
    exists a, written. repeat (split; [done|]). rewrite Hg in *.
    split; [|split].
    + rewrite <- (text_content k (indent x) a written Ha), <- E.
      destruct Ht as [->|[->| ->]]; unfold bind, when;
        match goal with |- context [if ?b then _ else _] => by destruct b end.
    + rewrite Hl. split; [by intros (_ & ? & _) | intros ?; split; [exact Ht | done]].
    + rewrite Hs. destruct Ht as [->|[->| ->]]; tauto.
  - right. split; [|split; [|split]].
    + intros a written Ha E.
      destruct (match_text_line k (indent x) a written Ht Ha) as [g Hg]. congruence.
    + by apply Hs.
    + rewrite Hl. tauto.
    + done.
Qed.

End Parse.

(* ================================================================= *)
(** ** The syntax pass on a well-formed document *)

Definition album_text : string :=
  document
    [ "REM GENRE Rock";
      "CATALOG 1234567890123";
      "TITLE " +:+ q "My  Album";
      "FILE " +:+ q "a.bin" +:+ " BINARY";
      "  TRACK 01 AUDIO";
      "    ISRC ABCDE1234567";
      "    PREGAP 00:02:00";
      "    INDEX 01 00:00:00";
      "  TRACK 02 AUDIO";
      "    INDEX 00 03:10:00";
      "    INDEX 01 03:12:00";
      "    POSTGAP 00:01:74" ].

Definition disc_album : world := world_of album_text.

Example disc_album_result :
  errors_of (run_on disc_album) = [] /\
  warnings_of (run_on disc_album)
  = [ cueSyntaxError.mk 5 "  TRACK 01 AUDIO" [TrackNoTitle; TrackNoTitle; TrackNoTitle];
      cueSyntaxError.mk 9 "  TRACK 02 AUDIO" [TrackNoTitle; TrackNoTitle; TrackNoTitle] ] /\
  map (fun x => (linenum x, key x, content x, number x))
      (nodes (tree_of (run_on disc_album)))
  = [ (0, None, "", (-1)%Z); (1, Some REM, "Rock", (-1)%Z);
      (2, Some CATALOG, "1234567890123", (-1)%Z);
      (3, Some TITLE, "My Album", (-1)%Z); (4, Some FILE, "", (-1)%Z);
      (5, Some TRACK, "", 1%Z); (6, Some ISRC, "ABCDE1234567", (-1)%Z);
      (7, Some PREGAP, "", (-1)%Z); (8, Some INDEX, "", 1%Z);
      (9, Some TRACK, "", 2%Z); (10, Some INDEX, "", 0%Z);
      (11, Some INDEX, "", 1%Z); (12, Some POSTGAP, "", (-1)%Z) ].
Proof. repeat split; vm_compute; reflexivity. Qed.

(** The nodes of the two documents by their lines. *)
Definition messy_index : CMD := node_number disc_messy 5.
Definition messy_catalog : CMD := node_number disc_messy 7.
Definition album_title : CMD := node_number disc_album 3.
Definition album_file : CMD := node_number disc_album 4.
Definition album_track : CMD := node_number disc_album 5.
Definition album_isrc : CMD := node_number disc_album 6.
Definition album_pregap : CMD := node_number disc_album 7.
Definition album_postgap : CMD := node_number disc_album 12.

Lemma index_line_parsed_witness :
  recorded (errors_of (run_on disc_messy)) (linenum messy_index) TimeError /\
  number messy_index = 5%Z /\ time messy_index = elapsed 0 61 80.
Proof.
  destruct (index_line_parsed disc_messy "disc.cue" _ (warnings_of (run_on disc_messy))
              (tree_of (run_on disc_messy)) messy_index
              (run_on_parts disc_messy eq_refl))
    as [(nn & mm & ss & ff & T1 & T2 & T3 & T4 & Hl & Hn & Ht & He & _)|(N & _)].
  - vm_compute. do 6 constructor.
  - reflexivity.
  - split; [|split; reflexivity]. find_recorded.
  - exfalso. apply (N "05" "00" "61" "80"); try (by eexists _, _); reflexivity.
Defined.

Lemma track_line_parsed_witness :
  number album_track = Py.int "01" /\ type_ album_track = "AUDIO" /\
  ~ recorded (errors_of (run_on disc_album)) (linenum album_track) CommandSyntaxError.
Proof.
  destruct (track_line_parsed disc_album "disc.cue" _ (warnings_of (run_on disc_album))
              (tree_of (run_on disc_album)) album_track
              (run_on_parts disc_album eq_refl))
    as [(nn & mode & T1 & Hm & Hl & Hn & Ht & He)|(N & _)].
  - vm_compute. do 6 constructor.
  - reflexivity.
  - split; [reflexivity|]. split; [reflexivity | exact He].
  - exfalso. apply (N "01" "AUDIO"); [by eexists _, _ | left | reflexivity].
Defined.

Lemma gap_line_parsed_witness :
  time album_postgap = elapsed 0 1 74 /\
  ~ recorded (errors_of (run_on disc_album)) (linenum album_postgap) TimeError.
Proof.
  destruct (gap_line_parsed disc_album "disc.cue" _ (warnings_of (run_on disc_album))
              (tree_of (run_on disc_album)) album_postgap POSTGAP
              (run_on_parts disc_album eq_refl))
    as [(mm & ss & ff & T2 & T3 & T4 & Hl & Ht & He & _)|(_ & _ & N & _)].
  - vm_compute. do 13 constructor.
  - reflexivity.
  - by right.
  - split; [reflexivity|]. intros E.
    assert (Hnil : errors_of (run_on disc_album) = []) by (vm_compute; reflexivity).
    rewrite Hnil in E. by apply recorded_nil in E.
  - split; [reflexivity | exact N].
Defined.

Lemma catalog_isrc_parsed_witness :
  content album_isrc = "ABCDE1234567" /\
  recorded (errors_of (run_on disc_messy)) (linenum messy_catalog) CommandSyntaxError.
Proof.
  split.
  - reflexivity.
  - destruct (catalog_isrc_parsed disc_messy "disc.cue" _ (warnings_of (run_on disc_messy))
                (tree_of (run_on disc_messy)) messy_catalog
                (run_on_parts disc_messy eq_refl)) as [C _].
    { vm_compute. do 8 constructor. }
    destruct (C eq_refl) as [(s & _ & Hl & _)|(_ & E & _)]; [|exact E].
    vm_compute in Hl. discriminate Hl.
Defined.

Lemma file_line_parsed_witness :
  file album_file = "a.bin" /\
  ~ recorded (errors_of (run_on disc_album)) (linenum album_file) CommandSyntaxError.
Proof.
  destruct (file_line_parsed disc_album "disc.cue" _ (warnings_of (run_on disc_album))
              (tree_of (run_on disc_album)) album_file
              (run_on_parts disc_album eq_refl))
    as [(a & written & ty & _ & _ & _ & _ & _ & He)|(N & _)].
  - vm_compute. do 5 constructor.
  - reflexivity.
  - split; [reflexivity | exact He].
  - exfalso. apply (N "a.bin" (q "a.bin") "BINARY"); [|left | reflexivity].
    split; [discriminate|]. left. split; reflexivity.
Defined.

Lemma text_line_parsed_witness :
  content album_title = "My Album" /\
  ~ recorded (warnings_of (run_on disc_album)) (linenum album_title) (TooLong TITLE).
Proof.
  destruct (text_line_parsed disc_album "disc.cue" (errors_of (run_on disc_album)) _
              (tree_of (run_on disc_album)) album_title TITLE
              (run_on_parts disc_album eq_refl))
    as [_ [(a & written & _ & _ & _ & Hw & _)|(_ & _ & N & _)]].
  - vm_compute. do 4 constructor.
  - reflexivity.
  - by left.
  - split; [reflexivity|]. intros E. vm_compute in E.
    destruct E as (e & He & _ & Hm). repeat (apply elem_of_cons in He as [->|He]);
      [| |by apply elem_of_nil in He]; simpl in Hm;
      repeat (apply elem_of_cons in Hm as [Hm|Hm]; [discriminate Hm|]);
      by apply elem_of_nil in Hm.
  - split; [reflexivity | exact N].
Defined.

(* ================================================================= *)
(** ** The text of a tree: [CMD.__str__] and [CMD.tree] *)

(** [s.strip(c)] for one character [c]. *)
Fixpoint lstrip_char (c : ascii) (s : string) : string :=
  match s with
  | EmptyString => EmptyString
  | String c' s' => if Ascii.eqb c' c then lstrip_char c s' else s
  end.

Fixpoint rstrip_char (c : ascii) (s : string) : string :=
  match s with
  | EmptyString => EmptyString
  | String c' s' =>
      match rstrip_char c s' with
      | EmptyString => if Ascii.eqb c' c then EmptyString else String c' EmptyString
      | r => String c' r
      end
  end.

Definition strip_char (c : ascii) (s : string) : string :=
  rstrip_char c (lstrip_char c s).

(** [str(key)] for the key of a node. *)
Definition str_key (k : option keyword) : string :=
  match k with
  | Some kw => keyword_name kw
  | None => "None"
  end.

(** [for c in self.children: s += c.key + ','], where a key [None] cannot
    be added to a string. *)
Fixpoint add_keys (s : string) (cs : list CMD) : result string :=
  match cs with
  | [] => Return s
  | c :: cs' =>
      match key c with
      | Some k => add_keys (s +:+ keyword_name k +:+ ",") cs'
      | None => Raise TypeError
      end
  end.

Section Text.

(** [str] on the value of a time field. *)
Variable str_time : float -> string.

(** [str(cmd)] for a node with the parent [parent]. *)
Definition CMD_str (parent : option CMD) (cmd : CMD) : result string :=
  let pad := Py.spaces (indent cmd) in
  let s := pad +:+ "key: " +:+ str_key (key cmd) +:+ newline in
  let s := s +:+ pad +:+ "line number: " +:+ Py.str_int (Z.of_nat (linenum cmd))
             +:+ newline in
  let s := s +:+ pad +:+ "line: " +:+ line cmd +:+ newline in
  let s := s +:+ pad +:+ "parent: "
             +:+ match parent with
                 | Some p => str_key (key p)
                 | None => "None"
                 end +:+ newline in
  let s := s +:+ pad +:+ "children: [" in
  match add_keys s (children cmd) with
  | Raise e => Raise e
  | Return s =>
      let s := strip_char "," s +:+ "]" +:+ newline in
      match key cmd with
      | Some FILE => Return (s +:+ pad +:+ "*file: " +:+ file cmd +:+ newline)
      | Some TRACK =>
          Return ((s +:+ pad +:+ "*number: " +:+ Py.str_int (number cmd) +:+ newline)
                    +:+ pad +:+ "*type: " +:+ type_ cmd +:+ newline)
      | Some INDEX =>
          Return ((s +:+ pad +:+ "*number: " +:+ Py.str_int (number cmd) +:+ newline)
                    +:+ pad +:+ "*time: " +:+ str_time (time cmd) +:+ newline)
      | Some TITLE | Some PERFORMER | Some SONGWRITER | Some CATALOG | Some ISRC =>
          Return (s +:+ pad +:+ "*content: " +:+ content cmd +:+ newline)
      | Some PREGAP | Some POSTGAP =>
          Return (s +:+ pad +:+ "*time: " +:+ str_time (time cmd) +:+ newline)
      | Some REM =>
          match tag cmd with
          | Some t =>
              Return (s +:+ pad +:+ "*tag: " +:+ t +:+ " -> " +:+ "*content: "
                        +:+ content cmd +:+ newline)
          | None => Raise AttributeError
          end
      | _ => Return s
      end
  end.

(** [for c in self.children: s += newline + c.tree()]. *)
Fixpoint add_trees (f : CMD -> result string) (s : string) (cs : list CMD)
  : result string :=
  match cs with
  | [] => Return s
  | c :: cs' =>
      match f c with
      | Raise e => Raise e
      | Return t => add_trees f (s +:+ newline +:+ t) cs'
      end
  end.

(** [cmd.tree()] for a node with the parent [parent]. *)
Fixpoint tree (parent : option CMD) (cmd : CMD) {struct cmd} : result string :=
  match CMD_str parent cmd with
  | Raise e => Raise e
  | Return s =>
      let 'mkCMD _ _ _ _ _ cs := cmd in
      add_trees (tree (Some cmd)) s cs
  end.

End Text.

Example tree_example :
  tree (fun _ => "0.0") None
    (mkCMD 0 None "/d/a.cue" 0 no_attrs
       [mkCMD 1 (Some FILE) "FILE a.bin BINARY" 0
          (mkAttrs (Some "a.bin") None None None None None)
          [mkCMD 2 (Some TRACK) "  TRACK 01 AUDIO" 2
             (mkAttrs None (Some "AUDIO") None (Some 1%Z) None None) []]])
  = Return
      (document
         [ "key: None"; "line number: 0"; "line: /d/a.cue"; "parent: None";
           "children: [FILE]"; "";
           "key: FILE"; "line number: 1"; "line: FILE a.bin BINARY"; "parent: None";
           "children: [TRACK]"; "*file: a.bin"; "";
           "  key: TRACK"; "  line number: 2"; "  line:   TRACK 01 AUDIO";
           "  parent: FILE"; "  children: []"; "  *number: 1"; "  *type: AUDIO" ]).
Proof. vm_compute. reflexivity. Qed.

(** *** When the text of a tree exists *)

(** A REM node without the attribute [tag]. *)
Definition untagged (c : CMD) : bool :=
  bool_decide (key c = Some REM) && bool_decide (tag c = None).

Section TextFacts.

Variable str_time : float -> string.

Lemma add_keys_Return cs : forall s,
  Forall (fun x => key x <> None) cs -> exists s', add_keys s cs = Return s'.
Proof.
  induction cs as [|c cs IH]; intros s H; [by eexists|].
  apply Forall_cons in H as [Hc H]. simpl. destruct (key c); [|done]. by apply IH.
Qed.

Lemma CMD_str_cases parent c :
  Forall (fun x => key x <> None) (children c) ->
  (untagged c = true -> CMD_str str_time parent c = Raise AttributeError) /\
  (untagged c = false -> exists s, CMD_str str_time parent c = Return s).
Proof.
  intros H. unfold CMD_str, untagged.
  match goal with
  | |- context [add_keys ?s0 (children c)] =>
      destruct (add_keys_Return (children c) s0 H) as [s ->]
  end.
  destruct (key c) as [kw|]; [destruct kw|]; simpl; try (split; [done | by eexists]).
  destruct (tag c); simpl; split; try done; by eexists.
Qed.

Lemma tree_unfold parent c :
  tree str_time parent c
  = match CMD_str str_time parent c with
    | Raise e => Raise e
    | Return s => add_trees (tree str_time (Some c)) s (children c)
    end.
Proof. by destruct c. Qed.

Lemma add_trees_cases (f : CMD -> result string) cs : forall s,
  Forall (fun x =>
            (existsb untagged (nodes x) = true -> f x = Raise AttributeError) /\
            (existsb untagged (nodes x) = false -> exists t, f x = Return t)) cs ->
  (existsb untagged (flat_map nodes cs) = true ->
   add_trees f s cs = Raise AttributeError) /\
  (existsb untagged (flat_map nodes cs) = false ->
   exists s', add_trees f s cs = Return s').
Proof.
  induction cs as [|c cs IH]; intros s H; [split; [done | by eexists]|].
  apply Forall_cons in H as [[Hc1 Hc2] H]. simpl. rewrite existsb_app.
  destruct (existsb untagged (nodes c)) eqn:E.
  - rewrite Hc1 by done. simpl. split; [done | discriminate].
  - destruct (Hc2 eq_refl) as [t ->]. simpl. by apply IH.
Qed.

(** The text of a tree whose nodes below the root have keys: it exists
    unless a REM node has no tag, and then [AttributeError] is raised. *)
Lemma tree_cases : forall c parent,
  Forall (fun x => key x <> None) (flat_map nodes (children c)) ->
  (existsb untagged (nodes c) = true -> tree str_time parent c = Raise AttributeError) /\
  (existsb untagged (nodes c) = false -> exists s, tree str_time parent c = Return s).
Proof.
  induction c as [n k l i a cs IH] using CMD_induction. intros parent H.
  rewrite tree_unfold. cbn [children nodes existsb] in *.
  assert (Hk : Forall (fun x => key x <> None) cs).
  { apply Forall_forall. intros x Hx. rewrite Forall_forall in H. apply H.
    apply elem_of_flat_map. exists x. split; [done|]. destruct x. left. }
  destruct (CMD_str_cases parent (mkCMD n k l i a cs) Hk) as [C1 C2].
  destruct (untagged (mkCMD n k l i a cs)) eqn:E.
  - rewrite C1 by done. simpl. split; [done | discriminate].
  - destruct (C2 eq_refl) as [s ->]. simpl. apply add_trees_cases.
    apply Forall_forall. intros x Hx. rewrite Forall_forall in IH. apply IH; [done|].
    apply Forall_forall. intros y Hy. rewrite Forall_forall in H. apply H.
    apply elem_of_flat_map. exists x. split; [done|].
    destruct x as [? ? ? ? ? xs]. right. exact Hy.
Qed.

End TextFacts.

(* ================================================================= *)
(** ** The text of the tree of a run *)

Section TreeOfRun.

Variable w : world.
Variable filename : string.
Variable str_time : float -> string.

Import Re ReFacts GroupFacts PyFacts ParseFacts.

Lemma one_line_every_dot s :
  one_line s = true -> every (fun c => negb (Py.code c =? 10)%nat) s = true.
Proof.
  induction s as [|c s IH]; [done|]. simpl. intros [Hc Hs]%andb_prop.
  rewrite IH by done. rewrite andb_true_r.
  destruct (Nat.eqb_spec (Py.code c) 10) as [E|]; [|done].
  unfold Py.islinebreak, Py.in_range in Hc. rewrite E in Hc. done.
Qed.

(** The lines that the rule of REM accepts: [REM], one space and at least
    one more character. *)
Lemma match_rem_line rest :
  rest <> "" -> one_line rest = true ->
  is_Some (match_syntax REM 0 ("REM " +:+ rest)).
Proof.
  intros Hne Hl. unfold match_syntax, re_match. rewrite rmatch_Cat.
  change (rmatch (lit (Py.spaces 0)) ?s ?g ?k) with (k s g).
  cbv beta. cbn [commands Rule.syntax]. rewrite rmatch_Cat, rmatch_lit_app, rmatch_Cat.
  rewrite rmatch_Plus. unfold dot. rewrite <- (app_empty_r rest).
  apply plus_loop_class_app; [done | by apply one_line_every_dot | |by eexists].
  rewrite app_empty_r. lia.
Qed.

Lemma match_rem_shape l g :
  one_line l = true -> match_syntax REM 0 l = Some g ->
  exists rest, rest <> "" /\ l = "REM " +:+ rest.
Proof.
  intros Hl. unfold match_syntax, re_match. rewrite rmatch_Cat.
  change (rmatch (lit (Py.spaces 0)) ?s ?g ?k) with (k s g).
  cbv beta. cbn [commands Rule.syntax]. rewrite rmatch_Cat.
  intros (s1 & -> & H)%rmatch_lit_Some. rewrite rmatch_Cat, rmatch_Plus in H.
  unfold dot in H. apply plus_loop_class_Some in H as (a & e & -> & Hne & _ & H).
  apply rmatch_Eol_Some in H as [He _].
  assert (e = "") as ->.
  { apply line_end_one_line; [done|]. by repeat apply one_line_suffix in Hl. }
  exists a. by rewrite app_empty_r.
Qed.

(** A REM node of a run has its tag exactly when its line matches. *)
Lemma rem_node_tag errs warns r x :
  cuecheck w filename = Return (errs, warns, r) ->
  x ∈ nodes r -> key x = Some REM ->
  one_line (line x) = true /\
  (tag x = None <-> match_syntax REM 0 (line x) = None) /\
  (recorded errs (linenum x) CommandSyntaxError <-> match_syntax REM 0 (line x) = None).
Proof.
  intros H Hx Hk.
  destruct (syntax_pass_of_node _ _ _ _ _ _ _ H Hx Hk) as (Hone & Hind & Hd & He & _).
  cbn in Hind. apply list_elem_of_singleton in Hind. rewrite Hind in Hd, He.
  split; [done|]. split.
  - unfold tag. rewrite Hd. unfold attrs_after, check_syntax.
    destruct (match_syntax REM 0 (line x)) as [g|]; [|done].
    split; [|done].
    destruct (Py.split (line x)) as [|? [|ss1 [|? ?]]]; try done.
    by destruct (Py.isupper ss1).
  - rewrite (He CommandSyntaxError eq_refl). unfold syntax_error.
    destruct (match_syntax REM 0 (line x)); [|done]. split; [by intros [] | done].
Qed.

(** The nodes below the root of the tree of a run have keys. *)
Lemma keys_below_root errs warns r :
  cuecheck w filename = Return (errs, warns, r) ->
  Forall (fun x => key x <> None) (flat_map nodes (children r)).
Proof.
  intros H. destruct (cuecheck_returned _ _ _ _ _ H) as (text & Hr & _ & R).
  pose proof (returned_NoDup _ _ _ _ _ _ R) as N.
  apply Forall_forall. intros x Hx.
  assert (Hn : x ∈ nodes r) by (destruct r; right; exact Hx).
  destruct (returned_nodes _ _ _ _ _ _ _ R Hn)
    as [(Hl & _)|(j & raw & k & _ & _ & _ & Hk & _)]; [|congruence].
  exfalso. destruct (returned_placed _ _ _ _ _ _ R) as [Hkr _].
  assert (Hr0 : r ∈ nodes r) by (destruct r; left).
  destruct (returned_nodes _ _ _ _ _ _ _ R Hr0)
    as [(Hl0 & _)|(j & raw & k & _ & _ & _ & Hk & _)]; [|congruence].
  destruct r as [n k l i a cs]. cbn [nodes] in N.
  change (NoDup (n :: (linenum <$> flat_map nodes cs))) in N.
  apply NoDup_cons in N as [N _]. apply N. cbn in Hl0, Hx. subst n. rewrite <- Hl.
  apply list_elem_of_fmap. by exists x.
Qed.

(** A REM node of a run is untagged exactly when its line is not [REM],
    one space and at least one more character. *)
Lemma rem_node_untagged errs warns r x :
  cuecheck w filename = Return (errs, warns, r) ->
  x ∈ nodes r -> key x = Some REM ->
  (untagged x = true ->
   (forall rest, rest <> "" -> line x <> "REM " +:+ rest) /\
   tag x = None /\ recorded errs (linenum x) CommandSyntaxError) /\
  (untagged x = false -> exists rest, rest <> "" /\ line x = "REM " +:+ rest).
Proof.
  intros H Hx Hk. destruct (rem_node_tag _ _ _ _ H Hx Hk) as (Hone & Ht & He).
  unfold untagged. rewrite Hk, bool_decide_eq_true_2 by done. cbn [andb].
  destruct (match_syntax REM 0 (line x)) as [g|] eqn:Hm.
  - split.
    + intros Hu%bool_decide_eq_true. apply Ht in Hu. discriminate Hu.
    + intros _. by eapply match_rem_shape.
  - split.
    + intros _. split; [|split; [by apply Ht | by apply He]].
      intros rest Hne Hl. rewrite Hl in Hone. apply one_line_suffix in Hone.
      destruct (match_rem_line rest Hne Hone) as [g Hg]. congruence.
    + intros Hu%bool_decide_eq_false. exfalso. apply Hu. by apply Ht.
Qed.

(** The exceptions of [tree()] on the tree of a run. *)
Lemma tree_of_run_cases errs warns r :
  cuecheck w filename = Return (errs, warns, r) ->
  (tree str_time None r = Raise AttributeError <->
   exists x, x ∈ nodes r /\ key x = Some REM /\
             forall rest, rest <> "" -> line x <> "REM " +:+ rest) /\
  (forall e, tree str_time None r = Raise e -> e = AttributeError) /\
  ((exists s, tree str_time None r = Return s) \/
   tree str_time None r = Raise AttributeError).
Proof.
  intros H.
  destruct (tree_cases str_time r None (keys_below_root _ _ _ H)) as [T1 T2].
  destruct (existsb untagged (nodes r)) eqn:E.
  - pose proof (T1 eq_refl) as T. clear T1 T2.
    apply existsb_exists in E as (x & Hx%list_elem_of_In & Hu).
    assert (Hk : key x = Some REM).
    { apply andb_prop in Hu as [Hk _]. by apply bool_decide_eq_true in Hk. }
    destruct (rem_node_untagged _ _ _ _ H Hx Hk) as [U1 _].
    destruct (U1 Hu) as (Hn & _).
    split; [|split; [|by right]].
    + split; [|done]. intros _. by exists x.
    + intros e He'. congruence.
  - destruct (T2 eq_refl) as [s T]. clear T1 T2.
    split; [|split; [|left; by exists s]].
    + split; [congruence|]. intros (x & Hx & Hk & Hn). exfalso.
      destruct (untagged x) eqn:Hu.
      * assert (existsb untagged (nodes r) = true); [|congruence].
        apply existsb_exists. exists x. by rewrite <- list_elem_of_In.
      * destruct (rem_node_untagged _ _ _ _ H Hx Hk) as [_ U2].
        destruct (U2 Hu) as (rest & Hne & Hl). by destruct (Hn rest).
    + intros e He. congruence.
Qed.

(** X16.  The text of the tree of a run.  For the tree of a run that returns,
    [tree()] raises [AttributeError] exactly when the tree has a REM node
    whose line is not [REM], one space and at least one more character:
    the syntax pass has recorded [command syntax error] for such a line and
    has not set the tag that [__str__] reads.  Otherwise [tree()] returns a
    text.  No other exception is raised. *)
Theorem tree_raises_on_untagged_rem (errs warns : cueSynerrList.t) (r : CMD) :
  cuecheck w filename = Return (errs, warns, r) ->
  (tree str_time None r = Raise AttributeError <->
   exists x, x ∈ nodes r /\ key x = Some REM /\
             forall rest, rest <> "" -> line x <> "REM " +:+ rest) /\
  ((exists s, tree str_time None r = Return s) <->
   forall x, x ∈ nodes r -> key x = Some REM ->
             exists rest, rest <> "" /\ line x = "REM " +:+ rest) /\
  (forall e, tree str_time None r = Raise e -> e = AttributeError) /\
  (forall x, x ∈ nodes r -> key x = Some REM ->
     (forall rest, rest <> "" -> line x <> "REM " +:+ rest) ->
     tag x = None /\ recorded errs (linenum x) CommandSyntaxError).
Proof.
  intros H. destruct (tree_of_run_cases _ _ _ H) as (T1 & T3 & D).
  split; [exact T1|]. split; [|split; [exact T3|]].
  - split.
    + intros [s Hs] x Hx Hk. destruct (rem_node_untagged _ _ _ _ H Hx Hk) as [U1 U2].
      destruct (untagged x) eqn:Hu; [|by apply U2].
      destruct (U1 eq_refl) as (Hn & _).
      assert (tree str_time None r = Raise AttributeError); [|congruence].
      apply T1. by exists x.
    + intros A. destruct D as [D|D]; [done|].
      apply T1 in D as (x & Hx & Hk & Hn).
      destruct (A x Hx Hk) as (rest & Hne & Hl). by destruct (Hn rest).
  - intros x Hx Hk Hn. destruct (rem_node_untagged _ _ _ _ H Hx Hk) as [U1 U2].
    destruct (untagged x) eqn:Hu.
    + by destruct (U1 eq_refl) as (_ & ? & ?).
    + destruct (U2 eq_refl) as (rest & Hne & Hl). by destruct (Hn rest).
Qed.

End TreeOfRun.

(** A document with a REM line that has nothing behind the keyword. *)
Definition bare_remark : world :=
  world_of (document [ "REM"; "TITLE " +:+ q "Album" ]).

Lemma tree_raises_on_untagged_rem_witness :
  tree (fun _ => "") None (tree_of (run_on bare_remark)) = Raise AttributeError /\
  recorded (errors_of (run_on bare_remark)) 1 CommandSyntaxError.
Proof.
  destruct (tree_raises_on_untagged_rem bare_remark "disc.cue" (fun _ => "") _ _ _
              (run_on_parts bare_remark eq_refl)) as (T & _ & _ & E).
  assert (Hx : node_number bare_remark 1 ∈ nodes (tree_of (run_on bare_remark))).
  { vm_compute. do 2 constructor. }
  assert (Hn : forall rest, rest <> "" -> line (node_number bare_remark 1) <> "REM " +:+ rest).
  { intros rest _ Hl. vm_compute in Hl. discriminate Hl. }
  split.
  - apply T. exists (node_number bare_remark 1). split; [exact Hx|]. split; [reflexivity|].
    exact Hn.
  - exact (proj2 (E _ Hx eq_refl Hn)).
Defined.

(* ================================================================= *)
(** ** The texts of the diagnostics and the program [main] *)

Section Main.

Variable w : world.

(** [str] on the value of a time field. *)
Variable str_time : float -> string.

(** [str(e)] for a [cueSyntaxError]. *)
Definition cueSyntaxError_str (e : cueSyntaxError.t) : string :=
  let s := "line " +:+ Py.str_int (Z.of_nat (cueSyntaxError.line_num e)) +:+ ": " in
  let sm :=
    fold_left (fun sm i => sm +:+ Py.spaces (String.length s) +:+ msg_text str_time i
                              +:+ newline)
              (cueSyntaxError.message e) "" in
  s +:+ Py.strip sm +:+ newline +:+ "  -->" +:+ cueSyntaxError.line e.

(** [str(l)] for a [cueSynerrList]. *)
Definition cueSynerrList_str (l : cueSynerrList.t) : string :=
  fold_left (fun s i => s +:+ cueSyntaxError_str i +:+ newline) l "".

(** The message of a [cuecheckError], and [str(e)]. *)
Definition fatal_text (m : fatal) : string :=
  match m with
  | NotCue => "is not cue."
  | NotExists => "is not exists."
  | DecodeError => "Decode Error"
  | ParentErrorAt e => cueSyntaxError_str e
  end.

Definition cuecheckError_str (filename : string) (m : fatal) : string :=
  String Py.dquote filename +:+ String Py.dquote " " +:+ fatal_text m.

(** What [print] writes: one text for each call, without the line end that
    [print] adds, on the standard output or on the standard error. *)
Inductive output : Type :=
  | Stdout (s : string)
  | Stderr (s : string).

(** The flags [-p] and [-w]. *)
Variable print_flag : bool.
Variable warn_flag : bool.

(** The body of the loop of the program for the file [arg]: what it
    writes, and the exception that leaves the loop, if one does.  Only a
    [cuecheckError] is caught. *)
Definition report (arg : string) : list output * option exn :=
  match cuecheck w arg with
  | Return (err, warn, root) =>
      let o1 :=
        if (0 <? cueSynerrList.len err)%nat
        then [Stdout ("ERROR: " +:+ arg); Stdout (cueSynerrList_str err)]
        else [] in
      let o2 :=
        if warn_flag && (0 <? cueSynerrList.len warn)%nat
        then [Stdout ("WARN: " +:+ arg); Stdout (cueSynerrList_str warn)]
        else [] in
      if print_flag then
        match tree str_time None root with
        | Return t => (o1 ++ o2 ++ [Stdout t], None)
        | Raise (cuecheckError f m) =>
            (o1 ++ o2 ++ [Stderr (cuecheckError_str f m)], None)
        | Raise e => (o1 ++ o2, Some e)
        end
      else (o1 ++ o2, None)
  | Raise (cuecheckError f m) => ([Stderr (cuecheckError_str f m)], None)
  | Raise e => ([], Some e)
  end.

(** [for arg in args.filename]. *)
Fixpoint main (args : list string) : list output * option exn :=
  match args with
  | [] => ([], None)
  | arg :: rest =>
      match report arg with
      | (o, Some e) => (o, Some e)
      | (o, None) => let (o', e') := main rest in (o ++ o', e')
      end
  end.

End Main.

Section MainFacts.

Variable w : world.
Variable str_time : float -> string.
Variable print_flag : bool.
Variable warn_flag : bool.

Local Abbreviation report_of := (report w str_time print_flag warn_flag).
Local Abbreviation main_of := (main w str_time print_flag warn_flag).

(** What the program writes for the files [l] when none of them ends it. *)
Definition outputs (l : list string) : list output :=
  flat_map (fun g => fst (report_of g)) l.

Lemma main_app l1 l2 :
  main_of (l1 ++ l2)
  = match main_of l1 with
    | (o, Some e) => (o, Some e)
    | (o, None) => let (o', e') := main_of l2 in (o ++ o', e')
    end.
Proof.
  induction l1 as [|a l1 IH]; simpl.
  - by destruct (main_of l2).
  - destruct (report_of a) as [o [e|]]; [done|]. rewrite IH.
    destruct (main_of l1) as [o1 [e1|]]; [done|].
    destruct (main_of l2) as [o2 e2]. by rewrite app_assoc.
Qed.

Lemma main_no_crash l :
  (forall g, g ∈ l -> snd (report_of g) = None) -> main_of l = (outputs l, None).
Proof.
  induction l as [|a l IH]; intros H; [done|]. simpl.
  pose proof (H a ltac:(left)) as Ha. destruct (report_of a) as [o [e|]]; [done|].
  rewrite IH; [done|]. intros g Hg. apply H. by right.
Qed.


Lemma cuecheck_early (f : string) :
  splitext_ext f = ".cue" -> isfile w f = true ->
  (read w f = Unreadable -> cuecheck w f = Raise OSError) /\
  (forall text, read w f = Text text -> Py.splitlines text = [] ->
                cuecheck w f = Raise IndexError).
Proof.
  intros He Hf. unfold cuecheck. rewrite Hf.
  destruct (String.eqb_spec (splitext_ext f) ".cue"); [|done]. simpl.
  split; [by intros ->|]. intros text -> ->. done.
Qed.

(** X18.  The exceptions that end the program.  The report on a file ends
    the program exactly in three cases: with [OSError], when the file has
    the extension .cue and exists but cannot be opened or read; with
    [IndexError], when it has the extension .cue, exists, decodes and has
    no line at all; and with [AttributeError], when the flag [-p] is set,
    the run on the file returns and its tree has a REM node whose line is
    not [REM], one space and at least one more character.  In every other
    case the loop goes on to the next file; the fatal errors of [cuecheck]
    are written to the standard error and do not end the program. *)
Theorem report_crash_exact (f : string) (e : exn) :
  (snd (report_of f) = Some e <->
   (e = OSError /\ splitext_ext f = ".cue" /\ isfile w f = true /\
    read w f = Unreadable) \/
   (e = IndexError /\ splitext_ext f = ".cue" /\ isfile w f = true /\
    exists text, read w f = Text text /\ Py.splitlines text = []) \/
   (e = AttributeError /\ print_flag = true /\
    exists errs warns r, cuecheck w f = Return (errs, warns, r) /\
      exists x, x ∈ nodes r /\ key x = Some REM /\
                forall rest, rest <> "" -> line x <> "REM " +:+ rest)) /\
  (forall m, cuecheck w f = Raise (cuecheckError f m) ->
             report_of f = ([Stderr (cuecheckError_str str_time f m)], None)).
Proof.
  split; [|intros m E; unfold report; by rewrite E].
  assert (A1 : e = OSError /\ splitext_ext f = ".cue" /\ isfile w f = true /\
               read w f = Unreadable ->
               e = OSError /\ cuecheck w f = Raise OSError).
  { intros (-> & He & Hf & Hr). split; [done|]. by apply cuecheck_early. }
  assert (A2 : e = IndexError /\ splitext_ext f = ".cue" /\ isfile w f = true /\
               (exists text, read w f = Text text /\ Py.splitlines text = []) ->
               e = IndexError /\ cuecheck w f = Raise IndexError).
  { intros (-> & He & Hf & text & Hr & Hd). split; [done|].
    by apply (cuecheck_early f He Hf) with text. }
  unfold report.
  destruct (cuecheck_outcome w f)
    as [He E|He Hf E|He Hf Hr E|He Hf Hr E|text He Hf Hr Hd E|
        text j raw He Hf Hr Hj Ho Hfirst E|text errs warns r He Hf Hr Hd R E];
    rewrite E; simpl.
  - split; [done|].
    intros [D|[D|D]];
      [apply A1 in D as [_ D] | apply A2 in D as [_ D]
      | destruct D as (_ & _ & ? & ? & ? & D & _)]; congruence.
  - split; [done|].
    intros [D|[D|D]];
      [apply A1 in D as [_ D] | apply A2 in D as [_ D]
      | destruct D as (_ & _ & ? & ? & ? & D & _)]; congruence.
  - split; [done|].
    intros [D|[D|D]];
      [apply A1 in D as [_ D] | apply A2 in D as [_ D]
      | destruct D as (_ & _ & ? & ? & ? & D & _)]; congruence.
  - split.
    + intros [= <-]. by left.
    + intros [D|[D|D]];
        [apply A1 in D as [-> _]; done | apply A2 in D as [_ D]
        | destruct D as (_ & _ & ? & ? & ? & D & _)]; congruence.
  - split.
    + intros [= <-]. right. left. eauto 8.
    + intros [D|[D|D]];
        [apply A1 in D as [_ D] | apply A2 in D as [-> _]; done
        | destruct D as (_ & _ & ? & ? & ? & D & _)]; congruence.
  - split; [done|].
    intros [D|[D|D]];
      [apply A1 in D as [_ D] | apply A2 in D as [_ D]
      | destruct D as (_ & _ & ? & ? & ? & D & _)]; congruence.
  - destruct (tree_of_run_cases w f str_time errs warns r E)
      as (T1 & T3 & _).
    destruct print_flag.
    + destruct (tree str_time None r) as [e'|t] eqn:Ht.
      * pose proof (T3 e' eq_refl) as ->. split.
        -- intros [= <-]. right. right. split; [done|]. split; [done|].
           exists errs, warns, r. split; [done|]. by apply T1.
        -- intros [D|[D|D]];
             [apply A1 in D as [_ D]; congruence | apply A2 in D as [_ D]; congruence|].
           by destruct D as (-> & _).
      * split; [done|].
        intros [D|[D|D]];
          [apply A1 in D as [_ D]; congruence | apply A2 in D as [_ D]; congruence|].
        destruct D as (_ & _ & errs' & warns' & r' & E' & Hx).
        assert (r' = r) as -> by congruence. apply T1 in Hx. congruence.
    + split; [done|].
      intros [D|[D|D]];
        [apply A1 in D as [_ D]; congruence | apply A2 in D as [_ D]; congruence|].
      by destruct D as (_ & ? & _).
Qed.

End MainFacts.

(** An empty document. *)
Definition disc_empty : world := world_of "".


Lemma report_crash_exact_witness :
  exists errs warns r,
    cuecheck bare_remark "disc.cue" = Return (errs, warns, r) /\
    exists x, x ∈ nodes r /\ key x = Some REM /\
              forall rest, rest <> "" -> line x <> "REM " +:+ rest.
Proof.
  destruct (report_crash_exact bare_remark (fun _ => "") true false "disc.cue"
              AttributeError) as [[C _] _].
  assert (E : snd (report bare_remark (fun _ => "") true false "disc.cue")
              = Some AttributeError) by (vm_compute; reflexivity).
  destruct (C E) as [(E' & _)|[(E' & _)|(_ & _ & H)]];
    [discriminate E' | discriminate E' | exact H].
Defined.


(* ================================================================= *)
(** ** The parent of a node: the open node of its level *)

(** The links of a tree: for every node and each of its children, the line
    number and the key of the node and the line number of the child. *)
Fixpoint links (t : CMD) : list (nat * option keyword * nat) :=
  let 'mkCMD n k _ _ _ cs := t in
  map (fun x => (n, k, linenum x)) cs ++ flat_map links cs.

Lemma links_unfold t :
  links t = map (fun x => (linenum t, key t, linenum x)) (children t)
            ++ flat_map links (children t).
Proof. by destruct t. Qed.

Lemma elem_of_links : forall t p x,
  p ∈ nodes t -> x ∈ children p -> (linenum p, key p, linenum x) ∈ links t.
Proof.
  induction t as [n k l i a cs IH] using CMD_induction. intros p x Hp Hx.
  rewrite links_unfold. cbn [nodes] in Hp. apply elem_of_cons in Hp as [->|Hp].
  - apply elem_of_app. left. apply list_elem_of_fmap. by exists x.
  - apply elem_of_app. right. apply elem_of_flat_map in Hp as (c & Hc & Hp).
    apply elem_of_flat_map. exists c. split; [done|].
    rewrite Forall_forall in IH. by apply IH.
Qed.

Lemma linenum_append_child p c t : linenum (append_child p c t) = linenum t.
Proof. destruct t, p; reflexivity. Qed.

(** Appending a child adds one link, and the links of the child. *)
Lemma links_append_child p c : forall t y,
  node_at p t = Some y ->
  links (append_child p c t) ≡ₚ links t ++ (linenum y, key y, linenum c) :: links c.
Proof.
  induction p as [|j p IH]; intros [n k l i a cs] y H.
  - injection H as <-. cbn [append_child links linenum key].
    rewrite map_app, flat_map_app'. cbn [map flat_map]. rewrite app_nil_r.
    solve_Permutation.
  - simpl in H. destruct (cs !! j) as [cj|] eqn:Hj; [|done].
    destruct (lookup_split _ _ _ Hj) as (l1 & l2 & -> & <-).
    cbn [append_child]. rewrite alter_middle. cbn [links].
    rewrite !map_app, !flat_map_app'. cbn [map flat_map].
    rewrite linenum_append_child, (IH _ _ H). solve_Permutation.
Qed.

(** The line number and the key of a node of the tree with a new leaf are
    those of a node of the tree, or those of the leaf. *)
Lemma nodes_append_child p c t y z :
  node_at p t = Some y -> children c = [] ->
  z ∈ nodes (append_child p c t) ->
  (exists z0, z0 ∈ nodes t /\ linenum z0 = linenum z /\ key z0 = key z) \/
  (linenum z = linenum c /\ key z = key c).
Proof.
  intros Hy Hc Hz.
  assert (H : header z ∈ headers (append_child p c t)).
  { unfold headers. apply list_elem_of_In, in_map, list_elem_of_In, Hz. }
  rewrite (headers_append_child _ _ _ _ Hy) in H. apply elem_of_app in H as [H|H].
  - left. unfold headers in H. apply list_elem_of_In, in_map_iff in H as (z0 & E & H0).
    exists z0. unfold header in E. injection E as E1 E2 _ _ _.
    split; [by apply list_elem_of_In | done].
  - right. unfold headers in H. rewrite nodes_children, Hc in H. cbn in H.
    apply list_elem_of_singleton in H. unfold header in H. by injection H as -> -> _ _ _.
Qed.

(** A node that a path reached is reached by it in the tree with a new
    leaf, with its line number and its key. *)
Lemma node_at_append_child_same q p c : forall t y,
  node_at q t = Some y ->
  exists y', node_at q (append_child p c t) = Some y'
             /\ linenum y' = linenum y /\ key y' = key y.
Proof.
  revert p. induction q as [|j q IH]; intros p [n k l i a cs] y H.
  - injection H as <-. exists (append_child p c (mkCMD n k l i a cs)).
    split; [done|]. split; [apply linenum_append_child | apply key_append_child].
  - simpl in H. destruct (cs !! j) as [cj|] eqn:Hj; [|done].
    destruct p as [|j' p]; cbn [append_child node_at children].
    + rewrite lookup_app_l by (by eapply lookup_lt_Some). rewrite Hj.
      exists y. done.
    + destruct (decide (j' = j)) as [->|N].
      * rewrite list_lookup_alter_eq, Hj. simpl. by apply IH.
      * rewrite list_lookup_alter_ne by done. rewrite Hj. exists y. done.
Qed.

(** What the tree builder keeps: line numbers are bounded by the number of
    lines read, only the root has no key, every node is under the node
    with the key of its parent that was made last before it, and every open
    ancestor is the node of its key that was made last. *)
Record parent_inv (i : nat) (b : builder) : Prop := mkParent {
  par_bound : forall z, z ∈ nodes (root b) -> linenum z <= i;
  par_root : forall z, z ∈ nodes (root b) -> key z = None -> linenum z = 0;
  par_links : forall a k c,
    (a, k, c) ∈ links (root b) ->
    a < c /\ c <= i /\
    forall z, z ∈ nodes (root b) -> key z = k -> linenum z < c -> linenum z <= a;
  par_open : forall lv p,
    current b !! lv = Some (Some p) ->
    lv < 3 /\
    exists y, node_at p (root b) = Some y /\ key y = level_key (2 * lv) /\
              forall z, z ∈ nodes (root b) -> key z = key y -> linenum z <= linenum y
}.

Lemma parent_mono i i' b : parent_inv i b -> i <= i' -> parent_inv i' b.
Proof.
  intros [B R L O] Hi. split; [|done| |done].
  - intros z Hz. specialize (B z Hz). lia.
  - intros a k c H. destruct (L a k c H) as (L1 & L2 & L3). split; [done|]. split; [lia|done].
Qed.

Section Parents.

Variable w : world.
Variable filename : string.

Lemma parent_start : parent_inv 0 (start w filename).
Proof.
  split; simpl.
  - intros z ->%list_elem_of_singleton. done.
  - intros z ->%list_elem_of_singleton. done.
  - intros a k c H. by apply elem_of_nil in H.
  - intros [|[|[|[|lv]]]] p; simpl; try done. intros [= <-]. split; [lia|].
    eexists. split; [done|]. split; [done|].
    intros z ->%list_elem_of_singleton. done.
Qed.

Lemma parent_place i k raw b p :
  parent_inv i b ->
  current b !! (depth_of k raw / 2) = Some (Some p) ->
  parent_inv (S i)
    (mkBuilder (append_child p (new_node i k raw) (root b))
       (current_after k (p ++ [next_child p (root b)]) (current b))).
Proof.
  intros [B R L O] Hp. destruct (O _ _ Hp) as (Hlv & y & Hy & Hky & Hmax).
  assert (Hc : children (new_node i k raw) = []) by done.
  assert (Hn : linenum (new_node i k raw) = i + 1) by done.
  assert (Hk : key (new_node i k raw) = Some k) by done.
  assert (Hhere : node_at (p ++ [next_child p (root b)])
                    (append_child p (new_node i k raw) (root b))
                  = Some (new_node i k raw)).
  { unfold next_child. rewrite Hy. by apply node_at_append_child_new. }
  generalize dependent (new_node i k raw). intros c Hc Hn Hk Hhere.
  assert (N : forall z, z ∈ nodes (append_child p c (root b)) ->
            (exists z0, z0 ∈ nodes (root b) /\ linenum z0 = linenum z /\ key z0 = key z) \/
            (linenum z = i + 1 /\ key z = Some k)).
  { intros z Hz. destruct (nodes_append_child _ _ _ _ _ Hy Hc Hz) as [?|[? ?]]; [by left|].
    right. split; congruence. }
  assert (B' : forall z, z ∈ nodes (append_child p c (root b)) -> linenum z <= S i).
  { intros z Hz. destruct (N z Hz) as [(z0 & H0 & <- & _)|[-> _]]; [|lia].
    specialize (B z0 H0). lia. }
  assert (Hold : forall lv q, current b !! lv = Some (Some q) ->
            level_key (2 * lv) <> Some k ->
            lv < 3 /\
            exists y', node_at q (append_child p c (root b)) = Some y' /\
              key y' = level_key (2 * lv) /\
              forall z, z ∈ nodes (append_child p c (root b)) -> key z = key y' ->
                        linenum z <= linenum y').
  { intros lv q Hq Hne. destruct (O _ _ Hq) as (Hlt & y0 & Hy0 & Hk0 & Hm0).
    split; [done|].
    destruct (node_at_append_child_same q p c _ _ Hy0) as (y' & Hy' & El & Ek).
    exists y'. split; [done|]. split; [congruence|]. intros z Hz Hkz.
    destruct (N z Hz) as [(z0 & H0 & <- & E0)|[_ E0]].
    - rewrite El. apply Hm0; [done|]. congruence.
    - exfalso. apply Hne. congruence. }
  split; cbn [root current].
  - exact B'.
  - intros z Hz Hkz. destruct (N z Hz) as [(z0 & H0 & <- & E0)|[_ E0]]; [|congruence].
    apply R; [done | congruence].
  - intros a k0 c0 H. rewrite (links_append_child _ _ _ _ Hy) in H.
    rewrite (links_unfold c), Hc in H. cbn [map flat_map app] in H.
    apply elem_of_app in H as [H|H].
    + destruct (L _ _ _ H) as (L1 & L2 & L3). split; [done|]. split; [lia|].
      intros z Hz Hkz Hlt. destruct (N z Hz) as [(z0 & H0 & El & E0)|[E0 _]]; [|lia].
      rewrite <- El in *. apply L3; [done | congruence | lia].
    + apply list_elem_of_singleton in H. injection H as -> -> ->.
      specialize (B y (node_at_nodes _ _ _ Hy)). split; [lia|]. split; [lia|].
      intros z Hz Hkz Hlt. destruct (N z Hz) as [(z0 & H0 & El & E0)|[E0 _]]; [|lia].
      rewrite <- El. apply Hmax; [done | congruence].
  - assert (Hnew : forall z, z ∈ nodes (append_child p c (root b)) -> key z = key c ->
                     linenum z <= linenum c).
    { intros z Hz _. rewrite Hn. specialize (B' z Hz). lia. }
    intros lv q. destruct k; cbn [current_after].
    all: try (intros Hq; destruct (O _ _ Hq) as [Hlt _]; apply Hold; [done|];
              destruct lv as [|[|[|lv]]]; [done | done | done | lia]).
    + intros [(<- & [= <-] & _)|(Hne & Hq)]%list_lookup_insert_Some.
      * split; [lia|]. exists c. split; [done|]. split; [by rewrite Hk | done].
      * destruct (O _ _ Hq) as [Hlt _]. apply Hold; [done|].
        destruct lv as [|[|[|lv]]]; [done | done | done | lia].
    + intros [(<- & [= <-] & _)|(Hne & Hq)]%list_lookup_insert_Some.
      * split; [lia|]. exists c. split; [done|]. split; [by rewrite Hk | done].
      * destruct (O _ _ Hq) as [Hlt _]. apply Hold; [done|].
        destruct lv as [|[|[|lv]]]; [done | done | done | lia].
Qed.

Lemma build_parent d : forall i b st b' st',
  parent_inv i b -> build filename i d b st = Return (b', st') ->
  parent_inv (i + length d) b'.
Proof.
  induction d as [|raw d IH]; intros i b st b' st' I H; simpl in H.
  - injection H as <- _. simpl. by rewrite Nat.add_0_r.
  - apply bind_Return in H as (b1 & s1 & H1 & H2).
    simpl. replace (i + S (length d)) with (S i + length d) by lia.
    apply (IH (S i) b1 s1 b' st'); [|done].
    destruct (classify_cases _ _ _ _ _ _ _ H1) as [->|(k & p & Hp & ->)].
    + apply (parent_mono i); [done | lia].
    + by apply parent_place.
Qed.

(** In the tree a run returns, a node is made after its parent, and its
    parent is the node with the parent's key that was made last before
    it. *)
Lemma cuecheck_parents errs warns r p x :
  cuecheck w filename = Return (errs, warns, r) ->
  p ∈ nodes r -> x ∈ children p ->
  linenum p < linenum x /\
  forall z, z ∈ nodes r -> key z = key p -> linenum z < linenum x ->
            linenum z <= linenum p.
Proof.
  intros (text & b & s0 & s1 & s2 & s3 & s4 & S)%cuecheck_stages Hp Hx.
  pose proof (build_parent _ _ _ _ _ _ parent_start
                (st_build _ _ _ _ _ _ _ _ _ _ _ _ S)) as [_ _ L _].
  rewrite (checkCmdSyntax_value _ _ _ _ _ _ (st_syntax _ _ _ _ _ _ _ _ _ _ _ _ S)) in *.
  rewrite nodes_set_attrs in Hp. apply list_elem_of_In, in_map_iff in Hp as (p0 & <- & Hp0).
  apply list_elem_of_In in Hp0.
  destruct (set_attrs_fields w filename p0) as (E1 & E2 & _ & _ & E5).
  rewrite E5 in Hx. apply list_elem_of_In, in_map_iff in Hx as (x0 & <- & Hx0).
  apply list_elem_of_In in Hx0.
  destruct (set_attrs_fields w filename x0) as (F1 & _).
  rewrite E1, E2, F1.
  destruct (L _ _ _ (elem_of_links _ _ _ Hp0 Hx0)) as (L1 & _ & L3).
  split; [done|]. intros z Hz Hkz Hlt.
  rewrite nodes_set_attrs in Hz. apply list_elem_of_In, in_map_iff in Hz as (z0 & <- & Hz0).
  apply list_elem_of_In in Hz0.
  destruct (set_attrs_fields w filename z0) as (G1 & G2 & _).
  rewrite G1 in *. rewrite G2 in Hkz. by apply L3.
Qed.

End Parents.

(* ================================================================= *)
(** ** The place of a node, the coerced depth and the outcomes of a run *)

Section Placement.

Variable w : world.
Variable filename : string.

(** The root of the tree of a run is its only node without a key. *)
Lemma root_only_keyless errs warns r p :
  cuecheck w filename = Return (errs, warns, r) ->
  p ∈ nodes r -> key p = None -> p = r.
Proof.
  intros H Hp Hk. destruct (cuecheck_returned _ _ _ _ _ H) as (text & _ & _ & R).
  destruct (returned_placed _ _ _ _ _ _ R) as [Hkr _].
  assert (Hr : r ∈ nodes r) by (destruct r; left).
  apply (cuecheck_node_unique _ _ _ _ _ _ _ H Hp Hr).
  destruct (returned_nodes _ _ _ _ _ _ _ R Hp) as [(-> & _)|(? & ? & ? & _ & _ & _ & ? & _)];
    [|congruence].
  destruct (returned_nodes _ _ _ _ _ _ _ R Hr) as [(-> & _)|(? & ? & ? & _ & _ & _ & ? & _)];
    [done | congruence].
Qed.

(** X19.  The parent of a node is the open node of its level.  In the tree
    of a run that returns, every child [x] of a node [p] has a keyword and
    a depth that the keyword permits; [p] has the key of the level of that
    depth (no key, the root, for depth 0; FILE for depth 2; TRACK for
    depth 4), was made from an earlier line than [x], and is the last node
    with that key made before [x]: no node with the key of [p] has a
    line number between those of [p] and [x].  So a line of depth 4 that
    follows a new FILE line without a TRACK line in between still goes
    under the last TRACK of the FILE before. *)
Theorem parent_is_open_node (errs warns : cueSynerrList.t) (r p x : CMD) :
  cuecheck w filename = Return (errs, warns, r) ->
  p ∈ nodes r -> x ∈ children p ->
  (exists k, key x = Some k /\ indent x ∈ Rule.indent (commands k)) /\
  key p = level_key (indent x) /\
  (indent x = 0 -> p = r) /\
  linenum p < linenum x /\
  (forall z, z ∈ nodes r -> key z = key p -> linenum z < linenum x ->
             linenum z <= linenum p).
Proof.
  intros H Hp Hx. destruct (cuecheck_returned _ _ _ _ _ H) as (text & _ & _ & R).
  destruct (returned_placed _ _ _ _ _ _ R) as [Hkr Hpr].
  pose proof (placed_nodes _ _ Hpr Hp) as [F _]%placed_inv.
  rewrite Forall_forall in F. destruct (F x Hx) as (kc & Hkc & Hind & Hlv).
  destruct (cuecheck_parents _ _ _ _ _ _ _ H Hp Hx) as [Hlt Hmax].
  split; [by exists kc|]. split; [done|]. split; [|done].
  intros Hi. apply (root_only_keyless _ _ _ _ H Hp). by rewrite <- Hlv, Hi.
Qed.


End Placement.


Lemma parent_is_open_node_witness :
  (exists k, key (node_number disc_title 3) = Some k /\
             indent (node_number disc_title 3) ∈ Rule.indent (commands k)) /\
  key (node_number disc_title 2) = level_key (indent (node_number disc_title 3)) /\
  linenum (node_number disc_title 2) < linenum (node_number disc_title 3).
Proof.
  assert (Hp : node_number disc_title 2 ∈ nodes (tree_of (run_on disc_title)))
    by (vm_compute; find_elem).
  assert (Hx : node_number disc_title 3 ∈ children (node_number disc_title 2))
    by (vm_compute; find_elem).
  destruct (parent_is_open_node disc_title "disc.cue" _ _ _ _ _
              (run_on_parts disc_title eq_refl) Hp Hx) as (K & L & _ & T & _).
  split; [exact K|]. split; [exact L | exact T].
Defined.

(* ================================================================= *)
(** ** The ways a run ends *)

(** A file that exists and cannot be opened or read. *)
Definition disc_unreadable : world :=
  mkWorld (fun _ => true) (fun _ _ => true) (fun _ => Unreadable) (fun f => f).

Section Ends.

Variable w : world.
Variable filename : string.


End Ends.



(* ================================================================= *)
(** ** The text of a diagnostic *)

Module StrFacts.

Import Py PyFacts.

(** A text whose first, and whose last, character is not whitespace. *)
Definition starts_black (t : string) : Prop :=
  exists c t', t = String c t' /\ isspace c = false.
Definition ends_black (t : string) : Prop :=
  exists t' c, t = t' +:+ String c "" /\ isspace c = false.

Lemma lstrip_spaces n s : lstrip (spaces n +:+ s) = lstrip s.
Proof. induction n as [|n IH]; [done|]. simpl. exact IH. Qed.

Lemma lstrip_black t s : starts_black t -> lstrip (t +:+ s) = t +:+ s.
Proof. intros (c & t' & -> & Hc). simpl. by rewrite Hc. Qed.

Lemma rstrip_black t : ends_black t -> rstrip t = t.
Proof.
  intros (t' & c & -> & Hc). induction t' as [|c' t' IH].
  - simpl. by rewrite Hc.
  - rewrite app_cons. simpl. rewrite IH. destruct t'; done.
Qed.

Lemma rstrip_nonempty' t : ends_black t -> t <> "".
Proof. intros (t' & c & -> & _). by destruct t'. Qed.

Lemma rstrip_nonempty t : ends_black t -> rstrip t <> "".
Proof. intros H. rewrite rstrip_black by done. by apply rstrip_nonempty'. Qed.

Lemma rstrip_app a b : rstrip b <> "" -> rstrip (a +:+ b) = a +:+ rstrip b.
Proof.
  intros H. induction a as [|c a IH]; [done|]. rewrite !app_cons. simpl. rewrite IH.
  destruct (a +:+ rstrip b) eqn:E; [|done].
  destruct a; [|done]. exfalso. apply H. exact E.
Qed.

Lemma rstrip_newline t : ends_black t -> rstrip (t +:+ newline) = t.
Proof.
  intros (t' & c & -> & Hc). induction t' as [|c' t' IH].
  - simpl. by rewrite Hc.
  - rewrite !app_cons. simpl. rewrite IH. destruct t'; done.
Qed.

Lemma ends_black_app a t : ends_black t -> ends_black (a +:+ t).
Proof. intros (t' & c & -> & Hc). exists (a +:+ t'), c. by rewrite app_assoc. Qed.

End StrFacts.

Section StrTheorems.

Variable str_time : float -> string.

Import Py PyFacts StrFacts.

(** The lines of the messages [ts] behind a header of width [n]: the first
    one as it is, every further one on a line of its own behind [n]
    spaces. *)
Fixpoint message_lines (n : nat) (t : string) (ts : list string) : string :=
  match ts with
  | [] => t
  | t' :: ts' => t +:+ newline +:+ spaces n +:+ message_lines n t' ts'
  end.

(** The texts [l] one behind the other. *)
Definition concat_texts (l : list string) : string :=
  fold_right (fun t r => t +:+ r) "" l.

Lemma fold_messages (f : msg -> string) l : forall acc,
  fold_left (fun sm i => sm +:+ f i) l acc = acc +:+ concat_texts (map f l).
Proof.
  induction l as [|m l IH]; intros acc; simpl; [by rewrite app_empty_r|].
  by rewrite IH, app_assoc.
Qed.

(** The last of the texts [t :: ts]. *)
Fixpoint last_of (t : string) (ts : list string) : string :=
  match ts with
  | [] => t
  | t' :: ts' => last_of t' ts'
  end.

Lemma last_black n ts : forall t,
  ends_black (last_of t ts) -> ends_black (message_lines n t ts).
Proof.
  induction ts as [|t' ts IH]; intros t H; [done|].
  cbn [message_lines]. do 3 apply ends_black_app. by apply IH.
Qed.

Lemma rstrip_lines n ts : forall t,
  ends_black (last_of t ts) ->
  rstrip (t +:+ newline
            +:+ concat_texts (map (fun i => spaces n +:+ i +:+ newline) ts))
  = message_lines n t ts.
Proof.
  induction ts as [|t' ts IH]; intros t H.
  - cbn [map concat_texts fold_right message_lines]. rewrite app_empty_r.
    by apply rstrip_newline.
  - cbn [map message_lines last_of] in *.
    change (concat_texts (?x :: ?l)) with (x +:+ concat_texts l). rewrite !app_assoc.
    rewrite <- (IH t' H).
    rewrite <- !app_assoc. rewrite (app_assoc (t +:+ newline) (spaces n)).
    rewrite !app_assoc. rewrite <- (app_assoc t newline).
    rewrite <- (app_assoc (t +:+ newline) (spaces n)).
    rewrite rstrip_app; [by rewrite !app_assoc|].
    rewrite IH by done. apply rstrip_nonempty'. by apply last_black.
Qed.

Lemma strip_messages n t ts :
  starts_black t -> ends_black (last_of t ts) ->
  strip (concat_texts (map (fun i => spaces n +:+ i +:+ newline) (t :: ts)))
  = message_lines n t ts.
Proof.
  intros Hs He. unfold strip. cbn [map].
  change (concat_texts (?x :: ?l)) with (x +:+ concat_texts l).
  rewrite !app_assoc, lstrip_spaces, lstrip_black by done.
  by apply rstrip_lines.
Qed.

(** The messages whose text is fixed. *)
Definition fixed_text (m : msg) : bool :=
  match m with
  | FileNotFound _ | TrackNumberError _ _ | IndexTimeError _ _ | IndexNumberError _ _ =>
      false
  | _ => true
  end.

Definition starts_blackb (t : string) : bool :=
  match t with
  | String c _ => negb (isspace c)
  | EmptyString => false
  end.

Fixpoint ends_blackb (t : string) : bool :=
  match t with
  | EmptyString => false
  | String c EmptyString => negb (isspace c)
  | String _ t' => ends_blackb t'
  end.

Lemma starts_blackb_spec t : starts_blackb t = true -> starts_black t.
Proof. destruct t as [|c t]; [done|]. intros H%negb_true_iff. by exists c, t. Qed.

Lemma ends_blackb_spec t : ends_blackb t = true -> ends_black t.
Proof.
  induction t as [|c t IH]; [done|]. destruct t as [|c' t].
  - intros H%negb_true_iff. by exists "", c.
  - intros H. destruct (IH H) as (t' & c0 & E & Hc). exists (String c t'), c0.
    by rewrite app_cons, <- E.
Qed.

Lemma fixed_text_black m :
  fixed_text m = true ->
  starts_black (msg_text str_time m) /\ ends_black (msg_text str_time m).
Proof.
  intros H. split; [apply starts_blackb_spec | apply ends_blackb_spec];
    destruct m as [| | | | | |k| | |k| | | | | | | | | | |]; try done; by destruct k.
Qed.

(** The header of the text of a record: [s] before the messages are
    added. *)
Definition str_header (n : nat) : string :=
  "line " +:+ str_int (Z.of_nat n) +:+ ": ".

(** X20.  The text of a diagnostic.  When the text of the first message
    of a record does not start with whitespace and the text of its last
    message does not end with whitespace (as the texts without a file name
    or a number do), [str] of the record is the header [line n: ], the
    first message right behind it, every further message on a line of
    its own behind as many spaces as the header has characters, and then
    a line with two spaces, an arrow and the line of the document: the
    call of [strip] removes the indentation of the first message and the
    line end of the last one. *)
Theorem cueSyntaxError_str_lines (e : cueSyntaxError.t) (m : msg) (ms : list msg) :
  cueSyntaxError.message e = m :: ms ->
  starts_black (msg_text str_time m) ->
  ends_black (last_of (msg_text str_time m) (map (msg_text str_time) ms)) ->
  cueSyntaxError_str str_time e
  = str_header (cueSyntaxError.line_num e)
      +:+ message_lines (String.length (str_header (cueSyntaxError.line_num e)))
            (msg_text str_time m) (map (msg_text str_time) ms)
      +:+ newline +:+ "  -->" +:+ cueSyntaxError.line e.
Proof.
  intros Hm Hs He. unfold cueSyntaxError_str, str_header.
  set (header := "line " +:+ str_int (Z.of_nat (cueSyntaxError.line_num e)) +:+ ": ").
  rewrite Hm.
  rewrite (fold_messages
             (fun i => spaces (String.length header) +:+ msg_text str_time i +:+ newline)).
  rewrite app_empty_l.
  rewrite <- (map_map (msg_text str_time)
                (fun t => spaces (String.length header) +:+ t +:+ newline)).
  change (map (msg_text str_time) (m :: ms))
    with (msg_text str_time m :: map (msg_text str_time) ms).
  by rewrite strip_messages.
Qed.

End StrTheorems.

Lemma cueSyntaxError_str_lines_witness :
  cueSyntaxError_str (fun _ => "")
    (cueSyntaxError.mk 3 "catalog 1" [NotCapital; CommandSyntaxError; OrderError])
  = document [ "line 3: command not is capital";
               "        command syntax error";
               "        command order error" ] +:+ "  -->catalog 1".
Proof.
  rewrite (cueSyntaxError_str_lines (fun _ => "")
             (cueSyntaxError.mk 3 "catalog 1" [NotCapital; CommandSyntaxError; OrderError])
             NotCapital [CommandSyntaxError; OrderError] eq_refl).
  - reflexivity.
  - by apply fixed_text_black.
  - by apply (fixed_text_black (fun _ => "") OrderError).
Defined.

(* ================================================================= *)
(** ** The messages of a line, in the order of their recording *)

Module OrderFacts.

Import cueSyntaxError cueSynerrList.

(** The messages of the records of [l] for line [n], in the order of [l]. *)
Definition messages_at (n : nat) (l : list cueSyntaxError.t) : list msg :=
  flat_map message (filter (fun x => line_num x = n) l).

Lemma messages_at_cons n x l :
  messages_at n (x :: l)
  = (if decide (line_num x = n) then message x else []) ++ messages_at n l.
Proof.
  unfold messages_at. rewrite filter_cons. by destruct (decide (line_num x = n)).
Qed.

Lemma messages_at_app n l1 l2 :
  messages_at n (l1 ++ l2) = messages_at n l1 ++ messages_at n l2.
Proof.
  induction l1 as [|x l1 IH]; [done|]. simpl. rewrite !messages_at_cons, IH.
  by rewrite app_assoc.
Qed.

Lemma messages_at_none n l : n ∉ line_nums l -> messages_at n l = [].
Proof.
  induction l as [|x l IH]; [done|]. unfold line_nums. rewrite fmap_cons.
  intros [H1 H2]%not_elem_of_cons. rewrite messages_at_cons, IH by done.
  by destruct (decide (line_num x = n)).
Qed.

Lemma messages_at_insert n x l :
  line_num x ∉ line_nums l ->
  messages_at n (insert x l)
  = messages_at n l ++ (if decide (line_num x = n) then message x else []).
Proof.
  induction l as [|y l IH]; intros H.
  - simpl. rewrite messages_at_cons. by rewrite app_nil_r.
  - unfold line_nums in H. rewrite fmap_cons in H.
    pose proof H as [H1 H2]%not_elem_of_cons. simpl. destruct (lt x y).
    + rewrite (messages_at_cons n x). destruct (decide (line_num x = n)) as [<-|].
      * rewrite (messages_at_none (line_num x) (y :: l)) by done. by rewrite app_nil_r.
      * by rewrite app_nil_r.
    + rewrite !(messages_at_cons n y), IH by done. by rewrite app_assoc.
Qed.

(** [add] puts the messages of [e] behind the messages of its line. *)
Lemma messages_at_add n l e :
  ascending l ->
  messages_at n (add l e)
  = messages_at n l ++ (if decide (line_num e = n) then message e else []).
Proof.
  intros A. destruct (decide (line_num e ∈ line_nums l)) as [I|N].
  - destruct (add_old _ _ I) as (l1 & x & l2 & -> & Hx & Hn & ->).
    pose proof (ascending_NoDup _ A) as D. unfold line_nums in D.
    rewrite fmap_app, fmap_cons in D. apply NoDup_app in D as (_ & D1 & D2).
    apply NoDup_cons in D2 as [D2 _].
    rewrite !messages_at_app, !messages_at_cons. unfold extend. simpl.
    rewrite Hx. destruct (decide (line_num e = n)) as [<-|].
    + rewrite (messages_at_none (line_num e) l2) by (by rewrite <- Hx).
      by rewrite !app_nil_r, app_assoc.
    + by rewrite !app_nil_r.
  - rewrite add_new by done. by apply messages_at_insert.
Qed.

Lemma messages_at_fold n es : forall acc,
  ascending acc ->
  ascending (fold_left add es acc) /\
  messages_at n (fold_left add es acc) = messages_at n acc ++ messages_at n es.
Proof.
  induction es as [|e es IH]; intros acc A; simpl.
  - split; [done|]. unfold messages_at at 3. simpl. by rewrite app_nil_r.
  - destruct (IH (add acc e) (add_ascending _ _ A)) as [A' E]. split; [done|].
    rewrite E, messages_at_add, messages_at_cons by done. by rewrite app_assoc.
Qed.

Lemma line_nums_add l e n :
  ascending l -> n ∈ line_nums (add l e) <-> n ∈ line_nums l \/ n = line_num e.
Proof.
  intros A. destruct (decide (line_num e ∈ line_nums l)) as [I|N].
  - rewrite add_line_nums_old by done. split; [auto|]. by intros [?| ->].
  - rewrite add_new by done. unfold line_nums. rewrite insert_Permutation, fmap_cons.
    rewrite elem_of_cons. tauto.
Qed.

Lemma line_nums_fold n es : forall acc,
  ascending acc ->
  n ∈ line_nums (fold_left add es acc) <->
  n ∈ line_nums acc \/ exists e, e ∈ es /\ line_num e = n.
Proof.
  induction es as [|e es IH]; intros acc A; simpl.
  - split; [auto|]. intros [?|(e & He & _)]; [done|]. by apply elem_of_nil in He.
  - rewrite IH by (by apply add_ascending). rewrite line_nums_add by done. split.
    + intros [[?| ->]|(e' & He' & <-)]; [by left | right | right].
      * exists e. split; [left | done].
      * exists e'. split; [by right | done].
    + intros [?|(e' & [->|He']%elem_of_cons & <-)]; [by left; left | by left; right |].
      right. by exists e'.
Qed.

Lemma messages_at_own l x :
  ascending l -> x ∈ l -> messages_at (line_num x) l = message x.
Proof.
  intros A Hx. apply list_elem_of_split in Hx as (l1 & l2 & ->).
  pose proof (ascending_NoDup _ A) as D. unfold line_nums in D.
  rewrite fmap_app, fmap_cons in D. apply NoDup_app in D as (_ & D1 & D2).
  apply NoDup_cons in D2 as [D2 _].
  rewrite messages_at_app, messages_at_cons.
  rewrite (messages_at_none _ l1), (messages_at_none _ l2); try done.
  - rewrite decide_True by done. by rewrite app_nil_r.
  - intros I. by apply (D1 (line_num x)); [|left].
Qed.

End OrderFacts.

Section Collector.

Import cueSyntaxError cueSynerrList OrderFacts.

(** X21.  The messages of a line keep the order of their recording.
    After the records [es] were added one by one to an empty list, the list
    has one record for every line number of [es] and no other, and the
    messages of the record of a line are the messages of the records of
    [es] for that line, in the order in which they were added. *)
Theorem add_keeps_recording_order (es : list cueSyntaxError.t) :
  (forall n, n ∈ line_nums (fold_left add es init) <->
             exists e, e ∈ es /\ line_num e = n) /\
  (forall x, x ∈ fold_left add es init ->
             message x = messages_at (line_num x) es) /\
  (forall x y, x ∈ fold_left add es init -> y ∈ fold_left add es init ->
               line_num x = line_num y -> x = y).
Proof.
  assert (A0 : ascending init) by constructor.
  assert (A : ascending (fold_left add es init))
    by (by destruct (messages_at_fold 0 es init A0)).
  split; [|split].
  - intros n. rewrite line_nums_fold by done. split; [|by right].
    intros [H|H]; [|done]. by apply elem_of_nil in H.
  - intros x Hx. rewrite <- (messages_at_own _ x A Hx).
    by destruct (messages_at_fold (line_num x) es init A0) as [_ ->].
  - intros x y Hx Hy E. apply (NoDup_fmap_elem line_num (fold_left add es init) x y); try done.
    by apply ascending_NoDup.
Qed.

End Collector.
